(** * Selas path tracer: surface reconstruction and the VCM kernel

    A shallow embedding of the two translation units held by
    Source/Applications/PathTracer/Source/SurfaceParameters.cpp:
      - the surface reconstruction (lines 1-264: the texture sampling helpers,
        [CalculateSurfaceDifferentials], [CalculateSurfaceParams],
        [OffsetRayOrigin]), and
      - the VCM integrator (lines 265-1050: [OcclusionRay] ...
        [VertexConnectionAndMerging], and the radius schedule of [VCMKernel]
        and [GenerateImage]).
    Line numbers in the comments are those of that file.

    Two more sources are embedded after these: the path tracing integrator
    of GIIntegration.cpp ([RayPick], [EvaluateRayBatch], [CreatePrimaryRay],
    [RayCastImageBlock] and the image loops of [PathTracerKernel] and
    [GenerateImage]) in the module [GIIntegration], and the allocation
    tracker of Source/Core/SystemLib/MemoryAllocationWindows.cpp
    ([CAllocationTracking]) in the module [AllocationTracking].  Threads,
    spin locks, atomics and timers are not modelled: a kernel and a call of
    the tracker are taken alone.

    Numbers.  A C++ [float] is an IEEE-754 binary32 value: [spec_float] with
    24 bits of precision and exponent bound 128, every operation rounded to
    nearest-even (Corelib's executable specification of floating point).
    [uint32]/[uint] values are integers in [Z] with the wrap-around modulo
    2^32 written out; [int] values are integers in [Z].

    Collaborators.  MathLib, TextureLib, the BSDF and IBL modules, the camera,
    Embree, the hash grid and the Mersenne twister are not part of these
    sources.  They are the fields of the classes below, so every statement
    holds for any implementation of them; [Reference] near the end of the file
    gives one executable implementation, used to run the code on examples. *)

From Stdlib Require Import ZArith List Bool Lia Sorted Permutation.
From Stdlib Require Import Floats.SpecFloat.
Import ListNotations.

#[local] Open Scope Z_scope.
#[local] Open Scope bool_scope.

(* ===================================================================== *)
(** ** binary32 arithmetic *)
(* ===================================================================== *)

Definition prec : Z := 24.
Definition emax : Z := 128.

Definition float : Type := spec_float.

Definition fadd : float -> float -> float := SFadd prec emax.
Definition fsub : float -> float -> float := SFsub prec emax.
Definition fmul : float -> float -> float := SFmul prec emax.
Definition fdiv : float -> float -> float := SFdiv prec emax.
Definition fneg : float -> float := SFopp.

(** C++ comparisons: all of them are false on a NaN operand, except [!=]. *)
Definition flt : float -> float -> bool := SFltb.
Definition fle : float -> float -> bool := SFleb.
Definition fgt (a b : float) : bool := SFltb b a.
Definition fge (a b : float) : bool := SFleb b a.
Definition feq : float -> float -> bool := SFeqb.
Definition fne (a b : float) : bool := negb (SFeqb a b).

(** Conversion of an integer ([(float)n], or the implicit conversion of an
    integer operand of a mixed expression). *)
Definition of_int (z : Z) : float := binary_normalize prec emax z 0 false.

(** A decimal literal [num/den], rounded once to binary32. *)
Definition of_decimal (num den : positive) : float :=
  SFdiv prec emax (S754_finite false num 0) (S754_finite false den 0).

Definition f0 : float := S754_zero false.
Definition f1 : float := of_int 1.
Definition f2 : float := of_int 2.

Declare Scope f32_scope.
Delimit Scope f32_scope with f32.
Bind Scope f32_scope with float.
Infix "+" := fadd : f32_scope.
Infix "-" := fsub : f32_scope.
Infix "*" := fmul : f32_scope.
Infix "/" := fdiv : f32_scope.
Notation "- x" := (fneg x) : f32_scope.
Infix "<?" := flt : f32_scope.
Infix "<=?" := fle : f32_scope.
Infix ">?" := fgt : f32_scope.
Infix ">=?" := fge : f32_scope.
Infix "=?" := feq : f32_scope.

(** [uint32] wrap-around. *)
Definition wrap32 (z : Z) : Z := z mod 2 ^ 32.

(* ===================================================================== *)
(** ** Vectors (MathLib/FloatStructs.h: componentwise operators) *)
(* ===================================================================== *)

Record float2 := mkFloat2 { f2x : float; f2y : float }.
Record float3 := mkFloat3 { f3x : float; f3y : float; f3z : float }.
Record float4 := mkFloat4 { f4x : float; f4y : float; f4z : float; f4w : float }.
Record int2 := mkInt2 { i2x : Z; i2y : Z }.
Record float2x2 := mkFloat2x2 { r0 : float2; r1 : float2 }.
Record float3x3 := mkFloat3x3 { m3r0 : float3; m3r1 : float3; m3r2 : float3 }.

Definition float2_Zero : float2 := mkFloat2 f0 f0.
Definition float3_Zero : float3 := mkFloat3 f0 f0 f0.
Definition float3_One : float3 := mkFloat3 f1 f1 f1.
Definition float3_ZAxis : float3 := mkFloat3 f0 f0 f1.

Definition v2add (a b : float2) : float2 :=
  mkFloat2 (f2x a + f2x b)%f32 (f2y a + f2y b)%f32.
Definition v2sub (a b : float2) : float2 :=
  mkFloat2 (f2x a - f2x b)%f32 (f2y a - f2y b)%f32.
Definition v2scale (k : float) (a : float2) : float2 :=
  mkFloat2 (k * f2x a)%f32 (k * f2y a)%f32.

Definition v3add (a b : float3) : float3 :=
  mkFloat3 (f3x a + f3x b)%f32 (f3y a + f3y b)%f32 (f3z a + f3z b)%f32.
Definition v3sub (a b : float3) : float3 :=
  mkFloat3 (f3x a - f3x b)%f32 (f3y a - f3y b)%f32 (f3z a - f3z b)%f32.
Definition v3mul (a b : float3) : float3 :=
  mkFloat3 (f3x a * f3x b)%f32 (f3y a * f3y b)%f32 (f3z a * f3z b)%f32.
(** [k * v] *)
Definition v3scale (k : float) (a : float3) : float3 :=
  mkFloat3 (k * f3x a)%f32 (k * f3y a)%f32 (k * f3z a)%f32.
(** [v * k] *)
Definition v3scaler (a : float3) (k : float) : float3 :=
  mkFloat3 (f3x a * k)%f32 (f3y a * k)%f32 (f3z a * k)%f32.
(** [v - k] *)
Definition v3subs (a : float3) (k : float) : float3 :=
  mkFloat3 (f3x a - k)%f32 (f3y a - k)%f32 (f3z a - k)%f32.
Definition v3neg (a : float3) : float3 :=
  mkFloat3 (- f3x a)%f32 (- f3y a)%f32 (- f3z a)%f32.

(** [v.x == 0 && v.y == 0 && v.z == 0] *)
Definition v3isZero (a : float3) : bool :=
  (f3x a =? f0)%f32 && (f3y a =? f0)%f32 && (f3z a =? f0)%f32.

Declare Scope v3_scope.
Delimit Scope v3_scope with v3.
Bind Scope v3_scope with float3.
Infix "+" := v3add : v3_scope.
Infix "-" := v3sub : v3_scope.
Infix "*" := v3mul : v3_scope.
Infix "*:" := v3scale (at level 40, left associativity) : v3_scope.
Notation "- x" := (v3neg x) : v3_scope.

(* ===================================================================== *)
(** ** Outcomes of a run *)
(* ===================================================================== *)

(** [Fault]: an array was read or written outside its bounds (undefined
    behaviour in C++).  [OutOfFuel]: a loop of the model used up its fuel;
    [VertexConnectionAndMerging_terminates] shows that this never happens. *)
Inductive outcome (A : Type) : Type :=
| Ok (a : A)
| Fault
| OutOfFuel.
Arguments Ok {A} a.
Arguments Fault {A}.
Arguments OutOfFuel {A}.

Definition obind {A B} (c : outcome A) (k : A -> outcome B) : outcome B :=
  match c with
  | Ok a => k a
  | Fault => Fault
  | OutOfFuel => OutOfFuel
  end.

Declare Scope outcome_scope.
Delimit Scope outcome_scope with outcome.
Notation "x <- c ;; k" := (obind c (fun x => k))
  (at level 100, c at next level, right associativity) : outcome_scope.
Notation "' p <- c ;; k" := (obind c (fun p => k))
  (at level 100, p pattern, c at next level, right associativity) : outcome_scope.

(** [a[i]] on an array held as a list. *)
Definition readAt {A} (a : list A) (i : Z) : outcome A :=
  if i <? 0 then Fault
  else match nth_error a (Z.to_nat i) with
       | Some v => Ok v
       | None => Fault
       end.

Fixpoint replaceNth {A} (n : nat) (v : A) (a : list A) : list A :=
  match a, n with
  | [], _ => []
  | _ :: t, O => v :: t
  | h :: t, S n' => h :: replaceNth n' v t
  end.

(** [a[i] = v] *)
Definition writeAt {A} (a : list A) (i : Z) (v : A) : outcome (list A) :=
  if (i <? 0) || (Z.of_nat (length a) <=? i) then Fault
  else Ok (replaceNth (Z.to_nat i) v a).

(* ===================================================================== *)
(** ** Collaborators outside these sources *)
(* ===================================================================== *)

(** MathLib (FloatFuncs.h, FloatStructs.h, ColorSpace.h, CoordinateSystem.h).
    Functions with output parameters take the previous contents of the
    output and return the new ones. *)
Class MathLib := {
  Dot : float3 -> float3 -> float;
  Cross : float3 -> float3 -> float3;
  Normalize : float3 -> float3;
  LengthSquared : float3 -> float;
  Length : float3 -> float;
  Saturate : float -> float;
  Absf : float -> float;
  Sqrtf : float -> float;
  IsInf : float -> bool;
  IsNaN : float -> bool;
  Max : float -> float -> float;
  MakeFloat3x3 : float3 -> float3 -> float3 -> float3x3;
  MatrixTranspose : float3x3 -> float3x3;
  MatrixMultiply : float3 -> float3x3 -> float3;
  MakeOrthogonalCoordinateSystem : float3 -> float3 * float3 -> float3 * float3;
  SolveLinearSystem : float2x2 -> float2 -> float2 -> bool * float2;
  SrgbToLinearPrecise : float -> float;
  SrgbToLinearPrecise3 : float3 -> float3;
  Pi_ : float;
  SmallFloatEpsilon_ : float;
  FloatMax_ : float
}.

(** What the geometry term of a vertex connection relies on: [Math::Absf]
    never returns a value below zero, and [LengthSquared] returns a value
    whose sign bit is clear (or a NaN). *)
Definition signClear (x : float) : Prop :=
  match x with
  | S754_nan => True
  | S754_zero s | S754_infinity s | S754_finite s _ _ => s = false
  end.

Class MathLibLaws `{MathLib} := {
  Absf_not_below_zero : forall x, (Absf x <? f0)%f32 = false;
  LengthSquared_signClear : forall v, signClear (LengthSquared v)
}.

(** SceneLib constants (BasicTypes.h, SceneResource.h). *)
Class SceneLib := {
  InvalidIndex32 : Z;
  eTransparent : Z;
  eHasTextures : Z;
  ePreserveRayDifferentials : Z
}.

(** Opaque data of the collaborators. *)
Class ExternData := {
  TextureData : Type;
  RTCScene : Type;
  IblResource : Type;
  CameraProjection : Type;
  HashGrid : Type;
  MersenneTwister : Type
}.

(** TextureLib/TextureFiltering.h *)
Class TextureFiltering `{ExternData} := {
  TriangleFloat3 : TextureData -> Z -> float2 -> float3;
  TriangleFloat : TextureData -> Z -> float2 -> float;
  EWAFloat3 : TextureData -> float2 -> float2 -> float2 -> float3;
  EWAFloat : TextureData -> float2 -> float2 -> float2 -> float
}.

(* ===================================================================== *)
(** ** Scene and shading data *)
(* ===================================================================== *)

Record VertexAuxiliaryData := mkVertexAuxiliaryData {
  v_px : float; v_py : float; v_pz : float;
  v_nx : float; v_ny : float; v_nz : float;
  v_tx : float; v_ty : float; v_tz : float;
  v_bh : float;
  v_u : float; v_v : float;
  v_materialIndex : Z
}.

Record Material := mkMaterial {
  m_flags : Z;
  m_albedo : float3;
  m_roughness : float;
  m_metalness : float;
  m_ior : float;
  m_shader : Z;
  m_emissiveTextureIndex : Z;
  m_albedoTextureIndex : Z;
  m_specularTextureIndex : Z;
  m_roughnessTextureIndex : Z;
  m_metalnessTextureIndex : Z;
  m_normalTextureIndex : Z
}.

Record TextureResource `{ExternData} := mkTextureResource {
  t_data : TextureData
}.

Record SceneResourceData := mkSceneResourceData {
  indices : list Z;
  vertexData : list VertexAuxiliaryData;
  materials : list Material;
  boundingSphere : float4
}.

Record SceneResource `{ExternData} := mkSceneResource {
  data : SceneResourceData;
  textures : list TextureResource
}.

Record SceneContext `{ExternData} := mkSceneContext {
  scene : SceneResource;
  rtcScene : RTCScene;
  ibl : IblResource
}.

Record RayCastCameraSettings `{ExternData} := mkRayCastCameraSettings {
  cam_position : float3;
  cam_forward : float3;
  cam_imagePlaneDistance : float;
  cam_viewportWidth : float;
  cam_viewportHeight : float;
  cam_projection : CameraProjection
}.

(** The parts of [KernelContext] that a kernel only reads.  The image and the
    twister, which it writes, are in [World] below. *)
Record KernelContext `{ExternData} := mkKernelContext {
  sceneData : SceneContext;
  camera : RayCastCameraSettings;
  imageWidth : Z;
  imageHeight : Z;
  maxPathLength : Z
}.

Record Ray := mkRay {
  ray_origin : float3;
  ray_direction : float3;
  ray_rxOrigin : float3;
  ray_rxDirection : float3;
  ray_ryOrigin : float3;
  ray_ryDirection : float3;
  ray_pixelIndex : Z;
  ray_throughput : float3;
  ray_bounceCount : Z
}.

Record HitParameters := mkHitParameters {
  h_position : float3;
  h_baryCoords : float2;
  h_primId : Z;
  h_error : float;
  h_viewDirection : float3;
  h_rxOrigin : float3;
  h_rxDirection : float3;
  h_ryOrigin : float3;
  h_ryDirection : float3;
  h_pixelIndex : Z;
  h_throughput : float3;
  h_bounceCount : Z
}.

#[local] Set Primitive Projections.

Record SurfaceDifferentials := mkSurfaceDifferentials {
  d_dpdx : float3;
  d_dpdy : float3;
  d_duvdx : float2;
  d_duvdy : float2;
  d_dndu : float3;
  d_dndv : float3
}.

Definition setd_dpdx (v : float3) (d : SurfaceDifferentials) : SurfaceDifferentials :=
  let 'mkSurfaceDifferentials _ py ux uy nu nv := d in mkSurfaceDifferentials v py ux uy nu nv.
Definition setd_dpdy (v : float3) (d : SurfaceDifferentials) : SurfaceDifferentials :=
  let 'mkSurfaceDifferentials px _ ux uy nu nv := d in mkSurfaceDifferentials px v ux uy nu nv.
Definition setd_duvdx (v : float2) (d : SurfaceDifferentials) : SurfaceDifferentials :=
  let 'mkSurfaceDifferentials px py _ uy nu nv := d in mkSurfaceDifferentials px py v uy nu nv.
Definition setd_duvdy (v : float2) (d : SurfaceDifferentials) : SurfaceDifferentials :=
  let 'mkSurfaceDifferentials px py ux _ nu nv := d in mkSurfaceDifferentials px py ux v nu nv.
Definition setd_dndu (v : float3) (d : SurfaceDifferentials) : SurfaceDifferentials :=
  let 'mkSurfaceDifferentials px py ux uy _ nv := d in mkSurfaceDifferentials px py ux uy v nv.
Definition setd_dndv (v : float3) (d : SurfaceDifferentials) : SurfaceDifferentials :=
  let 'mkSurfaceDifferentials px py ux uy nu _ := d in mkSurfaceDifferentials px py ux uy nu v.

Record SurfaceParameters := mkSurfaceParameters {
  s_tangentToWorld : float3x3;
  s_worldToTangent : float3x3;
  s_rxOrigin : float3;
  s_rxDirection : float3;
  s_ryOrigin : float3;
  s_ryDirection : float3;
  s_geometricNormal : float3;
  s_position : float3;
  s_error : float;
  s_materialFlags : Z;
  s_dpdu : float3;
  s_dpdv : float3;
  s_differentials : SurfaceDifferentials;
  s_emissive : float3;
  s_albedo : float3;
  s_specularColor : float3;
  s_roughness : float;
  s_metalness : float;
  s_shader : Z;
  s_ior : float;
  s_perturbedNormal : float3;
  s_view : float3
}.

Definition set_tangentToWorld (v : float3x3) (s : SurfaceParameters) : SurfaceParameters :=
  let 'mkSurfaceParameters _ w2t rxo rxd ryo ryd gn p e mf du dv df em al sp ro me sh io pn vw := s in
  mkSurfaceParameters v w2t rxo rxd ryo ryd gn p e mf du dv df em al sp ro me sh io pn vw.
Definition set_worldToTangent (v : float3x3) (s : SurfaceParameters) : SurfaceParameters :=
  let 'mkSurfaceParameters t2w _ rxo rxd ryo ryd gn p e mf du dv df em al sp ro me sh io pn vw := s in
  mkSurfaceParameters t2w v rxo rxd ryo ryd gn p e mf du dv df em al sp ro me sh io pn vw.
Definition set_rxOrigin (v : float3) (s : SurfaceParameters) : SurfaceParameters :=
  let 'mkSurfaceParameters t2w w2t _ rxd ryo ryd gn p e mf du dv df em al sp ro me sh io pn vw := s in
  mkSurfaceParameters t2w w2t v rxd ryo ryd gn p e mf du dv df em al sp ro me sh io pn vw.
Definition set_rxDirection (v : float3) (s : SurfaceParameters) : SurfaceParameters :=
  let 'mkSurfaceParameters t2w w2t rxo _ ryo ryd gn p e mf du dv df em al sp ro me sh io pn vw := s in
  mkSurfaceParameters t2w w2t rxo v ryo ryd gn p e mf du dv df em al sp ro me sh io pn vw.
Definition set_ryOrigin (v : float3) (s : SurfaceParameters) : SurfaceParameters :=
  let 'mkSurfaceParameters t2w w2t rxo rxd _ ryd gn p e mf du dv df em al sp ro me sh io pn vw := s in
  mkSurfaceParameters t2w w2t rxo rxd v ryd gn p e mf du dv df em al sp ro me sh io pn vw.
Definition set_ryDirection (v : float3) (s : SurfaceParameters) : SurfaceParameters :=
  let 'mkSurfaceParameters t2w w2t rxo rxd ryo _ gn p e mf du dv df em al sp ro me sh io pn vw := s in
  mkSurfaceParameters t2w w2t rxo rxd ryo v gn p e mf du dv df em al sp ro me sh io pn vw.
Definition set_geometricNormal (v : float3) (s : SurfaceParameters) : SurfaceParameters :=
  let 'mkSurfaceParameters t2w w2t rxo rxd ryo ryd _ p e mf du dv df em al sp ro me sh io pn vw := s in
  mkSurfaceParameters t2w w2t rxo rxd ryo ryd v p e mf du dv df em al sp ro me sh io pn vw.
Definition set_position (v : float3) (s : SurfaceParameters) : SurfaceParameters :=
  let 'mkSurfaceParameters t2w w2t rxo rxd ryo ryd gn _ e mf du dv df em al sp ro me sh io pn vw := s in
  mkSurfaceParameters t2w w2t rxo rxd ryo ryd gn v e mf du dv df em al sp ro me sh io pn vw.
Definition set_error (v : float) (s : SurfaceParameters) : SurfaceParameters :=
  let 'mkSurfaceParameters t2w w2t rxo rxd ryo ryd gn p _ mf du dv df em al sp ro me sh io pn vw := s in
  mkSurfaceParameters t2w w2t rxo rxd ryo ryd gn p v mf du dv df em al sp ro me sh io pn vw.
Definition set_materialFlags (v : Z) (s : SurfaceParameters) : SurfaceParameters :=
  let 'mkSurfaceParameters t2w w2t rxo rxd ryo ryd gn p e _ du dv df em al sp ro me sh io pn vw := s in
  mkSurfaceParameters t2w w2t rxo rxd ryo ryd gn p e v du dv df em al sp ro me sh io pn vw.
Definition set_dpdu (v : float3) (s : SurfaceParameters) : SurfaceParameters :=
  let 'mkSurfaceParameters t2w w2t rxo rxd ryo ryd gn p e mf _ dv df em al sp ro me sh io pn vw := s in
  mkSurfaceParameters t2w w2t rxo rxd ryo ryd gn p e mf v dv df em al sp ro me sh io pn vw.
Definition set_dpdv (v : float3) (s : SurfaceParameters) : SurfaceParameters :=
  let 'mkSurfaceParameters t2w w2t rxo rxd ryo ryd gn p e mf du _ df em al sp ro me sh io pn vw := s in
  mkSurfaceParameters t2w w2t rxo rxd ryo ryd gn p e mf du v df em al sp ro me sh io pn vw.
Definition set_differentials (v : SurfaceDifferentials) (s : SurfaceParameters) : SurfaceParameters :=
  let 'mkSurfaceParameters t2w w2t rxo rxd ryo ryd gn p e mf du dv _ em al sp ro me sh io pn vw := s in
  mkSurfaceParameters t2w w2t rxo rxd ryo ryd gn p e mf du dv v em al sp ro me sh io pn vw.
Definition set_emissive (v : float3) (s : SurfaceParameters) : SurfaceParameters :=
  let 'mkSurfaceParameters t2w w2t rxo rxd ryo ryd gn p e mf du dv df _ al sp ro me sh io pn vw := s in
  mkSurfaceParameters t2w w2t rxo rxd ryo ryd gn p e mf du dv df v al sp ro me sh io pn vw.
Definition set_albedo (v : float3) (s : SurfaceParameters) : SurfaceParameters :=
  let 'mkSurfaceParameters t2w w2t rxo rxd ryo ryd gn p e mf du dv df em _ sp ro me sh io pn vw := s in
  mkSurfaceParameters t2w w2t rxo rxd ryo ryd gn p e mf du dv df em v sp ro me sh io pn vw.
Definition set_specularColor (v : float3) (s : SurfaceParameters) : SurfaceParameters :=
  let 'mkSurfaceParameters t2w w2t rxo rxd ryo ryd gn p e mf du dv df em al _ ro me sh io pn vw := s in
  mkSurfaceParameters t2w w2t rxo rxd ryo ryd gn p e mf du dv df em al v ro me sh io pn vw.
Definition set_roughness (v : float) (s : SurfaceParameters) : SurfaceParameters :=
  let 'mkSurfaceParameters t2w w2t rxo rxd ryo ryd gn p e mf du dv df em al sp _ me sh io pn vw := s in
  mkSurfaceParameters t2w w2t rxo rxd ryo ryd gn p e mf du dv df em al sp v me sh io pn vw.
Definition set_metalness (v : float) (s : SurfaceParameters) : SurfaceParameters :=
  let 'mkSurfaceParameters t2w w2t rxo rxd ryo ryd gn p e mf du dv df em al sp ro _ sh io pn vw := s in
  mkSurfaceParameters t2w w2t rxo rxd ryo ryd gn p e mf du dv df em al sp ro v sh io pn vw.
Definition set_shader (v : Z) (s : SurfaceParameters) : SurfaceParameters :=
  let 'mkSurfaceParameters t2w w2t rxo rxd ryo ryd gn p e mf du dv df em al sp ro me _ io pn vw := s in
  mkSurfaceParameters t2w w2t rxo rxd ryo ryd gn p e mf du dv df em al sp ro me v io pn vw.
Definition set_ior (v : float) (s : SurfaceParameters) : SurfaceParameters :=
  let 'mkSurfaceParameters t2w w2t rxo rxd ryo ryd gn p e mf du dv df em al sp ro me sh _ pn vw := s in
  mkSurfaceParameters t2w w2t rxo rxd ryo ryd gn p e mf du dv df em al sp ro me sh v pn vw.
Definition set_perturbedNormal (v : float3) (s : SurfaceParameters) : SurfaceParameters :=
  let 'mkSurfaceParameters t2w w2t rxo rxd ryo ryd gn p e mf du dv df em al sp ro me sh io _ vw := s in
  mkSurfaceParameters t2w w2t rxo rxd ryo ryd gn p e mf du dv df em al sp ro me sh io v vw.

#[local] Unset Primitive Projections.

(* ===================================================================== *)
(** ** The surface reconstruction *)
(* ===================================================================== *)

Section SurfaceReconstruction.
Context {ML : MathLib} {SL : SceneLib} {ED : ExternData} {TF : TextureFiltering}.

#[local] Open Scope outcome_scope.

(** [#define EnableEWA_ false] *)
Definition EnableEWA_ : bool := false.

(** [SurfaceDifferentials()]: value initialisation, every member zero. *)
Definition SurfaceDifferentials_init : SurfaceDifferentials :=
  mkSurfaceDifferentials float3_Zero float3_Zero float2_Zero float2_Zero
                         float3_Zero float3_Zero.

Definition SampleTextureNormal (surface : SurfaceParameters) (scene : SceneResource)
    (uvs : float2) (textureIndex : Z) (hasDifferentials : bool) : outcome float3 :=
  if textureIndex =? InvalidIndex32 then Ok float3_ZAxis
  else
    tex <- readAt (textures scene) textureIndex ;;
    let sample :=
      if EnableEWA_ && hasDifferentials
      then EWAFloat3 (t_data tex) uvs (d_duvdx (s_differentials surface))
                     (d_duvdy (s_differentials surface))
      else TriangleFloat3 (t_data tex) 0 uvs in
    Ok (v3subs (f2 *: sample) f1).

Definition SampleTextureFloat3 (surface : SurfaceParameters) (scene : SceneResource)
    (uvs : float2) (textureIndex : Z) (sRGB hasDifferentials : bool)
    (defaultValue : float3) : outcome float3 :=
  if textureIndex =? InvalidIndex32 then Ok defaultValue
  else
    tex <- readAt (textures scene) textureIndex ;;
    let sample :=
      if EnableEWA_ && hasDifferentials
      then EWAFloat3 (t_data tex) uvs (d_duvdx (s_differentials surface))
                     (d_duvdy (s_differentials surface))
      else TriangleFloat3 (t_data tex) 0 uvs in
    let sample := if sRGB then SrgbToLinearPrecise3 sample else sample in
    Ok sample.

Definition SampleTextureFloat (surface : SurfaceParameters) (scene : SceneResource)
    (uvs : float2) (textureIndex : Z) (sRGB hasDifferentials : bool)
    (defaultValue : float) : outcome float :=
  if textureIndex =? InvalidIndex32 then Ok defaultValue
  else
    tex <- readAt (textures scene) textureIndex ;;
    let sample :=
      if EnableEWA_ && hasDifferentials
      then EWAFloat (t_data tex) uvs (d_duvdx (s_differentials surface))
                    (d_duvdy (s_differentials surface))
      else TriangleFloat (t_data tex) 0 uvs in
    let sample := if sRGB then SrgbToLinearPrecise sample else sample in
    Ok sample.

Definition CalculateSurfaceDifferentials (hit : HitParameters) (n dpdu dpdv : float3)
    (outputs : SurfaceDifferentials) : SurfaceDifferentials :=
  let pos := h_position hit in
  let d := Dot n pos in
  let tx := (- (Dot n (h_rxOrigin hit) - d) / Dot n (h_rxDirection hit))%f32 in
  if IsInf tx || IsNaN tx then SurfaceDifferentials_init
  else
    let px := (h_rxOrigin hit + tx *: h_rxDirection hit)%v3 in
    let ty := (- (Dot n (h_ryOrigin hit) - d) / Dot n (h_ryDirection hit))%f32 in
    if IsInf ty || IsNaN ty then SurfaceDifferentials_init
    else
      let py := (h_ryOrigin hit + ty *: h_ryDirection hit)%v3 in
      let outputs := setd_dpdx (px - pos)%v3 outputs in
      let outputs := setd_dpdy (py - pos)%v3 outputs in
      let '(A, Bx, By) :=
        if (Absf (f3x n) >? Absf (f3y n))%f32 && (Absf (f3x n) >? Absf (f3z n))%f32 then
          (mkFloat2x2 (mkFloat2 (f3y dpdu) (f3y dpdv)) (mkFloat2 (f3z dpdu) (f3z dpdv)),
           mkFloat2 (f3y px - f3y pos)%f32 (f3z px - f3z pos)%f32,
           mkFloat2 (f3y py - f3y pos)%f32 (f3z py - f3z pos)%f32)
        else if (Absf (f3y n) >? Absf (f3z n))%f32 then
          (mkFloat2x2 (mkFloat2 (f3x dpdu) (f3x dpdv)) (mkFloat2 (f3z dpdu) (f3z dpdv)),
           mkFloat2 (f3x px - f3x pos)%f32 (f3z px - f3z pos)%f32,
           mkFloat2 (f3x py - f3x pos)%f32 (f3z py - f3z pos)%f32)
        else
          (mkFloat2x2 (mkFloat2 (f3x dpdu) (f3x dpdv)) (mkFloat2 (f3y dpdu) (f3y dpdv)),
           mkFloat2 (f3x px - f3x pos)%f32 (f3y px - f3y pos)%f32,
           mkFloat2 (f3x py - f3x pos)%f32 (f3y py - f3y pos)%f32) in
      let '(okx, duvdx) := SolveLinearSystem A Bx (d_duvdx outputs) in
      let outputs := setd_duvdx (if okx then duvdx else float2_Zero) outputs in
      let '(oky, duvdy) := SolveLinearSystem A By (d_duvdy outputs) in
      let outputs := setd_duvdy (if oky then duvdy else float2_Zero) outputs in
      outputs.

(** Lines 150-158: the three vertices of the hit triangle and the material
    of the first one. *)
Definition hitTriangle (scene : SceneResource) (hit : HitParameters)
    : outcome (VertexAuxiliaryData * VertexAuxiliaryData * VertexAuxiliaryData * Material) :=
  let primitiveId := h_primId hit in
  i0 <- readAt (indices (data scene)) (wrap32 (3 * primitiveId + 0)) ;;
  i1 <- readAt (indices (data scene)) (wrap32 (3 * primitiveId + 1)) ;;
  i2 <- readAt (indices (data scene)) (wrap32 (3 * primitiveId + 2)) ;;
  v0 <- readAt (vertexData (data scene)) i0 ;;
  v1 <- readAt (vertexData (data scene)) i1 ;;
  v2 <- readAt (vertexData (data scene)) i2 ;;
  material <- readAt (materials (data scene)) (v_materialIndex v0) ;;
  Ok (v0, v1, v2, material).

Definition vertexPosition (v : VertexAuxiliaryData) : float3 :=
  mkFloat3 (v_px v) (v_py v) (v_pz v).
Definition vertexNormal (v : VertexAuxiliaryData) : float3 :=
  mkFloat3 (v_nx v) (v_ny v) (v_nz v).
Definition vertexTangent (v : VertexAuxiliaryData) : float3 :=
  mkFloat3 (v_tx v) (v_ty v) (v_tz v).
(** [Cross(n, t) * v.bh] *)
Definition vertexBitangent (v : VertexAuxiliaryData) : float3 :=
  v3scaler (Cross (vertexNormal v) (vertexTangent v)) (v_bh v).
Definition vertexUV (v : VertexAuxiliaryData) : float2 :=
  mkFloat2 (v_u v) (v_v v).

(** Lines 176-178: the barycentric weights [a0], [a1], [a2]. *)
Definition baryWeight0 (hit : HitParameters) : float :=
  Saturate (f1 - (f2x (h_baryCoords hit) + f2y (h_baryCoords hit)))%f32.
Definition baryWeight1 (hit : HitParameters) : float := f2x (h_baryCoords hit).
Definition baryWeight2 (hit : HitParameters) : float := f2y (h_baryCoords hit).

(** Lines 180-182: the interpolated tangent [t], bitangent [b] and normal
    [n]. *)
Definition hitTangent (v0 v1 v2 : VertexAuxiliaryData) (hit : HitParameters) : float3 :=
  Normalize (baryWeight0 hit *: vertexTangent v0 + baryWeight1 hit *: vertexTangent v1
             + baryWeight2 hit *: vertexTangent v2)%v3.
Definition hitBitangent (v0 v1 v2 : VertexAuxiliaryData) (hit : HitParameters) : float3 :=
  Normalize (baryWeight0 hit *: vertexBitangent v0 + baryWeight1 hit *: vertexBitangent v1
             + baryWeight2 hit *: vertexBitangent v2)%v3.
Definition hitNormal (v0 v1 v2 : VertexAuxiliaryData) (hit : HitParameters) : float3 :=
  Normalize (baryWeight0 hit *: vertexNormal v0 + baryWeight1 hit *: vertexNormal v1
             + baryWeight2 hit *: vertexNormal v2)%v3.

(** Line 240: the interpolated texture coordinates [uvs]. *)
Definition hitUV (v0 v1 v2 : VertexAuxiliaryData) (hit : HitParameters) : float2 :=
  v2add (v2add (v2scale (baryWeight0 hit) (vertexUV v0))
               (v2scale (baryWeight1 hit) (vertexUV v1)))
        (v2scale (baryWeight2 hit) (vertexUV v2)).

(** The test of line 184: the hit is on the inside of a material that is
    not flagged transparent. *)
Definition backfacing (n viewDirection : float3) (flags : Z) : bool :=
  (Dot n viewDirection <? f0)%f32 && (Z.land flags eTransparent =? 0).

(** Line 190 *)
Definition rayHasDifferentials (hit : HitParameters) : bool :=
  fne (f3x (h_rxDirection hit)) (of_int 0) || fne (f3y (h_rxDirection hit)) (of_int 0).

(** Lines 193-203: the tangent frame and what is copied from the hit. *)
Definition surfaceFrame (t b n : float3) (hit : HitParameters) (material : Material)
    (surface : SurfaceParameters) : SurfaceParameters :=
  let surface := set_tangentToWorld (MakeFloat3x3 t n b) surface in
  let surface := set_worldToTangent (MatrixTranspose (s_tangentToWorld surface)) surface in
  let surface := set_rxOrigin (h_rxOrigin hit) surface in
  let surface := set_rxDirection (h_rxDirection hit) surface in
  let surface := set_ryOrigin (h_ryOrigin hit) surface in
  let surface := set_ryDirection (h_ryDirection hit) surface in
  let surface := set_geometricNormal n surface in
  let surface := set_position (h_position hit) surface in
  let surface := set_error (h_error hit) surface in
  let surface := set_materialFlags (m_flags material) surface in
  surface.

(** Lines 208-234: the partial derivatives of the triangle. *)
Definition surfaceDerivatives (v0 v1 v2 : VertexAuxiliaryData)
    (canUseDifferentials preserveDifferentials : bool)
    (surface : SurfaceParameters) : SurfaceParameters :=
  let p0 := vertexPosition v0 in
  let p1 := vertexPosition v1 in
  let p2 := vertexPosition v2 in
  let n0 := vertexNormal v0 in
  let n1 := vertexNormal v1 in
  let n2 := vertexNormal v2 in
  if canUseDifferentials || preserveDifferentials then
    (* Compute deltas for triangle partial derivatives *)
    let duv02 := v2sub (vertexUV v0) (vertexUV v2) in
    let duv12 := v2sub (vertexUV v1) (vertexUV v2) in
    let determinant := (f2x duv02 * f2y duv12 - f2y duv02 * f2x duv12)%f32 in
    let degenerateUV := (Absf determinant <? SmallFloatEpsilon_)%f32 in
    let surface :=
      if negb degenerateUV then
        let edge02 := (p0 - p2)%v3 in
        let edge12 := (p1 - p2)%v3 in
        let dn02 := (n0 - n2)%v3 in
        let dn12 := (n1 - n2)%v3 in
        let invDet := (of_int 1 / determinant)%f32 in
        let surface :=
          set_dpdu (v3scaler (f2y duv12 *: edge02 - f2y duv02 *: edge12)%v3 invDet) surface in
        let surface :=
          set_dpdv (v3scaler ((- f2x duv12)%f32 *: edge02 + f2x duv02 *: edge12)%v3 invDet)
                   surface in
        if preserveDifferentials then
          let surface :=
            set_differentials
              (setd_dndu (v3scaler (f2y duv12 *: dn02 - f2y duv02 *: dn12)%v3 invDet)
                         (s_differentials surface)) surface in
          set_differentials
            (setd_dndv (v3scaler ((- f2x duv12)%f32 *: dn02 + f2x duv02 *: dn12)%v3 invDet)
                       (s_differentials surface)) surface
        else surface
      else surface in
    if degenerateUV
       || (LengthSquared (Cross (s_dpdu surface) (s_dpdv surface)) =? f0)%f32 then
      let '(du, dv) :=
        MakeOrthogonalCoordinateSystem (Normalize (Cross (p2 - p0) (p1 - p0))%v3)
                                       (s_dpdu surface, s_dpdv surface) in
      let surface := set_dpdu du surface in
      let surface := set_dpdv dv surface in
      let surface :=
        set_differentials (setd_dndu float3_Zero (s_differentials surface)) surface in
      set_differentials (setd_dndv float3_Zero (s_differentials surface)) surface
    else surface
  else surface.

(** Lines 241-252: the textured material and the perturbed normal. *)
Definition surfaceMaterial (scene : SceneResource) (material : Material) (uvs : float2)
    (rayHasDifferentials : bool) (t b n : float3)
    (surface : SurfaceParameters) : outcome SurfaceParameters :=
  emissive <- SampleTextureFloat3 surface scene uvs (m_emissiveTextureIndex material)
                                  false rayHasDifferentials float3_Zero ;;
  let surface := set_emissive emissive surface in
  albedoTex <- SampleTextureFloat3 surface scene uvs (m_albedoTextureIndex material)
                                   false rayHasDifferentials float3_One ;;
  let surface := set_albedo (m_albedo material * albedoTex)%v3 surface in
  specular <- SampleTextureFloat3 surface scene uvs (m_specularTextureIndex material)
                                  false rayHasDifferentials (s_albedo surface) ;;
  let surface := set_specularColor specular surface in
  roughnessTex <- SampleTextureFloat surface scene uvs (m_roughnessTextureIndex material)
                                     false rayHasDifferentials f1 ;;
  let surface := set_roughness (m_roughness material * roughnessTex)%f32 surface in
  metalnessTex <- SampleTextureFloat surface scene uvs (m_metalnessTextureIndex material)
                                     false rayHasDifferentials f1 ;;
  let surface := set_metalness (m_metalness material * metalnessTex)%f32 surface in

  let surface := set_shader (m_shader material) surface in
  let surface := set_ior (m_ior material) surface in

  let normalToWorld := MakeFloat3x3 t (- b)%v3 n in
  perturbNormal <- SampleTextureNormal surface scene uvs (m_normalTextureIndex material)
                                       rayHasDifferentials ;;
  Ok (set_perturbedNormal (Normalize (MatrixMultiply perturbNormal normalToWorld)) surface).

(** [bool CalculateSurfaceParams(context, hit, surface)]: the result is the
    returned flag and the contents of [surface] afterwards.  The function
    is the sequence of the blocks above. *)
Definition CalculateSurfaceParams (context : KernelContext) (hit : HitParameters)
    (surface : SurfaceParameters) : outcome (bool * SurfaceParameters) :=
  let scene := scene (sceneData context) in
  ' (v0, v1, v2, material) <- hitTriangle scene hit ;;
  let t := hitTangent v0 v1 v2 hit in
  let b := hitBitangent v0 v1 v2 hit in
  let n := hitNormal v0 v1 v2 hit in

  if backfacing n (h_viewDirection hit) (m_flags material) then
    (* we've hit inside of a non-transparent object *)
    Ok (false, surface)
  else
    let rayHasDifferentials := rayHasDifferentials hit in

    (* Calculate tangent space transforms *)
    let surface := surfaceFrame t b n hit material surface in

    let canUseDifferentials :=
      negb (Z.land (m_flags material) eHasTextures =? 0) && rayHasDifferentials in
    let preserveDifferentials :=
      negb (Z.land (m_flags material) ePreserveRayDifferentials =? 0) && rayHasDifferentials in

    let surface :=
      surfaceDerivatives v0 v1 v2 canUseDifferentials preserveDifferentials surface in

    let surface :=
      if canUseDifferentials then
        set_differentials
          (CalculateSurfaceDifferentials hit (s_geometricNormal surface) (s_dpdu surface)
                                         (s_dpdv surface) (s_differentials surface))
          surface
      else surface in

    let uvs := hitUV v0 v1 v2 hit in
    surface <- surfaceMaterial scene material uvs rayHasDifferentials t b n surface ;;
    Ok (true, surface).

Definition OffsetRayOrigin (surface : SurfaceParameters) (direction : float3)
    (biasScale : float) : float3 :=
  let offsetDirection :=
    if (Dot direction (s_geometricNormal surface) <? f0)%f32 then (- f1)%f32 else f1 in
  let offset :=
    ((offsetDirection * s_error surface * biasScale)%f32 *: s_geometricNormal surface)%v3 in
  (s_position surface + offset)%v3.

End SurfaceReconstruction.

(* ===================================================================== *)
(** ** The VCM integrator: data *)
(* ===================================================================== *)

#[local] Set Primitive Projections.

Record PathState := mkPathState {
  ps_position : float3;
  ps_direction : float3;
  ps_throughput : float3;
  ps_dVCM : float;
  ps_dVC : float;
  ps_dVM : float;
  ps_pathLength : Z;
  ps_isAreaMeasure : Z
}.

Definition set_ps_position (v : float3) (s : PathState) : PathState :=
  let 'mkPathState _ d t a b c l m := s in mkPathState v d t a b c l m.
Definition set_ps_direction (v : float3) (s : PathState) : PathState :=
  let 'mkPathState p _ t a b c l m := s in mkPathState p v t a b c l m.
Definition set_ps_throughput (v : float3) (s : PathState) : PathState :=
  let 'mkPathState p d _ a b c l m := s in mkPathState p d v a b c l m.
Definition set_ps_dVCM (v : float) (s : PathState) : PathState :=
  let 'mkPathState p d t _ b c l m := s in mkPathState p d t v b c l m.
Definition set_ps_dVC (v : float) (s : PathState) : PathState :=
  let 'mkPathState p d t a _ c l m := s in mkPathState p d t a v c l m.
Definition set_ps_dVM (v : float) (s : PathState) : PathState :=
  let 'mkPathState p d t a b _ l m := s in mkPathState p d t a b v l m.
Definition set_ps_pathLength (v : Z) (s : PathState) : PathState :=
  let 'mkPathState p d t a b c _ m := s in mkPathState p d t a b c v m.

#[local] Unset Primitive Projections.

Record VcmVertex := mkVcmVertex {
  vx_throughput : float3;
  vx_pathLength : Z;
  vx_dVCM : float;
  vx_dVC : float;
  vx_dVM : float;
  vx_surface : SurfaceParameters
}.

Record LightEmissionSample := mkLightEmissionSample {
  le_position : float3;
  le_direction : float3;
  le_radiance : float3;
  le_directionPdfA : float;
  le_emissionPdfW : float;
  le_cosThetaLight : float
}.

Record LightDirectSample := mkLightDirectSample {
  ld_direction : float3;
  ld_distance : float;
  ld_radiance : float3;
  ld_directionPdfA : float;
  ld_emissionPdfW : float;
  ld_cosThetaLight : float
}.

Record BsdfSample := mkBsdfSample {
  bs_wi : float3;
  bs_reflectance : float3;
  bs_forwardPdfW : float;
  bs_reversePdfW : float
}.

(** Embree's [RTCRay], [RTCHit] and [RTCRayHit], with the members the code
    sets or reads. *)
Record RTCRay := mkRTCRay {
  org_x : float; org_y : float; org_z : float;
  dir_x : float; dir_y : float; dir_z : float;
  tnear : float;
  tfar : float
}.

Record RTCHit := mkRTCHit {
  geomID : Z;
  primID : Z;
  hit_u : float;
  hit_v : float
}.

Record RTCRayHit := mkRTCRayHit {
  rh_ray : RTCRay;
  rh_hit : RTCHit
}.

(** [#define RTC_INVALID_GEOMETRY_ID ((unsigned int)-1)] *)
Definition RTC_INVALID_GEOMETRY_ID : Z := wrap32 (-1).

(** What a kernel writes: its image and its random number generator. *)
Record World `{ExternData} := mkWorld {
  twister : MersenneTwister;
  imageData : list float3
}.

(** The other modules of the renderer, and Embree.  A function that is given
    the kernel context may draw random numbers: it takes the twister and
    returns it. *)
Class Collaborators `{ExternData} := {
  rtcIntersect1 : RTCScene -> RTCRayHit -> RTCRayHit;
  rtcOccluded1 : RTCScene -> RTCRay -> RTCRay;
  MakeRay : float3 -> float3 -> float3 -> Z -> Z -> Ray;
  (** the overload [OffsetRayOrigin(surface, direction, biasScale, biasDistance&)] *)
  OffsetRayOriginBias : SurfaceParameters -> float3 -> float -> float3 * float;
  EmitIblLightSample : KernelContext -> MersenneTwister -> LightEmissionSample * MersenneTwister;
  DirectIblLightSample : KernelContext -> MersenneTwister -> LightDirectSample * MersenneTwister;
  DirectIblSample :
    KernelContext -> float3 -> MersenneTwister -> (float3 * float * float) * MersenneTwister;
  EvaluateBsdf : SurfaceParameters -> float3 -> float3 -> float3 * float * float;
  SampleBsdfFunction :
    KernelContext -> SurfaceParameters -> float3 -> MersenneTwister ->
    option BsdfSample * MersenneTwister;
  MersenneTwisterFloat : MersenneTwister -> float * MersenneTwister;
  JitteredCameraRay :
    RayCastCameraSettings -> MersenneTwister -> Z -> float -> float -> Ray * MersenneTwister;
  WorldToImage : RayCastCameraSettings -> float3 -> int2;
  BuildHashGrid : HashGrid -> Z -> float -> list float3 -> HashGrid;
  (** the vertex indices [SearchHashGrid] hands to its callback, in order *)
  SearchHashGrid : HashGrid -> list float3 -> float3 -> list Z;
  (** the contents of [SurfaceParameters surface;] before it is assigned *)
  indeterminateSurface : SurfaceParameters
}.

(** Which subpath a hit belongs to. *)
Inductive Subpath := LightPath | CameraPath.

(** A record of one "new hit" update of the MIS quantities.  The events are
    not program state: the loops below collect them so that statements can
    speak about every bounce of a pass. *)
Record HitEvent := mkHitEvent {
  ev_subpath : Subpath;
  ev_before : PathState;
  ev_hit : HitParameters;
  ev_surface : SurfaceParameters;
  ev_after : PathState
}.

(* ===================================================================== *)
(** ** The kernel monad: state [World], outcomes [outcome] *)
(* ===================================================================== *)

Definition M `{ExternData} (A : Type) : Type := World -> outcome (A * World).

Definition ret `{ExternData} {A} (a : A) : M A := fun w => Ok (a, w).

Definition bind `{ExternData} {A B} (c : M A) (k : A -> M B) : M B :=
  fun w => match c w with
           | Ok (a, w') => k a w'
           | Fault => Fault
           | OutOfFuel => OutOfFuel
           end.

Definition lift `{ExternData} {A} (c : outcome A) : M A :=
  fun w => match c with
           | Ok a => Ok (a, w)
           | Fault => Fault
           | OutOfFuel => OutOfFuel
           end.

Definition outOfFuel `{ExternData} {A} : M A := fun _ => OutOfFuel.

(** A collaborator that uses the twister. *)
Definition random `{ExternData} {A}
    (f : MersenneTwister -> A * MersenneTwister) : M A :=
  fun w => let '(a, t) := f (twister w) in Ok (a, mkWorld _ t (imageData w)).

(** [context->imageData[index] = context->imageData[index] + v] *)
Definition addToImage `{ExternData} (index : Z) (v : float3) : M unit :=
  fun w =>
    match readAt (imageData w) index with
    | Ok old =>
        match writeAt (imageData w) index (old + v)%v3 with
        | Ok img => Ok (tt, mkWorld _ (twister w) img)
        | Fault => Fault
        | OutOfFuel => OutOfFuel
        end
    | Fault => Fault
    | OutOfFuel => OutOfFuel
    end.

Declare Scope kernel_scope.
Delimit Scope kernel_scope with kernel.
Notation "x <- c ;; k" := (bind c (fun x => k))
  (at level 100, c at next level, right associativity) : kernel_scope.
Notation "' p <- c ;; k" := (bind c (fun p => k))
  (at level 100, p pattern, c at next level, right associativity) : kernel_scope.
Notation "c ;;; k" := (bind c (fun _ => k))
  (at level 100, right associativity) : kernel_scope.

(** [for (uint i = start; ...; ++i)] with [n] iterations. *)
Fixpoint forRange `{ExternData} {S : Type} (n : nat) (i : Z) (body : Z -> S -> M S) (s : S)
    : M S :=
  match n with
  | O => ret s
  | S n' => bind (body i s) (fun s' => forRange n' (i + 1) body s')
  end.

(* ===================================================================== *)
(** ** The VCM integrator: functions *)
(* ===================================================================== *)

Section VCM.
Context {ML : MathLib} {SL : SceneLib} {ED : ExternData} {TF : TextureFiltering}
        {CL : Collaborators}.

#[local] Open Scope kernel_scope.

Definition OcclusionRay (rtcScene : RTCScene) (surface : SurfaceParameters)
    (direction : float3) (distance : float) : bool :=
  let origin := OffsetRayOrigin surface direction (of_decimal 1 10) in
  let ray := {| org_x := f3x origin; org_y := f3y origin; org_z := f3z origin;
                dir_x := f3x direction; dir_y := f3y direction; dir_z := f3z direction;
                tnear := s_error surface;
                tfar := distance |} in
  let ray := rtcOccluded1 rtcScene ray in
  (* ray.tfar == -inf when hit occurs *)
  (tfar ray >=? of_int 0)%f32.

Definition VcOcclusionRay (rtcScene : RTCScene) (surface : SurfaceParameters)
    (direction : float3) (distance : float) : bool :=
  let '(origin, biasDistance) := OffsetRayOriginBias surface direction (of_decimal 1 10) in
  let ray := {| org_x := f3x origin; org_y := f3y origin; org_z := f3z origin;
                dir_x := f3x direction; dir_y := f3y direction; dir_z := f3z direction;
                tnear := s_error surface;
                tfar := (distance - of_int 16 * Absf biasDistance)%f32 |} in
  let ray := rtcOccluded1 rtcScene ray in
  (tfar ray >=? of_int 0)%f32.

(** [hit] is written only when the result is [true]: [Some hit]. *)
Definition RayPick (rtcScene : RTCScene) (ray : Ray) : option HitParameters :=
  let rayhit :=
    {| rh_ray := {| org_x := f3x (ray_origin ray);
                    org_y := f3y (ray_origin ray);
                    org_z := f3z (ray_origin ray);
                    dir_x := f3x (ray_direction ray);
                    dir_y := f3y (ray_direction ray);
                    dir_z := f3z (ray_direction ray);
                    tnear := of_decimal 1 100000;
                    tfar := FloatMax_ |};
       (* u and v are not set by the caller *)
       rh_hit := {| geomID := RTC_INVALID_GEOMETRY_ID;
                    primID := RTC_INVALID_GEOMETRY_ID;
                    hit_u := f0; hit_v := f0 |} |} in
  let rayhit := rtcIntersect1 rtcScene rayhit in
  if geomID (rh_hit rayhit) =? wrap32 (-1) then None
  else
    let r := rh_ray rayhit in
    let position :=
      mkFloat3 (org_x r + tfar r * f3x (ray_direction ray))%f32
               (org_y r + tfar r * f3y (ray_direction ray))%f32
               (org_z r + tfar r * f3z (ray_direction ray))%f32 in
    let kErr := (of_int 32 * of_decimal 119209 1000000000000)%f32 in
    Some {| h_position := position;
            h_baryCoords := mkFloat2 (hit_u (rh_hit rayhit)) (hit_v (rh_hit rayhit));
            h_primId := primID (rh_hit rayhit);
            h_error := (kErr * Max (Max (Absf (f3x position)) (Absf (f3y position)))
                                   (Max (Absf (f3z position)) (tfar r)))%f32;
            h_viewDirection := (- ray_direction ray)%v3;
            h_rxOrigin := ray_rxOrigin ray;
            h_rxDirection := ray_rxDirection ray;
            h_ryOrigin := ray_ryOrigin ray;
            h_ryDirection := ray_ryDirection ray;
            h_pixelIndex := ray_pixelIndex ray;
            h_throughput := ray_throughput ray;
            h_bounceCount := ray_bounceCount ray |}.

Definition GenerateLightSample (context : KernelContext) (vcWeight : float) : M PathState :=
  (* right now we're just generating a sample on the ibl *)
  let lightSampleWeight := f1 in
  sample <- random (EmitIblLightSample context) ;;
  let emissionPdfW := (le_emissionPdfW sample * lightSampleWeight)%f32 in
  let directionPdfA := (le_directionPdfA sample * lightSampleWeight)%f32 in
  let dVC := (le_cosThetaLight sample / emissionPdfW)%f32 in
  ret {| ps_position := le_position sample;
         ps_direction := le_direction sample;
         ps_throughput := v3scaler (le_radiance sample) (f1 / emissionPdfW)%f32;
         ps_dVCM := (directionPdfA / emissionPdfW)%f32;
         ps_dVC := dVC;
         ps_dVM := (dVC * vcWeight)%f32;
         ps_pathLength := 1;
         ps_isAreaMeasure := 0 |}.

Definition GenerateCameraSample (context : KernelContext) (x y : Z)
    (lightPathCount : float) : M PathState :=
  let camera := camera context in
  cameraRay <- random (fun t => JitteredCameraRay camera t 0 (of_int x) (of_int y)) ;;
  let cosThetaCamera := Dot (cam_forward camera) (ray_direction cameraRay) in
  let imagePointToCameraDistance := (cam_imagePlaneDistance camera / cosThetaCamera)%f32 in
  let imageToSolidAngle :=
    (imagePointToCameraDistance * imagePointToCameraDistance / cosThetaCamera)%f32 in
  ret {| ps_position := ray_origin cameraRay;
         ps_direction := ray_direction cameraRay;
         ps_throughput := float3_One;
         ps_dVCM := (lightPathCount / imageToSolidAngle)%f32;
         ps_dVC := of_int 0;
         ps_dVM := of_int 0;
         ps_pathLength := 1;
         ps_isAreaMeasure := 1 |}.

Definition ConnectLightPathToCamera (context : KernelContext) (state : PathState)
    (surface : SurfaceParameters) (vmWeight lightPathCount : float) : M unit :=
  let camera := camera context in
  let toPosition := (s_position surface - cam_position camera)%v3 in
  if (Dot (cam_forward camera) toPosition <=? f0)%f32 then ret tt
  else
    let imagePosition := WorldToImage camera (s_position surface) in
    if (i2x imagePosition <? 0)
       || (of_int (i2x imagePosition) >=? cam_viewportWidth camera)%f32
       || (i2y imagePosition <? 0)
       || (of_int (i2y imagePosition) >=? cam_viewportHeight camera)%f32
    then ret tt
    else
      let distance := Length toPosition in
      let toPosition := ((f1 / distance)%f32 *: toPosition)%v3 in
      (* evaluate BSDF *)
      let '(bsdf, bsdfForwardPdf, bsdfReversePdf) :=
        EvaluateBsdf surface (- ps_direction state)%v3 (- toPosition)%v3 in
      if v3isZero bsdf then ret tt
      else
        let cosThetaSurface := Absf (Dot (s_geometricNormal surface) (- toPosition)%v3) in
        let cosThetaCamera := Dot (cam_forward camera) toPosition in
        let imagePointToCameraDistance :=
          (cam_imagePlaneDistance camera / cosThetaCamera)%f32 in
        let imageToSolidAngle :=
          (imagePointToCameraDistance * imagePointToCameraDistance / cosThetaCamera)%f32 in
        let imageToSurface := (imageToSolidAngle * cosThetaCamera)%f32 in
        let surfaceToImage := (f1 / imageToSurface)%f32 in
        let cameraPdfA := imageToSurface in
        let lightPartialWeight :=
          ((cameraPdfA / lightPathCount)
           * (vmWeight + ps_dVCM state + ps_dVC state * bsdfReversePdf))%f32 in
        let misWeight := (f1 / (lightPartialWeight + f1))%f32 in
        let pathContribution :=
          v3scaler (misWeight *: ps_throughput state * bsdf)%v3
                   (f1 / (lightPathCount * surfaceToImage))%f32 in
        if v3isZero pathContribution then ret tt
        else if OcclusionRay (rtcScene (sceneData context)) surface (- toPosition)%v3 distance
        then
          let index := wrap32 (i2y imagePosition * imageWidth context + i2x imagePosition) in
          addToImage index pathContribution
        else ret tt.

Definition ConnectToSkyLight (context : KernelContext) (state : PathState) : M float3 :=
  ' (radiance, directPdfA, emissionPdfW) <-
    random (DirectIblSample context (ps_direction state)) ;;
  if ps_pathLength state =? 1 then ret radiance
  else
    let cameraWeight := (directPdfA * ps_dVCM state + emissionPdfW * ps_dVC state)%f32 in
    let misWeight := (f1 / (f1 + cameraWeight))%f32 in
    ret (misWeight *: radiance)%v3.

Definition ConnectCameraPathToLight (context : KernelContext) (state : PathState)
    (surface : SurfaceParameters) (vmWeight : float) : M float3 :=
  (* only using the ibl for now *)
  let lightSampleWeight := f1 in
  (* choose direction to sample the ibl *)
  r0 <- random MersenneTwisterFloat ;;
  r1 <- random MersenneTwisterFloat ;;
  sample <- random (DirectIblLightSample context) ;;
  let directionPdfA := (ld_directionPdfA sample * lightSampleWeight)%f32 in
  let '(bsdf, bsdfForwardPdfW, bsdfReversePdfW) :=
    EvaluateBsdf surface (- ps_direction state)%v3 (ld_direction sample) in
  if v3isZero bsdf then ret float3_Zero
  else
    let cosThetaSurface := Absf (Dot (s_perturbedNormal surface) (ld_direction sample)) in
    let lightWeight := (bsdfForwardPdfW / directionPdfA)%f32 in
    let cameraWeight :=
      ((ld_emissionPdfW sample * cosThetaSurface / (directionPdfA * ld_cosThetaLight sample))
       * (vmWeight + ps_dVCM state + ps_dVC state * bsdfReversePdfW))%f32 in
    let misWeight := (f1 / (lightWeight + of_int 1 + cameraWeight))%f32 in
    let pathContribution :=
      ((misWeight * cosThetaSurface / directionPdfA)%f32 *: ld_radiance sample * bsdf)%v3 in
    if v3isZero pathContribution then ret float3_Zero
    else if OcclusionRay (rtcScene (sceneData context)) surface (ld_direction sample)
                         (ld_distance sample)
    then ret pathContribution
    else ret float3_Zero.

(** The result is the returned flag and [pathState] afterwards. *)
Definition SampleBsdfScattering (context : KernelContext) (surface : SurfaceParameters)
    (vmWeight vcWeight : float) (pathState : PathState) : M (bool * PathState) :=
  r <- random (SampleBsdfFunction context surface (- ps_direction pathState)%v3) ;;
  match r with
  | None => ret (false, pathState)
  | Some sample =>
      if v3isZero (bs_reflectance sample) then ret (false, pathState)
      else
        let cosThetaBsdf := Absf (Dot (bs_wi sample) (s_perturbedNormal surface)) in
        let pathState := set_ps_position (s_position surface) pathState in
        let pathState :=
          set_ps_throughput (ps_throughput pathState * bs_reflectance sample)%v3 pathState in
        let pathState :=
          set_ps_dVC ((cosThetaBsdf / bs_forwardPdfW sample)
                      * (ps_dVC pathState * bs_reversePdfW sample
                         + ps_dVCM pathState + vmWeight))%f32 pathState in
        let pathState :=
          set_ps_dVM ((cosThetaBsdf / bs_forwardPdfW sample)
                      * (ps_dVM pathState * bs_reversePdfW sample
                         + ps_dVCM pathState * vcWeight + f1))%f32 pathState in
        let pathState := set_ps_dVCM (f1 / bs_forwardPdfW sample)%f32 pathState in
        let pathState := set_ps_direction (bs_wi sample) pathState in
        let pathState := set_ps_pathLength (wrap32 (ps_pathLength pathState + 1)) pathState in
        ret (true, pathState)
  end.

(** Lines 630-633 and 649-652 of [ConnectPathVertices]: the direction of the
    connection and its geometry term. *)
Definition connectionDistanceSquared (surface : SurfaceParameters) (lightVertex : VcmVertex)
    : float :=
  LengthSquared (s_position (vx_surface lightVertex) - s_position surface)%v3.

Definition connectionDirection (surface : SurfaceParameters) (lightVertex : VcmVertex)
    : float3 :=
  let direction := (s_position (vx_surface lightVertex) - s_position surface)%v3 in
  let distanceSquared := LengthSquared direction in
  let distance := Sqrtf distanceSquared in
  ((f1 / distance)%f32 *: direction)%v3.

Definition connectionGeometryTerm (surface : SurfaceParameters) (lightVertex : VcmVertex)
    : float :=
  let direction := connectionDirection surface lightVertex in
  let cosThetaCamera := Absf (Dot direction (s_perturbedNormal surface)) in
  let cosThetaLight :=
    Absf (Dot (- direction)%v3 (s_perturbedNormal (vx_surface lightVertex))) in
  (cosThetaLight * cosThetaCamera / connectionDistanceSquared surface lightVertex)%f32.

Definition ConnectPathVertices (context : KernelContext) (surface : SurfaceParameters)
    (cameraState : PathState) (lightVertex : VcmVertex) (vmWeight : float) : float3 :=
  let distanceSquared := connectionDistanceSquared surface lightVertex in
  let distance := Sqrtf distanceSquared in
  let direction := connectionDirection surface lightVertex in
  let '(cameraBsdf, cameraBsdfForwardPdfW, cameraBsdfReversePdfW) :=
    EvaluateBsdf surface (- ps_direction cameraState)%v3 direction in
  if v3isZero cameraBsdf then float3_Zero
  else
    let '(lightBsdf, lightBsdfForwardPdfW, lightBsdfReversePdfW) :=
      EvaluateBsdf (vx_surface lightVertex) (- direction)%v3
                   (s_view (vx_surface lightVertex)) in
    if v3isZero lightBsdf then float3_Zero
    else
      let cosThetaCamera := Absf (Dot direction (s_perturbedNormal surface)) in
      let cosThetaLight :=
        Absf (Dot (- direction)%v3 (s_perturbedNormal (vx_surface lightVertex))) in
      let geometryTerm := connectionGeometryTerm surface lightVertex in
      if (geometryTerm <? f0)%f32 then float3_Zero
      else
        (* convert pdfs from solid angle to area measure *)
        let cameraBsdfPdfA :=
          (cameraBsdfForwardPdfW * Absf cosThetaLight / distanceSquared)%f32 in
        let lightBsdfPdfA :=
          (lightBsdfForwardPdfW * Absf cosThetaCamera / distanceSquared)%f32 in
        let lightWeight :=
          (cameraBsdfPdfA
           * (vmWeight + vx_dVCM lightVertex + vx_dVC lightVertex * lightBsdfReversePdfW))%f32 in
        let cameraWeight :=
          (lightBsdfPdfA
           * (vmWeight + ps_dVCM cameraState
              + ps_dVC cameraState * cameraBsdfReversePdfW))%f32 in
        let misWeight := (f1 / (lightWeight + f1 + cameraWeight))%f32 in
        let pathContribution :=
          ((misWeight * geometryTerm)%f32 *: cameraBsdf * lightBsdf)%v3 in
        if v3isZero pathContribution then float3_Zero
        else if VcOcclusionRay (rtcScene (sceneData context)) surface direction distance
        then pathContribution
        else float3_Zero.

(** The callback of the hash grid search; [result] is
    [VertexMergingCallbackStruct::result].  [Assert_] does nothing in a
    release build and is left out. *)
Definition MergeVertices (context : KernelContext) (surface : SurfaceParameters)
    (pathVertices : list VcmVertex) (cameraState : PathState) (vcWeight : float)
    (vertexIndex : Z) (result : float3) : outcome float3 :=
  obind (readAt pathVertices vertexIndex) (fun lightVertex =>
    if wrap32 (ps_pathLength cameraState + vx_pathLength lightVertex) >? maxPathLength context
    then Ok result
    else
      let '(bsdf, bsdfForwardPdfW, bsdfReversePdfW) :=
        EvaluateBsdf surface (- ps_direction cameraState)%v3
                     (s_view (vx_surface lightVertex)) in
      if v3isZero bsdf then Ok result
      else
        let lightWeight :=
          (vx_dVCM lightVertex * vcWeight + vx_dVM lightVertex * bsdfForwardPdfW)%f32 in
        let cameraWeight :=
          (ps_dVCM cameraState * vcWeight + ps_dVM cameraState * bsdfReversePdfW)%f32 in
        let misWeight := (f1 / (lightWeight + f1 + cameraWeight))%f32 in
        Ok (result + misWeight *: bsdf * vx_throughput lightVertex)%v3).

End VCM.

(* ===================================================================== *)
(** ** The VCM integrator: [VertexConnectionAndMerging] *)
(* ===================================================================== *)

Section Pass.
Context {ML : MathLib} {SL : SceneLib} {ED : ExternData} {TF : TextureFiltering}
        {CL : Collaborators}.

#[local] Open Scope kernel_scope.

(** Lines 769-778: the light subpath's update of the MIS quantities at a
    new hit. *)
Definition LightHitUpdate (state : PathState) (hit : HitParameters)
    (surface : SurfaceParameters) : PathState :=
  let connectionLengthSqr := LengthSquared (ps_position state - s_position surface)%v3 in
  let absDotNL := Absf (Dot (s_perturbedNormal surface) (h_viewDirection hit)) in
  (* Update accumulated MIS parameters with info from our new hit position *)
  let state :=
    if (ps_pathLength state >? 1) || negb (ps_isAreaMeasure state =? 0)
    then set_ps_dVCM (ps_dVCM state * connectionLengthSqr)%f32 state
    else state in
  let state := set_ps_dVCM (ps_dVCM state * (f1 / absDotNL))%f32 state in
  let state := set_ps_dVC (ps_dVC state * (f1 / absDotNL))%f32 state in
  let state := set_ps_dVM (ps_dVM state * (f1 / absDotNL))%f32 state in
  state.

(** Lines 858-865: the camera subpath's update. *)
Definition CameraHitUpdate (cameraPathState : PathState) (hit : HitParameters)
    (surface : SurfaceParameters) : PathState :=
  let connectionLengthSqr :=
    LengthSquared (ps_position cameraPathState - s_position surface)%v3 in
  let absDotNL := Absf (Dot (s_geometricNormal surface) (h_viewDirection hit)) in
  let cameraPathState :=
    set_ps_dVCM (ps_dVCM cameraPathState * connectionLengthSqr)%f32 cameraPathState in
  let cameraPathState := set_ps_dVCM (ps_dVCM cameraPathState / absDotNL)%f32 cameraPathState in
  let cameraPathState := set_ps_dVC (ps_dVC cameraPathState / absDotNL)%f32 cameraPathState in
  let cameraPathState := set_ps_dVM (ps_dVM cameraPathState / absDotNL)%f32 cameraPathState in
  cameraPathState.

(** What the light phase builds: [pathVertices], [deletememaybe] (the
    positions of the vertices) and the hit events.  A [CArray] is a list:
    [Add] appends an element and [Length()] is the length of the list. *)
Record LightPaths := mkLightPaths {
  lp_pathVertices : list VcmVertex;
  lp_points : list float3;
  lp_events : list HitEvent
}.

(** Lines 751-816: the [while] loop of one light subpath. *)
Fixpoint LightSubpath (fuel : nat) (context : KernelContext)
    (vmWeight vcWeight : float) (lightPathCount : Z)
    (state : PathState) (acc : LightPaths) : M LightPaths :=
  if wrap32 (ps_pathLength state + 2) <? maxPathLength context then
    match fuel with
    | O => outOfFuel
    | S fuel' =>
        (* Make a basic ray. No differentials are used for light path vertices. *)
        let ray := MakeRay (ps_position state) (ps_direction state) (ps_throughput state) 0 0 in
        (* Cast the ray against the scene *)
        match RayPick (rtcScene (sceneData context)) ray with
        | None => ret acc
        | Some hit =>
            (* Calculate all surface information for this hit position *)
            ' (valid, surface) <- lift (CalculateSurfaceParams context hit indeterminateSurface) ;;
            if negb valid then ret acc
            else
              let before := state in
              let state := LightHitUpdate state hit surface in
              (* store the vertex for use with vertex merging *)
              let vcmVertex :=
                {| vx_throughput := ps_throughput state;
                   vx_pathLength := ps_pathLength state;
                   vx_dVCM := ps_dVCM state;
                   vx_dVC := ps_dVC state;
                   vx_dVM := ps_dVM state;
                   vx_surface := surface |} in
              let acc :=
                {| lp_pathVertices := lp_pathVertices acc ++ [vcmVertex];
                   lp_points := lp_points acc ++ [s_position surface];
                   lp_events :=
                     lp_events acc ++ [mkHitEvent LightPath before hit surface state] |} in
              (* connect the path to the camera *)
              ConnectLightPathToCamera context state surface vmWeight (of_int lightPathCount) ;;;
              (* bsdf scattering to advance the path *)
              ' (scattered, state) <-
                SampleBsdfScattering context surface vmWeight vcWeight state ;;
              if negb scattered then ret acc
              else LightSubpath fuel' context vmWeight vcWeight lightPathCount state acc
        end
    end
  else ret acc.

(** Lines 745-819: the light phase.  [pathEnds] is the second component. *)
Fixpoint LightPhaseLoop (n : nat) (fuel : nat) (context : KernelContext)
    (vmWeight vcWeight : float) (lightPathCount : Z)
    (acc : LightPaths) (pathEnds : list Z) : M (LightPaths * list Z) :=
  match n with
  | O => ret (acc, pathEnds)
  | S n' =>
      (* create initial light path vertex y_0 *)
      state <- GenerateLightSample context vcWeight ;;
      acc <- LightSubpath fuel context vmWeight vcWeight lightPathCount state acc ;;
      let pathEnds := pathEnds ++ [Z.of_nat (length (lp_pathVertices acc))] in
      LightPhaseLoop n' fuel context vmWeight vcWeight lightPathCount acc pathEnds
  end.

Definition LightPhase (fuel : nat) (context : KernelContext)
    (vmWeight vcWeight : float) (lightPathCount : Z) : M (LightPaths * list Z) :=
  LightPhaseLoop (Z.to_nat lightPathCount) fuel context vmWeight vcWeight lightPathCount
                 (mkLightPaths [] [] []) [].

(** Lines 878-885: connection of a camera vertex to the vertices of the
    light subpath with the same index. *)
Fixpoint ConnectLightVertices (n : nat) (lightVertexIndex : Z) (context : KernelContext)
    (surface : SurfaceParameters) (cameraPathState : PathState)
    (pathVertices : list VcmVertex) (vmWeight : float) (color : float3) : outcome float3 :=
  match n with
  | O => Ok color
  | S n' =>
      obind (readAt pathVertices lightVertexIndex) (fun lightVertex =>
        if wrap32 (wrap32 (vx_pathLength lightVertex + 1) + ps_pathLength cameraPathState)
           >? maxPathLength context
        then Ok color
        else
          let color :=
            (color + ps_throughput cameraPathState * vx_throughput lightVertex
                     * ConnectPathVertices context surface cameraPathState lightVertex
                                           vmWeight)%v3 in
          ConnectLightVertices n' (lightVertexIndex + 1) context surface cameraPathState
                               pathVertices vmWeight color)
  end.

(** Lines 889-900: the callback runs once for every index the search
    reports. *)
Fixpoint MergeAll (context : KernelContext) (surface : SurfaceParameters)
    (pathVertices : list VcmVertex) (cameraState : PathState) (vcWeight : float)
    (found : list Z) (result : float3) : outcome float3 :=
  match found with
  | [] => Ok result
  | vertexIndex :: rest =>
      obind (MergeVertices context surface pathVertices cameraState vcWeight
                           vertexIndex result)
            (fun result =>
               MergeAll context surface pathVertices cameraState vcWeight rest result)
  end.

(** Lines 837-906: the [while] loop of one camera subpath; the result is
    [color] and the hit events. *)
Fixpoint CameraSubpath (fuel : nat) (context : KernelContext)
    (pathVertices : list VcmVertex) (points : list float3) (pathEnds : list Z)
    (hashGrid : HashGrid) (vmWeight vcWeight vmNormalization : float) (index : Z)
    (cameraPathState : PathState) (color : float3) (events : list HitEvent)
    : M (float3 * list HitEvent) :=
  if ps_pathLength cameraPathState <? maxPathLength context then
    match fuel with
    | O => outOfFuel
    | S fuel' =>
        let ray := MakeRay (ps_position cameraPathState) (ps_direction cameraPathState)
                           (ps_throughput cameraPathState) 0 0 in
        (* Cast the ray against the scene *)
        match RayPick (rtcScene (sceneData context)) ray with
        | None =>
            (* if the ray exits the scene then we sample the ibl and accumulate the results *)
            sky <- ConnectToSkyLight context cameraPathState ;;
            let sample := (ps_throughput cameraPathState * sky)%v3 in
            ret ((color + sample)%v3, events)
        | Some hit =>
            (* Calculate all surface information for this hit position *)
            ' (valid, surface) <- lift (CalculateSurfaceParams context hit indeterminateSurface) ;;
            if negb valid then ret (color, events)
            else
              let before := cameraPathState in
              let cameraPathState := CameraHitUpdate cameraPathState hit surface in
              let events :=
                events ++ [mkHitEvent CameraPath before hit surface cameraPathState] in
              (* Vertex connection to a light source *)
              color <-
                (if wrap32 (ps_pathLength cameraPathState + 1) <? maxPathLength context then
                   light <- ConnectCameraPathToLight context cameraPathState surface vmWeight ;;
                   ret (color + ps_throughput cameraPathState * light)%v3
                 else ret color) ;;
              (* Vertex connection to a light vertex *)
              pathStart <-
                (if index =? 0 then ret 0 else lift (readAt pathEnds (wrap32 (index - 1)))) ;;
              pathEnd <- lift (readAt pathEnds index) ;;
              color <- lift (ConnectLightVertices (Z.to_nat (pathEnd - pathStart)) pathStart
                               context surface cameraPathState pathVertices vmWeight color) ;;
              (* Vertex merging *)
              result <- lift (MergeAll context surface pathVertices cameraPathState vcWeight
                                (SearchHashGrid hashGrid points (s_position surface))
                                float3_Zero) ;;
              let color :=
                (color + v3scaler (ps_throughput cameraPathState) vmNormalization * result)%v3 in
              (* bsdf scattering to advance the path *)
              ' (scattered, cameraPathState) <-
                SampleBsdfScattering context surface vmWeight vcWeight cameraPathState ;;
              if negb scattered then ret (color, events)
              else CameraSubpath fuel' context pathVertices points pathEnds hashGrid
                                 vmWeight vcWeight vmNormalization index
                                 cameraPathState color events
        end
    end
  else ret (color, events).

(** Lines 825-910: the camera phase; the result is the hit events. *)
Definition CameraPhase (fuel : nat) (context : KernelContext)
    (pathVertices : list VcmVertex) (points : list float3) (pathEnds : list Z)
    (hashGrid : HashGrid) (vmWeight vcWeight vmNormalization : float)
    (lightPathCount width height : Z) : M (list HitEvent) :=
  forRange (Z.to_nat height) 0 (fun y events =>
    forRange (Z.to_nat width) 0 (fun x events =>
      let index := wrap32 (y * width + x) in
      cameraPathState <- GenerateCameraSample context x y (of_int lightPathCount) ;;
      ' (color, events) <-
        CameraSubpath fuel context pathVertices points pathEnds hashGrid
                      vmWeight vcWeight vmNormalization index
                      cameraPathState float3_Zero events ;;
      addToImage index color ;;;
      ret events) events) [].

(** What a pass leaves behind: [pathVertices] and [hashGrid] (passed by
    reference), [pathEnds], and the hit events of both phases. *)
Record PassResult := mkPassResult {
  pr_pathVertices : list VcmVertex;
  pr_hashGrid : HashGrid;
  pr_pathEnds : list Z;
  pr_lightEvents : list HitEvent;
  pr_cameraEvents : list HitEvent
}.

Definition VertexConnectionAndMerging_fuel (fuel : nat) (context : KernelContext)
    (pathVertices : list VcmVertex) (hashGrid : HashGrid) (kernelRadius : float)
    (width height : Z) : M PassResult :=
  let lightPathCount := wrap32 (width * height) in
  (* pathVertices.Clear(); the Reserve calls do not change the contents *)
  let kernelRadiusSquare := (kernelRadius * kernelRadius)%f32 in
  let vmNormalization := (f1 / (Pi_ * kernelRadiusSquare * of_int lightPathCount))%f32 in
  let vmWeight := (Pi_ * kernelRadiusSquare * of_int lightPathCount)%f32 in
  let vcWeight := (f1 / vmWeight)%f32 in
  (* generate light paths *)
  ' (paths, pathEnds) <- LightPhase fuel context vmWeight vcWeight lightPathCount ;;
  (* build the hash grid *)
  let hashGrid := BuildHashGrid hashGrid lightPathCount kernelRadius (lp_points paths) in
  (* generate camera paths *)
  cameraEvents <-
    CameraPhase fuel context (lp_pathVertices paths) (lp_points paths) pathEnds hashGrid
                vmWeight vcWeight vmNormalization lightPathCount width height ;;
  ret {| pr_pathVertices := lp_pathVertices paths;
         pr_hashGrid := hashGrid;
         pr_pathEnds := pathEnds;
         pr_lightEvents := lp_events paths;
         pr_cameraEvents := cameraEvents |}.

(** Every subpath loop ends within [maxPathLength] iterations
    ([LightSubpath_fuel], [CameraSubpath_fuel]): this fuel is enough. *)
Definition VertexConnectionAndMerging (context : KernelContext)
    (pathVertices : list VcmVertex) (hashGrid : HashGrid) (kernelRadius : float)
    (width height : Z) : M PassResult :=
  VertexConnectionAndMerging_fuel (Z.to_nat (maxPathLength context)) context
                                  pathVertices hashGrid kernelRadius width height.

End Pass.

(* ===================================================================== *)
(** ** Reference collaborators and an example scene *)
(* ===================================================================== *)

(** One executable implementation of the collaborators, used to run the
    embedded code on concrete inputs.  The math functions are the textbook
    ones in binary32; the renderer's modules are small stand-ins. *)
Module Reference.

Definition dot (a b : float3) : float :=
  (f3x a * f3x b + f3y a * f3y b + f3z a * f3z b)%f32.

Definition cross (a b : float3) : float3 :=
  mkFloat3 (f3y a * f3z b - f3z a * f3y b)%f32
           (f3z a * f3x b - f3x a * f3z b)%f32
           (f3x a * f3y b - f3y a * f3x b)%f32.

Definition lengthSquared (v : float3) : float := dot v v.
Definition length (v : float3) : float := SFsqrt prec emax (lengthSquared v).
Definition normalize (v : float3) : float3 := ((f1 / length v)%f32 *: v)%v3.

Definition saturate (x : float) : float :=
  if (x <? f0)%f32 then f0 else if (x >? f1)%f32 then f1 else x.

Definition isInf (x : float) : bool :=
  match x with S754_infinity _ => true | _ => false end.
Definition isNaN (x : float) : bool :=
  match x with S754_nan => true | _ => false end.
Definition max (a b : float) : float := if (a <? b)%f32 then b else a.

Definition transpose (m : float3x3) : float3x3 :=
  mkFloat3x3
    (mkFloat3 (f3x (m3r0 m)) (f3x (m3r1 m)) (f3x (m3r2 m)))
    (mkFloat3 (f3y (m3r0 m)) (f3y (m3r1 m)) (f3y (m3r2 m)))
    (mkFloat3 (f3z (m3r0 m)) (f3z (m3r1 m)) (f3z (m3r2 m))).

(** row vector times matrix *)
Definition multiply (v : float3) (m : float3x3) : float3 :=
  (f3x v *: m3r0 m + f3y v *: m3r1 m + f3z v *: m3r2 m)%v3.

Definition orthogonalSystem (n : float3) (_ : float3 * float3) : float3 * float3 :=
  let v2 :=
    if (SFabs (f3x n) >? SFabs (f3y n))%f32 then
      ((f1 / SFsqrt prec emax (f3x n * f3x n + f3z n * f3z n))%f32
       *: mkFloat3 (- f3z n)%f32 f0 (f3x n))%v3
    else
      ((f1 / SFsqrt prec emax (f3y n * f3y n + f3z n * f3z n))%f32
       *: mkFloat3 f0 (f3z n) (- f3y n)%f32)%v3 in
  (v2, cross n v2).

Definition solve (A : float2x2) (B : float2) (out : float2) : bool * float2 :=
  let det := (f2x (r0 A) * f2y (r1 A) - f2y (r0 A) * f2x (r1 A))%f32 in
  if (SFabs det <? of_decimal 1 10000000000)%f32 then (false, out)
  else
    let x0 := ((f2y (r1 A) * f2x B - f2y (r0 A) * f2y B) / det)%f32 in
    let x1 := ((f2x (r0 A) * f2y B - f2x (r1 A) * f2x B) / det)%f32 in
    if isNaN x0 || isNaN x1 then (false, mkFloat2 x0 x1) else (true, mkFloat2 x0 x1).

(** The linear toe of the sRGB decoding curve, [x / 12.92]: the whole curve
    for encoded values up to 0.04045, which is where the examples below
    sample it. *)
Definition srgbToe (x : float) : float := (x / of_decimal 1292 100)%f32.

#[export] Instance mathLib : MathLib := {|
  Dot := dot;
  Cross := cross;
  Normalize := normalize;
  LengthSquared := lengthSquared;
  Length := length;
  Saturate := saturate;
  Absf := SFabs;
  Sqrtf := SFsqrt prec emax;
  IsInf := isInf;
  IsNaN := isNaN;
  Max := max;
  MakeFloat3x3 := mkFloat3x3;
  MatrixTranspose := transpose;
  MatrixMultiply := multiply;
  MakeOrthogonalCoordinateSystem := orthogonalSystem;
  SolveLinearSystem := solve;
  SrgbToLinearPrecise := srgbToe;
  SrgbToLinearPrecise3 := fun v => mkFloat3 (srgbToe (f3x v)) (srgbToe (f3y v)) (srgbToe (f3z v));
  Pi_ := of_decimal 314159265 100000000;
  SmallFloatEpsilon_ := of_decimal 1 1000000000;
  FloatMax_ := SFmax_float prec emax
|}.

#[export] Instance sceneLib : SceneLib := {|
  InvalidIndex32 := wrap32 (-1);
  eTransparent := 1;
  eHasTextures := 2;
  ePreserveRayDifferentials := 4
|}.

(** A texture is one colour.  A scene for the ray caster is empty or two
    horizontal plates, one in the plane z = 0 facing up (primitive 0) and
    one in the plane z = [ts_top] facing down (primitive 1); a ray that
    leaves a plate does not hit that plate again.  The "hash grid" keeps
    the radius and searches all points.  The twister is a counter. *)
Record TestScene := mkTestScene {
  ts_top : option float
}.

#[export] Instance externData : ExternData := {|
  TextureData := float3;
  RTCScene := TestScene;
  IblResource := unit;
  CameraProjection := unit;
  HashGrid := float;
  MersenneTwister := Z
|}.

#[export] Instance textureFiltering : TextureFiltering := {|
  TriangleFloat3 := fun d _ _ => d;
  TriangleFloat := fun d _ _ => f3x d;
  EWAFloat3 := fun d _ _ _ => d;
  EWAFloat := fun d _ _ _ => f3x d
|}.

Definition half : float := of_decimal 1 2.
Definition quarter : float := of_decimal 1 4.

(** The plate a ray meets, and the distance to it. *)
Definition plateHit (s : TestScene) (r : RTCRay) : option (Z * float) :=
  match ts_top s with
  | None => None
  | Some top =>
      if (dir_z r <? f0)%f32 then Some (0, ((f0 - org_z r) / dir_z r)%f32)
      else if (dir_z r >? f0)%f32 then Some (1, ((top - org_z r) / dir_z r)%f32)
      else None
  end.

Definition intersect (s : TestScene) (rh : RTCRayHit) : RTCRayHit :=
  let r := rh_ray rh in
  match plateHit s r with
  | Some (prim, t) =>
      if (tnear r <=? t)%f32 && (t <=? tfar r)%f32 then
        {| rh_ray := {| org_x := org_x r; org_y := org_y r; org_z := org_z r;
                        dir_x := dir_x r; dir_y := dir_y r; dir_z := dir_z r;
                        tnear := tnear r; tfar := t |};
           rh_hit := {| geomID := 0; primID := prim; hit_u := quarter; hit_v := quarter |} |}
      else rh
  | None => rh
  end.

Definition occluded (s : TestScene) (r : RTCRay) : RTCRay :=
  match plateHit s r with
  | Some (_, t) =>
      if (tnear r <=? t)%f32 && (t <=? tfar r)%f32 then
        {| org_x := org_x r; org_y := org_y r; org_z := org_z r;
           dir_x := dir_x r; dir_y := dir_y r; dir_z := dir_z r;
           tnear := tnear r; tfar := S754_infinity true |}
      else r
  | None => r
  end.

Fixpoint within (radius2 : float) (p : float3) (points : list float3) (i : Z) : list Z :=
  match points with
  | [] => []
  | q :: rest =>
      if (lengthSquared (q - p)%v3 <=? radius2)%f32
      then i :: within radius2 p rest (i + 1)
      else within radius2 p rest (i + 1)
  end.

Definition zeroSurface : SurfaceParameters :=
  let z := float3_Zero in
  mkSurfaceParameters (mkFloat3x3 z z z) (mkFloat3x3 z z z) z z z z z z f0 0 z z
    (mkSurfaceDifferentials z z float2_Zero float2_Zero z z) z z z f0 f0 0 f0 z z.

Definition plainRay (o d t : float3) (pixelIndex bounceCount : Z) : Ray :=
  mkRay o d float3_Zero float3_Zero float3_Zero float3_Zero pixelIndex t bounceCount.

(** The light source emits downwards from the point (1/4, 1/4, 2).  The
    BSDF stand-in sends a path back where it came from (the mirror direction
    of a ray along the normal) and returns the albedo with both densities
    1/2. *)
#[export] Instance collaborators : Collaborators := {|
  rtcIntersect1 := intersect;
  rtcOccluded1 := occluded;
  MakeRay := plainRay;
  OffsetRayOriginBias := fun s d k =>
    (OffsetRayOrigin s d k, (s_error s * k)%f32);
  EmitIblLightSample := fun _ t =>
    (mkLightEmissionSample (mkFloat3 quarter quarter f2) (mkFloat3 f0 f0 (- f1)%f32)
                           float3_One quarter half f1, t + 1);
  DirectIblLightSample := fun _ t =>
    (mkLightDirectSample (mkFloat3 f0 f0 f1) (of_int 1000) float3_One quarter half f1, t + 1);
  DirectIblSample := fun _ _ t => ((float3_One, quarter, half), t);
  EvaluateBsdf := fun s _ _ => (s_albedo s, half, half);
  SampleBsdfFunction := fun _ s wo t =>
    (Some (mkBsdfSample wo (s_albedo s) half half), t + 1);
  MersenneTwisterFloat := fun t => ((of_int (t mod 16) / of_int 16)%f32, t + 1);
  JitteredCameraRay := fun cam t _ _ _ =>
    (plainRay (cam_position cam) (cam_forward cam) float3_One 0 0, t + 1);
  WorldToImage := fun _ _ => mkInt2 0 0;
  BuildHashGrid := fun _ _ radius _ => radius;
  SearchHashGrid := fun radius points p => within (radius * radius)%f32 p points 0;
  indeterminateSurface := zeroSurface
|}.

(** The two plates are the triangles (0,0,z) (1,0,z) (0,1,z) for z = 0
    (normal +z) and z = 4 (normal -z).  Their material has an albedo texture
    (texture 0, of colour 1/32) and no other texture. *)
Definition corner (x y z nz : float) : VertexAuxiliaryData :=
  mkVertexAuxiliaryData x y z f0 f0 nz f1 f0 f0 f1 x y 0.

Definition grey : Material :=
  mkMaterial 0 (mkFloat3 half half half) f1 f0 (of_decimal 3 2) 0
             (wrap32 (-1)) 0 (wrap32 (-1)) (wrap32 (-1)) (wrap32 (-1)) (wrap32 (-1)).

Definition dark : float3 :=
  mkFloat3 (of_decimal 1 32) (of_decimal 1 32) (of_decimal 1 32).

Definition f4 : float := of_int 4.

Definition plates : SceneResource :=
  mkSceneResource _
    (mkSceneResourceData
       [0; 1; 2; 3; 4; 5]
       [corner f0 f0 f0 f1; corner f1 f0 f0 f1; corner f0 f1 f0 f1;
        corner f0 f0 f4 (- f1)%f32; corner f1 f0 f4 (- f1)%f32; corner f0 f1 f4 (- f1)%f32]
       [grey]
       (mkFloat4 f0 f0 f2 f4))
    [mkTextureResource _ dark].

(** The camera sits between the plates and looks down. *)
Definition topCamera : RayCastCameraSettings :=
  mkRayCastCameraSettings _ (mkFloat3 quarter quarter f2) (mkFloat3 f0 f0 (- f1)%f32)
                          f1 f1 f1 tt.

(** The image has one pixel and paths have at most [MaxBounceCount_ = 10]
    vertices. *)
Definition context : KernelContext :=
  mkKernelContext _ (mkSceneContext _ plates (mkTestScene (Some f4)) tt) topCamera 1 1 10.

Definition world : World := mkWorld _ 0 [float3_Zero].

(** A hit on the lower plate, seen from above. *)
Definition hit : HitParameters :=
  mkHitParameters (mkFloat3 quarter quarter f0) (mkFloat2 quarter quarter) 0
                  (of_decimal 1 1000000) (mkFloat3 f0 f0 f1)
                  float3_Zero float3_Zero float3_Zero float3_Zero 0 float3_One 0.

(** One pass over the two plates: a one-pixel image, radius 1/100. *)
Abbreviation examplePass :=
(VertexConnectionAndMerging context [] f1 (of_decimal 1 100) 1 1 world).

(** A hit on the upper plate, seen from below. *)
Definition hitTop : HitParameters :=
mkHitParameters (mkFloat3 quarter quarter f4) (mkFloat2 quarter quarter) 1
                (of_decimal 1 1000000) (mkFloat3 f0 f0 (- f1)%f32)
                float3_Zero float3_Zero float3_Zero float3_Zero 0 float3_One 0.

(** A path that has just left the light, heading down. *)
Definition freshPath : PathState :=
mkPathState (mkFloat3 quarter quarter f2) (mkFloat3 f0 f0 (- f1)%f32) float3_One
            half f2 f2 1 0.

(** What the pass returns, evaluated. *)
Definition exampleResult : PassResult :=
Eval vm_compute in
  match examplePass with
  | Ok (r, _) => r
  | _ => mkPassResult [] f0 [] [] []
  end.

Definition exampleWorld : World :=
Eval vm_compute in
  match examplePass with
  | Ok (_, w) => w
  | _ => world
  end.

(** The surfaces of the two example hits. *)
Definition lowerSurface : SurfaceParameters :=
Eval vm_compute in
  match CalculateSurfaceParams context hit zeroSurface with
  | Ok (_, s) => s
  | _ => zeroSurface
  end.

Definition upperSurface : SurfaceParameters :=
Eval vm_compute in
  match CalculateSurfaceParams context hitTop zeroSurface with
  | Ok (_, s) => s
  | _ => zeroSurface
  end.

(** [freshPath] after a scattering step on the lower plate. *)
Definition scatteredPath : PathState :=
Eval vm_compute in
  match SampleBsdfScattering context lowerSurface f1 f1 freshPath world with
  | Ok ((_, s), _) => s
  | _ => freshPath
  end.

End Reference.

(* ===================================================================== *)
(** ** Names for what the statements speak about *)
(* ===================================================================== *)

Section Views.
Context {ML : MathLib} {SL : SceneLib} {ED : ExternData} {TF : TextureFiltering}
        {CL : Collaborators}.

(** A texture index is usable: it is [InvalidIndex32] (no texture) or an
    index into the texture table. *)
Definition textureIndexOk (scene : SceneResource) (textureIndex : Z) : bool :=
  (textureIndex =? InvalidIndex32)
  || ((0 <=? textureIndex) && (textureIndex <? Z.of_nat (length (textures scene)))).

(** Every array read of [CalculateSurfaceParams] for this hit is in
    bounds. *)
Definition tablesInRange (scene : SceneResource) (hit : HitParameters) : bool :=
  match hitTriangle scene hit with
  | Ok (_, _, _, material) =>
      textureIndexOk scene (m_emissiveTextureIndex material)
      && textureIndexOk scene (m_albedoTextureIndex material)
      && textureIndexOk scene (m_specularTextureIndex material)
      && textureIndexOk scene (m_roughnessTextureIndex material)
      && textureIndexOk scene (m_metalnessTextureIndex material)
      && textureIndexOk scene (m_normalTextureIndex material)
  | _ => false
  end.

(** The segment that ends in the hit of an event, and the two cosines the
    updates divide by. *)
Definition segmentLengthSqr (e : HitEvent) : float :=
  LengthSquared (ps_position (ev_before e) - s_position (ev_surface e))%v3.

Definition absCosPerturbed (e : HitEvent) : float :=
  Absf (Dot (s_perturbedNormal (ev_surface e)) (h_viewDirection (ev_hit e))).

Definition absCosGeometric (e : HitEvent) : float :=
  Absf (Dot (s_geometricNormal (ev_surface e)) (h_viewDirection (ev_hit e))).

(** [dVCM *= L^2] happens at this event: [pathLength > 1 || isAreaMeasure]. *)
Definition lengthFactorApplies (state : PathState) : bool :=
  (ps_pathLength state >? 1) || negb (ps_isAreaMeasure state =? 0).

(** The rule of the specification, section 4.2, "At a new hit along the
    subpath", word for word: "If not the first segment, or the source was
    not an area measure: dVCM *= L^2.  All three divide by |cos|." *)
Definition specifiedHitUpdate (state : PathState) (L2 absCos : float) : PathState :=
  let state :=
    if negb (ps_pathLength state =? 1) || (ps_isAreaMeasure state =? 0)
    then set_ps_dVCM (ps_dVCM state * L2)%f32 state
    else state in
  let state := set_ps_dVCM (ps_dVCM state / absCos)%f32 state in
  let state := set_ps_dVC (ps_dVC state / absCos)%f32 state in
  let state := set_ps_dVM (ps_dVM state / absCos)%f32 state in
  state.

(** The rule of the specification, section 4.1 step 7:
    "albedo = material.albedo * texLookup(albedoTex, uv, sRGB)", with
    "sRGB textures are converted to linear". *)
Definition specifiedAlbedo (material : Material) (texture : TextureResource)
    (uvs : float2) : float3 :=
  (m_albedo material * SrgbToLinearPrecise3 (TriangleFloat3 (t_data texture) 0 uvs))%v3.

(** [x < 0] is false: [x] is a NaN, a zero, or positive. *)
Definition notBelowZero (x : float) : Prop := (x <? f0)%f32 = false.

(** [0 < x] is false: [x] is a NaN, a zero, or negative. *)
Definition notAboveZero (x : float) : Prop := (f0 <? x)%f32 = false.

(** The words of the specification on [OffsetRayOrigin], for comparison
    with the code: "the offset origin always lies on the side of the
    geometric normal that the given direction points toward", that is
    behind the surface position for a direction against the normal and in
    front of it otherwise, *)
Definition specifiedSide (surface : SurfaceParameters) (direction origin : float3)
    : bool :=
  let moved := Dot (origin - s_position surface)%v3 (s_geometricNormal surface) in
  if (Dot direction (s_geometricNormal surface) <? f0)%f32
  then (moved <? f0)%f32 else (f0 <? moved)%f32.

(** "at distance error * biasScale". *)
Definition specifiedDistance (surface : SurfaceParameters) (biasScale : float)
    (origin : float3) : bool :=
  (Length (origin - s_position surface)%v3 =? s_error surface * biasScale)%f32.

(** The vertex the light subpath stores at a hit (lines 781-787). *)
Definition vertexOfEvent (e : HitEvent) : VcmVertex :=
  {| vx_throughput := ps_throughput (ev_after e);
     vx_pathLength := ps_pathLength (ev_after e);
     vx_dVCM := ps_dVCM (ev_after e);
     vx_dVC := ps_dVC (ev_after e);
     vx_dVM := ps_dVM (ev_after e);
     vx_surface := ev_surface e |}.

(** What holds of every hit event of a light subpath. *)
Definition lightEvent (e : HitEvent) : Prop :=
  ev_subpath e = LightPath
  /\ ev_after e = LightHitUpdate (ev_before e) (ev_hit e) (ev_surface e)
  /\ ps_isAreaMeasure (ev_before e) = 0.

(** A light vertex is stored only under the loop condition
    [pathLength + 2 < maxPathLength]. *)
Definition storedInBounds (context : KernelContext) (e : HitEvent) : Prop :=
  1 <= ps_pathLength (ev_after e)
  /\ ps_pathLength (ev_after e) + 2 < maxPathLength context.

(** The invariant of the light phase's loop over the subpaths. *)
Definition endsOk (paths : LightPaths) (pathEnds : list Z) : Prop :=
  Forall (fun e => 0 <= e <= Z.of_nat (length (lp_pathVertices paths))) pathEnds
  /\ StronglySorted Z.le pathEnds
  /\ (pathEnds <> [] -> last pathEnds 0 = Z.of_nat (length (lp_pathVertices paths))).

(** What holds of every hit event of a camera subpath. *)
Definition cameraEvent (e : HitEvent) : Prop :=
  ev_subpath e = CameraPath
  /\ ev_after e = CameraHitUpdate (ev_before e) (ev_hit e) (ev_surface e)
  /\ ps_isAreaMeasure (ev_before e) = 1.

(** The update of the MIS quantities at a hit, as the code makes it.
    [dVCM] is first multiplied by the squared length of the segment when
    [pathLength > 1 || isAreaMeasure].  Then the light subpath multiplies
    the three quantities by the reciprocal of |dot(perturbedNormal, view)|
    and the camera subpath divides them by |dot(geometricNormal, view)|. *)
Definition hitUpdateRule (e : HitEvent) : Prop :=
  let before := ev_before e in
  let after := ev_after e in
  let scaled :=
    if lengthFactorApplies before
    then (ps_dVCM before * segmentLengthSqr e)%f32 else ps_dVCM before in
  match ev_subpath e with
  | LightPath =>
      ps_dVCM after = (scaled * (f1 / absCosPerturbed e))%f32
      /\ ps_dVC after = (ps_dVC before * (f1 / absCosPerturbed e))%f32
      /\ ps_dVM after = (ps_dVM before * (f1 / absCosPerturbed e))%f32
  | CameraPath =>
      ps_dVCM after = (scaled / absCosGeometric e)%f32
      /\ ps_dVC after = (ps_dVC before / absCosGeometric e)%f32
      /\ ps_dVM after = (ps_dVM before / absCosGeometric e)%f32
  end.

End Views.

(* ===================================================================== *)
(** ** The radius schedule ([VCMKernel], [GenerateImage]) *)
(* ===================================================================== *)

(** [Math::Powf] of MathLib/FloatFuncs.h is outside these sources; the
    rounding of its result is not fixed by them. *)
Class PowerFunction := {
  Powf : float -> float -> float
}.

Module Schedule.

(** [#define VcmRadiusFactor_ 0.005f], [#define VcmRadiusAlpha_ 0.75f]: the
    binary32 values nearest to the decimals. *)
Definition VcmRadiusFactor_ : float := of_decimal 5 1000.
Definition VcmRadiusAlpha_ : float := of_decimal 75 100.

(** Line 1016:
    [integratorContext.vcmRadius = VcmRadiusFactor_ * sceneData->boundingSphere.w] *)
Definition vcmRadius (boundingSphere_w : float) : float :=
  (VcmRadiusFactor_ * boundingSphere_w)%f32.

(** Line 947: [float iterationIndex = index + 1.0f], where [index] is the
    [int64] that [Atomic::Increment64(integratorContext->vcmPassCount)]
    returned (line 946); the sum is a [float] sum, so [index] is converted
    to [float] first.  The counter starts at 0 (line 994) and is shared by
    the kernels of all threads: which value a kernel reads is not decided by
    the kernel, and [Atomic::Increment64] is outside these sources, so
    [index] is an input here. *)
Definition iterationIndex (index : Z) : float := (of_int index + f1)%f32.

(** Line 949:
    [vcmKernelRadius = vcmRadius / Math::Powf(iterationIndex, 0.5f * (1.0f - vcmRadiusAlpha))] *)
Definition vcmKernelRadius `{PowerFunction} (vcmRadius vcmRadiusAlpha : float)
    (index : Z) : float :=
  (vcmRadius
   / Powf (iterationIndex index) (of_decimal 5 10 * (f1 - vcmRadiusAlpha)))%f32.

(** [x] is a binary32 value: its mantissa and exponent are in range. *)
Definition binary32 (x : float) : Prop := valid_binary prec emax x = true.

End Schedule.

(* ===================================================================== *)
(** ** Names for statements about the rounding of [SFdiv] *)
(* ===================================================================== *)

(** The record [mrs] holds the quotient [N / D] cut at the unit: its
    mantissa is the integer part, and its two bits tell where the rest lies
    between 0, a half and 1. *)
Definition cuts (N D : Z) (mrs : shr_record) : Prop :=
  0 < D /\ 0 <= N - shr_m mrs * D < D
  /\ match shr_r mrs, shr_s mrs with
     | false, false => N - shr_m mrs * D = 0
     | false, true => 0 < N - shr_m mrs * D /\ 2 * (N - shr_m mrs * D) < D
     | true, false => 2 * (N - shr_m mrs * D) = D
     | true, true => D < 2 * (N - shr_m mrs * D)
     end.

(** The order of two records: by mantissa, then by the place of the rest. *)
Definition place (mrs : shr_record) : Z :=
  match shr_r mrs, shr_s mrs with
  | false, false => 0
  | false, true => 1
  | true, false => 2
  | true, true => 3
  end.

Definition below (a b : shr_record) : Prop :=
  shr_m a < shr_m b \/ (shr_m a = shr_m b /\ place a <= place b).

(** The end of [binary_round_aux]: the float of a mantissa and an
    exponent. *)
Definition pack (m e : Z) : spec_float :=
  match m with
  | 0 => S754_zero false
  | Zpos p => if e <=? emax - prec then S754_finite false p e else S754_infinity false
  | Zneg _ => S754_nan
  end.

(* ===================================================================== *)
(** ** Names for statements about subpaths, connections and surfaces *)
(* ===================================================================== *)

(** [a, a + 1, ..., a + n - 1] *)
Fixpoint countFrom (a : Z) (n : nat) : list Z :=
  match n with
  | O => []
  | S n' => a :: countFrom (a + 1) n'
  end.

(** The running totals of the lengths of consecutive segments, starting
    from [base]: what [pathEnds] holds when each segment is the part of
    [pathVertices] that one light subpath stored. *)
Fixpoint prefixSums {A} (base : Z) (segments : list (list A)) : list Z :=
  match segments with
  | [] => []
  | s :: rest => (base + Z.of_nat (length s)) :: prefixSums (base + Z.of_nat (length s)) rest
  end.

(** The elements [a[start], ..., a[start + n - 1]] of an array. *)
Definition vertexRange {A} (a : list A) (start : Z) (n : nat) : list A :=
  firstn n (skipn (Z.to_nat start) a).

Section MoreViews.
Context {ML : MathLib} {SL : SceneLib} {ED : ExternData} {TF : TextureFiltering}
        {CL : Collaborators}.

(** The vertices one light subpath stores have the path lengths 1, 2, 3, ...
    and the last of them was stored under the loop condition
    [pathLength + 2 < maxPathLength]. *)
Definition subpathVerticesOk (context : KernelContext) (segment : list VcmVertex) : Prop :=
  map vx_pathLength segment = countFrom 1 (length segment)
  /\ (segment = [] \/ Z.of_nat (length segment) + 2 < maxPathLength context).

(** The light vertices a camera vertex is connected to (line 880, negated):
    [lightVertex.pathLength + 1 + cameraPathState.pathLength <= maxPathLength]. *)
Definition connectable (context : KernelContext) (cameraPathState : PathState)
    (lightVertex : VcmVertex) : bool :=
  vx_pathLength lightVertex + 1 + ps_pathLength cameraPathState <=? maxPathLength context.

(** Line 884: [color += throughput * lightVertex.throughput * ConnectPathVertices(...)]. *)
Definition addConnection (context : KernelContext) (surface : SurfaceParameters)
    (cameraPathState : PathState) (vmWeight : float) (color : float3)
    (lightVertex : VcmVertex) : float3 :=
  (color + ps_throughput cameraPathState * vx_throughput lightVertex
           * ConnectPathVertices context surface cameraPathState lightVertex vmWeight)%v3.

(** A camera subpath meets a surface only under its loop condition
    [pathLength < maxPathLength] (line 837), and the update at the hit keeps
    the path length. *)
Definition cameraHitInBounds (context : KernelContext) (e : HitEvent) : Prop :=
  1 <= ps_pathLength (ev_before e) < maxPathLength context
  /\ ps_pathLength (ev_after e) = ps_pathLength (ev_before e).

(** The fields [CalculateSurfaceParams] fills from the hit and the
    material's flags (lines 193-203), and [view]. *)
Definition frameOf (s : SurfaceParameters) :=
  (s_tangentToWorld s, s_worldToTangent s,
   (s_rxOrigin s, s_rxDirection s, s_ryOrigin s, s_ryDirection s),
   s_geometricNormal s, s_position s, s_error s, s_materialFlags s, s_view s).

(** The partial derivatives of a surface (lines 208-238). *)
Definition derivativesOf (s : SurfaceParameters) :=
  (s_dpdu s, s_dpdv s, s_differentials s).

(** The sampled material of a surface (lines 241-252). *)
Definition shadingOf (s : SurfaceParameters) :=
  (s_emissive s, s_albedo s, s_specularColor s, s_roughness s, s_metalness s,
   s_shader s, s_ior s, s_perturbedNormal s).

(** Lines 205-206 *)
Definition canUseDifferentials (material : Material) (hit : HitParameters) : bool :=
  negb (Z.land (m_flags material) eHasTextures =? 0) && rayHasDifferentials hit.
Definition preserveDifferentials (material : Material) (hit : HitParameters) : bool :=
  negb (Z.land (m_flags material) ePreserveRayDifferentials =? 0) && rayHasDifferentials hit.

(** Lines 193-238: the surface as [CalculateSurfaceParams] has it before it
    samples the material. *)
Definition surfaceGeometry (v0 v1 v2 : VertexAuxiliaryData) (material : Material)
    (hit : HitParameters) (surface : SurfaceParameters) : SurfaceParameters :=
  let surface :=
    surfaceFrame (hitTangent v0 v1 v2 hit) (hitBitangent v0 v1 v2 hit)
                 (hitNormal v0 v1 v2 hit) hit material surface in
  let surface :=
    surfaceDerivatives v0 v1 v2 (canUseDifferentials material hit)
                       (preserveDifferentials material hit) surface in
  if canUseDifferentials material hit then
    set_differentials
      (CalculateSurfaceDifferentials hit (s_geometricNormal surface) (s_dpdu surface)
                                     (s_dpdv surface) (s_differentials surface))
      surface
  else surface.

(** Lines 210-212: the determinant of the triangle's texture coordinates. *)
Definition uvDeterminant (v0 v1 v2 : VertexAuxiliaryData) : float :=
  let duv02 := v2sub (vertexUV v0) (vertexUV v2) in
  let duv12 := v2sub (vertexUV v1) (vertexUV v2) in
  (f2x duv02 * f2y duv12 - f2y duv02 * f2x duv12)%f32.

(** Lines 504 and 539: the pixel [ConnectLightPathToCamera] adds to. *)
Definition splatIndex (context : KernelContext) (surface : SurfaceParameters) : Z :=
  let imagePosition := WorldToImage (camera context) (s_position surface) in
  wrap32 (i2y imagePosition * imageWidth context + i2x imagePosition).

(** The twister after one call of a collaborator that draws from it. *)
Definition twisterAfter {A} (draw : MersenneTwister -> A * MersenneTwister)
    (t : MersenneTwister) : MersenneTwister :=
  snd (draw t).

End MoreViews.

(* ===================================================================== *)
(** ** The loops over the pixels of an image *)
(* ===================================================================== *)

(** [for (uint i = start; ...; ++i)] with [n] iterations, on a value. *)
Fixpoint oforRange {T : Type} (n : nat) (i : Z) (body : Z -> T -> outcome T) (s : T)
    : outcome T :=
  match n with
  | O => Ok s
  | S n' => obind (body i s) (fun s' => oforRange n' (i + 1) body s')
  end.

(** [for (uint y = 0; y < height; ++y)
       for (uint x = 0; x < width; ++x) { uint index = y * width + x; body }]:
    the loop nest of [VCMKernel] (lines 969-974), of [VCM::GenerateImage]
    (lines 1042-1047), and of [PathTracerKernel] and [GenerateImage] in
    GIIntegration.cpp (lines 195-200 and 272-277 there). *)
Definition forEachPixel {T : Type} (width height : Z) (body : Z -> T -> outcome T) (s : T)
    : outcome T :=
  oforRange (Z.to_nat height) 0 (fun y s =>
    oforRange (Z.to_nat width) 0 (fun x s => body (wrap32 (y * width + x)) s) s) s.

Section ImageLoops.
#[local] Open Scope outcome_scope.

(** [resultImageData[index] += imageData[index]]: a kernel adds its image
    to the image of the integrator. *)
Definition AccumulateImage (width height : Z) (imageData resultImageData : list float3)
    : outcome (list float3) :=
  forEachPixel width height (fun index resultImageData =>
    old <- readAt resultImageData index ;;
    add <- readAt imageData index ;;
    writeAt resultImageData index (old + add)%v3) resultImageData.

(** [imageData[index] = imageData[index] * (1.0f / pathsEvaluatedPerPixel)]
    ([1.0f / RaysPerPixel_] in GIIntegration.cpp): the integer is converted
    to [float]. *)
Definition NormalizeImage (width height : Z) (pathsEvaluatedPerPixel : Z)
    (imageData : list float3) : outcome (list float3) :=
  forEachPixel width height (fun index imageData =>
    old <- readAt imageData index ;;
    writeAt imageData index (v3scaler old (f1 / of_int pathsEvaluatedPerPixel)%f32))
    imageData.

(** One pixel of an image is replaced by a function of its old value. *)
Definition updatePixel (f : Z -> float3 -> outcome float3) (index : Z) (a : list float3)
    : outcome (list float3) :=
  old <- readAt a index ;;
  new <- f index old ;;
  writeAt a index new.

End ImageLoops.

(* ===================================================================== *)
(** ** The path tracing integrator (GIIntegration.cpp, part_001) *)
(* ===================================================================== *)

(** The path tracing integrator (GIIntegration.cpp). *)
Module GIIntegration.

(** [#define SampleSpecificTexel_ 0 && Debug_], hence
    [#define EnableMultiThreading_ 1] and [#define RaysPerPixel_ 256]. *)
Definition EnableMultiThreading_ : bool := true.
Definition RaysPerPixel_ : Z := 256.

(** [GenerateImage]: [const uint additionalTthreadCount = 7] with
    multithreading, and
    [integratorContext.raysPerPixel = RaysPerPixel_ / (additionalTthreadCount + 1)]. *)
Definition additionalTthreadCount : Z := if EnableMultiThreading_ then 7 else 0.
Definition raysPerPixel : Z := RaysPerPixel_ / (additionalTthreadCount + 1).

(** The members of its [KernelContext] that the code of this file reads
    and writes itself: the ray stack.  The image and the twister are used
    through the shading functions only; they are [k_rest]. *)
Record KernelState {Rest : Type} := mkKernelState {
  k_rayStack : list Ray;
  k_rayStackCount : Z;
  k_rest : Rest
}.
Arguments KernelState : clear implicits.

(** The shading functions and the camera, outside these sources.  Each may
    change the whole kernel state. *)
Class Shading `{ExternData} := {
  KernelRest : Type;
  k_sceneData : KernelRest -> SceneContext;
  ShadeSurfaceHit : KernelState KernelRest -> HitParameters -> KernelState KernelRest;
  SampleIbl : IblResource -> float3 -> float3;
  AccumulatePixelEnergy :
    KernelState KernelRest -> Ray -> float3 -> KernelState KernelRest;
  InsertRay : KernelState KernelRest -> Ray -> KernelState KernelRest;
  (** [JitteredCameraRay(context->camera, context->twister, pixelIndex, x, y)] *)
  JitteredCameraRay : KernelState KernelRest -> Z -> float -> float
                      -> Ray * KernelState KernelRest
}.

Section Kernel.
Context {ML : MathLib} {ED : ExternData} {CL : Collaborators} {SH : Shading}.

#[local] Open Scope outcome_scope.

(** Lines 68-111 *)
Definition RayPick (rtcScene : RTCScene) (ray : Ray) : option HitParameters :=
  let rayhit :=
    {| rh_ray := {| org_x := f3x (ray_origin ray);
                    org_y := f3y (ray_origin ray);
                    org_z := f3z (ray_origin ray);
                    dir_x := f3x (ray_direction ray);
                    dir_y := f3y (ray_direction ray);
                    dir_z := f3z (ray_direction ray);
                    tnear := of_decimal 1 100000;
                    tfar := FloatMax_ |};
       (* u and v are not set by the caller *)
       rh_hit := {| geomID := RTC_INVALID_GEOMETRY_ID;
                    primID := RTC_INVALID_GEOMETRY_ID;
                    hit_u := f0; hit_v := f0 |} |} in
  let rayhit := rtcIntersect1 rtcScene rayhit in
  if geomID (rh_hit rayhit) =? wrap32 (-1) then None
  else
    let r := rh_ray rayhit in
    let position :=
      mkFloat3 (org_x r + tfar r * f3x (ray_direction ray))%f32
               (org_y r + tfar r * f3y (ray_direction ray))%f32
               (org_z r + tfar r * f3z (ray_direction ray))%f32 in
    let kErr := (of_int 32 * of_decimal 119209 1000000000000)%f32 in
    Some {| h_position := position;
            h_baryCoords := mkFloat2 (hit_u (rh_hit rayhit)) (hit_v (rh_hit rayhit));
            h_primId := primID (rh_hit rayhit);
            h_error := (kErr * Max (Max (Absf (f3x position)) (Absf (f3y position)))
                                   (Max (Absf (f3z position)) (tfar r)))%f32;
            h_viewDirection := (- ray_direction ray)%v3;
            h_rxOrigin := ray_rxOrigin ray;
            h_rxDirection := ray_rxDirection ray;
            h_ryOrigin := ray_ryOrigin ray;
            h_ryDirection := ray_ryDirection ray;
            h_pixelIndex := ray_pixelIndex ray;
            h_throughput := ray_throughput ray;
            h_bounceCount := ray_bounceCount ray |}.

(** Lines 114-132.  The shading functions may push rays, so the loop has
    fuel: one unit for each ray taken from the stack. *)
Fixpoint EvaluateRayBatch (fuel : nat) (context : KernelState KernelRest)
    : outcome (KernelState KernelRest) :=
  if k_rayStackCount context >? 0 then
    match fuel with
    | O => OutOfFuel
    | S fuel' =>
        ray <- readAt (k_rayStack context) (k_rayStackCount context - 1) ;;
        let context :=
          {| k_rayStack := k_rayStack context;
             k_rayStackCount := k_rayStackCount context - 1;
             k_rest := k_rest context |} in
        match RayPick (rtcScene (k_sceneData (k_rest context))) ray with
        | Some hit => EvaluateRayBatch fuel' (ShadeSurfaceHit context hit)
        | None =>
            let sample := SampleIbl (ibl (k_sceneData (k_rest context))) (ray_direction ray) in
            EvaluateRayBatch fuel' (AccumulatePixelEnergy context ray sample)
        end
    end
  else Ok context.

(** Lines 135-141 *)
Definition CreatePrimaryRay (fuel : nat) (context : KernelState KernelRest)
    (pixelIndex x y : Z) : outcome (KernelState KernelRest) :=
  let '(ray, context) := JitteredCameraRay context (wrap32 pixelIndex) (of_int x) (of_int y) in
  let context := InsertRay context ray in
  EvaluateRayBatch fuel context.

(** Lines 144-161.  The second component lists the calls of
    [CreatePrimaryRay]: pixel index, [x], [y]. *)
Definition RayCastImageBlock (fuel : nat) (width height raysPerPixel : Z)
    (kernelContext : KernelState KernelRest)
    : outcome (KernelState KernelRest * list (Z * Z * Z)) :=
  oforRange (Z.to_nat height) 0 (fun y s =>
    oforRange (Z.to_nat width) 0 (fun x s =>
      oforRange (Z.to_nat raysPerPixel) 0 (fun scan '(context, calls) =>
        context <- CreatePrimaryRay fuel context (wrap32 (y * width + x)) x y ;;
        Ok (context, calls ++ [(wrap32 (y * width + x), x, y)])) s) s)
    (kernelContext, []).

End Kernel.

(** Lines 74-85: the query [RayPick] hands to [rtcIntersect1]. *)
Definition rayQuery `{MathLib} (ray : Ray) : RTCRayHit :=
  {| rh_ray := {| org_x := f3x (ray_origin ray);
                  org_y := f3y (ray_origin ray);
                  org_z := f3z (ray_origin ray);
                  dir_x := f3x (ray_direction ray);
                  dir_y := f3y (ray_direction ray);
                  dir_z := f3z (ray_direction ray);
                  tnear := of_decimal 1 100000;
                  tfar := FloatMax_ |};
     rh_hit := {| geomID := RTC_INVALID_GEOMETRY_ID;
                  primID := RTC_INVALID_GEOMETRY_ID;
                  hit_u := f0; hit_v := f0 |} |}.

(** The calls of [CreatePrimaryRay] that the three loops of
    [RayCastImageBlock] make, in order. *)
Definition primaryRays (width height raysPerPixel : Z) : list (Z * Z * Z) :=
  flat_map (fun y =>
    flat_map (fun x => repeat (wrap32 (y * width + x), x, y) (Z.to_nat raysPerPixel))
             (countFrom 0 (Z.to_nat width)))
    (countFrom 0 (Z.to_nat height)).

(** How many of the calls are for the pixel [index]. *)
Definition raysOfPixel (index : Z) (calls : list (Z * Z * Z)) : nat :=
  length (filter (fun c => fst (fst c) =? index) calls).

End GIIntegration.

(* ===================================================================== *)
(** ** The allocation tracker (MemoryAllocationWindows.cpp) *)
(* ===================================================================== *)

(** The allocation tracker of SystemLib/MemoryAllocationWindows.cpp
    ([class CAllocationTracking], compiled under
    [EnableManualAllocationTracking_]).  Pointers are integers; a call runs
    between [EnterSpinLock] and [LeaveSpinLock], alone. *)
Module AllocationTracking.

(** [#define AllocationTrackingIncrement_ 4096] *)
Definition AllocationTrackingIncrement_ : Z := 4096.

(** [uint64] wrap-around. *)
Definition wrap64 (z : Z) : Z := z mod 2 ^ 64.

Record Allocation := mkAllocation {
  al_address : Z;
  al_name : Z;
  al_file : Z;
  al_line : Z;
  al_index : Z;
  al_size : Z
}.

(** The members of the class.  [allocations] is the array of [size]
    elements; the first [used] of them are in use. *)
Record CAllocationTracking := mkCAllocationTracking {
  tr_index : Z;
  tr_size : Z;
  tr_used : Z;
  tr_allocations : list Allocation;
  tr_allocatedMemory : Z
}.

Section Tracker.
(** What element [i] of a [new Allocation[n]] holds before it is assigned. *)
Variable uninitialised : nat -> Allocation.

Definition newArray (n : nat) : list Allocation := map uninitialised (seq 0 n).

#[local] Open Scope outcome_scope.

(** Lines 53-62 *)
Definition create : CAllocationTracking :=
  {| tr_size := AllocationTrackingIncrement_;
     tr_used := 0;
     tr_allocations := newArray (Z.to_nat AllocationTrackingIncrement_);
     tr_index := 0;
     tr_allocatedMemory := 0 |}.

(** Lines 88-96: the array grows by [AllocationTrackingIncrement_] when it
    is full; [Memory::Copy] moves the [used] elements. *)
Definition grow (t : CAllocationTracking) : outcome CAllocationTracking :=
  if tr_used t =? tr_size t then
    let size := wrap32 (tr_size t + AllocationTrackingIncrement_) in
    if (size <? tr_used t) || (Z.of_nat (length (tr_allocations t)) <? tr_used t) then Fault
    else
      Ok {| tr_index := tr_index t;
            tr_size := size;
            tr_used := tr_used t;
            tr_allocations :=
              firstn (Z.to_nat (tr_used t)) (tr_allocations t)
              ++ skipn (Z.to_nat (tr_used t)) (newArray (Z.to_nat size));
            tr_allocatedMemory := tr_allocatedMemory t |}
  else Ok t.

(** Lines 85-121 *)
Definition AddAllocation (t : CAllocationTracking)
    (address allocationSize name file line : Z) : outcome CAllocationTracking :=
  t <- grow t ;;
  allocations <-
    writeAt (tr_allocations t) (tr_used t)
            {| al_address := address; al_name := name; al_file := file; al_line := line;
               al_index := tr_index t; al_size := allocationSize |} ;;
  Ok {| tr_index := wrap64 (tr_index t + 1);
        tr_size := tr_size t;
        tr_used := wrap32 (tr_used t + 1);
        tr_allocations := allocations;
        tr_allocatedMemory := wrap64 (tr_allocatedMemory t + allocationSize) |}.

(** Lines 129-149: the scan for the address; [n] elements are left to
    look at.  The element found is overwritten with the last one in use. *)
Fixpoint removeScan (n : nat) (scan : Z) (t : CAllocationTracking) (address : Z)
    : outcome (bool * CAllocationTracking) :=
  match n with
  | O => Ok (false, t)
  | S n' =>
      a <- readAt (tr_allocations t) scan ;;
      if al_address a =? address then
        last <- readAt (tr_allocations t) (wrap32 (tr_used t - 1)) ;;
        allocations <- writeAt (tr_allocations t) scan last ;;
        Ok (true,
            {| tr_index := tr_index t;
               tr_size := tr_size t;
               tr_used := tr_used t;
               tr_allocations := allocations;
               tr_allocatedMemory := wrap64 (tr_allocatedMemory t - al_size a) |})
      else removeScan n' (scan + 1) t address
  end.

(** Lines 124-155.  The flag is [found], which [AssertMsg_] checks. *)
Definition RemoveAllocation (t : CAllocationTracking) (address : Z)
    : outcome (bool * CAllocationTracking) :=
  ' (found, t) <- removeScan (Z.to_nat (tr_used t)) 0 t address ;;
  Ok (found,
      {| tr_index := tr_index t;
         tr_size := tr_size t;
         tr_used := wrap32 (tr_used t - (if found then 1 else 0));
         tr_allocations := tr_allocations t;
         tr_allocatedMemory := tr_allocatedMemory t |}).

End Tracker.

(** The allocations a tracker holds, in the order of the array. *)
Definition tracked (t : CAllocationTracking) : list Allocation :=
  firstn (Z.to_nat (tr_used t)) (tr_allocations t).

Definition totalSize (l : list Allocation) : Z :=
  fold_right (fun a s => al_size a + s) 0 l.

(** The books are in order. *)
Definition wellFormed (t : CAllocationTracking) : Prop :=
  0 <= tr_used t <= tr_size t
  /\ tr_size t = Z.of_nat (length (tr_allocations t))
  /\ tr_size t < 2 ^ 32
  /\ tr_allocatedMemory t = wrap64 (totalSize (tracked t)).

End AllocationTracking.

(* ===================================================================== *)
(** ** More example data *)
(* ===================================================================== *)

(** Inputs on which the embedded code is run: a pass whose paths are too
    short to store a vertex, a triangle without a texture parametrisation,
    a splat, a kernel state for the path tracing integrator and a tracker. *)
Module Scenes.
Import Reference.

(** The example scene with [maxPathLength = 3]. *)
Definition shortContext : KernelContext :=
  mkKernelContext _ (mkSceneContext _ plates (mkTestScene (Some f4)) tt) topCamera 1 1 3.

Abbreviation shortPass :=
  (VertexConnectionAndMerging shortContext [] f1 (of_decimal 1 100) 1 1 world).

Definition shortResult : PassResult :=
Eval vm_compute in
  match shortPass with
  | Ok (r, _) => r
  | _ => mkPassResult [] f0 [] [] []
  end.

Definition shortWorld : World :=
Eval vm_compute in
  match shortPass with
  | Ok (_, w) => w
  | _ => world
  end.

(** The two plates again, but all corners have the texture coordinate
    (0, 0), and the material is flagged [eHasTextures]. *)
Definition flatCorner (x y z nz : float) : VertexAuxiliaryData :=
  mkVertexAuxiliaryData x y z f0 f0 nz f1 f0 f0 f1 f0 f0 0.

Definition textured : Material :=
  mkMaterial eHasTextures (mkFloat3 half half half) f1 f0 (of_decimal 3 2) 0
             (wrap32 (-1)) 0 (wrap32 (-1)) (wrap32 (-1)) (wrap32 (-1)) (wrap32 (-1)).

Definition flatPlates : SceneResource :=
  mkSceneResource _
    (mkSceneResourceData
       [0; 1; 2; 3; 4; 5]
       [flatCorner f0 f0 f0 f1; flatCorner f1 f0 f0 f1; flatCorner f0 f1 f0 f1;
        flatCorner f0 f0 f4 (- f1)%f32; flatCorner f1 f0 f4 (- f1)%f32;
        flatCorner f0 f1 f4 (- f1)%f32]
       [textured]
       (mkFloat4 f0 f0 f2 f4))
    [mkTextureResource _ dark].

Definition flatContext : KernelContext :=
  mkKernelContext _ (mkSceneContext _ flatPlates (mkTestScene (Some f4)) tt) topCamera 1 1 10.

(** A hit on the lower plate by a ray that carries differentials. *)
Definition hitWithDifferentials : HitParameters :=
  mkHitParameters (mkFloat3 quarter quarter f0) (mkFloat2 quarter quarter) 0
                  (of_decimal 1 1000000) (mkFloat3 f0 f0 f1)
                  (mkFloat3 quarter quarter f2) (mkFloat3 quarter f0 (- f1)%f32)
                  (mkFloat3 quarter quarter f2) (mkFloat3 f0 quarter (- f1)%f32)
                  0 float3_One 0.

Definition flatSurface : SurfaceParameters :=
Eval vm_compute in
  match CalculateSurfaceParams flatContext hitWithDifferentials zeroSurface with
  | Ok (_, s) => s
  | _ => zeroSurface
  end.

(** The two plates with a texture for every lookup of the material:
    texture 0 is the albedo, 1 the emissive colour, 2 the specular colour,
    3 the roughness, 4 the metalness and 5 the normal map, whose colour
    (3/4, 1/2, 1) stands for the tangent space normal (1/2, 0, 1): the
    perturbed normal of a plate leans towards its tangent. *)
Definition painted : Material :=
  mkMaterial 0 (mkFloat3 half half half) f1 half (of_decimal 3 2) 0 1 0 2 3 4 5.

Definition eighth : float := of_decimal 1 8.

Definition paintedPlates : SceneResource :=
  mkSceneResource _
    (mkSceneResourceData
       [0; 1; 2; 3; 4; 5]
       [corner f0 f0 f0 f1; corner f1 f0 f0 f1; corner f0 f1 f0 f1;
        corner f0 f0 f4 (- f1)%f32; corner f1 f0 f4 (- f1)%f32; corner f0 f1 f4 (- f1)%f32]
       [painted]
       (mkFloat4 f0 f0 f2 f4))
    [mkTextureResource _ dark;
     mkTextureResource _ (mkFloat3 half quarter eighth);
     mkTextureResource _ (mkFloat3 quarter quarter quarter);
     mkTextureResource _ (mkFloat3 half f0 f0);
     mkTextureResource _ (mkFloat3 quarter f0 f0);
     mkTextureResource _ (mkFloat3 (of_decimal 3 4) half f1)].

Definition paintedContext : KernelContext :=
  mkKernelContext _ (mkSceneContext _ paintedPlates (mkTestScene (Some f4)) tt)
                  topCamera 1 1 10.

Definition paintedSurface : SurfaceParameters :=
Eval vm_compute in
  match CalculateSurfaceParams paintedContext hit zeroSurface with
  | Ok (_, s) => s
  | _ => zeroSurface
  end.

(** One pass over the painted plates. *)
Abbreviation paintedPass :=
  (VertexConnectionAndMerging paintedContext [] f1 (of_decimal 1 100) 1 1 world).

Definition paintedResult : PassResult :=
Eval vm_compute in
  match paintedPass with
  | Ok (r, _) => r
  | _ => mkPassResult [] f0 [] [] []
  end.

Definition paintedWorld : World :=
Eval vm_compute in
  match paintedPass with
  | Ok (_, w) => w
  | _ => world
  end.

(** Surfaces for [OffsetRayOrigin], all with the error 1/4 or less: at the
    origin with the normal +z; at (1, 1, 1) with the normal +z and an error
    of 1e-9; at the origin with a normal of length 2. *)
Definition nearSurface : SurfaceParameters :=
  set_error quarter (set_geometricNormal (mkFloat3 f0 f0 f1) zeroSurface).

Definition farSurface : SurfaceParameters :=
  set_position float3_One
    (set_error (of_decimal 1 1000000000)
       (set_geometricNormal (mkFloat3 f0 f0 f1) zeroSurface)).

Definition stretchedSurface : SurfaceParameters :=
  set_error quarter (set_geometricNormal (mkFloat3 f0 f0 f2) zeroSurface).

(** A power function for the radius schedule: [x ^ 0.125] as three square
    roots, each rounded to nearest.  The schedule uses no other exponent. *)
#[export] Instance powerFunction : PowerFunction := {|
  Powf := fun x y =>
    if (y =? of_decimal 1 8)%f32
    then SFsqrt prec emax (SFsqrt prec emax (SFsqrt prec emax x))
    else S754_nan
|}.

(** The world after the light vertex on the lower plate is connected to
    the camera. *)
Definition splatWorld : World :=
Eval vm_compute in
  match ConnectLightPathToCamera context freshPath lowerSurface f1 f1 world with
  | Ok (_, w) => w
  | _ => world
  end.

(** Stand-ins for the shading functions of the path tracing integrator:
    a hit and a miss leave the kernel as it is, a new ray goes on top of
    the stack, and the camera ray of a pixel starts above the pixel. *)
#[export] Instance shading : GIIntegration.Shading := {|
  GIIntegration.KernelRest := SceneContext;
  GIIntegration.k_sceneData := fun rest => rest;
  GIIntegration.ShadeSurfaceHit := fun context _ => context;
  GIIntegration.SampleIbl := fun _ direction => direction;
  GIIntegration.AccumulatePixelEnergy := fun context _ _ => context;
  GIIntegration.InsertRay := fun context ray =>
    {| GIIntegration.k_rayStack :=
         firstn (Z.to_nat (GIIntegration.k_rayStackCount context))
                (GIIntegration.k_rayStack context) ++ [ray];
       GIIntegration.k_rayStackCount := GIIntegration.k_rayStackCount context + 1;
       GIIntegration.k_rest := GIIntegration.k_rest context |};
  GIIntegration.JitteredCameraRay := fun context pixelIndex x y =>
    (plainRay (mkFloat3 x y f2) (mkFloat3 f0 f0 (- f1)%f32) float3_One pixelIndex 0,
     context)
|}.

Definition kernel : GIIntegration.KernelState SceneContext :=
  GIIntegration.mkKernelState _ [] 0 (sceneData context).

(** A ray from the camera's place straight down, alone on the stack. *)
Definition downRay : Ray :=
  plainRay (mkFloat3 quarter quarter f2) (mkFloat3 f0 f0 (- f1)%f32) float3_One 0 0.

Definition oneRay : GIIntegration.KernelState SceneContext :=
Eval vm_compute in GIIntegration.InsertRay kernel downRay.

(** An image of two pixels in one row, two rays for each pixel. *)
Definition blockResult
  : GIIntegration.KernelState SceneContext * list (Z * Z * Z) :=
Eval vm_compute in
  match GIIntegration.RayCastImageBlock 1 2 1 2 kernel with
  | Ok r => r
  | _ => (kernel, [])
  end.

(** A tracker whose fresh arrays hold zeros, with two allocations. *)
Definition zeros (_ : nat) : AllocationTracking.Allocation :=
  AllocationTracking.mkAllocation 0 0 0 0 0 0.

Definition twoAllocations : AllocationTracking.CAllocationTracking :=
Eval vm_compute in
  match AllocationTracking.AddAllocation zeros (AllocationTracking.create zeros)
                                         4096 16 0 0 10 with
  | Ok t =>
      match AllocationTracking.AddAllocation zeros t 8192 32 0 0 20 with
      | Ok t' => t'
      | _ => t
      end
  | _ => AllocationTracking.create zeros
  end.

End Scenes.

(* ===================================================================== *)
(** * Properties *)
(* ===================================================================== *)

(** ** Signs of binary32 results *)

Lemma signClear_notBelowZero (x : float) : signClear x -> notBelowZero x.
Proof.
  unfold notBelowZero; destruct x as [s | s | | s m e]; simpl; intros H;
    try subst s; reflexivity.
Qed.

Lemma notBelowZero_cases (x : float) :
  notBelowZero x ->
  x = S754_nan \/ (exists s, x = S754_zero s) \/ x = S754_infinity false
  \/ exists m e, x = S754_finite false m e.
Proof.
  unfold notBelowZero; destruct x as [s | s | | s m e]; simpl; intros H.
  - right; left; eauto.
  - destruct s; [discriminate | auto].
  - auto.
  - destruct s; [discriminate | right; right; right; eauto].
Qed.

Lemma signClear_cases (x : float) :
  signClear x ->
  x = S754_nan \/ x = S754_zero false \/ x = S754_infinity false
  \/ exists m e, x = S754_finite false m e.
Proof.
  destruct x as [s | s | | s m e]; simpl; intros H; try subst s; eauto 6.
Qed.

(** Rounding keeps the sign it is given. *)
Lemma binary_round_aux_signClear (m e : Z) (l : location) :
  signClear (binary_round_aux prec emax false m e l).
Proof.
  unfold binary_round_aux.
  destruct (shr_fexp prec emax m e l) as [mrs' e'].
  destruct (shr_fexp prec emax _ e' loc_Exact) as [mrs'' e''].
  destruct (shr_m mrs''); simpl; auto.
  destruct (e'' <=? 104); simpl; auto.
Qed.

Lemma fmul_notBelowZero (a b : float) :
  notBelowZero a -> notBelowZero b -> notBelowZero (a * b)%f32.
Proof.
  intros Ha Hb.
  destruct (notBelowZero_cases a Ha) as [-> | [[sa ->] | [-> | (ma & ea & ->)]]];
    destruct (notBelowZero_cases b Hb) as [-> | [[sb ->] | [-> | (mb & eb & ->)]]];
    try reflexivity;
    try (unfold notBelowZero; simpl; destruct (xorb _ _); reflexivity).
  apply signClear_notBelowZero. unfold fmul; simpl. apply binary_round_aux_signClear.
Qed.

Lemma fdiv_notBelowZero (a c : float) :
  notBelowZero a -> signClear c -> notBelowZero (a / c)%f32.
Proof.
  intros Ha Hc.
  destruct (notBelowZero_cases a Ha) as [-> | [[sa ->] | [-> | (ma & ea & ->)]]];
    destruct (signClear_cases c Hc) as [-> | [-> | [-> | (mc & ec & ->)]]];
    try reflexivity;
    try (unfold notBelowZero; simpl; destruct sa; reflexivity).
  apply signClear_notBelowZero. unfold fdiv; simpl.
  destruct (SFdiv_core_binary prec emax (Z.pos ma) ea (Z.pos mc) ec) as [[mz ez] lz].
  apply binary_round_aux_signClear.
Qed.

(** A value that is not below zero is a NaN or at least zero. *)
Lemma notBelowZero_nan_or_ge (x : float) :
  notBelowZero x -> x = S754_nan \/ (f0 <=? x)%f32 = true.
Proof.
  intros H.
  destruct (notBelowZero_cases x H) as [-> | [[s ->] | [-> | (m & e & ->)]]]; auto.
Qed.

Lemma fmul_self_signClear (x : float) : signClear (x * x)%f32.
Proof.
  destruct x as [s | s | | s m e]; simpl; try (destruct s; reflexivity); auto.
  unfold fmul; simpl. rewrite xorb_nilpotent. apply binary_round_aux_signClear.
Qed.

Lemma binary_round_signClear (m : positive) (e : Z) :
  signClear (binary_round prec emax false m e).
Proof.
  unfold binary_round.
  destruct (shl_align m e _) as [mz ez]. apply binary_round_aux_signClear.
Qed.

Lemma fadd_signClear (a b : float) : signClear a -> signClear b -> signClear (a + b)%f32.
Proof.
  intros Ha Hb.
  destruct (signClear_cases a Ha) as [-> | [-> | [-> | (ma & ea & ->)]]];
    destruct (signClear_cases b Hb) as [-> | [-> | [-> | (mb & eb & ->)]]];
    try exact I; try reflexivity.
  unfold fadd, SFadd, cond_Zopp, binary_normalize.
  destruct (shl_align ma ea (Z.min ea eb)) as [pa ea'].
  destruct (shl_align mb eb (Z.min ea eb)) as [pb eb'].
  cbn [fst Z.add]. apply binary_round_signClear.
Qed.

(* ===================================================================== *)
(** ** [ConnectPathVertices]: the geometry term *)
(* ===================================================================== *)

Section GeometryTerm.
Context {ML : MathLib} {MLL : MathLibLaws} {SL : SceneLib} {ED : ExternData}
        {TF : TextureFiltering} {CL : Collaborators}.

(** C9, as the code has it: the geometry term of a vertex connection,
    [cosThetaLight * cosThetaCamera / distanceSquared], is never below
    zero: it is a NaN or at least zero.  Hence the test
    [geometryTerm < 0.0f] of [ConnectPathVertices] is false for every pair
    of vertices, and the branch that discards the connection is never
    taken. *)
Theorem connectionGeometryTerm_not_negative
    (surface : SurfaceParameters) (lightVertex : VcmVertex) :
  (connectionGeometryTerm surface lightVertex <? f0)%f32 = false
  /\ (connectionGeometryTerm surface lightVertex = S754_nan
      \/ (f0 <=? connectionGeometryTerm surface lightVertex)%f32 = true).
Proof.
  assert (H : notBelowZero (connectionGeometryTerm surface lightVertex)).
  { unfold connectionGeometryTerm, connectionDistanceSquared.
    apply fdiv_notBelowZero.
    - apply fmul_notBelowZero; apply Absf_not_below_zero.
    - apply LengthSquared_signClear. }
  split; [exact H | apply notBelowZero_nan_or_ge, H].
Qed.

End GeometryTerm.


(* ===================================================================== *)
(** ** [OffsetRayOrigin] *)
(* ===================================================================== *)

Section Offset.
Context {ML : MathLib}.

(** The sign given to the rounding is the sign of its result. *)
Lemma binary_round_aux_opp (s : bool) (m e : Z) (l : location) :
  binary_round_aux prec emax (negb s) m e l
  = SFopp (binary_round_aux prec emax s m e l).
Proof.
  unfold binary_round_aux.
  destruct (shr_fexp prec emax m e l) as [mrs' e'].
  destruct (shr_fexp prec emax _ e' loc_Exact) as [mrs'' e''].
  destruct (shr_m mrs''); simpl; auto.
  destruct (e'' <=? 104); reflexivity.
Qed.

Lemma fmul_fneg_l (a b : float) : (- a * b)%f32 = (- (a * b))%f32.
Proof.
  destruct a as [sa | sa | | sa ma ea], b as [sb | sb | | sb mb eb];
    try reflexivity;
    try (destruct sa, sb; reflexivity).
  unfold fmul, fneg; simpl.
  rewrite <- binary_round_aux_opp. destruct sa, sb; reflexivity.
Qed.

Lemma fneg_notAboveZero (x : float) : notBelowZero x -> notAboveZero (- x)%f32.
Proof.
  unfold notBelowZero, notAboveZero.
  destruct x as [s | s | | s m e]; intros H; try reflexivity;
    destruct s; try reflexivity; discriminate H.
Qed.

Lemma f1_notBelowZero : notBelowZero f1.
Proof. reflexivity. Qed.


End Offset.

(* ===================================================================== *)
(** ** [SampleBsdfScattering] *)
(* ===================================================================== *)

Section Scattering.
Context {ML : MathLib} {SL : SceneLib} {ED : ExternData} {TF : TextureFiltering}
        {CL : Collaborators}.

(** C3: when [SampleBsdfScattering] succeeds (returns [true]), the BSDF
    sampler produced a sample of non-zero reflectance, and with
    [cosThetaBsdf = |dot(wi, perturbedNormal)|] the path state is updated
    exactly by
      dVC  <- (cosThetaBsdf / forwardPdfW) * (dVC * reversePdfW + dVCM + vmWeight)
      dVM  <- (cosThetaBsdf / forwardPdfW) * (dVM * reversePdfW + dVCM * vcWeight + 1)
      dVCM <- 1 / forwardPdfW
    (each right-hand side reads the old values), the throughput is
    multiplied by the reflectance, and [pathLength] is incremented by one
    (in [uint32]; the plain successor below [2^32 - 1]).  The position
    becomes the surface's, the direction [wi]; [isAreaMeasure] is kept. *)
Theorem SampleBsdfScattering_update
    (context : KernelContext) (surface : SurfaceParameters) (vmWeight vcWeight : float)
    (state state' : PathState) (w w' : World) :
  SampleBsdfScattering context surface vmWeight vcWeight state w = Ok ((true, state'), w') ->
  exists sample : BsdfSample,
    fst (SampleBsdfFunction context surface (- ps_direction state)%v3 (twister w))
      = Some sample
    /\ v3isZero (bs_reflectance sample) = false
    /\ let cosThetaBsdf := Absf (Dot (bs_wi sample) (s_perturbedNormal surface)) in
       ps_dVC state'
       = ((cosThetaBsdf / bs_forwardPdfW sample)
          * (ps_dVC state * bs_reversePdfW sample + ps_dVCM state + vmWeight))%f32
       /\ ps_dVM state'
          = ((cosThetaBsdf / bs_forwardPdfW sample)
             * (ps_dVM state * bs_reversePdfW sample + ps_dVCM state * vcWeight + f1))%f32
       /\ ps_dVCM state' = (f1 / bs_forwardPdfW sample)%f32
       /\ ps_throughput state' = (ps_throughput state * bs_reflectance sample)%v3
       /\ ps_pathLength state' = wrap32 (ps_pathLength state + 1)
       /\ (0 <= ps_pathLength state < 2 ^ 32 - 1 ->
           ps_pathLength state' = ps_pathLength state + 1)
       /\ ps_position state' = s_position surface
       /\ ps_direction state' = bs_wi sample
       /\ ps_isAreaMeasure state' = ps_isAreaMeasure state.
Proof.
  unfold SampleBsdfScattering, bind, random, ret.
  destruct (SampleBsdfFunction context surface (- ps_direction state)%v3 (twister w))
    as [[sample | ] t] eqn:Hs; [ | intros H; discriminate H].
  destruct (v3isZero (bs_reflectance sample)) eqn:Hz; [intros H; discriminate H | ].
  intros H. injection H as Hst _. subst state'.
  exists sample. split; [reflexivity | split; [exact Hz | ]].
  cbn. repeat split.
  intros Hrange. unfold wrap32. apply Z.mod_small. lia.
Qed.

(** A failed scattering step leaves the path state as it was. *)
Lemma SampleBsdfScattering_failure
    (context : KernelContext) (surface : SurfaceParameters) (vmWeight vcWeight : float)
    (state state' : PathState) (w w' : World) :
  SampleBsdfScattering context surface vmWeight vcWeight state w = Ok ((false, state'), w') ->
  state' = state.
Proof.
  unfold SampleBsdfScattering, bind, random, ret.
  destruct (SampleBsdfFunction _ _ _ _) as [[sample | ] t].
  - destruct (v3isZero (bs_reflectance sample)); intros H; injection H; auto.
    intros; discriminate.
  - intros H; injection H; auto.
Qed.

End Scattering.

(* ===================================================================== *)
(** ** [CalculateSurfaceParams] *)
(* ===================================================================== *)

Lemma readAt_not_OutOfFuel {A} (a : list A) (i : Z) : readAt a i <> OutOfFuel.
Proof.
  unfold readAt. destruct (i <? 0); [discriminate | ].
  destruct (nth_error a (Z.to_nat i)); discriminate.
Qed.

Lemma readAt_in_range {A} (a : list A) (i : Z) :
  0 <= i < Z.of_nat (length a) -> exists v, readAt a i = Ok v.
Proof.
  intros [Hlo Hhi]. unfold readAt.
  destruct (i <? 0) eqn:E; [apply Z.ltb_lt in E; lia | ].
  destruct (nth_error a (Z.to_nat i)) as [v | ] eqn:En; [eauto | ].
  apply nth_error_None in En. lia.
Qed.

Lemma readAt_Ok_range {A} (a : list A) (i : Z) (v : A) :
  readAt a i = Ok v -> 0 <= i < Z.of_nat (length a).
Proof.
  unfold readAt. destruct (i <? 0) eqn:E; [discriminate | ].
  apply Z.ltb_ge in E.
  destruct (nth_error a (Z.to_nat i)) eqn:En; [ | discriminate].
  intros _. assert (Hn : nth_error a (Z.to_nat i) <> None) by congruence.
  apply nth_error_Some in Hn. lia.
Qed.

Section SurfaceFacts.
Context {ML : MathLib} {SL : SceneLib} {ED : ExternData} {TF : TextureFiltering}.

(** With the sRGB flag off (and EWA filtering compiled out) a colour lookup
    is the default value, or the triangle-filtered sample as it is. *)
Lemma SampleTextureFloat3_linear
    (surface : SurfaceParameters) (scene : SceneResource) (uvs : float2)
    (textureIndex : Z) (hasDifferentials : bool) (defaultValue sample : float3) :
  SampleTextureFloat3 surface scene uvs textureIndex false hasDifferentials defaultValue
    = Ok sample ->
  (textureIndex = InvalidIndex32 /\ sample = defaultValue)
  \/ (textureIndex <> InvalidIndex32
      /\ exists texture, readAt (textures scene) textureIndex = Ok texture
                         /\ sample = TriangleFloat3 (t_data texture) 0 uvs).
Proof.
  unfold SampleTextureFloat3.
  destruct (textureIndex =? InvalidIndex32) eqn:E.
  - apply Z.eqb_eq in E. intros H; injection H as <-. auto.
  - apply Z.eqb_neq in E. destruct (readAt (textures scene) textureIndex) as [tex | | ];
      simpl; try discriminate.
    intros H; injection H as <-. right. split; [exact E | eauto].
Qed.

Lemma SampleTextureFloat3_total
    (surface : SurfaceParameters) (scene : SceneResource) (uvs : float2)
    (textureIndex : Z) (sRGB hasDifferentials : bool) (defaultValue : float3) :
  SampleTextureFloat3 surface scene uvs textureIndex sRGB hasDifferentials defaultValue
    <> OutOfFuel
  /\ (textureIndexOk scene textureIndex = true ->
      exists sample,
        SampleTextureFloat3 surface scene uvs textureIndex sRGB hasDifferentials defaultValue
        = Ok sample).
Proof.
  unfold SampleTextureFloat3, textureIndexOk.
  destruct (textureIndex =? InvalidIndex32); [split; [discriminate | eauto] | ].
  split.
  - pose proof (readAt_not_OutOfFuel (textures scene) textureIndex).
    destruct (readAt (textures scene) textureIndex); simpl; congruence.
  - simpl. intros H. apply andb_prop in H as [H1 H2].
    apply Z.leb_le in H1. apply Z.ltb_lt in H2.
    destruct (readAt_in_range (textures scene) textureIndex) as [tex ->]; [lia | ].
    simpl. eauto.
Qed.

Lemma SampleTextureFloat_total
    (surface : SurfaceParameters) (scene : SceneResource) (uvs : float2)
    (textureIndex : Z) (sRGB hasDifferentials : bool) (defaultValue : float) :
  SampleTextureFloat surface scene uvs textureIndex sRGB hasDifferentials defaultValue
    <> OutOfFuel
  /\ (textureIndexOk scene textureIndex = true ->
      exists sample,
        SampleTextureFloat surface scene uvs textureIndex sRGB hasDifferentials defaultValue
        = Ok sample).
Proof.
  unfold SampleTextureFloat, textureIndexOk.
  destruct (textureIndex =? InvalidIndex32); [split; [discriminate | eauto] | ].
  split.
  - pose proof (readAt_not_OutOfFuel (textures scene) textureIndex).
    destruct (readAt (textures scene) textureIndex); simpl; congruence.
  - simpl. intros H. apply andb_prop in H as [H1 H2].
    apply Z.leb_le in H1. apply Z.ltb_lt in H2.
    destruct (readAt_in_range (textures scene) textureIndex) as [tex ->]; [lia | ].
    simpl. eauto.
Qed.

Lemma SampleTextureNormal_total
    (surface : SurfaceParameters) (scene : SceneResource) (uvs : float2)
    (textureIndex : Z) (hasDifferentials : bool) :
  SampleTextureNormal surface scene uvs textureIndex hasDifferentials <> OutOfFuel
  /\ (textureIndexOk scene textureIndex = true ->
      exists sample,
        SampleTextureNormal surface scene uvs textureIndex hasDifferentials = Ok sample).
Proof.
  unfold SampleTextureNormal, textureIndexOk.
  destruct (textureIndex =? InvalidIndex32); [split; [discriminate | eauto] | ].
  split.
  - pose proof (readAt_not_OutOfFuel (textures scene) textureIndex).
    destruct (readAt (textures scene) textureIndex); simpl; congruence.
  - simpl. intros H. apply andb_prop in H as [H1 H2].
    apply Z.leb_le in H1. apply Z.ltb_lt in H2.
    destruct (readAt_in_range (textures scene) textureIndex) as [tex ->]; [lia | ].
    simpl. eauto.
Qed.

End SurfaceFacts.

Lemma obind_Ok {A B} (c : outcome A) (k : A -> outcome B) (r : B) :
  obind c k = Ok r -> exists a, c = Ok a /\ k a = Ok r.
Proof. destruct c; simpl; intros H; try discriminate; eauto. Qed.

Lemma obind_not_OutOfFuel {A B} (c : outcome A) (k : A -> outcome B) :
  c <> OutOfFuel -> (forall a, c = Ok a -> k a <> OutOfFuel) -> obind c k <> OutOfFuel.
Proof. destruct c; simpl; intros H1 H2; auto; discriminate. Qed.

Section SurfaceTheorems.
Context {ML : MathLib} {SL : SceneLib} {ED : ExternData} {TF : TextureFiltering}.

Lemma hitTriangle_not_OutOfFuel (scene : SceneResource) (hit : HitParameters) :
  hitTriangle scene hit <> OutOfFuel.
Proof.
  unfold hitTriangle.
  repeat (apply obind_not_OutOfFuel; [apply readAt_not_OutOfFuel | intros ? _]).
  discriminate.
Qed.

(** The albedo written by the material block is the material's albedo times
    the albedo lookup, and that lookup is made with the sRGB flag off. *)
Lemma surfaceMaterial_albedo
    (scene : SceneResource) (material : Material) (uvs : float2) (rd : bool)
    (t b n : float3) (surface surface' : SurfaceParameters) :
  surfaceMaterial scene material uvs rd t b n surface = Ok surface' ->
  exists emissive albedoTex,
    SampleTextureFloat3 (set_emissive emissive surface) scene uvs
      (m_albedoTextureIndex material) false rd float3_One = Ok albedoTex
    /\ s_albedo surface' = (m_albedo material * albedoTex)%v3.
Proof.
  unfold surfaceMaterial. intros H.
  apply obind_Ok in H as (emissive & _ & H).
  apply obind_Ok in H as (albedoTex & Ha & H).
  apply obind_Ok in H as (specular & _ & H).
  apply obind_Ok in H as (roughnessTex & _ & H).
  apply obind_Ok in H as (metalnessTex & _ & H).
  apply obind_Ok in H as (perturbNormal & _ & H).
  injection H as <-.
  exists emissive, albedoTex. split; [exact Ha | reflexivity].
Qed.

Lemma surfaceMaterial_total
    (scene : SceneResource) (material : Material) (uvs : float2) (rd : bool)
    (t b n : float3) (surface : SurfaceParameters) :
  surfaceMaterial scene material uvs rd t b n surface <> OutOfFuel
  /\ (textureIndexOk scene (m_emissiveTextureIndex material)
      && textureIndexOk scene (m_albedoTextureIndex material)
      && textureIndexOk scene (m_specularTextureIndex material)
      && textureIndexOk scene (m_roughnessTextureIndex material)
      && textureIndexOk scene (m_metalnessTextureIndex material)
      && textureIndexOk scene (m_normalTextureIndex material) = true ->
      exists surface', surfaceMaterial scene material uvs rd t b n surface = Ok surface').
Proof.
  unfold surfaceMaterial. split.
  - repeat (apply obind_not_OutOfFuel;
            [first [apply SampleTextureFloat3_total | apply SampleTextureFloat_total
                   | apply SampleTextureNormal_total] | intros ? _]).
    discriminate.
  - intros H. repeat (apply andb_prop in H as [H ?]). cbv zeta.
    repeat match goal with
    | |- context [obind (SampleTextureFloat3 ?s ?sc ?uv ?i ?g ?h ?d) _] =>
        destruct (proj2 (SampleTextureFloat3_total s sc uv i g h d)) as [? ->];
        [assumption | cbn [obind]]
    | |- context [obind (SampleTextureFloat ?s ?sc ?uv ?i ?g ?h ?d) _] =>
        destruct (proj2 (SampleTextureFloat_total s sc uv i g h d)) as [? ->];
        [assumption | cbn [obind]]
    | |- context [obind (SampleTextureNormal ?s ?sc ?uv ?i ?h) _] =>
        destruct (proj2 (SampleTextureNormal_total s sc uv i h)) as [? ->];
        [assumption | cbn [obind]]
    end.
    eauto.
Qed.

Lemma CalculateSurfaceParams_not_OutOfFuel
    (context : KernelContext) (hit : HitParameters) (surface : SurfaceParameters) :
  CalculateSurfaceParams context hit surface <> OutOfFuel.
Proof.
  unfold CalculateSurfaceParams.
  apply obind_not_OutOfFuel; [apply hitTriangle_not_OutOfFuel | ].
  intros [[[v0 v1] v2] material] _.
  destruct (backfacing _ _ _); [discriminate | ].
  apply obind_not_OutOfFuel; [apply surfaceMaterial_total | intros ? _; discriminate].
Qed.

(** C4: surface reconstruction fails in exactly one case.  It never runs out
    of fuel (it has no loop).  When the reads of the hit triangle are in
    bounds, with [n] the interpolated normal:
    - if [dot(n, viewDirection) < 0] and the material is not flagged
      transparent, it returns [false] and leaves [surface] untouched;
    - otherwise, when the texture reads are in bounds as well, it returns
      [true] with a surface;
    - whatever flag it returns is the negation of that test.
    The only other outcome is a read outside an array (undefined behaviour
    in C++), which [tablesInRange] excludes. *)
Theorem CalculateSurfaceParams_fails_only_when_backfacing
    (context : KernelContext) (hit : HitParameters) (surface : SurfaceParameters) :
  let scene := scene (sceneData context) in
  CalculateSurfaceParams context hit surface <> OutOfFuel
  /\ (forall valid surface',
        CalculateSurfaceParams context hit surface = Ok (valid, surface') ->
        exists v0 v1 v2 material, hitTriangle scene hit = Ok (v0, v1, v2, material))
  /\ forall v0 v1 v2 material,
       hitTriangle scene hit = Ok (v0, v1, v2, material) ->
       let inside :=
         (Dot (hitNormal v0 v1 v2 hit) (h_viewDirection hit) <? f0)%f32
         && (Z.land (m_flags material) eTransparent =? 0) in
       (inside = true ->
        CalculateSurfaceParams context hit surface = Ok (false, surface))
       /\ (inside = false -> tablesInRange scene hit = true ->
           exists surface', CalculateSurfaceParams context hit surface = Ok (true, surface'))
       /\ (forall valid surface',
             CalculateSurfaceParams context hit surface = Ok (valid, surface') ->
             valid = negb inside).
Proof.
  cbv zeta. split; [apply CalculateSurfaceParams_not_OutOfFuel | split].
  - intros valid surface' H. unfold CalculateSurfaceParams in H.
    apply obind_Ok in H as ([[[v0 v1] v2] material] & Ht & _). eauto.
  - intros v0 v1 v2 material Ht.
    change ((Dot (hitNormal v0 v1 v2 hit) (h_viewDirection hit) <? f0)%f32
            && (Z.land (m_flags material) eTransparent =? 0))
      with (backfacing (hitNormal v0 v1 v2 hit) (h_viewDirection hit) (m_flags material)).
    unfold CalculateSurfaceParams, tablesInRange. rewrite Ht. cbn [obind].
    destruct (backfacing _ _ _).
    + split; [reflexivity | split; [discriminate | ]].
      intros valid surface' H. injection H as <- _. reflexivity.
    + split; [discriminate | split].
      * intros _ Hok.
        match goal with
        | |- context [obind (surfaceMaterial ?sc ?m ?uv ?rd ?t ?b ?n ?s) _] =>
            destruct (proj2 (surfaceMaterial_total sc m uv rd t b n s) Hok) as [s' ->]
        end.
        cbn [obind]. eauto.
      * intros valid surface' H.
        apply obind_Ok in H as (s' & _ & H). injection H as <- _. reflexivity.
Qed.

(** C2, as the code has it: the albedo of a reconstructed surface is
    [material.albedo] times the albedo lookup, and the lookup is the
    triangle-filtered sample of the albedo texture as stored, with no
    sRGB-to-linear conversion (the call passes [false] for [sRGB]); when the
    material has no albedo texture the lookup is 1. *)
Theorem CalculateSurfaceParams_albedo
    (context : KernelContext) (hit : HitParameters) (surface surface' : SurfaceParameters) :
  CalculateSurfaceParams context hit surface = Ok (true, surface') ->
  exists v0 v1 v2 material,
    hitTriangle (scene (sceneData context)) hit = Ok (v0, v1, v2, material)
    /\ ((m_albedoTextureIndex material = InvalidIndex32
         /\ s_albedo surface' = (m_albedo material * float3_One)%v3)
        \/ (m_albedoTextureIndex material <> InvalidIndex32
            /\ exists texture,
                 readAt (textures (scene (sceneData context)))
                        (m_albedoTextureIndex material) = Ok texture
                 /\ s_albedo surface'
                    = (m_albedo material
                       * TriangleFloat3 (t_data texture) 0 (hitUV v0 v1 v2 hit))%v3)).
Proof.
  intros H. unfold CalculateSurfaceParams in H.
  apply obind_Ok in H as ([[[v0 v1] v2] material] & Ht & H).
  exists v0, v1, v2, material. split; [exact Ht | ].
  destruct (backfacing _ _ _); [discriminate | ].
  apply obind_Ok in H as (s' & Hm & H). injection H as <-.
  apply surfaceMaterial_albedo in Hm as (emissive & albedoTex & Ha & ->).
  apply SampleTextureFloat3_linear in Ha as [[Hi ->] | [Hi (texture & Hr & ->)]].
  - left. auto.
  - right. split; [exact Hi | eauto].
Qed.

End SurfaceTheorems.

(* ===================================================================== *)
(** ** The kernel monad *)
(* ===================================================================== *)

Section MonadFacts.
Context {ED : ExternData}.

Lemma bind_Ok {A B} (c : M A) (k : A -> M B) (w w' : World) (r : B) :
  bind c k w = Ok (r, w') -> exists a w1, c w = Ok (a, w1) /\ k a w1 = Ok (r, w').
Proof.
  unfold bind. destruct (c w) as [[a w1] | | ]; intros H; try discriminate; eauto.
Qed.

Lemma lift_Ok {A} (c : outcome A) (w w' : World) (a : A) :
  lift c w = Ok (a, w') -> c = Ok a /\ w' = w.
Proof.
  unfold lift. destruct c; intros H; try discriminate. injection H as <- <-. auto.
Qed.

Lemma ret_Ok {A} (a b : A) (w w' : World) : ret a w = Ok (b, w') -> b = a /\ w' = w.
Proof. unfold ret. intros H; injection H as <- <-. auto. Qed.

Lemma bind_not_OutOfFuel {A B} (c : M A) (k : A -> M B) (w : World) :
  c w <> OutOfFuel ->
  (forall a w1, c w = Ok (a, w1) -> k a w1 <> OutOfFuel) ->
  bind c k w <> OutOfFuel.
Proof.
  unfold bind. destruct (c w) as [[a w1] | | ]; intros H1 H2; auto; discriminate.
Qed.

Lemma ret_not_OutOfFuel {A} (a : A) (w : World) : ret a w <> OutOfFuel.
Proof. discriminate. Qed.

Lemma random_not_OutOfFuel {A} (f : MersenneTwister -> A * MersenneTwister) (w : World) :
  random f w <> OutOfFuel.
Proof. unfold random. destruct (f (twister w)). discriminate. Qed.

Lemma lift_not_OutOfFuel {A} (c : outcome A) (w : World) :
  c <> OutOfFuel -> lift c w <> OutOfFuel.
Proof. unfold lift. destruct c; intros H; congruence. Qed.

Lemma addToImage_not_OutOfFuel (index : Z) (v : float3) (w : World) :
  addToImage index v w <> OutOfFuel.
Proof.
  unfold addToImage.
  pose proof (readAt_not_OutOfFuel (imageData w) index) as Hr.
  destruct (readAt (imageData w) index) as [old | | ]; try congruence.
  unfold writeAt. destruct (_ || _); discriminate.
Qed.

Lemma forRange_not_OutOfFuel {S : Type} (body : Z -> S -> M S) :
  (forall i s w, body i s w <> OutOfFuel) ->
  forall n i s w, forRange n i body s w <> OutOfFuel.
Proof.
  intros Hb. induction n as [ | n IH]; intros i s w; cbn [forRange].
  - apply ret_not_OutOfFuel.
  - apply bind_not_OutOfFuel; [apply Hb | intros; apply IH].
Qed.

End MonadFacts.

(** Steps through a computation to show that it does not run out of fuel. *)
Ltac fuel_step :=
  first
    [ apply ret_not_OutOfFuel
    | apply random_not_OutOfFuel
    | apply addToImage_not_OutOfFuel
    | apply lift_not_OutOfFuel
    | apply bind_not_OutOfFuel; [ | intros ? ? _ ]
    | match goal with
      | |- context [match ?x with _ => _ end] => destruct x
      end ].

Section PassFacts.
Context {ML : MathLib} {SL : SceneLib} {ED : ExternData} {TF : TextureFiltering}
        {CL : Collaborators}.

Lemma GenerateLightSample_not_OutOfFuel context vcWeight w :
  GenerateLightSample context vcWeight w <> OutOfFuel.
Proof. unfold GenerateLightSample. cbv zeta. repeat fuel_step. Qed.

Lemma GenerateCameraSample_not_OutOfFuel context x y lightPathCount w :
  GenerateCameraSample context x y lightPathCount w <> OutOfFuel.
Proof. unfold GenerateCameraSample. cbv zeta. repeat fuel_step. Qed.

Lemma ConnectLightPathToCamera_not_OutOfFuel context state surface vmWeight lpc w :
  ConnectLightPathToCamera context state surface vmWeight lpc w <> OutOfFuel.
Proof. unfold ConnectLightPathToCamera. cbv zeta. repeat fuel_step. Qed.

Lemma ConnectToSkyLight_not_OutOfFuel context state w :
  ConnectToSkyLight context state w <> OutOfFuel.
Proof. unfold ConnectToSkyLight. repeat fuel_step. Qed.

Lemma ConnectCameraPathToLight_not_OutOfFuel context state surface vmWeight w :
  ConnectCameraPathToLight context state surface vmWeight w <> OutOfFuel.
Proof. unfold ConnectCameraPathToLight. cbv zeta. repeat fuel_step. Qed.

Lemma SampleBsdfScattering_not_OutOfFuel context surface vmWeight vcWeight state w :
  SampleBsdfScattering context surface vmWeight vcWeight state w <> OutOfFuel.
Proof. unfold SampleBsdfScattering. repeat fuel_step. Qed.

Lemma MergeVertices_not_OutOfFuel context surface pathVertices cameraState vcWeight i res :
  MergeVertices context surface pathVertices cameraState vcWeight i res <> OutOfFuel.
Proof.
  unfold MergeVertices.
  apply obind_not_OutOfFuel; [apply readAt_not_OutOfFuel | intros lv _].
  destruct (_ >? _); [discriminate | ].
  destruct (EvaluateBsdf _ _ _) as [[bsdf fw] rv].
  destruct (v3isZero bsdf); discriminate.
Qed.

Lemma MergeAll_not_OutOfFuel context surface pathVertices cameraState vcWeight found :
  forall res,
    MergeAll context surface pathVertices cameraState vcWeight found res <> OutOfFuel.
Proof.
  induction found as [ | i rest IH]; intros res; cbn [MergeAll]; [discriminate | ].
  apply obind_not_OutOfFuel; [apply MergeVertices_not_OutOfFuel | intros; apply IH].
Qed.

Lemma ConnectLightVertices_not_OutOfFuel context surface cameraState pathVertices vmWeight n :
  forall i color,
    ConnectLightVertices n i context surface cameraState pathVertices vmWeight color
    <> OutOfFuel.
Proof.
  induction n as [ | n IH]; intros i color; cbn [ConnectLightVertices]; [discriminate | ].
  apply obind_not_OutOfFuel; [apply readAt_not_OutOfFuel | intros lv _].
  destruct (_ >? _); [discriminate | apply IH].
Qed.

End PassFacts.

(* ===================================================================== *)
(** ** The light phase *)
(* ===================================================================== *)

Section LightPhaseFacts.
Context {ML : MathLib} {SL : SceneLib} {ED : ExternData} {TF : TextureFiltering}
        {CL : Collaborators}.

Lemma LightHitUpdate_pathLength state hit surface :
  ps_pathLength (LightHitUpdate state hit surface) = ps_pathLength state.
Proof. unfold LightHitUpdate. cbv zeta. destruct (_ || _); reflexivity. Qed.

Lemma LightHitUpdate_isAreaMeasure state hit surface :
  ps_isAreaMeasure (LightHitUpdate state hit surface) = ps_isAreaMeasure state.
Proof. unfold LightHitUpdate. cbv zeta. destruct (_ || _); reflexivity. Qed.

Lemma SampleBsdfScattering_Ok context surface vmWeight vcWeight state w scattered state' w' :
SampleBsdfScattering context surface vmWeight vcWeight state w
  = Ok ((scattered, state'), w') ->
ps_isAreaMeasure state' = ps_isAreaMeasure state
/\ (scattered = true -> ps_pathLength state' = wrap32 (ps_pathLength state + 1)).
Proof.
unfold SampleBsdfScattering, bind, random, ret.
destruct (SampleBsdfFunction _ _ _ _) as [[sample | ] t].
- destruct (v3isZero (bs_reflectance sample)); intros H; injection H as <- <- _;
    split; try reflexivity; discriminate.
- intros H; injection H as <- <- _. split; [reflexivity | discriminate].
Qed.

Section OneContext.
Variables (context : KernelContext) (vmWeight vcWeight : float) (lightPathCount : Z).

Lemma LightSubpath_spec (fuel : nat) :
  forall state acc w r w',
    LightSubpath fuel context vmWeight vcWeight lightPathCount state acc w = Ok (r, w') ->
    ps_isAreaMeasure state = 0 ->
    exists es,
      lp_events r = lp_events acc ++ es
      /\ lp_pathVertices r = lp_pathVertices acc ++ map vertexOfEvent es
      /\ lp_points r = lp_points acc ++ map (fun e => s_position (ev_surface e)) es
      /\ Forall lightEvent es
      /\ (maxPathLength context < 2 ^ 32 ->
          1 <= ps_pathLength state -> ps_pathLength state + 2 < 2 ^ 32 ->
          Forall (storedInBounds context) es).
Proof.
  induction fuel as [ | fuel IH]; intros state acc w r w' H Harea;
    cbn [LightSubpath] in H;
    destruct (wrap32 (ps_pathLength state + 2) <? maxPathLength context) eqn:G;
    try discriminate;
    try (apply ret_Ok in H as [-> _]; exists []; rewrite !app_nil_r;
         repeat split; auto; fail).
  destruct (RayPick _ _) as [hit | ];
    [ | apply ret_Ok in H as [-> _]; exists []; rewrite !app_nil_r; repeat split; auto].
  apply bind_Ok in H as ([valid surface] & w1 & Hs & H).
  destruct valid; cbn [negb] in H;
    [ | apply ret_Ok in H as [-> _]; exists []; rewrite !app_nil_r; repeat split; auto].
  apply bind_Ok in H as ([] & w2 & _ & H).
  apply bind_Ok in H as ([scattered state'] & w3 & Hb & H).
  apply SampleBsdfScattering_Ok in Hb as [Hb1 Hb2].
  rewrite LightHitUpdate_isAreaMeasure in Hb1.
  rewrite LightHitUpdate_pathLength in Hb2.
  set (e := mkHitEvent LightPath state hit surface (LightHitUpdate state hit surface)) in *.
  assert (He : lightEvent e) by (repeat split; assumption).
  assert (Hbound : maxPathLength context < 2 ^ 32 ->
                   1 <= ps_pathLength state -> ps_pathLength state + 2 < 2 ^ 32 ->
                   storedInBounds context e).
  { intros Hmax H1 H2. unfold storedInBounds, e. cbn [ev_after].
    rewrite LightHitUpdate_pathLength.
    apply Z.ltb_lt in G. unfold wrap32 in G. rewrite Z.mod_small in G by lia. lia. }
  destruct scattered; cbn [negb] in H.
  - apply IH in H as (es & E1 & E2 & E3 & E4 & E5); [ | congruence].
    cbn [lp_events lp_pathVertices lp_points] in E1, E2, E3.
    exists (e :: es). rewrite E1, E2, E3, <- !app_assoc. cbn [map app].
    repeat split; auto.
    intros Hmax H1 H2. constructor; [auto | ].
    assert (G' : ps_pathLength state + 2 < maxPathLength context).
    { apply Z.ltb_lt in G. unfold wrap32 in G. rewrite Z.mod_small in G by lia. lia. }
    assert (Hpl : ps_pathLength state' = ps_pathLength state + 1).
    { rewrite Hb2 by reflexivity. unfold wrap32. apply Z.mod_small. lia. }
    apply E5; lia.
  - apply ret_Ok in H as [-> _].
    exists [e]. cbn [lp_events lp_pathVertices lp_points map].
    repeat split; auto.
Qed.

(** The loop of a light subpath ends before its fuel does, when the fuel
    covers [maxPathLength - pathLength]. *)
Lemma LightSubpath_fuel (fuel : nat) :
  forall state acc w,
    maxPathLength context < 2 ^ 32 ->
    0 <= ps_pathLength state -> ps_pathLength state + 2 < 2 ^ 32 ->
    maxPathLength context - ps_pathLength state <= Z.of_nat fuel ->
    LightSubpath fuel context vmWeight vcWeight lightPathCount state acc w <> OutOfFuel.
Proof.
  induction fuel as [ | fuel IH]; intros state acc w Hmax H0 H2 Hf;
    cbn [LightSubpath];
    destruct (wrap32 (ps_pathLength state + 2) <? maxPathLength context) eqn:G;
    try apply ret_not_OutOfFuel.
  - apply Z.ltb_lt in G. unfold wrap32 in G. rewrite Z.mod_small in G by lia. lia.
  - apply Z.ltb_lt in G. unfold wrap32 in G. rewrite Z.mod_small in G by lia.
    destruct (RayPick _ _) as [hit | ]; [ | apply ret_not_OutOfFuel].
    apply bind_not_OutOfFuel;
      [apply lift_not_OutOfFuel, CalculateSurfaceParams_not_OutOfFuel | ].
    intros [valid surface] w1 _.
    destruct valid; cbn [negb]; [ | apply ret_not_OutOfFuel].
    apply bind_not_OutOfFuel; [apply ConnectLightPathToCamera_not_OutOfFuel | ].
    intros [] w2 _.
    apply bind_not_OutOfFuel; [apply SampleBsdfScattering_not_OutOfFuel | ].
    intros [scattered state'] w3 Hb.
    apply SampleBsdfScattering_Ok in Hb as [_ Hb].
    rewrite LightHitUpdate_pathLength in Hb.
    destruct scattered; cbn [negb]; [ | apply ret_not_OutOfFuel].
    specialize (Hb eq_refl). unfold wrap32 in Hb. rewrite Z.mod_small in Hb by lia.
    apply IH; lia.
Qed.

Lemma GenerateLightSample_Ok state w w' :
  GenerateLightSample context vcWeight w = Ok (state, w') ->
  ps_pathLength state = 1 /\ ps_isAreaMeasure state = 0.
Proof.
  unfold GenerateLightSample. cbv zeta. intros H.
  apply bind_Ok in H as (sample & w1 & _ & H). apply ret_Ok in H as [-> _]. auto.
Qed.

Lemma endsOk_step (paths paths' : LightPaths) (pathEnds : list Z) (new : list VcmVertex) :
  endsOk paths pathEnds ->
  lp_pathVertices paths' = lp_pathVertices paths ++ new ->
  endsOk paths' (pathEnds ++ [Z.of_nat (length (lp_pathVertices paths'))]).
Proof.
  intros (Hb & Hs & Hl) E.
  assert (Hlen : Z.of_nat (length (lp_pathVertices paths))
                 <= Z.of_nat (length (lp_pathVertices paths'))).
  { rewrite E, length_app. lia. }
  repeat split.
  - apply Forall_app. split.
    + eapply Forall_impl; [ | exact Hb]. cbv beta. intros; lia.
    + constructor; [lia | constructor].
  - clear Hl. induction Hs as [ | a l Hs IHs Ha]; cbn [app].
    + constructor; constructor.
    + inversion Hb; subst. constructor; [apply IHs; assumption | ].
      apply Forall_app. split; [assumption | constructor; [lia | constructor]].
  - intros _. apply last_last.
Qed.

Lemma LightPhaseLoop_spec (fuel : nat) (n : nat) :
  forall acc pathEnds w r pe w',
    LightPhaseLoop n fuel context vmWeight vcWeight lightPathCount acc pathEnds w
      = Ok ((r, pe), w') ->
    endsOk acc pathEnds ->
    exists es,
      lp_events r = lp_events acc ++ es
      /\ lp_pathVertices r = lp_pathVertices acc ++ map vertexOfEvent es
      /\ lp_points r = lp_points acc ++ map (fun e => s_position (ev_surface e)) es
      /\ Forall lightEvent es
      /\ (maxPathLength context < 2 ^ 32 -> Forall (storedInBounds context) es)
      /\ length pe = (length pathEnds + n)%nat
      /\ endsOk r pe.
Proof.
  induction n as [ | n IH]; intros acc pathEnds w r pe w' H Hends;
    cbn [LightPhaseLoop] in H.
  - apply ret_Ok in H as [H _]. injection H as -> ->.
    exists []. rewrite !app_nil_r, Nat.add_0_r. repeat split; auto; apply Hends.
  - apply bind_Ok in H as (state & w1 & Hg & H).
    apply GenerateLightSample_Ok in Hg as [Hpl Harea].
    apply bind_Ok in H as (acc1 & w2 & Hsub & H).
    apply LightSubpath_spec in Hsub as (es1 & E1 & E2 & E3 & E4 & E5); [ | exact Harea].
    apply IH in H as (es2 & F1 & F2 & F3 & F4 & F5 & F6 & F7);
      [ | eapply endsOk_step; eassumption].
    exists (es1 ++ es2).
    rewrite F1, F2, F3, E1, E2, E3, !map_app, <- !app_assoc.
    repeat split; auto.
    + apply Forall_app; auto.
    + intros Hmax. apply Forall_app. split; [apply E5; lia | auto].
    + rewrite F6, length_app. cbn [length]. lia.
    + apply F7.
    + apply F7.
    + apply F7.
Qed.

Lemma LightPhaseLoop_fuel (fuel : nat) (n : nat) :
  maxPathLength context < 2 ^ 32 ->
  maxPathLength context <= Z.of_nat fuel ->
  forall acc pathEnds w,
    LightPhaseLoop n fuel context vmWeight vcWeight lightPathCount acc pathEnds w
    <> OutOfFuel.
Proof.
  intros Hmax Hf. induction n as [ | n IH]; intros acc pathEnds w; cbn [LightPhaseLoop].
  - apply ret_not_OutOfFuel.
  - apply bind_not_OutOfFuel; [apply GenerateLightSample_not_OutOfFuel | ].
    intros state w1 Hg. apply GenerateLightSample_Ok in Hg as [Hpl _].
    apply bind_not_OutOfFuel; [apply LightSubpath_fuel; lia | ].
    intros; apply IH.
Qed.

End OneContext.

End LightPhaseFacts.

(* ===================================================================== *)
(** ** The camera phase and the whole pass *)
(* ===================================================================== *)

Section CameraPhaseFacts.
Context {ML : MathLib} {SL : SceneLib} {ED : ExternData} {TF : TextureFiltering}
        {CL : Collaborators}.

Lemma CameraHitUpdate_pathLength state hit surface :
  ps_pathLength (CameraHitUpdate state hit surface) = ps_pathLength state.
Proof. reflexivity. Qed.

Lemma CameraHitUpdate_isAreaMeasure state hit surface :
  ps_isAreaMeasure (CameraHitUpdate state hit surface) = ps_isAreaMeasure state.
Proof. reflexivity. Qed.

Lemma GenerateCameraSample_Ok context x y lightPathCount state w w' :
  GenerateCameraSample context x y lightPathCount w = Ok (state, w') ->
  ps_pathLength state = 1 /\ ps_isAreaMeasure state = 1.
Proof.
  unfold GenerateCameraSample. cbv zeta. intros H.
  apply bind_Ok in H as (ray & w1 & _ & H). apply ret_Ok in H as [-> _]. auto.
Qed.

Section OneContext.
Variables (context : KernelContext) (pathVertices : list VcmVertex)
          (points : list float3) (pathEnds : list Z) (hashGrid : HashGrid)
          (vmWeight vcWeight vmNormalization : float).

Lemma CameraSubpath_spec (index : Z) (fuel : nat) :
  forall state color events w color' events' w',
    CameraSubpath fuel context pathVertices points pathEnds hashGrid
                  vmWeight vcWeight vmNormalization index state color events w
      = Ok ((color', events'), w') ->
    ps_isAreaMeasure state = 1 ->
    Forall cameraEvent events -> Forall cameraEvent events'.
Proof.
  induction fuel as [ | fuel IH]; intros state color events w color' events' w' H Harea Hev;
    cbn [CameraSubpath] in H;
    destruct (ps_pathLength state <? maxPathLength context);
    try discriminate;
    try (apply ret_Ok in H as [H _]; injection H as _ <-; exact Hev).
  destruct (RayPick _ _) as [hit | ].
  - apply bind_Ok in H as ([valid surface] & w1 & _ & H).
    destruct valid; cbn [negb] in H;
      [ | apply ret_Ok in H as [H _]; injection H as _ <-; exact Hev].
    apply bind_Ok in H as (color1 & w2 & _ & H).
    apply bind_Ok in H as (pathStart & w3 & _ & H).
    apply bind_Ok in H as (pathEnd & w4 & _ & H).
    apply bind_Ok in H as (color2 & w5 & _ & H).
    apply bind_Ok in H as (result & w6 & _ & H).
    apply bind_Ok in H as ([scattered state'] & w7 & Hb & H).
    apply SampleBsdfScattering_Ok in Hb as [Hb _].
    rewrite CameraHitUpdate_isAreaMeasure in Hb.
    assert (Hev' : Forall cameraEvent
                     (events ++ [mkHitEvent CameraPath state hit surface
                                            (CameraHitUpdate state hit surface)])).
    { apply Forall_app. split; [exact Hev | ].
      constructor; [repeat split; assumption | constructor]. }
    destruct scattered; cbn [negb] in H.
    + eapply IH; [exact H | congruence | exact Hev'].
    + apply ret_Ok in H as [H _]. injection H as _ ->. exact Hev'.
  - apply bind_Ok in H as (sky & w1 & _ & H).
    apply ret_Ok in H as [H _]. injection H as _ <-. exact Hev.
Qed.

(** The loop of a camera subpath ends before its fuel does, when the fuel
    covers [maxPathLength - pathLength]. *)
Lemma CameraSubpath_fuel (index : Z) (fuel : nat) :
  forall state color events w,
    maxPathLength context < 2 ^ 32 ->
    0 <= ps_pathLength state ->
    maxPathLength context - ps_pathLength state <= Z.of_nat fuel ->
    CameraSubpath fuel context pathVertices points pathEnds hashGrid
                  vmWeight vcWeight vmNormalization index state color events w
    <> OutOfFuel.
Proof.
  induction fuel as [ | fuel IH]; intros state color events w Hmax H0 Hf;
    cbn [CameraSubpath];
    destruct (ps_pathLength state <? maxPathLength context) eqn:G;
    try apply ret_not_OutOfFuel.
  - apply Z.ltb_lt in G. lia.
  - apply Z.ltb_lt in G.
    destruct (RayPick _ _) as [hit | ].
    + apply bind_not_OutOfFuel;
        [apply lift_not_OutOfFuel, CalculateSurfaceParams_not_OutOfFuel | ].
      intros [valid surface] w1 _.
      destruct valid; cbn [negb]; [ | apply ret_not_OutOfFuel].
      apply bind_not_OutOfFuel.
      { destruct (_ <? _); [ | apply ret_not_OutOfFuel].
        apply bind_not_OutOfFuel;
          [apply ConnectCameraPathToLight_not_OutOfFuel | intros; apply ret_not_OutOfFuel]. }
      intros color1 w2 _.
      apply bind_not_OutOfFuel.
      { destruct (index =? 0); [apply ret_not_OutOfFuel | ].
        apply lift_not_OutOfFuel, readAt_not_OutOfFuel. }
      intros pathStart w3 _.
      apply bind_not_OutOfFuel; [apply lift_not_OutOfFuel, readAt_not_OutOfFuel | ].
      intros pathEnd w4 _.
      apply bind_not_OutOfFuel;
        [apply lift_not_OutOfFuel, ConnectLightVertices_not_OutOfFuel | ].
      intros color2 w5 _.
      apply bind_not_OutOfFuel; [apply lift_not_OutOfFuel, MergeAll_not_OutOfFuel | ].
      intros result w6 _.
      apply bind_not_OutOfFuel; [apply SampleBsdfScattering_not_OutOfFuel | ].
      intros [scattered state'] w7 Hb.
      apply SampleBsdfScattering_Ok in Hb as [_ Hb].
      rewrite CameraHitUpdate_pathLength in Hb.
      destruct scattered; cbn [negb]; [ | apply ret_not_OutOfFuel].
      specialize (Hb eq_refl). unfold wrap32 in Hb. rewrite Z.mod_small in Hb by lia.
      apply IH; lia.
    + apply bind_not_OutOfFuel;
        [apply ConnectToSkyLight_not_OutOfFuel | intros; apply ret_not_OutOfFuel].
Qed.

End OneContext.

Lemma forRange_invariant {S : Type} (P : S -> Prop) (body : Z -> S -> M S) :
  (forall i s w s' w', body i s w = Ok (s', w') -> P s -> P s') ->
  forall n i s w s' w', forRange n i body s w = Ok (s', w') -> P s -> P s'.
Proof.
  intros Hb. induction n as [ | n IH]; intros i s w s' w' H Hs; cbn [forRange] in H.
  - apply ret_Ok in H as [-> _]. exact Hs.
  - apply bind_Ok in H as (s1 & w1 & H1 & H). eauto.
Qed.

Lemma CameraPhase_spec fuel context pathVertices points pathEnds hashGrid
      vmWeight vcWeight vmNormalization lightPathCount width height w events w' :
  CameraPhase fuel context pathVertices points pathEnds hashGrid
              vmWeight vcWeight vmNormalization lightPathCount width height w
    = Ok (events, w') ->
  Forall cameraEvent events.
Proof.
  unfold CameraPhase. intros H.
  eapply (forRange_invariant (Forall cameraEvent)); [ | exact H | constructor].
  clear. intros y events w events' w' H Hev.
  eapply (forRange_invariant (Forall cameraEvent)); [ | exact H | exact Hev].
  clear. intros x events w events' w' H Hev.
  apply bind_Ok in H as (state & w1 & Hg & H).
  apply GenerateCameraSample_Ok in Hg as [_ Harea].
  apply bind_Ok in H as ([color events1] & w2 & Hsub & H).
  apply bind_Ok in H as ([] & w3 & _ & H).
  apply ret_Ok in H as [-> _].
  eapply CameraSubpath_spec; eassumption.
Qed.

Lemma CameraPhase_fuel fuel context pathVertices points pathEnds hashGrid
      vmWeight vcWeight vmNormalization lightPathCount width height w :
  maxPathLength context < 2 ^ 32 ->
  maxPathLength context <= Z.of_nat fuel ->
  CameraPhase fuel context pathVertices points pathEnds hashGrid
              vmWeight vcWeight vmNormalization lightPathCount width height w
  <> OutOfFuel.
Proof.
  intros Hmax Hf. unfold CameraPhase.
  apply forRange_not_OutOfFuel. intros y events w0.
  apply forRange_not_OutOfFuel. intros x events0 w1.
  apply bind_not_OutOfFuel; [apply GenerateCameraSample_not_OutOfFuel | ].
  intros state w2 Hg. apply GenerateCameraSample_Ok in Hg as [Hpl _].
  apply bind_not_OutOfFuel; [apply CameraSubpath_fuel; lia | ].
  intros [color events1] w3 _.
  apply bind_not_OutOfFuel;
    [apply addToImage_not_OutOfFuel | intros; apply ret_not_OutOfFuel].
Qed.

(** What a completed pass has done. *)
Lemma VertexConnectionAndMerging_spec
      context pathVertices hashGrid kernelRadius width height w r w' :
  VertexConnectionAndMerging context pathVertices hashGrid kernelRadius width height w
    = Ok (r, w') ->
  pr_pathVertices r = map vertexOfEvent (pr_lightEvents r)
  /\ Forall lightEvent (pr_lightEvents r)
  /\ Forall cameraEvent (pr_cameraEvents r)
  /\ (maxPathLength context < 2 ^ 32 -> Forall (storedInBounds context) (pr_lightEvents r))
  /\ length (pr_pathEnds r) = Z.to_nat (wrap32 (width * height))
  /\ Forall (fun e => 0 <= e <= Z.of_nat (length (pr_pathVertices r))) (pr_pathEnds r)
  /\ StronglySorted Z.le (pr_pathEnds r)
  /\ (pr_pathEnds r <> [] ->
      last (pr_pathEnds r) 0 = Z.of_nat (length (pr_pathVertices r))).
Proof.
  unfold VertexConnectionAndMerging, VertexConnectionAndMerging_fuel. cbv zeta.
  intros H.
  apply bind_Ok in H as ([paths pathEnds] & w1 & Hl & H).
  apply bind_Ok in H as (cameraEvents & w2 & Hc & H).
  apply ret_Ok in H as [-> _].
  cbn [pr_pathVertices pr_lightEvents pr_cameraEvents pr_pathEnds].
  apply CameraPhase_spec in Hc.
  unfold LightPhase in Hl.
  apply LightPhaseLoop_spec in Hl
    as (es & E1 & E2 & E3 & E4 & E5 & E6 & E7 & E8 & E9);
    [ | unfold endsOk; split; [apply Forall_nil | split; [apply SSorted_nil | ]];
        intros C; contradiction C; reflexivity].
  cbn [lp_events lp_pathVertices lp_points app] in E1, E2, E3.
  rewrite E1, E2. cbn [length Nat.add] in E6.
  repeat split; auto.
  - rewrite <- E2. exact E7.
  - rewrite <- E2. exact E9.
Qed.

(** A pass never runs out of fuel: each of its loops ends. *)
Lemma VertexConnectionAndMerging_terminates
      context pathVertices hashGrid kernelRadius width height w :
  maxPathLength context < 2 ^ 32 ->
  VertexConnectionAndMerging context pathVertices hashGrid kernelRadius width height w
  <> OutOfFuel.
Proof.
  intros Hmax.
  assert (Hf : maxPathLength context <= Z.of_nat (Z.to_nat (maxPathLength context))) by lia.
  unfold VertexConnectionAndMerging, VertexConnectionAndMerging_fuel. cbv zeta.
  apply bind_not_OutOfFuel; [apply LightPhaseLoop_fuel; assumption | ].
  intros [paths pathEnds] w1 _.
  apply bind_not_OutOfFuel; [apply CameraPhase_fuel; assumption | ].
  intros; apply ret_not_OutOfFuel.
Qed.

End CameraPhaseFacts.

(* ===================================================================== *)
(** ** No hit of a subpath is skipped *)
(* ===================================================================== *)

Section SubpathProgress.
Context {ML : MathLib} {SL : SceneLib} {ED : ExternData} {TF : TextureFiltering}
        {CL : Collaborators}.
Variables (context : KernelContext).

(** A light subpath only adds to what the light phase has built. *)
Lemma LightSubpath_appends vmWeight vcWeight lightPathCount (fuel : nat) :
  forall state acc w r w',
    LightSubpath fuel context vmWeight vcWeight lightPathCount state acc w = Ok (r, w') ->
    exists es,
      lp_events r = lp_events acc ++ es
      /\ lp_pathVertices r = lp_pathVertices acc ++ map vertexOfEvent es.
Proof.
  induction fuel as [ | fuel IH]; intros state acc w r w' H;
    cbn [LightSubpath] in H;
    destruct (wrap32 (ps_pathLength state + 2) <? maxPathLength context);
    try discriminate;
    try (apply ret_Ok in H as [-> _]; exists []; rewrite !app_nil_r; auto; fail).
  destruct (RayPick _ _) as [hit | ];
    [ | apply ret_Ok in H as [-> _]; exists []; rewrite !app_nil_r; auto].
  apply bind_Ok in H as ([valid surface] & w1 & _ & H).
  destruct valid; cbn [negb] in H;
    [ | apply ret_Ok in H as [-> _]; exists []; rewrite !app_nil_r; auto].
  apply bind_Ok in H as ([] & w2 & _ & H).
  apply bind_Ok in H as ([scattered state'] & w3 & _ & H).
  set (e := mkHitEvent LightPath state hit surface (LightHitUpdate state hit surface)) in *.
  destruct scattered; cbn [negb] in H.
  - apply IH in H as (es & E1 & E2). cbn [lp_events lp_pathVertices] in E1, E2.
    exists (e :: es). rewrite E1, E2, <- !app_assoc. auto.
  - apply ret_Ok in H as [-> _]. exists [e]. auto.
Qed.

(** A hit whose surface is reconstructed is never skipped: the light
    subpath records it and stores its vertex. *)
Lemma LightSubpath_records_hit vmWeight vcWeight lightPathCount (fuel : nat)
    state acc hit surface w r w' :
  (wrap32 (ps_pathLength state + 2) <? maxPathLength context) = true ->
  RayPick (rtcScene (sceneData context))
          (MakeRay (ps_position state) (ps_direction state) (ps_throughput state) 0 0)
    = Some hit ->
  CalculateSurfaceParams context hit indeterminateSurface = Ok (true, surface) ->
  LightSubpath fuel context vmWeight vcWeight lightPathCount state acc w = Ok (r, w') ->
  exists es,
    lp_events r
    = lp_events acc
      ++ mkHitEvent LightPath state hit surface (LightHitUpdate state hit surface) :: es
    /\ lp_pathVertices r
       = lp_pathVertices acc
         ++ vertexOfEvent (mkHitEvent LightPath state hit surface
                                      (LightHitUpdate state hit surface))
            :: map vertexOfEvent es.
Proof.
  intros Hc Hp Hs H. destruct fuel as [ | fuel]; cbn [LightSubpath] in H;
    rewrite Hc in H; [discriminate H | ].
  rewrite Hp in H. unfold bind at 1 in H. unfold lift in H. rewrite Hs in H.
  cbn [negb] in H.
  apply bind_Ok in H as ([] & w2 & _ & H).
  apply bind_Ok in H as ([scattered state'] & w3 & _ & H).
  destruct scattered; cbn [negb] in H.
  - apply LightSubpath_appends in H as (es & E1 & E2).
    cbn [lp_events lp_pathVertices] in E1, E2.
    exists es. rewrite E1, E2, <- !app_assoc. auto.
  - apply ret_Ok in H as [-> _]. exists []. auto.
Qed.

Variables (pathVertices : list VcmVertex) (points : list float3) (pathEnds : list Z)
          (hashGrid : HashGrid).

Lemma CameraSubpath_appends vmWeight vcWeight vmNormalization (index : Z) (fuel : nat) :
  forall state color events w color' events' w',
    CameraSubpath fuel context pathVertices points pathEnds hashGrid
                  vmWeight vcWeight vmNormalization index state color events w
      = Ok ((color', events'), w') ->
    exists es, events' = events ++ es.
Proof.
  induction fuel as [ | fuel IH]; intros state color events w color' events' w' H;
    cbn [CameraSubpath] in H;
    destruct (ps_pathLength state <? maxPathLength context);
    try discriminate;
    try (apply ret_Ok in H as [H _]; injection H as _ <-; exists [];
         rewrite app_nil_r; reflexivity).
  destruct (RayPick _ _) as [hit | ].
  - apply bind_Ok in H as ([valid surface] & w1 & _ & H).
    destruct valid; cbn [negb] in H;
      [ | apply ret_Ok in H as [H _]; injection H as _ <-; exists [];
          rewrite app_nil_r; reflexivity].
    apply bind_Ok in H as (color1 & w2 & _ & H).
    apply bind_Ok in H as (pathStart & w3 & _ & H).
    apply bind_Ok in H as (pathEnd & w4 & _ & H).
    apply bind_Ok in H as (color2 & w5 & _ & H).
    apply bind_Ok in H as (result & w6 & _ & H).
    apply bind_Ok in H as ([scattered state'] & w7 & _ & H).
    destruct scattered; cbn [negb] in H.
    + apply IH in H as (es & ->). eexists. rewrite <- app_assoc. reflexivity.
    + apply ret_Ok in H as [H _]. injection H as _ E. subst events'. eauto.
  - apply bind_Ok in H as (sky & w1 & _ & H).
    apply ret_Ok in H as [H _]. injection H as _ <-. exists [].
    rewrite app_nil_r. reflexivity.
Qed.

Lemma CameraSubpath_records_hit vmWeight vcWeight vmNormalization (index : Z) (fuel : nat)
    state color events hit surface w color' events' w' :
  (ps_pathLength state <? maxPathLength context) = true ->
  RayPick (rtcScene (sceneData context))
          (MakeRay (ps_position state) (ps_direction state) (ps_throughput state) 0 0)
    = Some hit ->
  CalculateSurfaceParams context hit indeterminateSurface = Ok (true, surface) ->
  CameraSubpath fuel context pathVertices points pathEnds hashGrid
                vmWeight vcWeight vmNormalization index state color events w
    = Ok ((color', events'), w') ->
  exists es,
    events'
    = events ++ mkHitEvent CameraPath state hit surface (CameraHitUpdate state hit surface)
                :: es.
Proof.
  intros Hc Hp Hs H. destruct fuel as [ | fuel]; cbn [CameraSubpath] in H;
    rewrite Hc in H; [discriminate H | ].
  rewrite Hp in H. unfold bind at 1 in H. unfold lift at 1 in H. rewrite Hs in H.
  cbn [negb] in H.
  apply bind_Ok in H as (color1 & w2 & _ & H).
  apply bind_Ok in H as (pathStart & w3 & _ & H).
  apply bind_Ok in H as (pathEnd & w4 & _ & H).
  apply bind_Ok in H as (color2 & w5 & _ & H).
  apply bind_Ok in H as (result & w6 & _ & H).
  apply bind_Ok in H as ([scattered state'] & w7 & _ & H).
  destruct scattered; cbn [negb] in H.
  - apply CameraSubpath_appends in H as (es & ->). eexists. rewrite <- app_assoc.
    reflexivity.
  - apply ret_Ok in H as [H _]. injection H as _ E. subst events'. eauto.
Qed.

End SubpathProgress.

(* ===================================================================== *)
(** ** Statements about every bounce of a pass *)
(* ===================================================================== *)

Section PassTheorems.
Context {ML : MathLib} {SL : SceneLib} {ED : ExternData} {TF : TextureFiltering}
        {CL : Collaborators}.

Lemma lightEvent_rule (e : HitEvent) : lightEvent e -> hitUpdateRule e.
Proof.
  intros (Hs & Ha & _). unfold hitUpdateRule. rewrite Hs, Ha.
  unfold LightHitUpdate, lengthFactorApplies, segmentLengthSqr, absCosPerturbed.
  cbv zeta. destruct (_ || _); repeat split.
Qed.

Lemma cameraEvent_rule (e : HitEvent) : cameraEvent e -> hitUpdateRule e.
Proof.
  intros (Hs & Ha & Harea). unfold hitUpdateRule. rewrite Hs, Ha.
  unfold CameraHitUpdate, lengthFactorApplies, segmentLengthSqr, absCosGeometric.
  rewrite Harea, orb_true_r. repeat split.
Qed.



(** C6: every vertex stored in [pathVertices] by a pass has
    [1 <= pathLength < maxPathLength - 1]; indeed [pathLength + 2 <
    maxPathLength], the condition of the loop that stores it.
    ([maxPathLength] is a [uint32].) *)
Theorem stored_vertex_pathLength
    (context : KernelContext) (pathVertices : list VcmVertex) (hashGrid : HashGrid)
    (kernelRadius : float) (width height : Z) (w w' : World) (r : PassResult) :
  maxPathLength context < 2 ^ 32 ->
  VertexConnectionAndMerging context pathVertices hashGrid kernelRadius width height w
    = Ok (r, w') ->
  Forall (fun v => 1 <= vx_pathLength v < maxPathLength context - 1
                   /\ vx_pathLength v + 2 < maxPathLength context)
         (pr_pathVertices r).
Proof.
  intros Hmax H. apply VertexConnectionAndMerging_spec in H as (Hv & _ & _ & Hb & _).
  rewrite Hv. apply Forall_map. eapply Forall_impl; [ | exact (Hb Hmax)].
  intros e [H1 H2]. cbn [vertexOfEvent vx_pathLength]. lia.
Qed.

(** C7: after the light phase of a pass, [pathEnds] has [lightPathCount]
    entries ([width * height] in [uint]), it is non-decreasing, every entry
    is at most [pathVertices.Length()], and the last entry is equal to it. *)
Theorem pathEnds_invariant
    (context : KernelContext) (pathVertices : list VcmVertex) (hashGrid : HashGrid)
    (kernelRadius : float) (width height : Z) (w w' : World) (r : PassResult) :
  VertexConnectionAndMerging context pathVertices hashGrid kernelRadius width height w
    = Ok (r, w') ->
  let lightPathCount := wrap32 (width * height) in
  Z.of_nat (length (pr_pathEnds r)) = lightPathCount
  /\ (0 <= width * height < 2 ^ 32 -> Z.of_nat (length (pr_pathEnds r)) = width * height)
  /\ (forall i j : nat,
        (i <= j < length (pr_pathEnds r))%nat ->
        nth i (pr_pathEnds r) 0 <= nth j (pr_pathEnds r) 0)
  /\ Forall (fun e => 0 <= e <= Z.of_nat (length (pr_pathVertices r))) (pr_pathEnds r)
  /\ (pr_pathEnds r <> [] ->
      last (pr_pathEnds r) 0 = Z.of_nat (length (pr_pathVertices r))).
Proof.
  intros H. cbv zeta.
  apply VertexConnectionAndMerging_spec in H as (_ & _ & _ & _ & Hn & Hb & Hs & Hl).
  assert (Hw : 0 <= wrap32 (width * height)) by (apply Z.mod_pos_bound; lia).
  repeat split; auto.
  - rewrite Hn. lia.
  - intros Hr. rewrite Hn. unfold wrap32. rewrite Z.mod_small by lia. lia.
  - intros i j Hij. clear Hn Hb Hl.
    revert i j Hij. induction Hs as [ | a l Hs IH Ha]; intros i j Hij.
    + cbn [length] in Hij. lia.
    + destruct i as [ | i], j as [ | j]; cbn [nth length] in *; try lia.
      * rewrite Forall_forall in Ha. apply Ha, nth_In. lia.
      * apply IH. lia.
Qed.

End PassTheorems.

(* ===================================================================== *)
(** ** The radius schedule *)
(* ===================================================================== *)

(** *** Dividing a binary32 value by one that is at least 1

    The quotient of [SFdiv] is followed through [SFdiv_core_binary], the
    shifts of [shr_fexp] and the rounding of [binary_round_aux]: the integer
    quotient lies below the dividend's mantissa at the dividend's exponent,
    and rounding to nearest does not pass a representable value. *)

(** Powers of two as unknowns, each known to be positive. *)
Ltac pow_atoms :=
  repeat match goal with
         | |- context [2 ^ ?e] =>
             let a := fresh "pw" in
             let H := fresh "Hpw" in
             assert (H : 0 < 2 ^ e) by (apply Z.pow_pos_nonneg; lia);
             remember (2 ^ e) as a in *;
             match goal with E : a = 2 ^ e |- _ => clear E end
         | _ : context [2 ^ ?e] |- _ =>
             let a := fresh "pw" in
             let H := fresh "Hpw" in
             assert (H : 0 < 2 ^ e) by (apply Z.pow_pos_nonneg; lia);
             remember (2 ^ e) as a in *;
             match goal with E : a = 2 ^ e |- _ => clear E end
         end.

Lemma digits2_pos_bounds (m : positive) :
  2 ^ (Zpos (digits2_pos m) - 1) <= Zpos m < 2 ^ Zpos (digits2_pos m).
Proof.
  induction m as [p IH | p IH | ]; cbn [digits2_pos].
  - rewrite Pos2Z.inj_succ, (Pos2Z.inj_xI p).
    replace (Z.succ (Zpos (digits2_pos p)) - 1) with (Z.succ (Zpos (digits2_pos p) - 1))
      by lia.
    rewrite !Z.pow_succ_r by lia. pow_atoms. lia.
  - rewrite Pos2Z.inj_succ, (Pos2Z.inj_xO p).
    replace (Z.succ (Zpos (digits2_pos p)) - 1) with (Z.succ (Zpos (digits2_pos p) - 1))
      by lia.
    rewrite !Z.pow_succ_r by lia. pow_atoms. lia.
  - cbn. lia.
Qed.

Lemma Zdigits2_le (q k : Z) : 0 <= q < 2 ^ k -> 0 <= k -> Zdigits2 q <= k.
Proof.
  intros [Hq Hk] Hk0. destruct q as [ | p | p]; cbn [Zdigits2]; [lia | | lia].
  pose proof (digits2_pos_bounds p) as [Hl _].
  assert (H : 2 ^ (Zpos (digits2_pos p) - 1) < 2 ^ k) by lia.
  apply Z.pow_lt_mono_r_iff in H; lia.
Qed.

Lemma shr_1_m (mrs : shr_record) :
  0 <= shr_m mrs -> shr_m (shr_1 mrs) = shr_m mrs / 2.
Proof.
  destruct mrs as [m r s]. cbn [shr_m]. intros Hm.
  destruct m as [ | p | p]; [reflexivity | | lia].
  rewrite <- Z.div2_div. destruct p; reflexivity.
Qed.

Lemma iter_shr_1_m (p : positive) :
  forall mrs, 0 <= shr_m mrs ->
    shr_m (iter_pos shr_1 p mrs) = shr_m mrs / 2 ^ Zpos p.
Proof.
  induction p as [p IH | p IH | ]; intros mrs Hm; cbn [iter_pos].
  - assert (H1 : 0 <= shr_m (shr_1 mrs)).
    { rewrite shr_1_m by exact Hm. apply Z.div_pos; lia. }
    assert (H2 : 0 <= shr_m (iter_pos shr_1 p (shr_1 mrs))).
    { rewrite IH by exact H1. apply Z.div_pos; [exact H1 | apply Z.pow_pos_nonneg; lia]. }
    rewrite IH by exact H2. rewrite IH by exact H1. rewrite shr_1_m by exact Hm.
    rewrite !Z.div_div by (try apply Z.pow_pos_nonneg; lia).
    f_equal. rewrite (Pos2Z.inj_xI p).
    replace (2 * Zpos p + 1) with (1 + Zpos p + Zpos p) by lia.
    rewrite !Z.pow_add_r by lia. lia.
  - assert (H2 : 0 <= shr_m (iter_pos shr_1 p mrs)).
    { rewrite IH by exact Hm. apply Z.div_pos; [exact Hm | apply Z.pow_pos_nonneg; lia]. }
    rewrite IH by exact H2. rewrite IH by exact Hm.
    rewrite !Z.div_div by (try apply Z.pow_pos_nonneg; lia).
    f_equal. rewrite (Pos2Z.inj_xO p).
    replace (2 * Zpos p) with (Zpos p + Zpos p) by lia.
    rewrite !Z.pow_add_r by lia. lia.
  - rewrite shr_1_m by exact Hm. reflexivity.
Qed.

(** The mantissa and the exponent after [shr]. *)
Lemma shr_m_e (mrs : shr_record) (e n : Z) :
  0 <= shr_m mrs ->
  shr_m (fst (shr mrs e n)) = shr_m mrs / 2 ^ Z.max 0 n
  /\ snd (shr mrs e n) = e + Z.max 0 n.
Proof.
  intros Hm. destruct n as [ | p | p]; cbn [shr fst snd].
  - cbn. rewrite Z.div_1_r. lia.
  - rewrite iter_shr_1_m by exact Hm. replace (Z.max 0 (Zpos p)) with (Zpos p) by lia. auto.
  - replace (Z.max 0 (Zneg p)) with 0 by lia. cbn. rewrite Z.div_1_r. lia.
Qed.

Lemma shr_record_of_loc_m (m : Z) (l : location) : shr_m (shr_record_of_loc m l) = m.
Proof. destruct l as [ | []]; reflexivity. Qed.

Lemma round_nearest_even_bounds (m : Z) (l : location) :
  m <= round_nearest_even m l <= m + 1.
Proof.
  destruct l as [ | []]; cbn [round_nearest_even]; try lia.
  destruct (Z.even m); lia.
Qed.

Lemma bounded_facts (m : positive) (e : Z) :
  bounded prec emax m e = true ->
  e = Z.max (Zpos (digits2_pos m) + e - 24) (-149) /\ e <= 104.
Proof.
  unfold bounded, canonical_mantissa, fexp, emin, prec, emax. intros H.
  apply andb_prop in H as [H1 H2]. apply Z.eqb_eq in H1. apply Z.leb_le in H2. lia.
Qed.

Lemma fexp_eq (e : Z) : fexp prec emax e = Z.max (e - 24) (-149).
Proof. reflexivity. Qed.

(** Rounding a value that lies strictly below the float [x], given in
    units of [2 ^ e'] with [e'] not above the exponent of [x], gives a
    float that is not above [x]. *)
Lemma binary_round_aux_le (q e' : Z) (l : location) (mx : positive) (ex : Z) :
  bounded prec emax mx ex = true ->
  0 <= q -> e' <= ex ->
  q < Zpos mx * 2 ^ (ex - e') ->
  SFleb (binary_round_aux prec emax false q e' l) (S754_finite false mx ex) = true.
Proof.
  intros Hx Hq He' Hlt.
  destruct (bounded_facts mx ex Hx) as [Hcx Hex].
  pose proof (digits2_pos_bounds mx) as [_ Hmx].
  assert (Hdx : Zpos (digits2_pos mx) <= 24) by lia.
  assert (Hmx24 : Zpos mx < 2 ^ 24).
  { eapply Z.lt_le_trans; [exact Hmx | ]. apply Z.pow_le_mono_r; lia. }
  unfold binary_round_aux, shr_fexp. rewrite !fexp_eq.
  (* first shift *)
  set (n1f := Z.max (Zdigits2 q + e' - 24) (-149) - e').
  pose proof (shr_m_e (shr_record_of_loc q l) e' n1f) as H1.
  rewrite shr_record_of_loc_m in H1. specialize (H1 Hq).
  destruct (shr (shr_record_of_loc q l) e' n1f) as [mrs' e1].
  cbn [fst snd] in H1. destruct H1 as [Hm0 He1].
  set (n1 := Z.max 0 n1f) in *.
  assert (Hq24 : q < 2 ^ (24 + ex - e')).
  { replace (24 + ex - e') with (24 + (ex - e')) by lia.
    rewrite Z.pow_add_r by lia.
    eapply Z.lt_le_trans; [exact Hlt | ].
    apply Z.mul_le_mono_nonneg_r; [apply Z.pow_nonneg; lia | lia]. }
  assert (Hdq : Zdigits2 q <= 24 + ex - e') by (apply Zdigits2_le; lia).
  assert (He1x : e1 <= ex) by lia.
  assert (Hm0lt : shr_m mrs' < Zpos mx * 2 ^ (ex - e1)).
  { rewrite Hm0. apply Z.div_lt_upper_bound; [apply Z.pow_pos_nonneg; lia | ].
    replace (ex - e') with (n1 + (ex - e1)) in Hlt by lia.
    rewrite Z.pow_add_r in Hlt by lia. lia. }
  assert (Hm0pos : 0 <= shr_m mrs').
  { rewrite Hm0. apply Z.div_pos; [exact Hq | apply Z.pow_pos_nonneg; lia]. }
  pose proof (round_nearest_even_bounds (shr_m mrs') (loc_of_shr_record mrs')) as Hr.
  set (m1 := round_nearest_even (shr_m mrs') (loc_of_shr_record mrs')) in *.
  assert (Hm1 : m1 <= Zpos mx * 2 ^ (ex - e1)) by lia.
  assert (Hm1pos : 0 <= m1) by lia.
  (* second shift *)
  rewrite fexp_eq.
  set (n2f := Z.max (Zdigits2 m1 + e1 - 24) (-149) - e1).
  pose proof (shr_m_e (shr_record_of_loc m1 loc_Exact) e1 n2f) as H2.
  rewrite shr_record_of_loc_m in H2. specialize (H2 Hm1pos).
  destruct (shr (shr_record_of_loc m1 loc_Exact) e1 n2f) as [mrs'' e2].
  cbn [fst snd] in H2. destruct H2 as [Hm2 He2].
  set (n2 := Z.max 0 n2f) in *.
  assert (Hm124 : m1 < 2 ^ (24 + ex - e1)).
  { replace (24 + ex - e1) with (24 + (ex - e1)) by lia.
    rewrite Z.pow_add_r by lia.
    eapply Z.le_lt_trans; [exact Hm1 | ].
    apply Z.mul_lt_mono_pos_r; [apply Z.pow_pos_nonneg; lia | exact Hmx24]. }
  assert (Hdm1 : Zdigits2 m1 <= 24 + ex - e1) by (apply Zdigits2_le; lia).
  assert (He2x : e2 <= ex) by lia.
  assert (Hm2pos : 0 <= shr_m mrs'').
  { rewrite Hm2. apply Z.div_pos; [exact Hm1pos | apply Z.pow_pos_nonneg; lia]. }
  assert (Hm2le : shr_m mrs'' * 2 ^ n2 <= m1).
  { rewrite Hm2. rewrite Z.mul_comm. apply Z.mul_div_le. apply Z.pow_pos_nonneg; lia. }
  destruct (shr_m mrs'') as [ | m | m] eqn:Em; [reflexivity | | lia].
  replace (e2 <=? emax - prec) with true by (symmetry; apply Z.leb_le; unfold emax, prec; lia).
  unfold SFleb, SFcompare.
  destruct (Z.compare_spec e2 ex) as [Ee | Ee | Ee]; [ | reflexivity | lia].
  assert (Hle : (m <= mx)%positive).
  { assert (Hn : ex - e1 = n2) by lia. rewrite Hn in Hm1.
    assert (H : Zpos m * 2 ^ n2 <= Zpos mx * 2 ^ n2) by lia.
    apply Z.mul_le_mono_pos_r in H; [exact H | apply Z.pow_pos_nonneg; lia]. }
  change (Pos.compare_cont Eq m mx) with (Pos.compare m mx).
  apply Pos.compare_le_iff in Hle. destruct (Pos.compare m mx); [reflexivity | reflexivity | ].
  exfalso. apply Hle. reflexivity.
Qed.

(** A float that is already in its place is rounded to itself. *)
Lemma binary_round_aux_canonical (mx : positive) (ex : Z) :
  bounded prec emax mx ex = true ->
  binary_round_aux prec emax false (Zpos mx) ex loc_Exact = S754_finite false mx ex.
Proof.
  intros Hx. destruct (bounded_facts mx ex Hx) as [Hcx Hex].
  unfold binary_round_aux, shr_fexp. rewrite !fexp_eq. cbn [Zdigits2].
  replace (Z.max (Zpos (digits2_pos mx) + ex - 24) (-149) - ex) with 0 by lia.
  cbn [shr shr_record_of_loc shr_m loc_of_shr_record round_nearest_even].
  rewrite fexp_eq. cbn [Zdigits2].
  replace (Z.max (Zpos (digits2_pos mx) + ex - 24) (-149) - ex) with 0 by lia.
  cbn [shr shr_record_of_loc shr_m].
  replace (ex <=? emax - prec) with true
    by (symmetry; apply Z.leb_le; unfold emax, prec; lia).
  reflexivity.
Qed.

Lemma binary_round_aux_double (mx : positive) (ex : Z) :
  bounded prec emax mx ex = true ->
  Zpos (digits2_pos mx) = 24 -> -149 < ex ->
  binary_round_aux prec emax false (Zpos mx~0) (ex - 1) loc_Exact = S754_finite false mx ex.
Proof.
  intros Hx Hd Hex1. destruct (bounded_facts mx ex Hx) as [Hcx Hex].
  unfold binary_round_aux, shr_fexp. rewrite !fexp_eq. cbn [Zdigits2 digits2_pos].
  rewrite Pos2Z.inj_succ, Hd.
  replace (Z.max (Z.succ 24 + (ex - 1) - 24) (-149) - (ex - 1)) with 1 by lia.
  cbn [shr iter_pos shr_record_of_loc shr_1 shr_m loc_of_shr_record round_nearest_even orb].
  rewrite fexp_eq. cbn [Zdigits2]. rewrite Hd.
  replace (Z.max (24 + (ex - 1 + 1) - 24) (-149) - (ex - 1 + 1)) with 0 by lia.
  cbn [shr shr_record_of_loc shr_m].
  replace (ex - 1 + 1 <=? emax - prec) with true
    by (symmetry; apply Z.leb_le; unfold emax, prec; lia).
  f_equal. lia.
Qed.

Lemma SFleb_refl_finite (m : positive) (e : Z) :
  SFleb (S754_finite false m e) (S754_finite false m e) = true.
Proof.
  unfold SFleb, SFcompare. rewrite Z.compare_refl.
  change (Pos.compare_cont Eq m m) with (Pos.compare m m). rewrite Pos.compare_refl.
  reflexivity.
Qed.

(** Division by a float that is at least 1 does not increase a float that
    is not negative. *)
Lemma SFdiv_le_self_finite (mx : positive) (ex : Z) (my : positive) (ey : Z) :
  bounded prec emax mx ex = true ->
  bounded prec emax my ey = true ->
  SFleb (S754_finite false 8388608 (-23)) (S754_finite false my ey) = true ->
  SFleb (SFdiv prec emax (S754_finite false mx ex) (S754_finite false my ey))
        (S754_finite false mx ex) = true.
Proof.
  intros Hx Hy H1.
  destruct (bounded_facts mx ex Hx) as [Hcx Hex].
  destruct (bounded_facts my ey Hy) as [Hcy Hey].
  pose proof (digits2_pos_bounds mx) as [_ Hmx].
  pose proof (digits2_pos_bounds my) as [Hmy1 Hmy2].
  assert (Hy1 : -23 < ey \/ (ey = -23 /\ 8388608 <= Zpos my)).
  { unfold SFleb, SFcompare in H1.
    destruct (Z.compare_spec (-23) ey) as [E | E | E]; [ | lia | discriminate H1].
    right. split; [lia | ].
    change (Pos.compare_cont Eq 8388608 my) with (Pos.compare 8388608 my) in H1.
    destruct (Pos.compare_spec 8388608 my) as [C | C | C]; [ | | discriminate H1]; lia. }
  assert (Hdy : Zpos (digits2_pos my) = 24) by lia.
  rewrite Hdy in Hmy1, Hmy2. change (2 ^ (24 - 1)) with 8388608 in Hmy1.
  change (2 ^ 24) with 16777216 in Hmy2.
  assert (Hdx : Zpos (digits2_pos mx) <= 24) by lia.
  unfold SFdiv, SFdiv_core_binary. rewrite fexp_eq. cbn [Zdigits2 xorb]. rewrite Hdy.
  set (e' := Z.min (Z.max (Zpos (digits2_pos mx) + ex - (24 + ey) - 24) (-149)) (ex - ey)).
  set (s := ex - ey - e').
  assert (He' : e' <= ex) by lia.
  assert (Hs : 0 <= s) by lia.
  assert (Hm' : match s with
                | 0 => Zpos mx
                | Zpos _ => Z.shiftl (Zpos mx) s
                | Zneg _ => 0
                end = Zpos mx * 2 ^ s).
  { destruct s as [ | ps | ps] eqn:Es; [cbn; lia | | lia].
    apply Z.shiftl_mul_pow2. lia. }
  rewrite Hm'.
  pose proof (Z_div_mod (Zpos mx * 2 ^ s) (Zpos my) eq_refl) as Hdiv.
  destruct (Z.div_eucl (Zpos mx * 2 ^ s) (Zpos my)) as [q r].
  destruct Hdiv as [Hqr Hr].
  assert (Hspos : 0 < 2 ^ s) by (apply Z.pow_pos_nonneg; lia).
  assert (Hq : 0 <= q) by nia.
  destruct (Z.eq_dec ey (-23)) as [E23 | E23];
    [destruct (Z.eq_dec (Zpos my) 8388608) as [Eone | Eone] | ].
  - (* the divisor is 1 *)
    subst ey. injection Eone as ->.
    assert (Hcases : (Zpos (digits2_pos mx) = 24 /\ -149 < ex /\ e' = ex - 1 /\ s = 24)
                     \/ (ex = -149 /\ e' = -149 /\ s = 23)) by lia.
    destruct Hcases as [(Hd & Hex1 & Ee & Es) | (Eex & Ee & Es)].
    + rewrite Es in Hqr. change (2 ^ 24) with 16777216 in Hqr.
      assert (Eq : q = Zpos mx~0) by (rewrite (Pos2Z.inj_xO mx); lia).
      assert (Er : r = 0) by lia.
      rewrite Eq, Er, Ee.
      change (new_location 8388608 0) with loc_Exact.
      rewrite binary_round_aux_double by assumption. apply SFleb_refl_finite.
    + rewrite Es in Hqr. change (2 ^ 23) with 8388608 in Hqr.
      assert (Eq : q = Zpos mx) by lia.
      assert (Er : r = 0) by lia.
      rewrite Eq, Er, Ee, <- Eex.
      change (new_location 8388608 0) with loc_Exact.
      rewrite binary_round_aux_canonical by assumption. apply SFleb_refl_finite.
  - (* the divisor is above 1, with exponent -23 *)
    apply binary_round_aux_le; [exact Hx | exact Hq | exact He' | ].
    subst ey.
    assert (Epow : 2 ^ s = 2 ^ (ex - e') * 8388608).
    { unfold s. replace (ex - -23 - e') with (ex - e' + 23) by lia.
      rewrite Z.pow_add_r by lia. reflexivity. }
    assert (Hpos : 0 < 2 ^ (ex - e')) by (apply Z.pow_pos_nonneg; lia).
    rewrite Epow in Hqr. nia.
  - (* the exponent of the divisor is above -23 *)
    apply binary_round_aux_le; [exact Hx | exact Hq | exact He' | ].
    assert (Hpos : 0 < 2 ^ (ex - e')) by (apply Z.pow_pos_nonneg; lia).
    assert (Hpow : 2 ^ s <= 2 ^ (ex - e') * 4194304).
    { destruct (Z_le_gt_dec 0 ey) as [Hey0 | Hey0].
      - assert (H : 2 ^ s <= 2 ^ (ex - e')) by (apply Z.pow_le_mono_r; lia). lia.
      - unfold s. replace (ex - ey - e') with (ex - e' + (- ey)) by lia.
        rewrite Z.pow_add_r by lia.
        apply Z.mul_le_mono_nonneg_l; [lia | ].
        change 4194304 with (2 ^ 22). apply Z.pow_le_mono_r; lia. }
    nia.
Qed.

(** *** Dividing by the larger of two binary32 values

    The integer quotient and the rest that [SFdiv_core_binary] returns are
    read as a cut of the exact quotient; the shifts keep the cut, rounding
    to nearest even keeps the order of two cuts, and so does the packing of
    mantissa and exponent. *)

Lemma cuts_shr_1 (N D : Z) (mrs : shr_record) :
  0 <= N -> cuts N D mrs -> cuts N (2 * D) (shr_1 mrs).
Proof.
  intros HN (HD & Hm & Hc). destruct mrs as [m r s]. cbn [shr_m shr_r shr_s] in *.
  assert (Hm0 : 0 <= m) by nia.
  unfold cuts. split; [lia | ].
  destruct m as [ | [p | p | ] | p]; try lia; cbn [shr_1 shr_m shr_r shr_s];
    try rewrite (Pos2Z.inj_xI p) in *; try rewrite (Pos2Z.inj_xO p) in *;
    destruct r, s; cbn [orb]; lia.
Qed.

Lemma cuts_iter (p : positive) :
  forall N D mrs, 0 <= N -> cuts N D mrs ->
    cuts N (2 ^ Zpos p * D) (iter_pos shr_1 p mrs).
Proof.
  induction p as [p IH | p IH | ]; intros N D mrs HN H; cbn [iter_pos].
  - apply cuts_shr_1 in H; [ | exact HN].
    apply IH in H; [ | exact HN]. apply IH in H; [ | exact HN].
    replace (2 ^ Zpos p~1 * D) with (2 ^ Zpos p * (2 ^ Zpos p * (2 * D))); [exact H | ].
    rewrite (Pos2Z.inj_xI p).
    replace (2 * Zpos p + 1) with (Zpos p + Zpos p + 1) by lia.
    rewrite !Z.pow_add_r by lia. change (2 ^ 1) with 2. ring.
  - apply IH in H; [ | exact HN]. apply IH in H; [ | exact HN].
    replace (2 ^ Zpos p~0 * D) with (2 ^ Zpos p * (2 ^ Zpos p * D)); [exact H | ].
    rewrite (Pos2Z.inj_xO p).
    replace (2 * Zpos p) with (Zpos p + Zpos p) by lia.
    rewrite !Z.pow_add_r by lia. ring.
  - apply cuts_shr_1 in H; [ | exact HN]. exact H.
Qed.

Lemma cuts_shr (N D : Z) (mrs : shr_record) (e n : Z) :
  0 <= N -> cuts N D mrs -> cuts N (2 ^ Z.max 0 n * D) (fst (shr mrs e n)).
Proof.
  intros HN H. destruct n as [ | p | p]; cbn [shr fst].
  - replace (2 ^ Z.max 0 0 * D) with D by (change (Z.max 0 0) with 0; rewrite Z.pow_0_r; lia). exact H.
  - replace (Z.max 0 (Zpos p)) with (Zpos p) by lia. apply cuts_iter; assumption.
  - replace (Z.max 0 (Zneg p)) with 0 by lia. replace (2 ^ 0 * D) with D by (rewrite Z.pow_0_r; lia).
    exact H.
Qed.

(** The quotient and the rest of a division, as [SFdiv_core_binary] packs
    them. *)
Lemma cuts_div (N D q r : Z) :
  0 < D -> N = D * q + r -> 0 <= r < D ->
  cuts N D (shr_record_of_loc q (new_location D r)).
Proof.
  intros HD HN Hr. unfold cuts. rewrite shr_record_of_loc_m.
  replace (N - q * D) with r by lia.
  split; [exact HD | ]. split; [exact Hr | ].
  unfold new_location, new_location_even, new_location_odd.
  destruct (Z.even D) eqn:Ev.
  - destruct (Z.eqb_spec r 0) as [E | E]; [cbn [shr_record_of_loc shr_r shr_s]; exact E | ].
    destruct (Z.compare_spec (2 * r) D); cbn [shr_record_of_loc shr_r shr_s]; lia.
  - destruct (Z.eqb_spec r 0) as [E | E]; [cbn [shr_record_of_loc shr_r shr_s]; exact E | ].
    assert (Hodd : D <> 2 * r).
    { intros E2. rewrite E2, Z.even_mul in Ev. discriminate Ev. }
    destruct (Z.compare_spec (2 * r + 1) D); cbn [shr_record_of_loc shr_r shr_s]; lia.
Qed.

Lemma cuts_below (N D N' D' : Z) (mrs mrs' : shr_record) :
  cuts N D mrs -> cuts N' D' mrs' -> N' * D <= N * D' -> below mrs' mrs.
Proof.
  intros (HD & Hm & Hc) (HD' & Hm' & Hc') Hle. unfold below, place.
  destruct mrs as [m r s], mrs' as [m' r' s']. cbn [shr_m shr_r shr_s] in *.
  assert (HDD : 0 < D * D') by nia.
  assert (Hmm : m' <= m).
  { assert (H1 : m' * (D * D') <= N' * D) by nia.
    assert (H2 : N * D' < (m + 1) * (D * D')) by nia.
    assert (H3 : m' * (D * D') < (m + 1) * (D * D')) by lia.
    apply Z.mul_lt_mono_pos_r in H3; lia. }
  destruct (Z.eq_dec m' m) as [E | E]; [right | left; lia].
  split; [exact E | ]. subst m'.
  assert (Hrr : (N' - m * D') * D <= (N - m * D) * D') by nia.
  destruct r, s, r', s'; try lia; nia.
Qed.

Lemma round_nearest_even_below (a b : shr_record) :
  below a b ->
  round_nearest_even (shr_m a) (loc_of_shr_record a)
  <= round_nearest_even (shr_m b) (loc_of_shr_record b).
Proof.
  intros [H | [E H]].
  - pose proof (round_nearest_even_bounds (shr_m a) (loc_of_shr_record a)).
    pose proof (round_nearest_even_bounds (shr_m b) (loc_of_shr_record b)). lia.
  - destruct a as [m r s], b as [m' r' s']. cbn [shr_m] in *. subst m'.
    unfold place in H. cbn [shr_r shr_s] in H.
    destruct r, s, r', s'; cbn [loc_of_shr_record round_nearest_even]; try lia;
      destruct (Z.even m); lia.
Qed.

Lemma Zdigits2_bounds (q : Z) :
  0 <= q -> q < 2 ^ Zdigits2 q /\ (0 < q -> 2 ^ (Zdigits2 q - 1) <= q) /\ 0 <= Zdigits2 q.
Proof.
  intros Hq. destruct q as [ | p | p]; cbn [Zdigits2]; [cbn; lia | | lia].
  pose proof (digits2_pos_bounds p). lia.
Qed.

Lemma cuts_mantissa (N D : Z) (mrs : shr_record) :
  0 <= N -> cuts N D mrs -> 0 <= shr_m mrs.
Proof. intros HN (HD & Hm & _). nia. Qed.

Lemma binary_round_aux_pack (q e : Z) (l : location) :
  binary_round_aux prec emax false q e l
  = let '(mrs', e') := shr_fexp prec emax q e l in
    let '(mrs'', e'') :=
      shr_fexp prec emax (round_nearest_even (shr_m mrs') (loc_of_shr_record mrs')) e'
               loc_Exact in
    pack (shr_m mrs'') e''.
Proof. reflexivity. Qed.

(** The first shift of [binary_round_aux], when the exponent given is not
    above the exponent wanted: the mantissa is left with 24 bits, or fewer
    at the least exponent. *)
Lemma first_shift (N D q e : Z) (l : location) :
  0 <= N -> cuts N D (shr_record_of_loc q l) ->
  e <= Z.max (Zdigits2 q + e - 24) (-149) ->
  exists mrs,
    shr_fexp prec emax q e l = (mrs, Z.max (Zdigits2 q + e - 24) (-149))
    /\ cuts N (2 ^ (Z.max (Zdigits2 q + e - 24) (-149) - e) * D) mrs
    /\ 0 <= shr_m mrs < 16777216
    /\ (Z.max (Zdigits2 q + e - 24) (-149) = -149 \/ 8388608 <= shr_m mrs).
Proof.
  intros HN Hc He.
  assert (Hq : 0 <= q).
  { apply cuts_mantissa in Hc; [ | exact HN]. rewrite shr_record_of_loc_m in Hc. exact Hc. }
  destruct (Zdigits2_bounds q Hq) as (Hq1 & Hq2 & Hd).
  unfold shr_fexp. rewrite fexp_eq.
  set (E := Z.max (Zdigits2 q + e - 24) (-149)) in *.
  pose proof (shr_m_e (shr_record_of_loc q l) e (E - e)) as H1.
  rewrite shr_record_of_loc_m in H1. specialize (H1 Hq).
  pose proof (cuts_shr N D (shr_record_of_loc q l) e (E - e) HN Hc) as H2.
  destruct (shr (shr_record_of_loc q l) e (E - e)) as [mrs e1].
  cbn [fst snd] in H1, H2. destruct H1 as [Hm He1].
  replace (Z.max 0 (E - e)) with (E - e) in * by lia.
  assert (Hpos : 0 < 2 ^ (E - e)) by (apply Z.pow_pos_nonneg; lia).
  exists mrs. split; [f_equal; lia | ]. split; [exact H2 | ].
  assert (Hlt : q < 2 ^ (E - e) * 16777216).
  { change 16777216 with (2 ^ 24). rewrite <- Z.pow_add_r by lia.
    eapply Z.lt_le_trans; [exact Hq1 | ]. apply Z.pow_le_mono_r; lia. }
  split.
  - rewrite Hm. split; [apply Z.div_pos; lia | ].
    apply Z.div_lt_upper_bound; [exact Hpos | exact Hlt].
  - destruct (Z.eq_dec E (-149)) as [EE | EE]; [left; exact EE | right].
    assert (HE : E = Zdigits2 q + e - 24) by lia.
    assert (Hq0 : 0 < q).
    { destruct (Z.eq_dec q 0) as [-> | ]; [cbn [Zdigits2] in *; lia | lia]. }
    specialize (Hq2 Hq0).
    rewrite Hm. apply Z.div_le_lower_bound; [exact Hpos | ].
    change 8388608 with (2 ^ 23). rewrite <- Z.pow_add_r by lia.
    eapply Z.le_trans; [ | exact Hq2]. apply Z.pow_le_mono_r; lia.
Qed.

(** The second shift: one place when the rounding carried into a 25th bit,
    none otherwise. *)
Lemma second_shift (m E : Z) :
  -149 <= E -> 0 <= m <= 16777216 ->
  (m < 16777216
   /\ shr_m (fst (shr_fexp prec emax m E loc_Exact)) = m
   /\ snd (shr_fexp prec emax m E loc_Exact) = E)
  \/ (m = 16777216
      /\ shr_m (fst (shr_fexp prec emax m E loc_Exact)) = 8388608
      /\ snd (shr_fexp prec emax m E loc_Exact) = E + 1).
Proof.
  intros HE Hm. unfold shr_fexp. rewrite fexp_eq.
  destruct (Z.eq_dec m 16777216) as [-> | Hne].
  - right. change (Zdigits2 16777216) with 25.
    replace (Z.max (25 + E - 24) (-149) - E) with 1 by lia.
    cbn [shr iter_pos shr_record_of_loc shr_1 shr_m fst snd]. auto.
  - left. split; [lia | ].
    assert (Hd : Zdigits2 m <= 24) by (apply Zdigits2_le; [change (2 ^ 24) with 16777216 | ]; lia).
    destruct (Z.max (Zdigits2 m + E - 24) (-149) - E) as [ | p | p] eqn:En; try lia;
      cbn [shr fst snd shr_record_of_loc shr_m]; auto.
Qed.

Lemma pack_le (mB eB mA eA : Z) :
  0 <= mB -> 0 <= mA ->
  mB = 0 \/ (0 < mA /\ (eB < eA \/ (eB = eA /\ mB <= mA))) ->
  SFleb (pack mB eB) (pack mA eA) = true.
Proof.
  intros HB HA H. unfold pack.
  destruct mB as [ | pB | pB]; [ | | lia].
  - destruct mA as [ | pA | pA]; [reflexivity | | lia].
    destruct (eA <=? emax - prec); reflexivity.
  - destruct H as [H | [HA0 H]]; [discriminate H | ].
    destruct mA as [ | pA | pA]; try lia.
    unfold emax, prec. change (128 - 24) with 104.
    destruct (Z.leb_spec eB 104) as [LB | LB], (Z.leb_spec eA 104) as [LA | LA];
      try reflexivity; try lia.
    unfold SFleb, SFcompare.
    destruct (Z.compare_spec eB eA) as [Ee | Ee | Ee]; [ | reflexivity | lia].
    assert (Hle : (pB <= pA)%positive) by lia.
    change (Pos.compare_cont Eq pB pA) with (Pos.compare pB pA).
    apply Pos.compare_le_iff in Hle.
    destruct (Pos.compare pB pA); [reflexivity | reflexivity | ].
    exfalso. apply Hle. reflexivity.
Qed.

(** Of two quotients in order, the smaller has the smaller exponent
    wanted. *)
Lemma wanted_exponent_le (NA DA qA eA NB DB qB eB : Z) (lA lB : location) :
  0 <= NA -> 0 <= NB ->
  cuts NA DA (shr_record_of_loc qA lA) -> cuts NB DB (shr_record_of_loc qB lB) ->
  eB <= Z.max (Zdigits2 qB + eB - 24) (-149) ->
  (forall E, eA <= E -> eB <= E ->
     NB * (2 ^ (E - eA) * DA) <= NA * (2 ^ (E - eB) * DB)) ->
  Z.max (Zdigits2 qB + eB - 24) (-149) <= Z.max (Zdigits2 qA + eA - 24) (-149).
Proof.
  intros HNA HNB HcA HcB HeB Hv.
  assert (HqA : 0 <= qA).
  { apply cuts_mantissa in HcA; [ | exact HNA]. rewrite shr_record_of_loc_m in HcA. exact HcA. }
  assert (HqB : 0 <= qB).
  { apply cuts_mantissa in HcB; [ | exact HNB]. rewrite shr_record_of_loc_m in HcB. exact HcB. }
  destruct (Zdigits2_bounds qA HqA) as (HA1 & _ & HdA).
  destruct (Zdigits2_bounds qB HqB) as (_ & HB2 & HdB).
  destruct (Z_le_gt_dec (Zdigits2 qB + eB) (Zdigits2 qA + eA)) as [Hle | Hgt]; [lia | ].
  destruct (Z_le_gt_dec (Zdigits2 qB + eB - 24) (-149)) as [Hs | Hs]; [lia | exfalso].
  assert (HqB0 : 0 < qB).
  { destruct (Z.eq_dec qB 0) as [E0 | ]; [ | lia].
    rewrite E0 in *. cbn [Zdigits2] in *. lia. }
  specialize (HB2 HqB0).
  destruct HcA as (HDA & HmA & _). destruct HcB as (HDB & HmB & _).
  rewrite shr_record_of_loc_m in HmA, HmB.
  set (E := Z.max eA eB).
  specialize (Hv E ltac:(lia) ltac:(lia)).
  set (dA := Zdigits2 qA) in *. set (dB := Zdigits2 qB) in *.
  assert (HpA : 0 < 2 ^ (E - eA)) by (apply Z.pow_pos_nonneg; lia).
  assert (HpB : 0 < 2 ^ (E - eB)) by (apply Z.pow_pos_nonneg; lia).
  assert (H1 : 2 ^ (dB - 1) * DB <= NB) by nia.
  assert (H2 : NA < 2 ^ dA * DA) by nia.
  assert (H3 : 2 ^ (dB - 1) * DB * (2 ^ (E - eA) * DA) <= NB * (2 ^ (E - eA) * DA)).
  { apply Z.mul_le_mono_nonneg_r; [nia | exact H1]. }
  assert (H4 : NA * (2 ^ (E - eB) * DB) < 2 ^ dA * DA * (2 ^ (E - eB) * DB)).
  { apply Z.mul_lt_mono_pos_r; [nia | exact H2]. }
  assert (H5 : 2 ^ (dB - 1 + (E - eA)) * (DA * DB) < 2 ^ (dA + (E - eB)) * (DA * DB)).
  { rewrite !Z.pow_add_r by lia. nia. }
  apply Z.mul_lt_mono_pos_r in H5; [ | nia].
  apply Z.pow_lt_mono_r_iff in H5; lia.
Qed.

(** [binary_round_aux] keeps the order of two quotients. *)
Lemma binary_round_aux_mono (NA DA qA eA NB DB qB eB : Z) (lA lB : location) :
  0 <= NA -> 0 <= NB ->
  cuts NA DA (shr_record_of_loc qA lA) -> cuts NB DB (shr_record_of_loc qB lB) ->
  eA <= Z.max (Zdigits2 qA + eA - 24) (-149) ->
  eB <= Z.max (Zdigits2 qB + eB - 24) (-149) ->
  (forall E, eA <= E -> eB <= E ->
     NB * (2 ^ (E - eA) * DA) <= NA * (2 ^ (E - eB) * DB)) ->
  SFleb (binary_round_aux prec emax false qB eB lB)
        (binary_round_aux prec emax false qA eA lA) = true.
Proof.
  intros HNA HNB HcA HcB HeA HeB Hv.
  pose proof (wanted_exponent_le NA DA qA eA NB DB qB eB lA lB HNA HNB HcA HcB HeB Hv) as HE.
  destruct (first_shift NA DA qA eA lA HNA HcA HeA) as (mA & SA & CA & MA & TA).
  destruct (first_shift NB DB qB eB lB HNB HcB HeB) as (mB & SB & CB & MB & TB).
  rewrite !binary_round_aux_pack, SA, SB.
  set (EA := Z.max (Zdigits2 qA + eA - 24) (-149)) in *.
  set (EB := Z.max (Zdigits2 qB + eB - 24) (-149)) in *.
  pose proof (round_nearest_even_bounds (shr_m mA) (loc_of_shr_record mA)) as RA.
  pose proof (round_nearest_even_bounds (shr_m mB) (loc_of_shr_record mB)) as RB.
  assert (Hmono : EA = EB ->
                  round_nearest_even (shr_m mB) (loc_of_shr_record mB)
                  <= round_nearest_even (shr_m mA) (loc_of_shr_record mA)).
  { intros EE. apply round_nearest_even_below.
    apply (cuts_below _ _ _ _ _ _ CA CB).
    rewrite <- EE. apply Hv; lia. }
  set (rA := round_nearest_even (shr_m mA) (loc_of_shr_record mA)) in *.
  set (rB := round_nearest_even (shr_m mB) (loc_of_shr_record mB)) in *.
  pose proof (second_shift rA EA ltac:(lia) ltac:(lia)) as FA.
  pose proof (second_shift rB EB ltac:(lia) ltac:(lia)) as FB.
  destruct (shr_fexp prec emax rA EA loc_Exact) as [mA2 eA2].
  destruct (shr_fexp prec emax rB EB loc_Exact) as [mB2 eB2].
  cbn [fst snd] in FA, FB.
  apply pack_le; [lia | lia | ].
  destruct (Z.eq_dec (shr_m mB2) 0) as [Z0 | Z0]; [left; exact Z0 | right].
  destruct (Z.eq_dec EA EB) as [EE | EE].
  - specialize (Hmono EE). lia.
  - lia.
Qed.

(** What [SFdiv_core_binary] returns for two mantissas: the quotient cut at
    its unit, at an exponent that is not above the exponent wanted. *)
Lemma SFdiv_core_binary_cuts (mx : positive) (ex : Z) (my : positive) (ey : Z) :
  exists q e l,
    SFdiv_core_binary prec emax (Zpos mx) ex (Zpos my) ey = (q, e, l)
    /\ e <= ex - ey
    /\ cuts (Zpos mx * 2 ^ (ex - ey - e)) (Zpos my) (shr_record_of_loc q l)
    /\ e <= Z.max (Zdigits2 q + e - 24) (-149).
Proof.
  unfold SFdiv_core_binary. rewrite fexp_eq. cbn [Zdigits2].
  pose proof (digits2_pos_bounds mx) as [Hmx1 Hmx2].
  pose proof (digits2_pos_bounds my) as [Hmy1 Hmy2].
  set (dx := Zpos (digits2_pos mx)) in *. set (dy := Zpos (digits2_pos my)) in *.
  assert (Hdx : 0 < dx) by (unfold dx; lia).
  assert (Hdy : 0 < dy) by (unfold dy; lia).
  set (e := Z.min (Z.max (dx + ex - (dy + ey) - 24) (-149)) (ex - ey)).
  set (s := ex - ey - e).
  assert (Hs : 0 <= s) by lia.
  assert (Hm' : match s with
                | 0 => Zpos mx
                | Zpos _ => Z.shiftl (Zpos mx) s
                | Zneg _ => 0
                end = Zpos mx * 2 ^ s).
  { destruct s as [ | ps | ps] eqn:Es; [cbn; lia | | lia].
    apply Z.shiftl_mul_pow2. lia. }
  rewrite Hm'.
  pose proof (Z_div_mod (Zpos mx * 2 ^ s) (Zpos my) eq_refl) as Hdiv.
  destruct (Z.div_eucl (Zpos mx * 2 ^ s) (Zpos my)) as [q r].
  destruct Hdiv as [Hqr Hr].
  assert (Hspos : 0 < 2 ^ s) by (apply Z.pow_pos_nonneg; lia).
  assert (Hq : 0 <= q) by nia.
  exists q, e, (new_location (Zpos my) r).
  split; [reflexivity | ]. split; [lia | ].
  split; [apply cuts_div; [lia | exact Hqr | exact Hr] | ].
  destruct (Z_le_gt_dec e (-149)) as [He | He]; [lia | ].
  assert (Hs24 : 24 - dx + dy <= s) by lia.
  assert (Hq23 : 8388608 <= q).
  { destruct (Z_le_gt_dec 8388608 q) as [ | Hlt]; [assumption | exfalso].
    assert (H1 : Zpos mx * 2 ^ s < 8388608 * 2 ^ dy) by nia.
    assert (H2 : 2 ^ (dx - 1) * 2 ^ s <= Zpos mx * 2 ^ s) by nia.
    change 8388608 with (2 ^ 23) in H1.
    rewrite <- Z.pow_add_r in H1, H2 by lia.
    assert (H3 : 2 ^ (dx - 1 + s) < 2 ^ (23 + dy)) by lia.
    apply Z.pow_lt_mono_r_iff in H3; lia. }
  assert (Hd : 24 <= Zdigits2 q).
  { destruct (Zdigits2_bounds q Hq) as (Hq1 & _ & Hd0).
    destruct (Z_le_gt_dec 24 (Zdigits2 q)) as [ | Hlt]; [assumption | exfalso].
    assert (H : 2 ^ Zdigits2 q <= 2 ^ 23) by (apply Z.pow_le_mono_r; lia).
    change (2 ^ 23) with 8388608 in H. lia. }
  lia.
Qed.

(** The order of two floats above zero, as an order of their values. *)
Lemma SFleb_finite_value (my : positive) (ey : Z) (my' : positive) (ey' : Z) :
  bounded prec emax my ey = true -> bounded prec emax my' ey' = true ->
  SFleb (S754_finite false my ey) (S754_finite false my' ey') = true ->
  (ey < ey' /\ Zpos my < 2 * Zpos my') \/ (ey = ey' /\ Zpos my <= Zpos my').
Proof.
  intros Hy Hy' H.
  destruct (bounded_facts my ey Hy) as [Hcy _].
  destruct (bounded_facts my' ey' Hy') as [Hcy' _].
  pose proof (digits2_pos_bounds my) as [_ Hmy].
  pose proof (digits2_pos_bounds my') as [Hmy' _].
  unfold SFleb, SFcompare in H.
  destruct (Z.compare_spec ey ey') as [E | E | E]; [right | left | discriminate H].
  - split; [exact E | ].
    change (Pos.compare_cont Eq my my') with (Pos.compare my my') in H.
    destruct (Pos.compare_spec my my') as [C | C | C]; [ | | discriminate H]; lia.
  - split; [exact E | ].
    assert (Hd' : Zpos (digits2_pos my') = 24) by lia.
    assert (Hd : Zpos (digits2_pos my) <= 24) by lia.
    rewrite Hd' in Hmy'. change (2 ^ (24 - 1)) with 8388608 in Hmy'.
    assert (H24 : 2 ^ Zpos (digits2_pos my) <= 2 ^ 24) by (apply Z.pow_le_mono_r; lia).
    change (2 ^ 24) with 16777216 in H24. lia.
Qed.

(** Division by the larger of two floats above zero gives the smaller
    quotient. *)
Lemma SFdiv_le_divisor_finite (mx : positive) (ex : Z) (my : positive) (ey : Z)
    (my' : positive) (ey' : Z) :
  bounded prec emax my ey = true -> bounded prec emax my' ey' = true ->
  SFleb (S754_finite false my ey) (S754_finite false my' ey') = true ->
  SFleb (SFdiv prec emax (S754_finite false mx ex) (S754_finite false my' ey'))
        (SFdiv prec emax (S754_finite false mx ex) (S754_finite false my ey)) = true.
Proof.
  intros Hy Hy' Hle.
  pose proof (SFleb_finite_value my ey my' ey' Hy Hy' Hle) as Hv.
  unfold SFdiv. cbn [xorb].
  destruct (SFdiv_core_binary_cuts mx ex my ey) as (qA & eA & lA & SA & HeA & CA & WA).
  destruct (SFdiv_core_binary_cuts mx ex my' ey') as (qB & eB & lB & SB & HeB & CB & WB).
  rewrite SA, SB.
  apply (binary_round_aux_mono (Zpos mx * 2 ^ (ex - ey - eA)) (Zpos my) qA eA
                               (Zpos mx * 2 ^ (ex - ey' - eB)) (Zpos my') qB eB lA lB);
    [apply Z.mul_nonneg_nonneg; [lia | apply Z.pow_nonneg; lia]
    | apply Z.mul_nonneg_nonneg; [lia | apply Z.pow_nonneg; lia]
    | exact CA | exact CB | exact WA | exact WB | ].
  intros E HEA HEB.
  assert (H : 2 ^ (ex - ey' - eB) * 2 ^ (E - eA) * Zpos my
              <= 2 ^ (ex - ey - eA) * 2 ^ (E - eB) * Zpos my').
  { rewrite <- !Z.pow_add_r by lia.
    destruct Hv as [[He Hm] | [He Hm]].
    - replace (ex - ey - eA + (E - eB)) with (ex - ey' - eB + (E - eA) + (ey' - ey)) by lia.
      rewrite (Z.pow_add_r _ _ (ey' - ey)) by lia.
      assert (H2 : 2 <= 2 ^ (ey' - ey)).
      { change 2 with (2 ^ 1) at 1. apply Z.pow_le_mono_r; lia. }
      assert (Hp : 0 < 2 ^ (ex - ey' - eB + (E - eA))) by (apply Z.pow_pos_nonneg; lia).
      rewrite <- Z.mul_assoc. apply Z.mul_le_mono_nonneg_l; [lia | ].
      apply Z.le_trans with (2 * Zpos my'); [lia | ].
      apply Z.mul_le_mono_nonneg_r; lia.
    - subst ey'.
      replace (ex - ey - eA + (E - eB)) with (ex - ey - eB + (E - eA)) by lia.
      apply Z.mul_le_mono_nonneg_l; [apply Z.pow_nonneg; lia | exact Hm]. }
  nia.
Qed.

(** *** Products of binary32 values *)

Lemma pack_valid (m E : Z) :
  -149 <= E -> 0 <= m <= 16777216 -> (E = -149 \/ 8388608 <= m) ->
  valid_binary prec emax
    (pack (shr_m (fst (shr_fexp prec emax m E loc_Exact)))
          (snd (shr_fexp prec emax m E loc_Exact))) = true.
Proof.
  intros HE Hm Hn.
  destruct (second_shift m E HE Hm) as [(Hlt & -> & ->) | (-> & -> & ->)].
  - unfold pack. destruct m as [ | p | p]; [reflexivity | | lia].
    destruct (Z.leb_spec E (emax - prec)) as [L | L]; [ | reflexivity].
    cbn [valid_binary]. unfold bounded, canonical_mantissa. rewrite fexp_eq.
    apply andb_true_intro. split; [ | apply Z.leb_le; exact L].
    apply Z.eqb_eq.
    pose proof (digits2_pos_bounds p) as [Hp1 Hp2].
    assert (Hd : Zpos (digits2_pos p) <= 24).
    { apply (Zdigits2_le (Zpos p) 24); [change (2 ^ 24) with 16777216 | ]; lia. }
    destruct Hn as [-> | Hn]; [lia | ].
    assert (Hd' : 24 <= Zpos (digits2_pos p)).
    { destruct (Z_le_gt_dec 24 (Zpos (digits2_pos p))) as [ | Hlt']; [assumption | exfalso].
      assert (H : 2 ^ Zpos (digits2_pos p) <= 2 ^ 23) by (apply Z.pow_le_mono_r; lia).
      change (2 ^ 23) with 8388608 in H. lia. }
    lia.
  - unfold pack.
    destruct (Z.leb_spec (E + 1) (emax - prec)) as [L | L]; [ | reflexivity].
    cbn [valid_binary]. unfold bounded, canonical_mantissa. rewrite fexp_eq.
    apply andb_true_intro. split; [ | apply Z.leb_le; exact L].
    apply Z.eqb_eq. change (Zpos (digits2_pos 8388608)) with 24. lia.
Qed.

(** [binary_round_aux] returns a binary32 value when the exponent given is
    not above the exponent wanted. *)
Lemma binary_round_aux_valid (N D q e : Z) (l : location) :
  0 <= N -> cuts N D (shr_record_of_loc q l) ->
  e <= Z.max (Zdigits2 q + e - 24) (-149) ->
  valid_binary prec emax (binary_round_aux prec emax false q e l) = true.
Proof.
  intros HN Hc He.
  destruct (first_shift N D q e l HN Hc He) as (mrs & S1 & _ & M1 & T1).
  rewrite binary_round_aux_pack, S1.
  pose proof (round_nearest_even_bounds (shr_m mrs) (loc_of_shr_record mrs)) as R.
  set (r := round_nearest_even (shr_m mrs) (loc_of_shr_record mrs)) in *.
  pose proof (pack_valid r (Z.max (Zdigits2 q + e - 24) (-149))
                ltac:(lia) ltac:(lia) ltac:(lia)) as H.
  destruct (shr_fexp prec emax r _ loc_Exact) as [m2 e2]. exact H.
Qed.

Lemma valid_binary_SFopp (x : spec_float) :
  valid_binary prec emax (SFopp x) = valid_binary prec emax x.
Proof. destruct x; reflexivity. Qed.

Lemma binary_round_aux_sign (s : bool) (m e : Z) (l : location) :
  valid_binary prec emax (binary_round_aux prec emax s m e l)
  = valid_binary prec emax (binary_round_aux prec emax false m e l).
Proof.
  unfold binary_round_aux.
  destruct (shr_fexp prec emax m e l) as [mrs' e'].
  destruct (shr_fexp prec emax _ e' loc_Exact) as [mrs'' e''].
  destruct (shr_m mrs''); try reflexivity.
  destruct (e'' <=? emax - prec); reflexivity.
Qed.

(** The product of two binary32 values is a binary32 value. *)
Lemma SFmul_valid (x y : spec_float) :
  valid_binary prec emax x = true -> valid_binary prec emax y = true ->
  valid_binary prec emax (SFmul prec emax x y) = true.
Proof.
  intros Hx Hy.
  destruct x as [sx | sx | | sx mx ex], y as [sy | sy | | sy my ey]; try reflexivity.
  cbn [valid_binary] in Hx, Hy. cbn [SFmul]. rewrite binary_round_aux_sign.
  destruct (bounded_facts mx ex Hx) as [Hcx _].
  destruct (bounded_facts my ey Hy) as [Hcy _].
  pose proof (digits2_pos_bounds mx) as [Hx1 _].
  pose proof (digits2_pos_bounds my) as [Hy1 _].
  pose proof (digits2_pos_bounds (mx * my)) as [_ Hxy].
  apply (binary_round_aux_valid (Zpos (mx * my)) 1); [lia | | ].
  - unfold cuts. rewrite shr_record_of_loc_m. cbn [shr_record_of_loc shr_r shr_s]. lia.
  - cbn [Zdigits2].
    set (dx := Zpos (digits2_pos mx)) in *. set (dy := Zpos (digits2_pos my)) in *.
    set (d := Zpos (digits2_pos (mx * my))) in *.
    assert (Hdx : 0 < dx) by (unfold dx; lia).
    assert (Hdy : 0 < dy) by (unfold dy; lia).
    assert (Hd : dx + dy - 1 <= d).
    { assert (H : 2 ^ (dx - 1 + (dy - 1)) < 2 ^ d).
      { rewrite Z.pow_add_r by lia. rewrite Pos2Z.inj_mul in Hxy.
        eapply Z.le_lt_trans; [ | exact Hxy].
        apply Z.mul_le_mono_nonneg; try assumption; apply Z.pow_nonneg; lia. }
      apply Z.pow_lt_mono_r_iff in H; unfold d; lia. }
    lia.
Qed.

Lemma binary_round_aux_ge0 (q e : Z) (l : location) :
  0 <= q -> SFleb (S754_zero false) (binary_round_aux prec emax false q e l) = true.
Proof.
  intros Hq. rewrite binary_round_aux_pack. unfold shr_fexp.
  pose proof (shr_m_e (shr_record_of_loc q l) e
                (fexp prec emax (Zdigits2 q + e) - e)) as H1.
  rewrite shr_record_of_loc_m in H1. specialize (H1 Hq).
  destruct (shr (shr_record_of_loc q l) e _) as [mrs e1].
  cbn [fst] in H1. destruct H1 as [Hm _].
  assert (Hm0 : 0 <= shr_m mrs).
  { rewrite Hm. apply Z.div_pos; [exact Hq | apply Z.pow_pos_nonneg; lia]. }
  pose proof (round_nearest_even_bounds (shr_m mrs) (loc_of_shr_record mrs)) as R.
  set (r := round_nearest_even (shr_m mrs) (loc_of_shr_record mrs)) in *.
  pose proof (shr_m_e (shr_record_of_loc r loc_Exact) e1
                (fexp prec emax (Zdigits2 r + e1) - e1)) as H2.
  rewrite shr_record_of_loc_m in H2. specialize (H2 ltac:(lia)).
  destruct (shr (shr_record_of_loc r loc_Exact) e1 _) as [mrs2 e2].
  cbn [fst] in H2. destruct H2 as [Hm2 _].
  assert (Hm20 : 0 <= shr_m mrs2).
  { rewrite Hm2. apply Z.div_pos; [lia | apply Z.pow_pos_nonneg; lia]. }
  unfold pack. destruct (shr_m mrs2) as [ | p | p]; [reflexivity | | lia].
  destruct (e2 <=? emax - prec); reflexivity.
Qed.

Lemma SFmul_ge0 (x y : spec_float) :
  SFltb (S754_zero false) x = true -> x <> S754_infinity false ->
  SFleb (S754_zero false) y = true ->
  SFleb (S754_zero false) (SFmul prec emax x y) = true.
Proof.
  intros Hx Hfin Hy.
  destruct x as [sx | sx | | sx mx ex]; try discriminate Hx.
  - destruct sx; [discriminate Hx | congruence].
  - destruct sx; [discriminate Hx | ].
    destruct y as [sy | sy | | sy my ey]; try discriminate Hy.
    + destruct sy; reflexivity.
    + destruct sy; [discriminate Hy | reflexivity].
    + destruct sy; [discriminate Hy | ].
      cbn [SFmul xorb]. apply binary_round_aux_ge0. lia.
Qed.

(** *** Adding 1 to a binary32 value *)

Lemma iter_xO (d m : positive) :
  Zpos (Pos.iter xO m d) = Zpos m * 2 ^ Zpos d
  /\ Zpos (digits2_pos (Pos.iter xO m d)) = Zpos (digits2_pos m) + Zpos d.
Proof.
  induction d as [ | d IH] using Pos.peano_ind.
  - cbn [Pos.iter digits2_pos]. rewrite (Pos2Z.inj_xO m), Pos2Z.inj_succ.
    change (2 ^ 1) with 2. lia.
  - rewrite Pos.iter_succ. cbn [digits2_pos].
    rewrite (Pos2Z.inj_xO (Pos.iter xO m d)), !Pos2Z.inj_succ.
    destruct IH as [-> ->]. rewrite Z.pow_succ_r by lia. lia.
Qed.

Lemma shl_align_spec (mx : positive) (ex ex' : Z) :
  snd (shl_align mx ex ex') = Z.min ex ex'
  /\ Zpos (fst (shl_align mx ex ex')) = Zpos mx * 2 ^ (ex - Z.min ex ex')
  /\ Zpos (digits2_pos (fst (shl_align mx ex ex')))
     = Zpos (digits2_pos mx) + (ex - Z.min ex ex').
Proof.
  unfold shl_align. destruct (ex' - ex) as [ | d | d] eqn:Ed; cbn [fst snd].
  - replace (Z.min ex ex') with ex by lia. rewrite Z.sub_diag, Z.pow_0_r. lia.
  - replace (Z.min ex ex') with ex by lia. rewrite Z.sub_diag, Z.pow_0_r. lia.
  - replace (Z.min ex ex') with ex' by lia.
    replace (ex - ex') with (Zpos d) by lia.
    destruct (iter_xO d mx) as [H1 H2]. auto.
Qed.

(** [binary_round] is [binary_round_aux] on the same value, at an exponent
    that is not above the exponent wanted. *)
Lemma binary_round_as_aux (mx : positive) (ex : Z) :
  exists (mz : positive) (ez : Z),
    binary_round prec emax false mx ex
    = binary_round_aux prec emax false (Zpos mz) ez loc_Exact
    /\ ez <= ex
    /\ Zpos mz = Zpos mx * 2 ^ (ex - ez)
    /\ ez <= Z.max (Zdigits2 (Zpos mz) + ez - 24) (-149).
Proof.
  unfold binary_round. rewrite fexp_eq.
  pose proof (shl_align_spec mx ex (Z.max (Zpos (digits2_pos mx) + ex - 24) (-149)))
    as (H1 & H2 & H3).
  destruct (shl_align mx ex _) as [mz ez]. cbn [fst snd] in *.
  exists mz, ez. split; [reflexivity | ]. split; [lia | ]. split; [rewrite H1; exact H2 | ].
  cbn [Zdigits2]. lia.
Qed.

Lemma cuts_exact (m : Z) : cuts m 1 (shr_record_of_loc m loc_Exact).
Proof.
  unfold cuts. cbn [shr_record_of_loc shr_m shr_r shr_s]. lia.
Qed.

Lemma binary_round_valid (mx : positive) (ex : Z) :
  valid_binary prec emax (binary_round prec emax false mx ex) = true.
Proof.
  destruct (binary_round_as_aux mx ex) as (mz & ez & -> & _ & _ & H).
  apply (binary_round_aux_valid (Zpos mz) 1); [lia | apply cuts_exact | exact H].
Qed.

(** [binary_round] keeps the order of two values [m * 2 ^ e]. *)
Lemma binary_round_mono (mA : positive) (eA : Z) (mB : positive) (eB g : Z) :
  g <= eA -> g <= eB ->
  Zpos mB * 2 ^ (eB - g) <= Zpos mA * 2 ^ (eA - g) ->
  SFleb (binary_round prec emax false mB eB) (binary_round prec emax false mA eA) = true.
Proof.
  intros HgA HgB Hle.
  destruct (binary_round_as_aux mA eA) as (zA & fA & -> & HA1 & HA2 & HA3).
  destruct (binary_round_as_aux mB eB) as (zB & fB & -> & HB1 & HB2 & HB3).
  apply (binary_round_aux_mono (Zpos zA) 1 (Zpos zA) fA (Zpos zB) 1 (Zpos zB) fB);
    [lia | lia | apply cuts_exact | apply cuts_exact | exact HA3 | exact HB3 | ].
  intros E HEA HEB. rewrite !Z.mul_1_r, HA2, HB2.
  rewrite <- !Z.mul_assoc, <- !Z.pow_add_r by lia.
  destruct (Z_le_gt_dec 0 (g + (E - fA - fB))) as [Hs | Hs].
  - assert (H : Zpos mB * 2 ^ (eB - g) * 2 ^ (g + (E - fA - fB))
                <= Zpos mA * 2 ^ (eA - g) * 2 ^ (g + (E - fA - fB))).
    { apply Z.mul_le_mono_nonneg_r; [apply Z.pow_nonneg; lia | exact Hle]. }
    rewrite <- !Z.mul_assoc, <- !Z.pow_add_r in H by lia.
    replace (eB - g + (g + (E - fA - fB))) with (eB - fB + (E - fA)) in H by lia.
    replace (eA - g + (g + (E - fA - fB))) with (eA - fA + (E - fB)) in H by lia.
    exact H.
  - replace (eB - g) with (eB - fB + (E - fA) + (- (g + (E - fA - fB)))) in Hle by lia.
    replace (eA - g) with (eA - fA + (E - fB) + (- (g + (E - fA - fB)))) in Hle by lia.
    rewrite !(Z.pow_add_r _ _ (- (g + (E - fA - fB)))), !Z.mul_assoc in Hle by lia.
    apply Z.mul_le_mono_pos_r in Hle; [exact Hle | apply Z.pow_pos_nonneg; lia].
Qed.

(** The sum of a float above zero and 1, before rounding. *)
Lemma fadd_f1_finite (m : positive) (e : Z) :
  exists s : positive,
    fadd (S754_finite false m e) f1 = binary_round prec emax false s (Z.min e (-23))
    /\ Zpos s = Zpos m * 2 ^ (e - Z.min e (-23)) + 8388608 * 2 ^ (-23 - Z.min e (-23)).
Proof.
  unfold fadd, f1. change (of_int 1) with (S754_finite false 8388608 (-23)).
  cbn [SFadd cond_Zopp].
  set (ez := Z.min e (-23)).
  pose proof (shl_align_spec m e ez) as (_ & Ha & _).
  pose proof (shl_align_spec 8388608 (-23) ez) as (_ & Hb & _).
  replace (Z.min e ez) with ez in Ha by lia.
  replace (Z.min (-23) ez) with ez in Hb by lia.
  set (a := fst (shl_align m e ez)) in *.
  set (b := fst (shl_align 8388608 (-23) ez)) in *.
  exists (a + b)%positive. split; [reflexivity | ].
  rewrite Pos2Z.inj_add, Ha, Hb. reflexivity.
Qed.

Lemma fadd_f1_valid (x : float) :
  valid_binary prec emax x = true -> SFleb f0 x = true ->
  valid_binary prec emax (fadd x f1) = true.
Proof.
  intros V P. destruct x as [s | s | | s m e]; try reflexivity; try discriminate P.
  destruct s; [discriminate P | ].
  destruct (fadd_f1_finite m e) as (z & -> & _). apply binary_round_valid.
Qed.

Lemma f1_as_round : f1 = binary_round prec emax false 1 0.
Proof. reflexivity. Qed.

Lemma fadd_f1_ge1 (x : float) :
  SFleb f0 x = true -> SFleb f1 (fadd x f1) = true.
Proof.
  intros P. destruct x as [s | s | | s m e]; try discriminate P.
  - destruct s; reflexivity.
  - destruct s; [discriminate P | reflexivity].
  - destruct s; [discriminate P | ].
    destruct (fadd_f1_finite m e) as (z & -> & Hz). rewrite f1_as_round.
    apply (binary_round_mono z (Z.min e (-23)) 1 0 (Z.min e (-23))); [lia | lia | ].
    rewrite Z.sub_diag, Z.pow_0_r, Z.mul_1_r, Z.mul_1_l, Hz.
    assert (H : 0 <= Zpos m * 2 ^ (e - Z.min e (-23))).
    { apply Z.mul_nonneg_nonneg; [lia | apply Z.pow_nonneg; lia]. }
    replace (0 - Z.min e (-23)) with (23 + (-23 - Z.min e (-23))) by lia.
    rewrite Z.pow_add_r by lia. change (2 ^ 23) with 8388608. lia.
Qed.

(** Adding 1 keeps the order of two binary32 values above zero. *)
Lemma fadd_f1_mono_finite (m : positive) (e : Z) (m' : positive) (e' : Z) :
  bounded prec emax m e = true -> bounded prec emax m' e' = true ->
  SFleb (S754_finite false m e) (S754_finite false m' e') = true ->
  SFleb (fadd (S754_finite false m e) f1) (fadd (S754_finite false m' e') f1) = true.
Proof.
  intros V V' Hle.
  pose proof (SFleb_finite_value m e m' e' V V' Hle) as Hv.
  destruct (fadd_f1_finite m e) as (z & -> & Hz).
  destruct (fadd_f1_finite m' e') as (z' & -> & Hz').
  set (ez := Z.min e (-23)) in *. set (ez' := Z.min e' (-23)) in *.
  assert (Hee : e <= e') by lia.
  apply (binary_round_mono z' ez' z ez ez); [lia | lia | ].
  rewrite Z.sub_diag, Z.pow_0_r, Z.mul_1_r, Hz, Hz', Z.mul_add_distr_r.
  rewrite <- !Z.mul_assoc, <- !Z.pow_add_r by lia.
  replace (e' - ez' + (ez' - ez)) with (e' - ez) by lia.
  replace (-23 - ez' + (ez' - ez)) with (-23 - ez) by lia.
  apply Z.add_le_mono_r.
  destruct Hv as [[He Hm] | [He Hm]].
  - replace (e' - ez) with (e - ez + (e' - e)) by lia.
    rewrite Z.pow_add_r by lia.
    assert (H2 : 2 <= 2 ^ (e' - e)).
    { change 2 with (2 ^ 1) at 1. apply Z.pow_le_mono_r; lia. }
    assert (Hp : 0 < 2 ^ (e - ez)) by (apply Z.pow_pos_nonneg; lia).
    apply Z.le_trans with (Zpos m' * (2 ^ (e - ez) * 2)); [nia | ].
    apply Z.mul_le_mono_nonneg_l; [lia | ].
    apply Z.mul_le_mono_nonneg_l; lia.
  - subst e'. apply Z.mul_le_mono_nonneg_r; [apply Z.pow_nonneg; lia | exact Hm].
Qed.

Lemma SFleb_below_infinity (x : float) (m : positive) (e : Z) :
  SFleb x (S754_finite false m e) = true -> SFltb x (S754_infinity false) = true.
Proof.
  destruct x as [s | s | | s mx ex]; try reflexivity; try discriminate.
  destruct s; [reflexivity | discriminate].
Qed.

(** The binary32 value of an [int64] that is not negative. *)
Lemma of_int_shape (index : Z) :
  0 <= index < 2 ^ 63 ->
  valid_binary prec emax (of_int index) = true
  /\ SFleb f0 (of_int index) = true
  /\ SFleb (of_int index) (S754_finite false 8388608 40) = true.
Proof.
  intros [H0 H63]. destruct index as [ | p | p]; [repeat split; reflexivity | | lia].
  unfold of_int, binary_normalize. split; [apply binary_round_valid | ]. split.
  - destruct (binary_round_as_aux p 0) as (mz & ez & -> & _).
    apply binary_round_aux_ge0. lia.
  - change (S754_finite false 8388608 40) with (binary_round prec emax false 1 63).
    apply (binary_round_mono 1 63 p 0 0); [lia | lia | ].
    rewrite !Z.sub_0_r, Z.pow_0_r. lia.
Qed.

Lemma of_int_mono (index index' : Z) :
  0 <= index <= index' -> SFleb (of_int index) (of_int index') = true.
Proof.
  intros [H0 Hle]. destruct index as [ | p | p]; [ | | lia].
  - destruct index' as [ | p' | p']; [reflexivity | | lia].
    unfold of_int, binary_normalize.
    destruct (binary_round_as_aux p' 0) as (mz & ez & -> & _).
    apply binary_round_aux_ge0. lia.
  - destruct index' as [ | p' | p']; [lia | | lia].
    unfold of_int, binary_normalize.
    apply (binary_round_mono p' 0 p 0 0); lia.
Qed.

Lemma fadd_f1_below_infinity (x : float) :
  valid_binary prec emax x = true -> SFleb f0 x = true ->
  SFleb x (S754_finite false 8388608 40) = true ->
  SFltb (fadd x f1) (S754_infinity false) = true.
Proof.
  intros V P B. destruct x as [s | s | | s m e]; try discriminate P.
  - destruct s; reflexivity.
  - destruct s; discriminate.
  - destruct s; [discriminate P | ]. cbn [valid_binary] in V.
    pose proof (SFleb_finite_value m e 8388608 40 V eq_refl B) as Hv.
    destruct (fadd_f1_finite m e) as (z & -> & Hz).
    set (ez := Z.min e (-23)) in *.
    apply (SFleb_below_infinity _ 8388608 41).
    change (S754_finite false 8388608 41) with (binary_round prec emax false 1 64).
    apply (binary_round_mono 1 64 z ez ez); [lia | lia | ].
    rewrite Z.sub_diag, Z.pow_0_r, Z.mul_1_r, Z.mul_1_l, Hz.
    replace (64 - ez) with (1 + (63 - ez)) by lia.
    rewrite (Z.pow_add_r 2 1) by lia. change (2 ^ 1) with 2.
    assert (H1 : 8388608 * 2 ^ (-23 - ez) <= 2 ^ (63 - ez)).
    { change 8388608 with (2 ^ 23). rewrite <- Z.pow_add_r by lia.
      apply Z.pow_le_mono_r; lia. }
    assert (H2 : Zpos m * 2 ^ (e - ez) <= 2 ^ (63 - ez)).
    { destruct Hv as [[He Hm] | [He Hm]].
      - apply Z.le_trans with (2 ^ 24 * 2 ^ (e - ez)).
        + apply Z.mul_le_mono_nonneg_r; [apply Z.pow_nonneg; lia | ].
          change (2 ^ 24) with 16777216. lia.
        + rewrite <- Z.pow_add_r by lia. apply Z.pow_le_mono_r; lia.
      - subst e. replace (63 - ez) with (23 + (40 - ez)) by lia.
        rewrite (Z.pow_add_r 2 23) by lia. change (2 ^ 23) with 8388608.
        apply Z.mul_le_mono_nonneg_r; [apply Z.pow_nonneg; lia | lia]. }
    lia.
Qed.

Lemma fadd_f1_mono (x x' : float) :
  valid_binary prec emax x = true -> valid_binary prec emax x' = true ->
  SFleb f0 x = true -> SFleb x x' = true ->
  SFleb x' (S754_finite false 8388608 40) = true ->
  SFleb (fadd x f1) (fadd x' f1) = true.
Proof.
  intros V V' P Hle B.
  destruct x as [s | s | | s m e]; try discriminate P.
  - replace (fadd (S754_zero s) f1) with f1 by (destruct s; reflexivity).
    apply fadd_f1_ge1.
    destruct x' as [s' | s' | | s' m' e']; try discriminate Hle;
      try reflexivity; destruct s'; try reflexivity; destruct s; discriminate Hle.
  - destruct s; [discriminate P | ].
    destruct x' as [s' | s' | | s' m' e']; try discriminate Hle.
    destruct s'; discriminate.
  - destruct s; [discriminate P | ].
    destruct x' as [s' | s' | | s' m' e']; try discriminate Hle.
    + destruct s'; discriminate.
    + destruct s'; [discriminate Hle | ].
      apply fadd_f1_mono_finite; assumption.
Qed.

Lemma f1_bits : f1 = S754_finite false 8388608 (-23).
Proof. reflexivity. Qed.

(** [x / p <= x] for a binary32 [x >= 0] and a binary32 [p] with
    [1 <= p < infinity]. *)
Lemma fdiv_le_self (x p : float) :
  valid_binary prec emax x = true -> (f0 <=? x)%f32 = true ->
  valid_binary prec emax p = true -> (f1 <=? p)%f32 = true ->
  (p <? S754_infinity false)%f32 = true ->
  (x / p <=? x)%f32 = true.
Proof.
  intros Vx Px Vp Pp Fp. rewrite f1_bits in Pp.
  destruct p as [sp | sp | | sp mp ep]; try discriminate.
  - destruct sp; discriminate.
  - destruct sp; [discriminate | ].
    destruct x as [sx | sx | | sx mx ex]; try discriminate.
    + destruct sx; reflexivity.
    + destruct sx; [discriminate | reflexivity].
    + destruct sx; [discriminate | ].
      apply SFdiv_le_self_finite; assumption.
Qed.

(** [x / p' <= x / p] for [x >= 0] and binary32 values
    [0 < p <= p' < infinity]. *)
Lemma fdiv_le_divisor (x p p' : float) :
  (f0 <=? x)%f32 = true ->
  valid_binary prec emax p = true -> valid_binary prec emax p' = true ->
  (f0 <? p)%f32 = true -> (p <=? p')%f32 = true ->
  (p' <? S754_infinity false)%f32 = true ->
  (x / p' <=? x / p)%f32 = true.
Proof.
  intros Px Vp Vp' Pp Hle Fp'.
  destruct p as [sp | sp | | sp mp ep]; try discriminate Pp.
  - destruct sp; [discriminate Pp | ].
    destruct p' as [sp' | sp' | | sp' mp' ep']; try discriminate Hle.
    destruct sp'; discriminate.
  - destruct sp; [discriminate Pp | ].
    destruct p' as [sp' | sp' | | sp' mp' ep']; try discriminate Hle.
    + destruct sp'; discriminate.
    + destruct sp'; [discriminate Hle | ].
      destruct x as [sx | sx | | sx mx ex]; try discriminate Px.
      * destruct sx; reflexivity.
      * destruct sx; [discriminate Px | reflexivity].
      * destruct sx; [discriminate Px | ].
        apply SFdiv_le_divisor_finite; assumption.
Qed.

Module ScheduleFacts.
Import Schedule.

(** The exponent of line 949 at [VcmRadiusAlpha_]: [0.5f * (1.0f - 0.75f)]
    is [0.125f], with no rounding. *)
Lemma schedule_exponent :
  (of_decimal 5 10 * (f1 - VcmRadiusAlpha_))%f32 = of_decimal 1 8.
Proof. reflexivity. Qed.

(** [k = index + 1.0f] for an [int64] that is not negative: a binary32
    value with [1 <= k < infinity], which does not decrease when the index
    grows. *)
Lemma iterationIndex_range (index : Z) :
  0 <= index < 2 ^ 63 ->
  valid_binary prec emax (iterationIndex index) = true
  /\ SFleb f1 (iterationIndex index) = true
  /\ SFltb (iterationIndex index) (S754_infinity false) = true.
Proof.
  intros H. destruct (of_int_shape index H) as (V & P & B). unfold iterationIndex.
  split; [apply fadd_f1_valid; assumption | ].
  split; [apply fadd_f1_ge1; assumption | apply fadd_f1_below_infinity; assumption].
Qed.

Lemma iterationIndex_mono (index index' : Z) :
  0 <= index <= index' -> index' < 2 ^ 63 ->
  SFleb (iterationIndex index) (iterationIndex index') = true.
Proof.
  intros H H'.
  destruct (of_int_shape index ltac:(lia)) as (V & P & _).
  destruct (of_int_shape index' ltac:(lia)) as (V' & _ & B').
  apply fadd_f1_mono; try assumption. apply of_int_mono. exact H.
Qed.


End ScheduleFacts.

(* ===================================================================== *)
(** ** Writes to the image and single steps of a pass *)
(* ===================================================================== *)

Lemma replaceNth_length {A} (n : nat) (v : A) (a : list A) :
  length (replaceNth n v a) = length a.
Proof.
  revert n; induction a as [ | h t IH]; intros [ | n]; cbn [replaceNth length]; auto.
Qed.

Lemma replaceNth_other {A} (n m : nat) (v : A) (a : list A) :
  n <> m -> nth_error (replaceNth n v a) m = nth_error a m.
Proof.
  revert n m; induction a as [ | h t IH]; intros [ | n] [ | m] H;
    cbn [replaceNth nth_error]; auto; try (contradiction H; reflexivity).
Qed.

Lemma replaceNth_same {A} (n : nat) (v : A) (a : list A) :
  (n < length a)%nat -> nth_error (replaceNth n v a) n = Some v.
Proof.
  revert n; induction a as [ | h t IH]; intros [ | n] H; cbn [replaceNth nth_error length] in *;
    try lia; auto. apply IH. lia.
Qed.

Lemma readAt_nth_error_eq {A} (a b : list A) (i : Z) :
  nth_error a (Z.to_nat i) = nth_error b (Z.to_nat i) -> readAt a i = readAt b i.
Proof. unfold readAt. intros ->. reflexivity. Qed.

Section ImageWrites.
Context {ED : ExternData}.

(** What [addToImage] does to the world. *)
Lemma addToImage_Ok (index : Z) (v : float3) (w w' : World) :
  addToImage index v w = Ok (tt, w') ->
  exists old,
    readAt (imageData w) index = Ok old
    /\ twister w' = twister w
    /\ imageData w' = replaceNth (Z.to_nat index) (old + v)%v3 (imageData w).
Proof.
  unfold addToImage.
  destruct (readAt (imageData w) index) as [old | | ] eqn:Er; try discriminate.
  unfold writeAt. destruct (_ || _); [discriminate | ].
  intros H. injection H as <-. exists old. auto.
Qed.

Lemma addToImage_pixels (index : Z) (v : float3) (w w' : World) :
  addToImage index v w = Ok (tt, w') ->
  twister w' = twister w
  /\ length (imageData w') = length (imageData w)
  /\ (exists old, readAt (imageData w) index = Ok old
                  /\ readAt (imageData w') index = Ok (old + v)%v3)
  /\ forall j, j <> index -> 0 <= j -> readAt (imageData w') j = readAt (imageData w) j.
Proof.
  intros H. apply addToImage_Ok in H as (old & Hr & Ht & Hi).
  pose proof (readAt_Ok_range _ _ _ Hr) as Hrange.
  rewrite Hi. repeat split.
  - exact Ht.
  - apply replaceNth_length.
  - exists old. split; [exact Hr | ].
    unfold readAt. destruct (index <? 0) eqn:E; [apply Z.ltb_lt in E; lia | ].
    rewrite replaceNth_same by lia. reflexivity.
  - intros j Hj H0. apply readAt_nth_error_eq, replaceNth_other. lia.
Qed.

End ImageWrites.

Section UnitTheorems.
Context {ML : MathLib} {SL : SceneLib} {ED : ExternData} {TF : TextureFiltering}
        {CL : Collaborators}.

(** X15: [ConnectLightPathToCamera] draws no random number and changes at
    most the pixel [imagePosition.y * width + imagePosition.x] of the image:
    either it leaves the world as it was (always, when the surface is behind
    the camera), or it adds to that pixel a contribution that is not zero. *)
Theorem ConnectLightPathToCamera_writes_one_pixel
    (context : KernelContext) (state : PathState) (surface : SurfaceParameters)
    (vmWeight lightPathCount : float) (w w' : World) :
  ConnectLightPathToCamera context state surface vmWeight lightPathCount w = Ok (tt, w') ->
  twister w' = twister w
  /\ length (imageData w') = length (imageData w)
  /\ (forall j, j <> splatIndex context surface -> 0 <= j ->
                readAt (imageData w') j = readAt (imageData w) j)
  /\ ((Dot (cam_forward (camera context))
           (s_position surface - cam_position (camera context))%v3 <=? f0)%f32 = true ->
      w' = w)
  /\ (w' = w
      \/ exists old contribution,
           readAt (imageData w) (splatIndex context surface) = Ok old
           /\ v3isZero contribution = false
           /\ readAt (imageData w') (splatIndex context surface)
              = Ok (old + contribution)%v3).
Proof.
  unfold ConnectLightPathToCamera. cbv zeta. intros H.
  destruct (Dot _ _ <=? f0)%f32 eqn:Ebehind.
  { apply ret_Ok in H as [_ ->]. repeat split; auto. }
  assert (Hsame : forall w0 : World, ret tt w = Ok (tt, w0) ->
            twister w0 = twister w
            /\ length (imageData w0) = length (imageData w)
            /\ (forall j, j <> splatIndex context surface -> 0 <= j ->
                          readAt (imageData w0) j = readAt (imageData w) j)
            /\ (false = true -> w0 = w)
            /\ (w0 = w
                \/ exists old contribution,
                     readAt (imageData w) (splatIndex context surface) = Ok old
                     /\ v3isZero contribution = false
                     /\ readAt (imageData w0) (splatIndex context surface)
                        = Ok (old + contribution)%v3)).
  { intros w0 H0. apply ret_Ok in H0 as [_ ->]. repeat split; auto. }
  destruct (_ || _); [apply Hsame, H | ].
  destruct (EvaluateBsdf _ _ _) as [[bsdf fw] rv].
  destruct (v3isZero bsdf); [apply Hsame, H | ].
  match type of H with
  | (if v3isZero ?c then _ else _) w = _ => set (contribution := c) in *
  end.
  destruct (v3isZero contribution) eqn:Ez; [apply Hsame, H | ].
  destruct (OcclusionRay _ _ _ _); [ | apply Hsame, H].
  apply addToImage_pixels in H as (Ht & Hl & (old & Hr & Hr') & Ho).
  repeat split; auto.
  - intros C; discriminate C.
  - right. exists old, contribution. auto.
Qed.

(** X16: [GenerateLightSample], [GenerateCameraSample],
    [ConnectToSkyLight], [ConnectCameraPathToLight] and
    [SampleBsdfScattering] always return and never write the image; each
    advances the twister by the draws of its collaborators and nothing else:
    one call for four of them, and two floats and one light sample for
    [ConnectCameraPathToLight], whether the connection is kept or not. *)
Theorem image_untouched
    (context : KernelContext) (surface : SurfaceParameters) (state : PathState)
    (vmWeight vcWeight lightPathCount : float) (x y : Z) (w : World) :
  (exists light,
     GenerateLightSample context vcWeight w
     = Ok (light, mkWorld _ (twisterAfter (EmitIblLightSample context) (twister w)) (imageData w)))
  /\ (exists eye,
        GenerateCameraSample context x y lightPathCount w
        = Ok (eye, mkWorld _ (twisterAfter (fun t => JitteredCameraRay (camera context) t 0
                                                (of_int x) (of_int y)) (twister w))
                           (imageData w)))
  /\ (exists sky,
        ConnectToSkyLight context state w
        = Ok (sky, mkWorld _ (twisterAfter (DirectIblSample context (ps_direction state)) (twister w))
                           (imageData w)))
  /\ (exists direct,
        ConnectCameraPathToLight context state surface vmWeight w
        = Ok (direct,
              mkWorld _ (twisterAfter (DirectIblLightSample context)
                               (twisterAfter MersenneTwisterFloat
                                      (twisterAfter MersenneTwisterFloat (twister w))))
                      (imageData w)))
  /\ (exists scattered,
        SampleBsdfScattering context surface vmWeight vcWeight state w
        = Ok (scattered,
              mkWorld _ (twisterAfter (SampleBsdfFunction context surface (- ps_direction state)%v3)
                               (twister w))
                      (imageData w))).
Proof.
  unfold twisterAfter. repeat split.
  - unfold GenerateLightSample, bind, random, ret. cbv zeta.
    destruct (EmitIblLightSample context (twister w)) as [sample t]. eauto.
  - unfold GenerateCameraSample, bind, random, ret. cbv zeta.
    destruct (JitteredCameraRay _ _ _ _ _) as [ray t]. eauto.
  - unfold ConnectToSkyLight, bind, random, ret.
    destruct (DirectIblSample _ _ _) as [[[radiance pa] pw] t].
    destruct (_ =? 1); eauto.
  - unfold ConnectCameraPathToLight, bind, random, ret. cbv zeta.
    destruct (MersenneTwisterFloat (twister w)) as [r0 t0]. cbn [twister imageData snd].
    destruct (MersenneTwisterFloat t0) as [r1 t1]. cbn [twister imageData snd].
    destruct (DirectIblLightSample context t1) as [sample t2]. cbn [snd].
    destruct (EvaluateBsdf _ _ _) as [[bsdf fw] rv].
    destruct (v3isZero bsdf); [eauto | ].
    destruct (v3isZero _); [eauto | ].
    destruct (OcclusionRay _ _ _ _); eauto.
  - unfold SampleBsdfScattering, bind, random, ret.
    destruct (SampleBsdfFunction _ _ _ _) as [[sample | ] t]; cbn [snd]; [ | eauto].
    destruct (v3isZero _); eauto.
Qed.

(** X17: [SampleBsdfScattering] always returns; it returns [false]
    exactly when the BSDF gives no sample or a sample of zero reflectance,
    and then the path state is the one it was given. *)
Theorem SampleBsdfScattering_rejects
    (context : KernelContext) (surface : SurfaceParameters) (vmWeight vcWeight : float)
    (state : PathState) (w : World) :
  exists scattered state' w',
    SampleBsdfScattering context surface vmWeight vcWeight state w
    = Ok ((scattered, state'), w')
    /\ (scattered = false <->
        match fst (SampleBsdfFunction context surface (- ps_direction state)%v3 (twister w))
        with
        | None => True
        | Some sample => v3isZero (bs_reflectance sample) = true
        end)
    /\ (scattered = false -> state' = state).
Proof.
  unfold SampleBsdfScattering, bind, random, ret.
  destruct (SampleBsdfFunction _ _ _ _) as [[sample | ] t]; cbn [fst].
  - destruct (v3isZero (bs_reflectance sample)) eqn:Ez.
    + exists false, state. eexists. repeat split; auto.
    + exists true. eexists. eexists. split; [reflexivity | ].
      split; [split; intros H; discriminate H | intros H; discriminate H].
  - exists false, state. eexists. repeat split; auto.
Qed.

(** X18: merging at the indices that the hash grid search reports
    returns when every index is inside [pathVertices], and reads outside the
    array when one of them is not. *)
Theorem MergeAll_in_bounds
    (context : KernelContext) (surface : SurfaceParameters) (pathVertices : list VcmVertex)
    (cameraState : PathState) (vcWeight : float) (found : list Z) (result : float3) :
  (Forall (fun i => 0 <= i < Z.of_nat (length pathVertices)) found ->
   exists total,
     MergeAll context surface pathVertices cameraState vcWeight found result = Ok total)
  /\ (Exists (fun i => ~ 0 <= i < Z.of_nat (length pathVertices)) found ->
      MergeAll context surface pathVertices cameraState vcWeight found result = Fault).
Proof.
  split.
  - intros H. revert result. induction H as [ | i rest Hi _ IH]; intros result;
      cbn [MergeAll]; [eauto | ].
    unfold MergeVertices.
    destruct (readAt_in_range pathVertices i Hi) as [lv ->]. cbn [obind].
    destruct (_ >? _); cbn [obind]; [apply IH | ].
    destruct (EvaluateBsdf _ _ _) as [[bsdf fw] rv].
    destruct (v3isZero bsdf); cbn [obind]; apply IH.
  - intros H. revert result. induction found as [ | i rest IH]; intros result;
      [inversion H | ].
    cbn [MergeAll]. unfold MergeVertices.
    destruct (readAt pathVertices i) as [lv | | ] eqn:Er; cbn [obind].
    + assert (Hrest : Exists (fun i => ~ 0 <= i < Z.of_nat (length pathVertices)) rest).
      { inversion H as [? ? Hi | ? ? Hr]; subst; [ | exact Hr].
        apply readAt_Ok_range in Er. contradiction. }
      destruct (_ >? _); cbn [obind]; [apply IH, Hrest | ].
      destruct (EvaluateBsdf _ _ _) as [[bsdf fw] rv].
      destruct (v3isZero bsdf); cbn [obind]; apply IH, Hrest.
    + reflexivity.
    + exfalso. eapply readAt_not_OutOfFuel; exact Er.
Qed.

End UnitTheorems.

(* ===================================================================== *)
(** ** The vertices of the light subpaths *)
(* ===================================================================== *)

Lemma prefixSums_app {A} (segments : list (list A)) (s : list A) :
  forall base,
    prefixSums base (segments ++ [s])
    = prefixSums base segments ++ [base + Z.of_nat (length (concat (segments ++ [s])))].
Proof.
  induction segments as [ | s0 rest IH]; intros base; cbn [app prefixSums concat].
  - rewrite app_nil_r. reflexivity.
  - rewrite IH. cbn [app]. f_equal. f_equal. f_equal. rewrite !length_app. lia.
Qed.

Section LightSegments.
Context {ML : MathLib} {SL : SceneLib} {ED : ExternData} {TF : TextureFiltering}
        {CL : Collaborators}.
Variables (context : KernelContext) (vmWeight vcWeight : float) (lightPathCount : Z).

Lemma LightSubpath_lengths (fuel : nat) :
  forall state acc w r w',
    LightSubpath fuel context vmWeight vcWeight lightPathCount state acc w = Ok (r, w') ->
    maxPathLength context < 2 ^ 32 ->
    0 <= ps_pathLength state -> ps_pathLength state + 2 < 2 ^ 32 ->
    exists new,
      lp_pathVertices r = lp_pathVertices acc ++ new
      /\ map vx_pathLength new = countFrom (ps_pathLength state) (length new)
      /\ (new = [] \/ ps_pathLength state + Z.of_nat (length new) + 1 < maxPathLength context).
Proof.
  induction fuel as [ | fuel IH]; intros state acc w r w' H Hmax H0 H2;
    cbn [LightSubpath] in H;
    destruct (wrap32 (ps_pathLength state + 2) <? maxPathLength context) eqn:G;
    try discriminate;
    try (apply ret_Ok in H as [-> _]; exists []; rewrite app_nil_r; auto; fail).
  apply Z.ltb_lt in G. unfold wrap32 in G. rewrite Z.mod_small in G by lia.
  destruct (RayPick _ _) as [hit | ];
    [ | apply ret_Ok in H as [-> _]; exists []; rewrite app_nil_r; auto].
  apply bind_Ok in H as ([valid surface] & w1 & Hs & H).
  destruct valid; cbn [negb] in H;
    [ | apply ret_Ok in H as [-> _]; exists []; rewrite app_nil_r; auto].
  apply bind_Ok in H as ([] & w2 & _ & H).
  apply bind_Ok in H as ([scattered state'] & w3 & Hb & H).
  apply SampleBsdfScattering_Ok in Hb as [_ Hb].
  rewrite LightHitUpdate_pathLength in Hb.
  destruct scattered; cbn [negb] in H.
  - specialize (Hb eq_refl). unfold wrap32 in Hb. rewrite Z.mod_small in Hb by lia.
    apply IH in H as (new & E1 & E2 & E3); [ | lia ..].
    cbn [lp_pathVertices] in E1. rewrite <- app_assoc in E1. cbn [app] in E1.
    eexists. split; [exact E1 | ].
    cbn [map length countFrom vx_pathLength]. rewrite LightHitUpdate_pathLength.
    rewrite E2, Hb. split; [reflexivity | right].
    destruct E3 as [-> | E3]; cbn [length]; lia.
  - apply ret_Ok in H as [-> _]. cbn [lp_pathVertices].
    eexists. split; [reflexivity | ].
    cbn [map length countFrom vx_pathLength]. rewrite LightHitUpdate_pathLength.
    split; [reflexivity | right; lia].
Qed.

Lemma LightPhaseLoop_segments (fuel : nat) (n : nat) :
  forall acc pathEnds w r pe w' segments,
    LightPhaseLoop n fuel context vmWeight vcWeight lightPathCount acc pathEnds w
      = Ok ((r, pe), w') ->
    maxPathLength context < 2 ^ 32 ->
    lp_pathVertices acc = concat segments ->
    pathEnds = prefixSums 0 segments ->
    exists segments',
      lp_pathVertices r = concat (segments ++ segments')
      /\ pe = prefixSums 0 (segments ++ segments')
      /\ Forall (subpathVerticesOk context) segments'
      /\ length segments' = n.
Proof.
  induction n as [ | n IH]; intros acc pathEnds w r pe w' segments H Hmax Hv He;
    cbn [LightPhaseLoop] in H.
  - apply ret_Ok in H as [H _]. injection H as -> ->.
    exists []. rewrite app_nil_r. auto.
  - apply bind_Ok in H as (state & w1 & Hg & H).
    apply GenerateLightSample_Ok in Hg as [Hpl _].
    apply bind_Ok in H as (acc1 & w2 & Hsub & H).
    apply LightSubpath_lengths in Hsub as (new & E1 & E2 & E3); [ | lia ..].
    apply (IH _ _ _ _ _ _ (segments ++ [new])) in H as (segments' & F1 & F2 & F3 & F4).
    + exists (new :: segments'). rewrite <- app_assoc in F1, F2. cbn [app] in F1, F2.
      repeat split; auto; [ | cbn [length]; lia].
      constructor; [ | exact F3]. rewrite Hpl in E2, E3. split; [exact E2 | ].
      destruct E3 as [E3 | E3]; [auto | right; lia].
    + exact Hmax.
    + rewrite E1, Hv, concat_app. cbn [concat]. rewrite app_nil_r. reflexivity.
    + rewrite prefixSums_app, He. f_equal. f_equal.
      rewrite E1, Hv, concat_app. cbn [concat]. rewrite app_nil_r. lia.
Qed.

End LightSegments.

Lemma vertexRange_step {A} (l : list A) (start : Z) (n : nat) :
  0 <= start -> length (vertexRange l start (S n)) = S n ->
  exists v, readAt l start = Ok v
            /\ vertexRange l start (S n) = v :: vertexRange l (start + 1) n
            /\ length (vertexRange l (start + 1) n) = n.
Proof.
  unfold vertexRange. intros H0 Hlen.
  replace (Z.to_nat (start + 1)) with (S (Z.to_nat start)) by lia.
  destruct (skipn (Z.to_nat start) l) as [ | v rest] eqn:E; [discriminate Hlen | ].
  exists v. cbn [firstn length] in *. repeat split.
  - unfold readAt. destruct (start <? 0) eqn:E0; [apply Z.ltb_lt in E0; lia | ].
    rewrite <- (firstn_skipn (Z.to_nat start) l), E.
    assert (Hl : (Z.to_nat start <= length l)%nat).
    { destruct (Nat.le_gt_cases (Z.to_nat start) (length l)) as [Hle | Hgt]; [exact Hle | ].
      rewrite skipn_all2 in E by lia. discriminate E. }
    rewrite nth_error_app2 by (rewrite length_firstn; lia).
    rewrite length_firstn, Nat.min_l, Nat.sub_diag by lia. reflexivity.
  - f_equal. f_equal.
    replace (S (Z.to_nat start)) with (1 + Z.to_nat start)%nat by lia.
    rewrite <- skipn_skipn, E. reflexivity.
  - replace (S (Z.to_nat start)) with (1 + Z.to_nat start)%nat by lia.
    rewrite <- skipn_skipn, E. cbn [skipn]. lia.
Qed.

Lemma filter_none {A} (f : A -> bool) (l : list A) :
  Forall (fun x => f x = false) l -> filter f l = [].
Proof.
  induction 1 as [ | x l Hx _ IH]; cbn [filter]; [reflexivity | ].
  rewrite Hx. exact IH.
Qed.

Section Connect.
Context {ML : MathLib} {SL : SceneLib} {ED : ExternData} {TF : TextureFiltering}
        {CL : Collaborators}.
Variables (context : KernelContext) (surface : SurfaceParameters)
          (cameraPathState : PathState) (pathVertices : list VcmVertex) (vmWeight : float).

Lemma ConnectLightVertices_filter (n : nat) :
  forall start color,
    0 <= start ->
    0 <= ps_pathLength cameraPathState ->
    length (vertexRange pathVertices start n) = n ->
    StronglySorted Z.le (map vx_pathLength (vertexRange pathVertices start n)) ->
    Forall (fun v => 0 <= vx_pathLength v
                     /\ vx_pathLength v + 1 + ps_pathLength cameraPathState < 2 ^ 32)
           (vertexRange pathVertices start n) ->
    ConnectLightVertices n start context surface cameraPathState pathVertices vmWeight color
    = Ok (fold_left (addConnection context surface cameraPathState vmWeight)
                    (filter (connectable context cameraPathState)
                            (vertexRange pathVertices start n))
                    color).
Proof.
  induction n as [ | n IH]; intros start color H0 Hc Hlen Hsorted Hb.
  - reflexivity.
  - destruct (vertexRange_step pathVertices start n H0 Hlen) as (v & Hr & E & Hlen').
    rewrite E in Hsorted, Hb |- *. cbn [map] in Hsorted.
    apply StronglySorted_inv in Hsorted as [Hsorted Hv].
    apply Forall_cons_iff in Hb as [[Hv0 Hv1] Hb].
    cbn [ConnectLightVertices]. rewrite Hr. cbn [obind filter].
    unfold connectable at 1.
    assert (Hw : wrap32 (wrap32 (vx_pathLength v + 1) + ps_pathLength cameraPathState)
                 = vx_pathLength v + 1 + ps_pathLength cameraPathState).
    { unfold wrap32. rewrite (Z.mod_small (vx_pathLength v + 1)) by lia.
      apply Z.mod_small. lia. }
    rewrite Hw.
    destruct (vx_pathLength v + 1 + ps_pathLength cameraPathState >? maxPathLength context)
      eqn:G.
    + assert (G' : (vx_pathLength v + 1 + ps_pathLength cameraPathState
                    <=? maxPathLength context) = false) by lia.
      rewrite G'. rewrite filter_none; [reflexivity | ].
      rewrite Forall_map in Hv.
      eapply Forall_impl; [ | exact Hv]. cbv beta. intros u Hu.
      unfold connectable. lia.
    + assert (G' : (vx_pathLength v + 1 + ps_pathLength cameraPathState
                    <=? maxPathLength context) = true) by lia.
      rewrite G'. cbn [fold_left]. apply IH; auto; lia.
Qed.

End Connect.

Lemma countFrom_length (a : Z) (n : nat) : length (countFrom a n) = n.
Proof. revert a; induction n as [ | n IH]; intros a; cbn [countFrom length]; auto. Qed.

Lemma countFrom_bounds (n : nat) :
  forall a, Forall (fun x => a <= x < a + Z.of_nat n) (countFrom a n).
Proof.
  induction n as [ | n IH]; intros a; cbn [countFrom]; constructor; [lia | ].
  eapply Forall_impl; [ | apply IH]. cbv beta. intros; lia.
Qed.

Lemma countFrom_sorted (n : nat) : forall a, StronglySorted Z.le (countFrom a n).
Proof.
  induction n as [ | n IH]; intros a; cbn [countFrom]; constructor; [apply IH | ].
  eapply Forall_impl; [ | apply countFrom_bounds]. cbv beta. intros; lia.
Qed.

Section MoreFuel.
Context {ML : MathLib} {SL : SceneLib} {ED : ExternData} {TF : TextureFiltering}
        {CL : Collaborators}.

Lemma LightSubpath_more_fuel context vmWeight vcWeight lightPathCount (fuel : nat) :
  forall fuel' state acc w,
    (fuel <= fuel')%nat ->
    LightSubpath fuel context vmWeight vcWeight lightPathCount state acc w <> OutOfFuel ->
    LightSubpath fuel' context vmWeight vcWeight lightPathCount state acc w
    = LightSubpath fuel context vmWeight vcWeight lightPathCount state acc w.
Proof.
  induction fuel as [ | fuel IH]; intros fuel' state acc w Hle H;
    destruct fuel' as [ | fuel']; try lia; cbn [LightSubpath] in *;
    destruct (wrap32 (ps_pathLength state + 2) <? maxPathLength context);
    try reflexivity; try (contradiction H; reflexivity).
  destruct (RayPick _ _) as [hit | ]; [ | reflexivity].
  unfold bind in *.
  destruct (lift _ w) as [[[valid surface] w1] | | ]; try reflexivity.
  destruct valid; cbn [negb] in *; [ | reflexivity].
  destruct (ConnectLightPathToCamera _ _ _ _ _ w1) as [[[] w2] | | ]; try reflexivity.
  destruct (SampleBsdfScattering _ _ _ _ _ w2) as [[[scattered state'] w3] | | ];
    try reflexivity.
  destruct scattered; cbn [negb] in *; [ | reflexivity].
  apply IH; [lia | exact H].
Qed.

Lemma LightPhaseLoop_more_fuel context vmWeight vcWeight lightPathCount (fuel fuel' : nat)
    (n : nat) :
  (fuel <= fuel')%nat ->
  forall acc pathEnds w,
    LightPhaseLoop n fuel context vmWeight vcWeight lightPathCount acc pathEnds w
    <> OutOfFuel ->
    LightPhaseLoop n fuel' context vmWeight vcWeight lightPathCount acc pathEnds w
    = LightPhaseLoop n fuel context vmWeight vcWeight lightPathCount acc pathEnds w.
Proof.
  intros Hle. induction n as [ | n IH]; intros acc pathEnds w H; cbn [LightPhaseLoop] in *;
    [reflexivity | ].
  unfold bind in *.
  destruct (GenerateLightSample _ _ w) as [[state w1] | | ]; try reflexivity.
  destruct (LightSubpath fuel _ _ _ _ state acc w1) as [[acc1 w2] | | ] eqn:E;
    try (contradiction H; reflexivity);
    rewrite (LightSubpath_more_fuel _ _ _ _ fuel fuel') by (auto; congruence);
    rewrite E; [ | reflexivity].
  apply IH, H.
Qed.

Lemma bind_agree {A B} (c : M A) (k k' : A -> M B) (w : World) :
  bind c k w <> OutOfFuel ->
  (forall a w1, c w = Ok (a, w1) -> k a w1 <> OutOfFuel -> k' a w1 = k a w1) ->
  bind c k' w = bind c k w.
Proof.
  unfold bind. destruct (c w) as [[a w1] | | ]; intros H Hk; try reflexivity.
  apply Hk; [reflexivity | exact H].
Qed.

Lemma CameraSubpath_more_fuel context pathVertices points pathEnds hashGrid
    vmWeight vcWeight vmNormalization index (fuel : nat) :
  forall fuel' state color events w,
    (fuel <= fuel')%nat ->
    CameraSubpath fuel context pathVertices points pathEnds hashGrid
                  vmWeight vcWeight vmNormalization index state color events w
    <> OutOfFuel ->
    CameraSubpath fuel' context pathVertices points pathEnds hashGrid
                  vmWeight vcWeight vmNormalization index state color events w
    = CameraSubpath fuel context pathVertices points pathEnds hashGrid
                    vmWeight vcWeight vmNormalization index state color events w.
Proof.
  induction fuel as [ | fuel IH]; intros fuel' state color events w Hle H;
    destruct fuel' as [ | fuel']; try lia; cbn [CameraSubpath] in *;
    destruct (ps_pathLength state <? maxPathLength context);
    try reflexivity; try (contradiction H; reflexivity).
  destruct (RayPick _ _) as [hit | ]; [ | reflexivity].
  apply bind_agree; [exact H | ]. clear H. intros [valid surface] w1 _ H.
  destruct valid; cbn [negb] in *; [ | reflexivity].
  apply bind_agree; [exact H | ]. clear H. intros color1 w2 _ H.
  apply bind_agree; [exact H | ]. clear H. intros pathStart w3 _ H.
  apply bind_agree; [exact H | ]. clear H. intros pathEnd w4 _ H.
  apply bind_agree; [exact H | ]. clear H. intros color2 w5 _ H.
  apply bind_agree; [exact H | ]. clear H. intros result w6 _ H.
  apply bind_agree; [exact H | ]. clear H. intros [scattered state'] w7 _ H.
  destruct scattered; cbn [negb] in *; [ | reflexivity].
  apply IH; [lia | exact H].
Qed.

Lemma forRange_agree {S : Type} (body body' : Z -> S -> M S) :
  (forall i s w, body i s w <> OutOfFuel -> body' i s w = body i s w) ->
  forall n i s w,
    forRange n i body s w <> OutOfFuel -> forRange n i body' s w = forRange n i body s w.
Proof.
  intros Hb. induction n as [ | n IH]; intros i s w H; cbn [forRange] in *; [reflexivity | ].
  unfold bind in *.
  destruct (body i s w) as [[s1 w1] | | ] eqn:E;
    try (contradiction H; reflexivity);
    rewrite Hb by congruence; rewrite E; [ | reflexivity].
  apply IH, H.
Qed.

Lemma CameraPhase_more_fuel (fuel fuel' : nat) context pathVertices points pathEnds hashGrid
      vmWeight vcWeight vmNormalization lightPathCount width height w :
  (fuel <= fuel')%nat ->
  CameraPhase fuel context pathVertices points pathEnds hashGrid
              vmWeight vcWeight vmNormalization lightPathCount width height w
  <> OutOfFuel ->
  CameraPhase fuel' context pathVertices points pathEnds hashGrid
              vmWeight vcWeight vmNormalization lightPathCount width height w
  = CameraPhase fuel context pathVertices points pathEnds hashGrid
                vmWeight vcWeight vmNormalization lightPathCount width height w.
Proof.
  intros Hle. unfold CameraPhase. apply forRange_agree.
  intros y events w0. apply forRange_agree.
  intros x events0 w1 H.
  apply bind_agree; [exact H | ]. clear H. intros state w2 _ H.
  match type of H with
  | bind ?c _ _ <> _ => assert (Hs : c w2 <> OutOfFuel)
  end.
  { intros C. apply H. unfold bind. rewrite C. reflexivity. }
  unfold bind. rewrite (CameraSubpath_more_fuel _ _ _ _ _ _ _ _ _ fuel fuel' _ _ _ _ Hle Hs).
  reflexivity.
Qed.

(** X1: neither subpath loop of a pass runs more than [maxPathLength]
    times.  With [maxPathLength < 2^32], a pass that may take at least
    [maxPathLength] iterations in each subpath loop never stops for want of
    iterations, and it returns what the pass with exactly [maxPathLength]
    iterations returns. *)
Theorem pass_ends_within_maxPathLength
    (fuel : nat) (context : KernelContext) (pathVertices : list VcmVertex)
    (hashGrid : HashGrid) (kernelRadius : float) (width height : Z) (w : World) :
  maxPathLength context < 2 ^ 32 ->
  (Z.to_nat (maxPathLength context) <= fuel)%nat ->
  VertexConnectionAndMerging_fuel fuel context pathVertices hashGrid kernelRadius
                                  width height w
  = VertexConnectionAndMerging context pathVertices hashGrid kernelRadius width height w
  /\ VertexConnectionAndMerging_fuel fuel context pathVertices hashGrid kernelRadius
                                     width height w
     <> OutOfFuel.
Proof.
  intros Hmax Hle.
  pose proof (VertexConnectionAndMerging_terminates context pathVertices hashGrid
                kernelRadius width height w Hmax) as Ht.
  assert (E : VertexConnectionAndMerging_fuel fuel context pathVertices hashGrid kernelRadius
                                              width height w
              = VertexConnectionAndMerging context pathVertices hashGrid kernelRadius
                                           width height w);
    [ | split; [exact E | rewrite E; exact Ht]].
  unfold VertexConnectionAndMerging, VertexConnectionAndMerging_fuel in *.
    cbv zeta in *. unfold LightPhase in *.
    match type of Ht with
    | bind ?c _ _ <> _ => assert (Hs : c w <> OutOfFuel)
    end.
    { intros C. apply Ht. unfold bind. rewrite C. reflexivity. }
    unfold bind at 1. unfold bind at 2.
    rewrite (LightPhaseLoop_more_fuel _ _ _ _ _ fuel _ Hle _ _ _ Hs).
    unfold bind at 1 in Ht.
    match type of Hs with
    | ?c <> _ => destruct c as [[[paths pathEnds] w1] | | ]
    end; try reflexivity.
    match type of Ht with
    | bind ?c _ _ <> _ => assert (Hc : c w1 <> OutOfFuel)
    end.
    { intros C. apply Ht. unfold bind. rewrite C. reflexivity. }
    unfold bind.
    rewrite (CameraPhase_more_fuel _ fuel _ _ _ _ _ _ _ _ _ _ _ _ Hle Hc).
    reflexivity.
Qed.

End MoreFuel.

Section SubpathTheorems.
Context {ML : MathLib} {SL : SceneLib} {ED : ExternData} {TF : TextureFiltering}
        {CL : Collaborators}.

Lemma VertexConnectionAndMerging_segments
      context pathVertices hashGrid kernelRadius width height w r w' :
  VertexConnectionAndMerging context pathVertices hashGrid kernelRadius width height w
    = Ok (r, w') ->
  maxPathLength context < 2 ^ 32 ->
  exists segments,
    pr_pathVertices r = concat segments
    /\ pr_pathEnds r = prefixSums 0 segments
    /\ Forall (subpathVerticesOk context) segments
    /\ length segments = Z.to_nat (wrap32 (width * height)).
Proof.
  unfold VertexConnectionAndMerging, VertexConnectionAndMerging_fuel. cbv zeta.
  intros H Hmax.
  apply bind_Ok in H as ([paths pathEnds] & w1 & Hl & H).
  apply bind_Ok in H as (cameraEvents & w2 & Hc & H).
  apply ret_Ok in H as [-> _].
  cbn [pr_pathVertices pr_pathEnds].
  unfold LightPhase in Hl.
  apply (LightPhaseLoop_segments _ _ _ _ _ _ _ _ _ _ _ _ []) in Hl; auto.
Qed.

Lemma concat_length_bound {A} (segments : list (list A)) (bound : Z) :
  Forall (fun s => Z.of_nat (length s) <= bound) segments ->
  Z.of_nat (length (concat segments)) <= Z.of_nat (length segments) * bound.
Proof.
  induction 1 as [ | s rest Hs _ IH]; cbn [concat length]; [lia | ].
  rewrite length_app. lia.
Qed.

(** X2: after a pass, [pathVertices] is the concatenation of one segment
    for each of the [width * height] (in [uint] arithmetic) light subpaths,
    [pathEnds] holds the running totals of the segments' lengths, and the
    vertices of each segment have the path lengths 1, 2, 3, ... in this
    order. *)
Theorem light_subpath_lengths_count_up
    (context : KernelContext) (pathVertices : list VcmVertex) (hashGrid : HashGrid)
    (kernelRadius : float) (width height : Z) (w w' : World) (r : PassResult) :
  maxPathLength context < 2 ^ 32 ->
  VertexConnectionAndMerging context pathVertices hashGrid kernelRadius width height w
    = Ok (r, w') ->
  exists segments : list (list VcmVertex),
    pr_pathVertices r = concat segments
    /\ pr_pathEnds r = prefixSums 0 segments
    /\ length segments = Z.to_nat (wrap32 (width * height))
    /\ Forall (fun segment =>
                 map vx_pathLength segment = countFrom 1 (length segment))
              segments.
Proof.
  intros Hmax H.
  apply VertexConnectionAndMerging_segments in H as (segments & E1 & E2 & E3 & E4);
    [ | exact Hmax].
  exists segments. repeat split; auto.
  eapply Forall_impl; [ | exact E3]. intros s [Hs _]. exact Hs.
Qed.

(** X3: a light subpath stores at most [maxPathLength - 3] vertices (none
    when [maxPathLength <= 3]), so a pass stores at most
    [lightPathCount * max(0, maxPathLength - 3)] vertices. *)
Theorem light_subpath_vertex_count
    (context : KernelContext) (pathVertices : list VcmVertex) (hashGrid : HashGrid)
    (kernelRadius : float) (width height : Z) (w w' : World) (r : PassResult) :
  maxPathLength context < 2 ^ 32 ->
  VertexConnectionAndMerging context pathVertices hashGrid kernelRadius width height w
    = Ok (r, w') ->
  let perSubpath := Z.max 0 (maxPathLength context - 3) in
  (exists segments : list (list VcmVertex),
     pr_pathVertices r = concat segments
     /\ pr_pathEnds r = prefixSums 0 segments
     /\ Forall (fun segment => Z.of_nat (length segment) <= perSubpath) segments)
  /\ Z.of_nat (length (pr_pathVertices r)) <= wrap32 (width * height) * perSubpath.
Proof.
  intros Hmax H. cbv zeta.
  apply VertexConnectionAndMerging_segments in H as (segments & E1 & E2 & E3 & E4);
    [ | exact Hmax].
  assert (Hb : Forall (fun segment : list VcmVertex =>
                         Z.of_nat (length segment) <= Z.max 0 (maxPathLength context - 3))
                      segments).
  { eapply Forall_impl; [ | exact E3]. intros s [_ [-> | Hs]]; cbn [length]; lia. }
  split; [exists segments; auto | ].
  rewrite E1. pose proof (concat_length_bound segments _ Hb) as Hc.
  assert (Hw : 0 <= wrap32 (width * height)) by (apply Z.mod_pos_bound; lia).
  rewrite E4 in Hc. rewrite Z2Nat.id in Hc by exact Hw. exact Hc.
Qed.

(** X4: the [break] of the connection loop (lines 878-885) loses no
    connection.  When the vertices of the range [pathStart, pathStart + n)
    have the path lengths 1, 2, ..., n, the loop adds the contributions of
    exactly those vertices of the range for which
    [lightVertex.pathLength + 1 + cameraPathState.pathLength <= maxPathLength],
    in their order. *)
Theorem connection_break_skips_no_vertex
    (context : KernelContext) (surface : SurfaceParameters) (cameraPathState : PathState)
    (pathVertices : list VcmVertex) (vmWeight : float)
    (pathStart : Z) (n : nat) (color : float3) :
  0 <= pathStart ->
  0 <= ps_pathLength cameraPathState ->
  Z.of_nat n + 1 + ps_pathLength cameraPathState < 2 ^ 32 ->
  map vx_pathLength (vertexRange pathVertices pathStart n) = countFrom 1 n ->
  ConnectLightVertices n pathStart context surface cameraPathState pathVertices vmWeight color
  = Ok (fold_left (addConnection context surface cameraPathState vmWeight)
                  (filter (connectable context cameraPathState)
                          (vertexRange pathVertices pathStart n))
                  color).
Proof.
  intros H0 Hc Hn Hseg.
  assert (Hlen : length (vertexRange pathVertices pathStart n) = n).
  { rewrite <- (length_map vx_pathLength), Hseg. apply countFrom_length. }
  apply ConnectLightVertices_filter; auto.
  - rewrite Hseg. apply countFrom_sorted.
  - pose proof (countFrom_bounds n 1) as Hb. rewrite <- Hseg, Forall_map in Hb.
    eapply Forall_impl; [ | exact Hb]. cbv beta. intros; lia.
Qed.

End SubpathTheorems.

Lemma prefixSums_length {A} (segments : list (list A)) :
  forall base, length (prefixSums base segments) = length segments.
Proof.
  induction segments as [ | s rest IH]; intros base; cbn [prefixSums length]; auto.
Qed.

(** Segment [i] of a concatenation lies between the entries [i - 1] and [i]
    of the prefix sums. *)
Lemma segment_lookup {A} (segments : list (list A)) :
  forall (i : nat) (base : Z) (segment : list A),
    nth_error segments i = Some segment ->
    exists start,
      match i with
      | O => start = base
      | S i' => nth_error (prefixSums base segments) i' = Some start
      end
      /\ nth_error (prefixSums base segments) i = Some (start + Z.of_nat (length segment))
      /\ base <= start
      /\ firstn (length segment) (skipn (Z.to_nat (start - base)) (concat segments))
         = segment.
Proof.
  induction segments as [ | s rest IH]; intros i base segment Hn.
  - destruct i; discriminate Hn.
  - destruct i as [ | i]; cbn [nth_error] in Hn.
    + injection Hn as ->. exists base. cbn [prefixSums nth_error concat].
      repeat split; try lia.
      replace (Z.to_nat (base - base)) with O by lia. cbn [skipn].
      rewrite firstn_app, Nat.sub_diag, firstn_all. cbn [firstn]. apply app_nil_r.
    + destruct (IH i (base + Z.of_nat (length s)) segment Hn) as (start & H1 & H2 & H3 & H4).
      exists start. cbn [prefixSums nth_error concat]. repeat split.
      * destruct i as [ | i]; [subst start; reflexivity | exact H1].
      * exact H2.
      * lia.
      * replace (Z.to_nat (start - base))
          with (length s + Z.to_nat (start - (base + Z.of_nat (length s))))%nat by lia.
        rewrite skipn_app.
        replace (length s + Z.to_nat (start - (base + Z.of_nat (length s))) - length s)%nat
          with (Z.to_nat (start - (base + Z.of_nat (length s)))) by lia.
        rewrite skipn_all2 by lia. cbn [app]. exact H4.
Qed.

Lemma readAt_nth_error {A} (l : list A) (i : nat) (v : A) :
  nth_error l i = Some v -> readAt l (Z.of_nat i) = Ok v.
Proof.
  intros H. unfold readAt.
  destruct (Z.of_nat i <? 0) eqn:E; [apply Z.ltb_lt in E; lia | ].
  rewrite Nat2Z.id, H. reflexivity.
Qed.

Section CameraConnections.
Context {ML : MathLib} {SL : SceneLib} {ED : ExternData} {TF : TextureFiltering}
        {CL : Collaborators}.

(** X5: after a pass, for every pixel [index] the range
    [pathStart, pathEnd) that the camera loop takes from [pathEnds]
    (lines 875-876) is read inside the array and is the segment of the light
    subpath [index]; the connection loop over it returns, having added
    exactly the vertices of that subpath within the path length bound. *)
Theorem camera_connects_whole_subpath
    (context : KernelContext) (pathVertices : list VcmVertex) (hashGrid : HashGrid)
    (kernelRadius : float) (width height : Z) (w w' : World) (r : PassResult)
    (index : Z) (surface : SurfaceParameters) (cameraPathState : PathState)
    (vmWeight : float) (color : float3) (w0 : World) :
  maxPathLength context <= 2 ^ 31 ->
  VertexConnectionAndMerging context pathVertices hashGrid kernelRadius width height w
    = Ok (r, w') ->
  0 <= index < wrap32 (width * height) ->
  0 <= ps_pathLength cameraPathState < maxPathLength context ->
  exists (pathStart pathEnd : Z) (segment : list VcmVertex),
    (if index =? 0 then ret 0 else lift (readAt (pr_pathEnds r) (wrap32 (index - 1)))) w0
      = Ok (pathStart, w0)
    /\ readAt (pr_pathEnds r) index = Ok pathEnd
    /\ segment = vertexRange (pr_pathVertices r) pathStart (Z.to_nat (pathEnd - pathStart))
    /\ map vx_pathLength segment = countFrom 1 (length segment)
    /\ ConnectLightVertices (Z.to_nat (pathEnd - pathStart)) pathStart context surface
                            cameraPathState (pr_pathVertices r) vmWeight color
       = Ok (fold_left (addConnection context surface cameraPathState vmWeight)
                       (filter (connectable context cameraPathState) segment)
                       color).
Proof.
  intros Hmax H Hi Hc.
  apply VertexConnectionAndMerging_segments in H as (segments & E1 & E2 & E3 & E4); [ | lia].
  assert (Hw : wrap32 (width * height) < 2 ^ 32) by (apply Z.mod_pos_bound; lia).
  destruct (nth_error segments (Z.to_nat index)) as [segment | ] eqn:En;
    [ | apply nth_error_None in En; lia].
  destruct (segment_lookup segments _ 0 segment En) as (start & H1 & H2 & H3 & H4).
  rewrite <- E2 in H1, H2. rewrite Z.sub_0_r, <- E1 in H4.
  exists start, (start + Z.of_nat (length segment)), segment.
  replace (start + Z.of_nat (length segment) - start) with (Z.of_nat (length segment)) by lia.
  rewrite Nat2Z.id.
  assert (Hseg : subpathVerticesOk context segment).
  { rewrite Forall_forall in E3. apply E3. eapply nth_error_In, En. }
  destruct Hseg as [Hs1 Hs2].
  assert (Hrange : vertexRange (pr_pathVertices r) start (length segment) = segment)
    by exact H4.
  repeat split.
  - destruct (index =? 0) eqn:E0.
    + apply Z.eqb_eq in E0. subst index. cbn in H1. subst start. reflexivity.
    + apply Z.eqb_neq in E0.
      destruct (Z.to_nat index) as [ | i'] eqn:Ei; [lia | ].
      unfold wrap32. rewrite Z.mod_small by lia.
      replace (index - 1) with (Z.of_nat i') by lia.
      rewrite (readAt_nth_error _ _ _ H1). reflexivity.
  - rewrite <- (Z2Nat.id index) by lia. apply readAt_nth_error, H2.
  - symmetry. exact Hrange.
  - exact Hs1.
  - rewrite <- Hrange at 2.
    apply ConnectLightVertices_filter; try lia.
    + rewrite Hrange. reflexivity.
    + rewrite Hrange, Hs1. apply countFrom_sorted.
    + rewrite Hrange.
      pose proof (countFrom_bounds (length segment) 1) as Hb.
      rewrite <- Hs1, Forall_map in Hb.
      eapply Forall_impl; [ | exact Hb]. cbv beta. intros v Hv.
      destruct Hs2 as [-> | Hs2]; cbn [length] in *; lia.
Qed.

End CameraConnections.

Section CameraLengths.
Context {ML : MathLib} {SL : SceneLib} {ED : ExternData} {TF : TextureFiltering}
        {CL : Collaborators}.


Lemma CameraSubpath_lengths context pathVertices points pathEnds hashGrid
    vmWeight vcWeight vmNormalization (index : Z) (fuel : nat) :
  forall state color events w color' events' w',
    CameraSubpath fuel context pathVertices points pathEnds hashGrid
                  vmWeight vcWeight vmNormalization index state color events w
      = Ok ((color', events'), w') ->
    maxPathLength context < 2 ^ 32 ->
    1 <= ps_pathLength state ->
    Forall (cameraHitInBounds context) events ->
    Forall (cameraHitInBounds context) events'.
Proof.
  induction fuel as [ | fuel IH];
    intros state color events w color' events' w' H Hmax Hpl Hev;
    cbn [CameraSubpath] in H;
    destruct (ps_pathLength state <? maxPathLength context) eqn:G;
    try discriminate;
    try (apply ret_Ok in H as [H _]; injection H as _ <-; exact Hev).
  apply Z.ltb_lt in G.
  destruct (RayPick _ _) as [hit | ].
  - apply bind_Ok in H as ([valid surface] & w1 & _ & H).
    destruct valid; cbn [negb] in H;
      [ | apply ret_Ok in H as [H _]; injection H as _ <-; exact Hev].
    apply bind_Ok in H as (color1 & w2 & _ & H).
    apply bind_Ok in H as (pathStart & w3 & _ & H).
    apply bind_Ok in H as (pathEnd & w4 & _ & H).
    apply bind_Ok in H as (color2 & w5 & _ & H).
    apply bind_Ok in H as (result & w6 & _ & H).
    apply bind_Ok in H as ([scattered state'] & w7 & Hb & H).
    apply SampleBsdfScattering_Ok in Hb as [_ Hb].
    rewrite CameraHitUpdate_pathLength in Hb.
    assert (Hev' : Forall (cameraHitInBounds context)
                     (events ++ [mkHitEvent CameraPath state hit surface
                                            (CameraHitUpdate state hit surface)])).
    { apply Forall_app. split; [exact Hev | ].
      constructor; [ | constructor]. split; cbn [ev_before ev_after]; [lia | reflexivity]. }
    destruct scattered; cbn [negb] in H.
    + specialize (Hb eq_refl). unfold wrap32 in Hb. rewrite Z.mod_small in Hb by lia.
      eapply IH; [exact H | exact Hmax | lia | exact Hev'].
    + apply ret_Ok in H as [H _]. injection H as _ ->. exact Hev'.
  - apply bind_Ok in H as (sky & w1 & _ & H).
    apply ret_Ok in H as [H _]. injection H as _ <-. exact Hev.
Qed.

Lemma CameraPhase_lengths fuel context pathVertices points pathEnds hashGrid
      vmWeight vcWeight vmNormalization lightPathCount width height w events w' :
  CameraPhase fuel context pathVertices points pathEnds hashGrid
              vmWeight vcWeight vmNormalization lightPathCount width height w
    = Ok (events, w') ->
  maxPathLength context < 2 ^ 32 ->
  Forall (cameraHitInBounds context) events.
Proof.
  unfold CameraPhase. intros H Hmax.
  eapply (forRange_invariant (Forall (cameraHitInBounds context))); [ | exact H | constructor].
  clear H. intros y events0 w0 events1 w1 H Hev.
  eapply (forRange_invariant (Forall (cameraHitInBounds context))); [ | exact H | exact Hev].
  clear H Hev. intros x events2 w2 events3 w3 H Hev.
  apply bind_Ok in H as (state & w4 & Hg & H).
  apply GenerateCameraSample_Ok in Hg as [Hpl _].
  apply bind_Ok in H as ([color events4] & w5 & Hsub & H).
  apply bind_Ok in H as ([] & w6 & _ & H).
  apply ret_Ok in H as [-> _].
  eapply CameraSubpath_lengths; try eassumption. lia.
Qed.

(** X6: a camera subpath meets surfaces at the path lengths 1 to
    [maxPathLength - 1] only, and the update at a hit keeps the path length;
    with [maxPathLength <= 1] the camera phase meets no surface at all. *)
Theorem camera_hit_pathLength
    (context : KernelContext) (pathVertices : list VcmVertex) (hashGrid : HashGrid)
    (kernelRadius : float) (width height : Z) (w w' : World) (r : PassResult) :
  maxPathLength context < 2 ^ 32 ->
  VertexConnectionAndMerging context pathVertices hashGrid kernelRadius width height w
    = Ok (r, w') ->
  Forall (fun e => 1 <= ps_pathLength (ev_before e) < maxPathLength context
                   /\ ps_pathLength (ev_after e) = ps_pathLength (ev_before e))
         (pr_cameraEvents r)
  /\ (maxPathLength context <= 1 -> pr_cameraEvents r = []).
Proof.
  intros Hmax H.
  assert (Hev : Forall (cameraHitInBounds context) (pr_cameraEvents r)).
  { unfold VertexConnectionAndMerging, VertexConnectionAndMerging_fuel in H.
    cbv zeta in H.
    apply bind_Ok in H as ([paths pathEnds] & w1 & Hl & H).
    apply bind_Ok in H as (cameraEvents & w2 & Hc & H).
    apply ret_Ok in H as [-> _]. cbn [pr_cameraEvents].
    eapply CameraPhase_lengths; eassumption. }
  split; [exact Hev | ].
  intros Hshort. destruct (pr_cameraEvents r) as [ | e rest]; [reflexivity | ].
  apply Forall_inv in Hev. destruct Hev as [Hev _]. lia.
Qed.

(** X7: with [maxPathLength <= 3] the light phase of a pass traces no ray
    and stores no vertex: [pathVertices] is empty and every entry of
    [pathEnds] is 0. *)
Theorem short_paths_store_no_vertex
    (context : KernelContext) (pathVertices : list VcmVertex) (hashGrid : HashGrid)
    (kernelRadius : float) (width height : Z) (w w' : World) (r : PassResult) :
  maxPathLength context <= 3 ->
  VertexConnectionAndMerging context pathVertices hashGrid kernelRadius width height w
    = Ok (r, w') ->
  pr_pathVertices r = []
  /\ pr_lightEvents r = []
  /\ pr_pathEnds r = repeat 0 (Z.to_nat (wrap32 (width * height))).
Proof.
  intros Hmax H.
  apply VertexConnectionAndMerging_spec in H as (Hv & _ & _ & Hb & Hn & He & _).
  assert (Hl : pr_lightEvents r = []).
  { specialize (Hb ltac:(lia)). destruct (pr_lightEvents r) as [ | e rest]; [reflexivity | ].
    apply Forall_inv in Hb. destruct Hb as [H1 H2]. lia. }
  rewrite Hl in Hv. cbn [map] in Hv. rewrite Hv in He. cbn [length] in He.
  repeat split; auto.
  rewrite <- Hn. clear Hn.
  induction He as [ | e rest Hx _ IH]; cbn [length repeat]; [reflexivity | ].
  f_equal; [lia | exact IH].
Qed.

Lemma forRange_ret {S : Type} (n : nat) :
  forall (i : Z) (s : S) (w : World), forRange n i (fun _ s => ret s) s w = Ok (s, w).
Proof.
  induction n as [ | n IH]; intros i s w; cbn [forRange]; [reflexivity | ].
  unfold bind, ret at 1. apply IH.
Qed.

(** X8: a pass over an image without pixels ([width = 0] or
    [height = 0]) traces nothing: it returns with the image and the twister
    as they were, and its hash grid is built over no point. *)
Theorem empty_image_pass
    (context : KernelContext) (pathVertices : list VcmVertex) (hashGrid : HashGrid)
    (kernelRadius : float) (width height : Z) (w : World) :
  width = 0 \/ height = 0 ->
  VertexConnectionAndMerging context pathVertices hashGrid kernelRadius width height w
  = Ok ({| pr_pathVertices := [];
           pr_hashGrid := BuildHashGrid hashGrid 0 kernelRadius [];
           pr_pathEnds := [];
           pr_lightEvents := [];
           pr_cameraEvents := [] |}, w).
Proof.
  intros Hz.
  assert (Hp : wrap32 (width * height) = 0)
    by (destruct Hz; subst; rewrite ?Z.mul_0_l, ?Z.mul_0_r; reflexivity).
  unfold VertexConnectionAndMerging, VertexConnectionAndMerging_fuel. cbv zeta.
  rewrite Hp. unfold LightPhase. cbn [Z.to_nat LightPhaseLoop].
  unfold bind at 1. unfold ret at 1. cbn [lp_pathVertices lp_points lp_events].
  unfold CameraPhase.
  destruct Hz as [-> | ->].
  - cbn [Z.to_nat forRange]. unfold bind at 1. rewrite forRange_ret. reflexivity.
  - cbn [Z.to_nat forRange]. reflexivity.
Qed.

End CameraLengths.

(* ===================================================================== *)
(** ** Surface reconstruction *)
(* ===================================================================== *)

Section SurfaceBlocks.
Context {ML : MathLib} {SL : SceneLib} {ED : ExternData} {TF : TextureFiltering}.

Lemma surfaceDerivatives_frame v0 v1 v2 canUse preserve surface :
  frameOf (surfaceDerivatives v0 v1 v2 canUse preserve surface) = frameOf surface
  /\ shadingOf (surfaceDerivatives v0 v1 v2 canUse preserve surface) = shadingOf surface.
Proof.
  unfold surfaceDerivatives. cbv zeta.
  destruct (canUse || preserve); [ | auto].
  destruct (Absf _ <? SmallFloatEpsilon_)%f32; cbn [negb orb].
  - destruct (MakeOrthogonalCoordinateSystem _ _) as [du dv]. split; reflexivity.
  - destruct preserve;
      match goal with |- context [if ?c then _ else _] => destruct c end;
      try destruct (MakeOrthogonalCoordinateSystem _ _) as [du dv]; split; reflexivity.
Qed.

Lemma surfaceMaterial_frame scene material uvs rd t b n surface surface' :
  surfaceMaterial scene material uvs rd t b n surface = Ok surface' ->
  frameOf surface' = frameOf surface /\ derivativesOf surface' = derivativesOf surface.
Proof.
  unfold surfaceMaterial. intros H.
  apply obind_Ok in H as (emissive & _ & H).
  apply obind_Ok in H as (albedoTex & _ & H).
  apply obind_Ok in H as (specular & _ & H).
  apply obind_Ok in H as (roughnessTex & _ & H).
  apply obind_Ok in H as (metalnessTex & _ & H).
  apply obind_Ok in H as (perturbNormal & _ & H).
  injection H as <-. split; reflexivity.
Qed.

Lemma surfaceFrame_fields t b n hit material surface :
  frameOf (surfaceFrame t b n hit material surface)
  = (MakeFloat3x3 t n b, MatrixTranspose (MakeFloat3x3 t n b),
     (h_rxOrigin hit, h_rxDirection hit, h_ryOrigin hit, h_ryDirection hit),
     n, h_position hit, h_error hit, m_flags material, s_view surface)
  /\ derivativesOf (surfaceFrame t b n hit material surface) = derivativesOf surface.
Proof. split; reflexivity. Qed.

End SurfaceBlocks.

Section SurfaceTheorems2.
Context {ML : MathLib} {SL : SceneLib} {ED : ExternData} {TF : TextureFiltering}.

Lemma CalculateSurfaceParams_blocks context hit surface surface' :
  CalculateSurfaceParams context hit surface = Ok (true, surface') ->
  exists v0 v1 v2 material,
    hitTriangle (scene (sceneData context)) hit = Ok (v0, v1, v2, material)
    /\ backfacing (hitNormal v0 v1 v2 hit) (h_viewDirection hit) (m_flags material) = false
    /\ surfaceMaterial (scene (sceneData context)) material (hitUV v0 v1 v2 hit)
                       (rayHasDifferentials hit)
                       (hitTangent v0 v1 v2 hit) (hitBitangent v0 v1 v2 hit)
                       (hitNormal v0 v1 v2 hit)
                       (surfaceGeometry v0 v1 v2 material hit surface)
       = Ok surface'.
Proof.
  unfold CalculateSurfaceParams. intros H.
  apply obind_Ok in H as ([[[v0 v1] v2] material] & Ht & H).
  exists v0, v1, v2, material. split; [exact Ht | ].
  destruct (backfacing _ _ _); [discriminate H | split; [reflexivity | ]].
  apply obind_Ok in H as (s' & Hm & H). injection H as <-. exact Hm.
Qed.

Lemma surfaceGeometry_frame v0 v1 v2 material hit surface :
  frameOf (surfaceGeometry v0 v1 v2 material hit surface)
  = (MakeFloat3x3 (hitTangent v0 v1 v2 hit) (hitNormal v0 v1 v2 hit)
                  (hitBitangent v0 v1 v2 hit),
     MatrixTranspose (MakeFloat3x3 (hitTangent v0 v1 v2 hit) (hitNormal v0 v1 v2 hit)
                                   (hitBitangent v0 v1 v2 hit)),
     (h_rxOrigin hit, h_rxDirection hit, h_ryOrigin hit, h_ryDirection hit),
     hitNormal v0 v1 v2 hit, h_position hit, h_error hit, m_flags material, s_view surface)
  /\ shadingOf (surfaceGeometry v0 v1 v2 material hit surface) = shadingOf surface.
Proof.
  unfold surfaceGeometry. cbv zeta.
  match goal with
  | |- context [surfaceDerivatives ?a ?b ?c ?d ?e ?s] =>
      destruct (surfaceDerivatives_frame a b c d e s) as [Hf Hs];
      destruct (surfaceFrame_fields (hitTangent v0 v1 v2 hit) (hitBitangent v0 v1 v2 hit)
                  (hitNormal v0 v1 v2 hit) hit material surface) as [Hf0 _];
      set (s2 := surfaceDerivatives a b c d e s) in *
  end.
  rewrite Hf0 in Hf.
  destruct (canUseDifferentials material hit); split; try exact Hf; try exact Hs.
Qed.

(** X9: a successful reconstruction takes position, error and the four
    ray differential vectors from the hit, and flags, shader and index of
    refraction from the material of the triangle; [geometricNormal] is the
    interpolated normal [n], [tangentToWorld] is [MakeFloat3x3(t, n, b)] and
    [worldToTangent] its transpose.  [view] is not written. *)
Theorem CalculateSurfaceParams_copies_hit
    (context : KernelContext) (hit : HitParameters) (surface surface' : SurfaceParameters) :
  CalculateSurfaceParams context hit surface = Ok (true, surface') ->
  exists v0 v1 v2 material,
    hitTriangle (scene (sceneData context)) hit = Ok (v0, v1, v2, material)
    /\ let t := hitTangent v0 v1 v2 hit in
       let b := hitBitangent v0 v1 v2 hit in
       let n := hitNormal v0 v1 v2 hit in
       s_position surface' = h_position hit
       /\ s_error surface' = h_error hit
       /\ s_geometricNormal surface' = n
       /\ s_tangentToWorld surface' = MakeFloat3x3 t n b
       /\ s_worldToTangent surface' = MatrixTranspose (MakeFloat3x3 t n b)
       /\ (s_rxOrigin surface', s_rxDirection surface', s_ryOrigin surface',
           s_ryDirection surface')
          = (h_rxOrigin hit, h_rxDirection hit, h_ryOrigin hit, h_ryDirection hit)
       /\ s_materialFlags surface' = m_flags material
       /\ s_shader surface' = m_shader material
       /\ s_ior surface' = m_ior material
       /\ s_view surface' = s_view surface.
Proof.
  intros H.
  apply CalculateSurfaceParams_blocks in H as (v0 & v1 & v2 & material & Ht & _ & Hm).
  exists v0, v1, v2, material. split; [exact Ht | ]. cbv zeta.
  destruct (surfaceMaterial_frame _ _ _ _ _ _ _ _ _ Hm) as [Hf _].
  destruct (surfaceGeometry_frame v0 v1 v2 material hit surface) as [Hg _].
  rewrite Hg in Hf. unfold frameOf in Hf.
  injection Hf as E1 E2 E3 E4 E5 E6 E7 E8 E9 E10 E11.
  unfold surfaceMaterial in Hm.
  apply obind_Ok in Hm as (emissive & _ & Hm).
  apply obind_Ok in Hm as (albedoTex & _ & Hm).
  apply obind_Ok in Hm as (specular & _ & Hm).
  apply obind_Ok in Hm as (roughnessTex & _ & Hm).
  apply obind_Ok in Hm as (metalnessTex & _ & Hm).
  apply obind_Ok in Hm as (perturbNormal & _ & Hm).
  injection Hm as Hm.
  repeat split; try congruence; rewrite <- Hm; reflexivity.
Qed.

End SurfaceTheorems2.

Section SurfaceTheorems3.
Context {ML : MathLib} {SL : SceneLib} {ED : ExternData} {TF : TextureFiltering}.

(** X10: when the x and y components of the hit's [rxDirection] are zero
    (the ray carries no differentials), a successful reconstruction leaves
    [dpdu], [dpdv] and [differentials] of the surface as they were, whatever
    the flags of the material. *)
Theorem CalculateSurfaceParams_without_differentials
    (context : KernelContext) (hit : HitParameters) (surface surface' : SurfaceParameters) :
  CalculateSurfaceParams context hit surface = Ok (true, surface') ->
  (f3x (h_rxDirection hit) =? of_int 0)%f32 = true ->
  (f3y (h_rxDirection hit) =? of_int 0)%f32 = true ->
  s_dpdu surface' = s_dpdu surface
  /\ s_dpdv surface' = s_dpdv surface
  /\ s_differentials surface' = s_differentials surface.
Proof.
  intros H Hx Hy.
  apply CalculateSurfaceParams_blocks in H as (v0 & v1 & v2 & material & Ht & _ & Hm).
  destruct (surfaceMaterial_frame _ _ _ _ _ _ _ _ _ Hm) as [_ Hd].
  assert (Hr : rayHasDifferentials hit = false).
  { unfold rayHasDifferentials, fne. unfold feq in Hx, Hy. rewrite Hx, Hy. reflexivity. }
  unfold surfaceGeometry, canUseDifferentials, preserveDifferentials in Hd.
  rewrite Hr, !andb_false_r in Hd. cbv zeta in Hd.
  unfold surfaceDerivatives in Hd. cbn [orb] in Hd.
  unfold derivativesOf in Hd. injection Hd as E1 E2 E3. auto.
Qed.

(** X11: the material of a reconstructed surface, for each of the six
    lookups with and without a texture.  The emissive colour is the texture
    sample, or zero without a texture; the albedo is the material's albedo
    times the sample, or times one; the specular colour is the sample, or
    the final albedo; roughness and metalness are the material's values
    times the sample, or times 1; the perturbed normal is the normalised
    product of [2 * sample - 1] (of the z axis, without a normal texture)
    and [MakeFloat3x3(t, -b, n)].  Every sample is the triangle-filtered
    texture value as stored: no lookup converts from sRGB. *)
Theorem CalculateSurfaceParams_material
    (context : KernelContext) (hit : HitParameters) (surface surface' : SurfaceParameters) :
  CalculateSurfaceParams context hit surface = Ok (true, surface') ->
  exists v0 v1 v2 material,
    hitTriangle (scene (sceneData context)) hit = Ok (v0, v1, v2, material)
    /\ let textures := textures (scene (sceneData context)) in
       let uvs := hitUV v0 v1 v2 hit in
       (m_emissiveTextureIndex material = InvalidIndex32 -> s_emissive surface' = float3_Zero)
       /\ (forall texture,
             m_emissiveTextureIndex material <> InvalidIndex32 ->
             readAt textures (m_emissiveTextureIndex material) = Ok texture ->
             s_emissive surface' = TriangleFloat3 (t_data texture) 0 uvs)
       /\ (m_albedoTextureIndex material = InvalidIndex32 ->
           s_albedo surface' = (m_albedo material * float3_One)%v3)
       /\ (forall texture,
             m_albedoTextureIndex material <> InvalidIndex32 ->
             readAt textures (m_albedoTextureIndex material) = Ok texture ->
             s_albedo surface' = (m_albedo material * TriangleFloat3 (t_data texture) 0 uvs)%v3)
       /\ (m_specularTextureIndex material = InvalidIndex32 ->
           s_specularColor surface' = s_albedo surface')
       /\ (forall texture,
             m_specularTextureIndex material <> InvalidIndex32 ->
             readAt textures (m_specularTextureIndex material) = Ok texture ->
             s_specularColor surface' = TriangleFloat3 (t_data texture) 0 uvs)
       /\ (m_roughnessTextureIndex material = InvalidIndex32 ->
           s_roughness surface' = (m_roughness material * f1)%f32)
       /\ (forall texture,
             m_roughnessTextureIndex material <> InvalidIndex32 ->
             readAt textures (m_roughnessTextureIndex material) = Ok texture ->
             s_roughness surface'
             = (m_roughness material * TriangleFloat (t_data texture) 0 uvs)%f32)
       /\ (m_metalnessTextureIndex material = InvalidIndex32 ->
           s_metalness surface' = (m_metalness material * f1)%f32)
       /\ (forall texture,
             m_metalnessTextureIndex material <> InvalidIndex32 ->
             readAt textures (m_metalnessTextureIndex material) = Ok texture ->
             s_metalness surface'
             = (m_metalness material * TriangleFloat (t_data texture) 0 uvs)%f32)
       /\ (m_normalTextureIndex material = InvalidIndex32 ->
           s_perturbedNormal surface'
           = Normalize (MatrixMultiply float3_ZAxis
                          (MakeFloat3x3 (hitTangent v0 v1 v2 hit)
                                        (- hitBitangent v0 v1 v2 hit)%v3
                                        (hitNormal v0 v1 v2 hit))))
       /\ (forall texture,
             m_normalTextureIndex material <> InvalidIndex32 ->
             readAt textures (m_normalTextureIndex material) = Ok texture ->
             s_perturbedNormal surface'
             = Normalize (MatrixMultiply
                            (v3subs (f2 *: TriangleFloat3 (t_data texture) 0 uvs)%v3 f1)
                            (MakeFloat3x3 (hitTangent v0 v1 v2 hit)
                                          (- hitBitangent v0 v1 v2 hit)%v3
                                          (hitNormal v0 v1 v2 hit)))).
Proof.
  intros H.
  apply CalculateSurfaceParams_blocks in H as (v0 & v1 & v2 & material & Ht & _ & Hm).
  exists v0, v1, v2, material. split; [exact Ht | ]. cbv zeta.
  unfold surfaceMaterial in Hm.
  apply obind_Ok in Hm as (emissive & He & Hm).
  apply obind_Ok in Hm as (albedoTex & Ha & Hm).
  apply obind_Ok in Hm as (specular & Hsp & Hm).
  apply obind_Ok in Hm as (roughnessTex & Hr & Hm).
  apply obind_Ok in Hm as (metalnessTex & Hme & Hm).
  apply obind_Ok in Hm as (perturbNormal & Hn & Hm).
  injection Hm as <-.
  unfold SampleTextureFloat3 in He, Ha, Hsp. unfold SampleTextureFloat in Hr, Hme.
  unfold SampleTextureNormal in Hn.
  cbn [s_emissive s_albedo s_specularColor s_roughness s_metalness s_perturbedNormal
       set_emissive set_albedo set_specularColor set_roughness set_metalness set_shader
       set_ior set_perturbedNormal] in *.
  repeat split.
  - intros E. rewrite E, Z.eqb_refl in He. injection He as <-. reflexivity.
  - intros texture E Hread. apply Z.eqb_neq in E. rewrite E, Hread in He.
    cbn in He. injection He as <-. reflexivity.
  - intros E. rewrite E, Z.eqb_refl in Ha. injection Ha as <-. reflexivity.
  - intros texture E Hread. apply Z.eqb_neq in E. rewrite E, Hread in Ha.
    cbn in Ha. injection Ha as <-. reflexivity.
  - intros E. rewrite E, Z.eqb_refl in Hsp. injection Hsp as <-. reflexivity.
  - intros texture E Hread. apply Z.eqb_neq in E. rewrite E, Hread in Hsp.
    cbn in Hsp. injection Hsp as <-. reflexivity.
  - intros E. rewrite E, Z.eqb_refl in Hr. injection Hr as <-. reflexivity.
  - intros texture E Hread. apply Z.eqb_neq in E. rewrite E, Hread in Hr.
    cbn in Hr. injection Hr as <-. reflexivity.
  - intros E. rewrite E, Z.eqb_refl in Hme. injection Hme as <-. reflexivity.
  - intros texture E Hread. apply Z.eqb_neq in E. rewrite E, Hread in Hme.
    cbn in Hme. injection Hme as <-. reflexivity.
  - intros E. rewrite E, Z.eqb_refl in Hn. injection Hn as <-. reflexivity.
  - intros texture E Hread. apply Z.eqb_neq in E. rewrite E, Hread in Hn.
    cbn in Hn. injection Hn as <-. reflexivity.
Qed.

(** X13: [CalculateSurfaceDifferentials] is all or nothing in the two
    ray-plane intersections: if [tx] or [ty] is infinite or a NaN, every
    member of the output is reset to zero; otherwise [dpdx] and [dpdy] are
    the offsets of the two intersection points from the hit position, and
    [dndu] and [dndv] stay as they were. *)
Theorem CalculateSurfaceDifferentials_reset
    (hit : HitParameters) (n dpdu dpdv : float3) (outputs : SurfaceDifferentials) :
  let d := Dot n (h_position hit) in
  let tx := (- (Dot n (h_rxOrigin hit) - d) / Dot n (h_rxDirection hit))%f32 in
  let ty := (- (Dot n (h_ryOrigin hit) - d) / Dot n (h_ryDirection hit))%f32 in
  let result := CalculateSurfaceDifferentials hit n dpdu dpdv outputs in
  (IsInf tx || IsNaN tx || IsInf ty || IsNaN ty = true ->
   result = SurfaceDifferentials_init)
  /\ (IsInf tx || IsNaN tx || IsInf ty || IsNaN ty = false ->
      d_dpdx result = (h_rxOrigin hit + tx *: h_rxDirection hit - h_position hit)%v3
      /\ d_dpdy result = (h_ryOrigin hit + ty *: h_ryDirection hit - h_position hit)%v3
      /\ d_dndu result = d_dndu outputs
      /\ d_dndv result = d_dndv outputs).
Proof.
  cbv zeta. unfold CalculateSurfaceDifferentials. cbv zeta.
  set (tx := (- (Dot n (h_rxOrigin hit) - Dot n (h_position hit))
              / Dot n (h_rxDirection hit))%f32).
  set (ty := (- (Dot n (h_ryOrigin hit) - Dot n (h_position hit))
              / Dot n (h_ryDirection hit))%f32).
  destruct (IsInf tx || IsNaN tx) eqn:Ex.
  - split; [reflexivity | intros H; discriminate H].
  - cbn [orb].
    destruct (IsInf ty || IsNaN ty) eqn:Ey; (split; [try reflexivity | ]);
      try (intros H; discriminate H).
    intros _.
    repeat match goal with
    | |- context [SolveLinearSystem ?a ?b ?c] =>
        destruct (SolveLinearSystem a b c) as [? ?]
    | |- context [if ?c then _ else _] => destruct c
    end; repeat split.
Qed.

End SurfaceTheorems3.

Section SurfaceTheorems4.
Context {ML : MathLib} {SL : SceneLib} {ED : ExternData} {TF : TextureFiltering}.

Lemma CalculateSurfaceDifferentials_normals hit n dpdu dpdv outputs :
  d_dndu outputs = float3_Zero -> d_dndv outputs = float3_Zero ->
  d_dndu (CalculateSurfaceDifferentials hit n dpdu dpdv outputs) = float3_Zero
  /\ d_dndv (CalculateSurfaceDifferentials hit n dpdu dpdv outputs) = float3_Zero.
Proof.
  intros Hu Hv. unfold CalculateSurfaceDifferentials. cbv zeta.
  destruct (IsInf _ || IsNaN _); [split; reflexivity | ].
  destruct (IsInf _ || IsNaN _); [split; reflexivity | ].
  repeat match goal with
  | |- context [SolveLinearSystem ?a ?b ?c] =>
      destruct (SolveLinearSystem a b c) as [? ?]
  | |- context [if ?c then _ else _] => destruct c
  end; split; assumption.
Qed.

(** X12: when the differentials are used and the determinant of the
    triangle's texture coordinates is below [SmallFloatEpsilon_] in absolute
    value, [dpdu] and [dpdv] are the orthogonal system around the face normal
    [Normalize(Cross(p2 - p0, p1 - p0))], and [dndu] and [dndv] are zero. *)
Theorem CalculateSurfaceParams_degenerate_uv
    (context : KernelContext) (hit : HitParameters) (surface surface' : SurfaceParameters)
    (v0 v1 v2 : VertexAuxiliaryData) (material : Material) :
  CalculateSurfaceParams context hit surface = Ok (true, surface') ->
  hitTriangle (scene (sceneData context)) hit = Ok (v0, v1, v2, material) ->
  canUseDifferentials material hit || preserveDifferentials material hit = true ->
  (Absf (uvDeterminant v0 v1 v2) <? SmallFloatEpsilon_)%f32 = true ->
  (s_dpdu surface', s_dpdv surface')
  = MakeOrthogonalCoordinateSystem
      (Normalize (Cross (vertexPosition v2 - vertexPosition v0)
                        (vertexPosition v1 - vertexPosition v0))%v3)
      (s_dpdu surface, s_dpdv surface)
  /\ d_dndu (s_differentials surface') = float3_Zero
  /\ d_dndv (s_differentials surface') = float3_Zero.
Proof.
  intros H Ht Hd Hdeg.
  apply CalculateSurfaceParams_blocks in H as (v0' & v1' & v2' & material' & Ht' & _ & Hm).
  rewrite Ht in Ht'. injection Ht' as <- <- <- <-.
  destruct (surfaceMaterial_frame _ _ _ _ _ _ _ _ _ Hm) as [_ Hder].
  unfold derivativesOf in Hder. injection Hder as -> -> ->.
  unfold surfaceGeometry. cbv zeta.
  unfold surfaceDerivatives. rewrite Hd. cbv zeta.
  unfold uvDeterminant in Hdeg. cbv zeta in Hdeg. rewrite Hdeg. cbn [negb orb].
  destruct (MakeOrthogonalCoordinateSystem _ _) as [du dv] eqn:E.
  destruct (canUseDifferentials material hit).
  - split; [transitivity (du, dv); [reflexivity | rewrite <- E; reflexivity] | ].
    apply CalculateSurfaceDifferentials_normals; reflexivity.
  - split; [transitivity (du, dv); [reflexivity | rewrite <- E; reflexivity] | ].
    split; reflexivity.
Qed.

Lemma readAt_Fault_iff {A} (a : list A) (i : Z) :
  readAt a i = Fault <-> (0 <=? i) && (i <? Z.of_nat (length a)) = false.
Proof.
  split.
  - intros H.
    destruct ((0 <=? i) && (i <? Z.of_nat (length a))) eqn:E; [ | reflexivity].
    apply andb_prop in E as [E1 E2].
    destruct (readAt_in_range a i) as [v Hv]; [lia | congruence].
  - intros H. destruct (readAt a i) as [v | | ] eqn:Er; [ | reflexivity | ].
    + apply readAt_Ok_range in Er.
      assert (E1 : (0 <=? i) = true) by lia.
      assert (E2 : (i <? Z.of_nat (length a)) = true) by lia.
      rewrite E1, E2 in H. discriminate H.
    + exfalso. eapply readAt_not_OutOfFuel; exact Er.
Qed.

Lemma obind_Ok_Fault {A B} (c : outcome A) (f : A -> B) :
  obind c (fun a => Ok (f a)) = Fault <-> c = Fault.
Proof. destruct c; cbn [obind]; split; intros H; try discriminate H; reflexivity. Qed.

(** X14: the three texture lookups depend neither on the surface nor on
    [hasDifferentials] ([EnableEWA_] is false, the EWA branch is never
    taken), and they read outside the texture table of the scene exactly
    when the index is neither [InvalidIndex32] nor below the number of
    textures. *)
Theorem texture_lookups_ignore_differentials
    (surface surface' : SurfaceParameters) (scene : SceneResource) (uvs : float2)
    (textureIndex : Z) (sRGB hasDifferentials hasDifferentials' : bool)
    (default3 : float3) (default1 : float) :
  SampleTextureFloat3 surface scene uvs textureIndex sRGB hasDifferentials default3
  = SampleTextureFloat3 surface' scene uvs textureIndex sRGB hasDifferentials' default3
  /\ SampleTextureFloat surface scene uvs textureIndex sRGB hasDifferentials default1
     = SampleTextureFloat surface' scene uvs textureIndex sRGB hasDifferentials' default1
  /\ SampleTextureNormal surface scene uvs textureIndex hasDifferentials
     = SampleTextureNormal surface' scene uvs textureIndex hasDifferentials'
  /\ let outside :=
       negb (textureIndex =? InvalidIndex32)
       && negb ((0 <=? textureIndex) && (textureIndex <? Z.of_nat (length (textures scene)))) in
     (SampleTextureFloat3 surface scene uvs textureIndex sRGB hasDifferentials default3
      = Fault <-> outside = true)
     /\ (SampleTextureFloat surface scene uvs textureIndex sRGB hasDifferentials default1
         = Fault <-> outside = true)
     /\ (SampleTextureNormal surface scene uvs textureIndex hasDifferentials
         = Fault <-> outside = true).
Proof.
  unfold SampleTextureFloat3, SampleTextureFloat, SampleTextureNormal, EnableEWA_.
  cbn [andb]. split; [reflexivity | split; [reflexivity | split; [reflexivity | ]]].
  cbv zeta.
  destruct (textureIndex =? InvalidIndex32); cbn [negb andb].
  - repeat split; intros H; discriminate H.
  - rewrite !obind_Ok_Fault, readAt_Fault_iff, negb_true_iff. repeat split; auto.
Qed.

End SurfaceTheorems4.

(* ===================================================================== *)
(** ** The loops over the pixels of an image *)
(* ===================================================================== *)

Lemma oforRange_ext {T : Type} (body body' : Z -> T -> outcome T) (n : nat) :
  forall i s,
    (forall j s', i <= j < i + Z.of_nat n -> body j s' = body' j s') ->
    oforRange n i body s = oforRange n i body' s.
Proof.
  induction n as [ | n IH]; intros i s H; cbn [oforRange]; [reflexivity | ].
  rewrite H by lia. destruct (body' i s); cbn [obind]; try reflexivity.
  apply IH. intros; apply H; lia.
Qed.

Lemma oforRange_shift {T : Type} (body : Z -> T -> outcome T) (c : Z) (n : nat) :
  forall i s, oforRange n i (fun x => body (c + x)) s = oforRange n (c + i) body s.
Proof.
  induction n as [ | n IH]; intros i s; cbn [oforRange]; [reflexivity | ].
  destruct (body (c + i) s); cbn [obind]; try reflexivity.
  rewrite IH. f_equal. lia.
Qed.

Lemma oforRange_app {T : Type} (body : Z -> T -> outcome T) (n m : nat) :
  forall i s,
    oforRange (n + m) i body s
    = obind (oforRange n i body s) (fun s' => oforRange m (i + Z.of_nat n) body s').
Proof.
  induction n as [ | n IH]; intros i s; cbn [oforRange Nat.add obind].
  - replace (i + Z.of_nat 0) with i by lia. reflexivity.
  - replace (i + Z.of_nat (S n)) with (i + 1 + Z.of_nat n) by lia.
    destruct (body i s); cbn [obind]; try reflexivity. apply IH.
Qed.

(** The two loops over [y] and [x] visit the indices [0 .. height * width - 1]
    in order. *)
Lemma forEachPixel_linear {T : Type} (width height : Z) (body : Z -> T -> outcome T) (s : T) :
  0 <= width ->
  forEachPixel width height body s
  = oforRange (Z.to_nat height * Z.to_nat width) 0 (fun i => body (wrap32 i)) s.
Proof.
  intros Hw. unfold forEachPixel.
  assert (H : forall k y0 s0,
             oforRange k y0 (fun y s1 =>
               oforRange (Z.to_nat width) 0 (fun x s2 => body (wrap32 (y * width + x)) s2) s1)
               s0
             = oforRange (k * Z.to_nat width) (y0 * width) (fun i => body (wrap32 i)) s0).
  { induction k as [ | k IH]; intros y0 s0; cbn [oforRange Nat.mul]; [reflexivity | ].
    rewrite oforRange_app.
    rewrite (oforRange_shift (fun i => body (wrap32 i)) (y0 * width)).
    replace (y0 * width + 0) with (y0 * width) by lia.
    destruct (oforRange (Z.to_nat width) (y0 * width) _ s0); cbn [obind]; try reflexivity.
    rewrite IH. f_equal. lia. }
  rewrite H. reflexivity.
Qed.

Lemma updatePixel_Ok (f : Z -> float3 -> outcome float3) (index : Z) (a a' : list float3) :
  updatePixel f index a = Ok a' ->
  exists old new,
    readAt a index = Ok old /\ f index old = Ok new
    /\ a' = replaceNth (Z.to_nat index) new a.
Proof.
  unfold updatePixel. intros H.
  apply obind_Ok in H as (old & Hr & H).
  apply obind_Ok in H as (new & Hf & H).
  unfold writeAt in H. destruct (_ || _); [discriminate H | ].
  injection H as <-. eauto.
Qed.

Lemma updatePixel_total (f : Z -> float3 -> outcome float3) (index : Z) (a : list float3) :
  0 <= index < Z.of_nat (length a) ->
  (forall old, exists new, f index old = Ok new) ->
  exists a', updatePixel f index a = Ok a'.
Proof.
  intros Hi Hf. unfold updatePixel.
  destruct (readAt_in_range a index Hi) as [old ->]. cbn [obind].
  destruct (Hf old) as [new ->]. cbn [obind].
  unfold writeAt.
  destruct ((index <? 0) || (Z.of_nat (length a) <=? index)) eqn:E; [ | eauto].
  apply orb_prop in E as [E | E]; lia.
Qed.

Lemma readAt_replaceNth_same {A} (a : list A) (i : Z) (v : A) :
  0 <= i < Z.of_nat (length a) -> readAt (replaceNth (Z.to_nat i) v a) i = Ok v.
Proof.
  intros H. unfold readAt. destruct (i <? 0) eqn:E; [apply Z.ltb_lt in E; lia | ].
  rewrite replaceNth_same by lia. reflexivity.
Qed.

Lemma readAt_replaceNth_other {A} (a : list A) (i j : Z) (v : A) :
  0 <= i -> 0 <= j -> i <> j -> readAt (replaceNth (Z.to_nat i) v a) j = readAt a j.
Proof.
  intros Hi Hj H. apply readAt_nth_error_eq, replaceNth_other. lia.
Qed.

(** A loop that updates the pixels [start .. start + n - 1] in turn. *)
Lemma updatePixels_spec (f : Z -> float3 -> outcome float3) (n : nat) :
  forall start a,
    0 <= start ->
    start + Z.of_nat n <= Z.of_nat (length a) ->
    (forall i old, start <= i < start + Z.of_nat n -> exists new, f i old = Ok new) ->
    exists a',
      oforRange n start (updatePixel f) a = Ok a'
      /\ length a' = length a
      /\ (forall j old, start <= j < start + Z.of_nat n -> readAt a j = Ok old ->
                        exists new, f j old = Ok new /\ readAt a' j = Ok new)
      /\ (forall j, 0 <= j -> ~ start <= j < start + Z.of_nat n ->
                    readAt a' j = readAt a j).
Proof.
  induction n as [ | n IH]; intros start a H0 Hlen Hf; cbn [oforRange].
  - exists a. repeat split; auto. intros; lia.
  - destruct (updatePixel_total f start a) as [a1 H1]; [lia | intros; apply Hf; lia | ].
    rewrite H1. cbn [obind].
    apply updatePixel_Ok in H1 as (old0 & new0 & Hr0 & Hf0 & ->).
    destruct (IH (start + 1) (replaceNth (Z.to_nat start) new0 a)) as (a' & E & El & Ein & Eout).
    + lia.
    + rewrite replaceNth_length. lia.
    + intros; apply Hf; lia.
    + exists a'. rewrite replaceNth_length in El. repeat split; auto.
      * intros j old Hj Hr.
        destruct (Z.eq_dec j start) as [-> | Hne].
        -- rewrite Hr in Hr0. injection Hr0 as <-. exists new0. split; [exact Hf0 | ].
           rewrite Eout by lia. apply readAt_replaceNth_same. lia.
        -- apply Ein; [lia | ]. rewrite readAt_replaceNth_other by lia. exact Hr.
      * intros j Hj Hout. rewrite Eout by lia. apply readAt_replaceNth_other; lia.
Qed.

Lemma wrap32_small (i : Z) : 0 <= i < 2 ^ 32 -> wrap32 i = i.
Proof. intros H. unfold wrap32. apply Z.mod_small. exact H. Qed.

(** The same for the two loops over the rows and columns of an image. *)
Lemma forEachPixel_update (f : Z -> float3 -> outcome float3) (width height : Z)
    (a : list float3) :
  0 <= width -> 0 <= height ->
  width * height <= 2 ^ 32 ->
  width * height <= Z.of_nat (length a) ->
  (forall i old, 0 <= i < width * height -> exists new, f i old = Ok new) ->
  exists a',
    forEachPixel width height (updatePixel f) a = Ok a'
    /\ length a' = length a
    /\ (forall j old, 0 <= j < width * height -> readAt a j = Ok old ->
                      exists new, f j old = Ok new /\ readAt a' j = Ok new)
    /\ (forall j, width * height <= j -> readAt a' j = readAt a j).
Proof.
  intros Hw Hh Hwrap Hlen Hf.
  rewrite forEachPixel_linear by exact Hw.
  assert (Hn : Z.of_nat (Z.to_nat height * Z.to_nat width) = width * height) by lia.
  rewrite (oforRange_ext _ (updatePixel f)).
  - destruct (updatePixels_spec f (Z.to_nat height * Z.to_nat width) 0 a)
      as (a' & E & El & Ein & Eout); try lia.
    { intros; apply Hf; lia. }
    exists a'. repeat split; auto.
    + intros j old Hj. apply Ein. lia.
    + intros j Hj. apply Eout; lia.
  - intros j s' Hj. rewrite wrap32_small by lia. reflexivity.
Qed.

Lemma updatePixels_reads (f : Z -> float3 -> outcome float3) (n : nat) :
  forall start a a',
    oforRange n start (updatePixel f) a = Ok a' ->
    0 <= start ->
    length a' = length a
    /\ forall i, start <= i < start + Z.of_nat n ->
                 i < Z.of_nat (length a) /\ exists old new, f i old = Ok new.
Proof.
  induction n as [ | n IH]; intros start a a' H H0; cbn [oforRange] in H.
  - injection H as <-. split; [reflexivity | intros; lia].
  - apply obind_Ok in H as (a1 & H1 & H).
    apply updatePixel_Ok in H1 as (old0 & new0 & Hr0 & Hf0 & ->).
    apply IH in H as [Hl Hi]; [ | lia]. rewrite replaceNth_length in Hl, Hi.
    split; [exact Hl | ]. intros i Hrange.
    destruct (Z.eq_dec i start) as [-> | Hne].
    + apply readAt_Ok_range in Hr0. split; [lia | eauto].
    + apply Hi. lia.
Qed.

Section ImageLoopTheorems.

(** X20: the loop that adds a kernel's image to the image of the
    integrator, for an image of at most 2^32 pixels.  When both arrays have
    [width * height] elements or more, it returns, every pixel below
    [width * height] is the sum of the two pixels, and the elements beyond
    are as they were; when an array is shorter, it reads outside it. *)
Theorem AccumulateImage_pixelwise
    (width height : Z) (imageData resultImageData : list float3) :
  0 <= width -> 0 <= height -> width * height <= 2 ^ 32 ->
  (width * height <= Z.of_nat (length imageData) ->
   width * height <= Z.of_nat (length resultImageData) ->
   exists result,
     AccumulateImage width height imageData resultImageData = Ok result
     /\ length result = length resultImageData
     /\ (forall j a b, 0 <= j < width * height ->
                       readAt resultImageData j = Ok a -> readAt imageData j = Ok b ->
                       readAt result j = Ok (a + b)%v3)
     /\ (forall j, width * height <= j -> readAt result j = readAt resultImageData j))
  /\ (forall result,
        AccumulateImage width height imageData resultImageData = Ok result ->
        width * height <= Z.of_nat (length imageData)
        /\ width * height <= Z.of_nat (length resultImageData)).
Proof.
  intros Hw Hh Hwrap.
  set (f := fun (index : Z) (old : float3) =>
              obind (readAt imageData index) (fun add => Ok (old + add)%v3)).
  assert (Hbody : forall index a,
            obind (readAt a index) (fun old =>
              obind (readAt imageData index) (fun add => writeAt a index (old + add)%v3))
            = updatePixel f index a).
  { intros index a. unfold updatePixel, f.
    destruct (readAt a index); cbn [obind]; try reflexivity.
    destruct (readAt imageData index); reflexivity. }
  assert (E : AccumulateImage width height imageData resultImageData
              = forEachPixel width height (updatePixel f) resultImageData).
  { unfold AccumulateImage. rewrite !forEachPixel_linear by exact Hw.
    apply oforRange_ext. intros; apply Hbody. }
  rewrite E. split.
  - intros Hi Hr.
    destruct (forEachPixel_update f width height resultImageData)
      as (result & E1 & E2 & E3 & E4); auto.
    { intros i old Hrange. unfold f.
      destruct (readAt_in_range imageData i) as [add ->]; [lia | ]. cbn [obind]. eauto. }
    exists result. repeat split; auto.
    intros j a b Hj Ha Hb. destruct (E3 j a Hj Ha) as (new & Hf & Hnew).
    unfold f in Hf. rewrite Hb in Hf. cbn [obind] in Hf. injection Hf as <-. exact Hnew.
  - intros result H. rewrite forEachPixel_linear in H by exact Hw.
    rewrite (oforRange_ext _ (updatePixel f)) in H
      by (intros j s' Hj; rewrite wrap32_small by lia; reflexivity).
    apply updatePixels_reads in H as [_ H]; [ | lia].
    destruct (Z.eq_dec (width * height) 0) as [-> | Hne]; [lia | ].
    destruct (H (width * height - 1)) as (Hlt & old & new & Hf); [lia | ].
    split; [ | lia].
    unfold f in Hf. destruct (readAt imageData (width * height - 1)) eqn:Er;
      try discriminate Hf.
    apply readAt_Ok_range in Er. lia.
Qed.

(** X21: the loop that normalises the final image, for an image of at
    most 2^32 pixels.  When the array has [width * height] elements or more,
    it returns, every pixel below [width * height] is the old pixel times
    [1.0f / pathsEvaluatedPerPixel], rounded once for the quotient and once
    for each product, and the elements beyond are as they were; when the
    array is shorter, it reads outside it. *)
Theorem NormalizeImage_pixelwise
    (width height pathsEvaluatedPerPixel : Z) (imageData : list float3) :
  0 <= width -> 0 <= height -> width * height <= 2 ^ 32 ->
  (width * height <= Z.of_nat (length imageData) ->
   exists result,
     NormalizeImage width height pathsEvaluatedPerPixel imageData = Ok result
     /\ length result = length imageData
     /\ (forall j a, 0 <= j < width * height -> readAt imageData j = Ok a ->
                     readAt result j
                     = Ok (v3scaler a (f1 / of_int pathsEvaluatedPerPixel)%f32))
     /\ (forall j, width * height <= j -> readAt result j = readAt imageData j))
  /\ (forall result,
        NormalizeImage width height pathsEvaluatedPerPixel imageData = Ok result ->
        width * height <= Z.of_nat (length imageData)).
Proof.
  intros Hw Hh Hwrap.
  set (f := fun (index : Z) (old : float3) =>
              Ok (v3scaler old (f1 / of_int pathsEvaluatedPerPixel)%f32)).
  assert (E : NormalizeImage width height pathsEvaluatedPerPixel imageData
              = forEachPixel width height (updatePixel f) imageData).
  { unfold NormalizeImage. rewrite !forEachPixel_linear by exact Hw.
    apply oforRange_ext. intros j a _. unfold updatePixel, f.
    destruct (readAt a (wrap32 j)); reflexivity. }
  rewrite E. split.
  - intros Hi.
    destruct (forEachPixel_update f width height imageData)
      as (result & E1 & E2 & E3 & E4); auto.
    { intros i old Hrange. unfold f. eauto. }
    exists result. repeat split; auto.
    intros j a Hj Ha. destruct (E3 j a Hj Ha) as (new & Hf & Hnew).
    unfold f in Hf. injection Hf as <-. exact Hnew.
  - intros result H. rewrite forEachPixel_linear in H by exact Hw.
    rewrite (oforRange_ext _ (updatePixel f)) in H
      by (intros j s' Hj; rewrite wrap32_small by lia; reflexivity).
    apply updatePixels_reads in H as [_ H]; [ | lia].
    destruct (Z.eq_dec (width * height) 0) as [-> | Hne]; [lia | ].
    destruct (H (width * height - 1)) as (Hlt & _); lia.
Qed.

End ImageLoopTheorems.

(* ===================================================================== *)
(** ** The path tracing integrator *)
(* ===================================================================== *)

Lemma oforRange_calls {K C : Type} (body : Z -> K * list C -> outcome (K * list C))
    (tag : Z -> list C) :
  (forall j s s', body j s = Ok s' -> snd s' = snd s ++ tag j) ->
  forall n i s s',
    oforRange n i body s = Ok s' -> snd s' = snd s ++ flat_map tag (countFrom i n).
Proof.
  intros Hb. induction n as [ | n IH]; intros i s s' H; cbn [oforRange] in H.
  - injection H as <-. cbn. symmetry. apply app_nil_r.
  - apply obind_Ok in H as (s1 & H1 & H). apply Hb in H1. apply IH in H.
    rewrite H, H1, <- app_assoc. reflexivity.
Qed.

Lemma flat_map_single {C : Type} (c : C) (n : nat) :
  forall i, flat_map (fun _ : Z => [c]) (countFrom i n) = repeat c n.
Proof.
  induction n as [ | n IH]; intros i; cbn [countFrom flat_map repeat app]; [reflexivity | ].
  f_equal. apply IH.
Qed.

Lemma raysOfPixel_app (index : Z) (a b : list (Z * Z * Z)) :
  GIIntegration.raysOfPixel index (a ++ b)
  = (GIIntegration.raysOfPixel index a + GIIntegration.raysOfPixel index b)%nat.
Proof. unfold GIIntegration.raysOfPixel. rewrite filter_app, length_app. reflexivity. Qed.

Lemma raysOfPixel_repeat (index : Z) (c : Z * Z * Z) (n : nat) :
  GIIntegration.raysOfPixel index (repeat c n) = if fst (fst c) =? index then n else O.
Proof.
  unfold GIIntegration.raysOfPixel.
  induction n as [ | n IH]; cbn [repeat filter].
  - destruct (_ =? _); reflexivity.
  - destruct (fst (fst c) =? index); cbn [length]; [f_equal | ]; exact IH.
Qed.

Lemma raysOfPixel_row (index width y : Z) (R : nat) (n : nat) :
  forall x0,
    0 <= y * width + x0 -> y * width + x0 + Z.of_nat n <= 2 ^ 32 ->
    GIIntegration.raysOfPixel index
      (flat_map (fun x => repeat (wrap32 (y * width + x), x, y) R) (countFrom x0 n))
    = if (y * width + x0 <=? index) && (index <? y * width + x0 + Z.of_nat n)
      then R else O.
Proof.
  induction n as [ | n IH]; intros x0 H0 H1; cbn [countFrom flat_map].
  - change (Z.of_nat 0) with 0.
    destruct (_ && _) eqn:E; [apply andb_prop in E as [E1 E2]; lia | reflexivity].
  - rewrite raysOfPixel_app, raysOfPixel_repeat, IH by lia. cbn [fst].
    rewrite wrap32_small by lia.
    rewrite Nat2Z.inj_succ in *. unfold Z.succ in *.
    pose proof (Nat2Z.is_nonneg n) as Hn. generalize dependent (Z.of_nat n). intros N _ H1 Hn.
    destruct (y * width + x0 =? index) eqn:E1;
      destruct ((y * width + (x0 + 1) <=? index)
                && (index <? y * width + (x0 + 1) + N)) eqn:E2;
      destruct ((y * width + x0 <=? index)
                && (index <? y * width + x0 + (N + 1))) eqn:E3;
      try reflexivity;
      repeat match goal with
      | H : _ && _ = true |- _ => apply andb_prop in H as [? ?]
      | H : _ && _ = false |- _ => apply andb_false_iff in H as [? | ?]
      end; lia.
Qed.

Lemma raysOfPixel_rows (index width : Z) (R : nat) (k : nat) :
  0 <= width ->
  forall y0,
    0 <= y0 -> (y0 + Z.of_nat k) * width <= 2 ^ 32 ->
    GIIntegration.raysOfPixel index
      (flat_map (fun y =>
         flat_map (fun x => repeat (wrap32 (y * width + x), x, y) R)
                  (countFrom 0 (Z.to_nat width)))
         (countFrom y0 k))
    = if (y0 * width <=? index) && (index <? (y0 + Z.of_nat k) * width) then R else O.
Proof.
  intros Hw. induction k as [ | k IH]; intros y0 H0 H1; cbn [countFrom flat_map].
  - change (Z.of_nat 0) with 0. rewrite Z.add_0_r.
    destruct (_ && _) eqn:E; [apply andb_prop in E as [E1 E2]; lia | reflexivity].
  - rewrite raysOfPixel_app, raysOfPixel_row, IH by nia.
    rewrite Z2Nat.id by lia.
    rewrite Nat2Z.inj_succ in *. unfold Z.succ in *.
    pose proof (Nat2Z.is_nonneg k) as Hk. generalize dependent (Z.of_nat k). intros K _ H1 Hk.
    destruct ((y0 * width + 0 <=? index) && (index <? y0 * width + 0 + width)) eqn:E1;
      destruct (((y0 + 1) * width <=? index)
                && (index <? (y0 + 1 + K) * width)) eqn:E2;
      destruct ((y0 * width <=? index)
                && (index <? (y0 + (K + 1)) * width)) eqn:E3;
      try reflexivity;
      repeat match goal with
      | H : _ && _ = true |- _ => apply andb_prop in H as [? ?]
      | H : _ && _ = false |- _ => apply andb_false_iff in H as [? | ?]
      end; nia.
Qed.

Section GITheorems.
Context {ML : MathLib} {ED : ExternData} {CL : Collaborators} {SH : GIIntegration.Shading}.

Lemma RayCastImageBlock_calls fuel width height raysPerPixel kernelContext context' calls :
  GIIntegration.RayCastImageBlock fuel width height raysPerPixel kernelContext
    = Ok (context', calls) ->
  calls = GIIntegration.primaryRays width height raysPerPixel.
Proof.
  unfold GIIntegration.RayCastImageBlock, GIIntegration.primaryRays. intros H.
  eapply (oforRange_calls _ (fun y =>
            flat_map (fun x => repeat (wrap32 (y * width + x), x, y)
                                      (Z.to_nat raysPerPixel))
                     (countFrom 0 (Z.to_nat width)))) in H.
  - exact H.
  - clear. intros y s s' H.
    eapply (oforRange_calls _ (fun x => repeat (wrap32 (y * width + x), x, y)
                                               (Z.to_nat raysPerPixel))) in H.
    + exact H.
    + clear. intros x s s' H.
      eapply (oforRange_calls _ (fun _ => [(wrap32 (y * width + x), x, y)])) in H.
      * rewrite flat_map_single in H. exact H.
      * clear. intros scan [context calls] s' H.
        apply obind_Ok in H as (context' & _ & H). injection H as <-. reflexivity.
Qed.

(** X19: [RayPick] of GIIntegration.cpp is the function [RayPick] of the
    VCM integrator.  It reports a miss exactly when the ray caster hands
    back the geometry id [RTC_INVALID_GEOMETRY_ID], in particular when it
    leaves the hit record of the query as it was; on a hit the position is
    origin + tfar * direction with the origin and distance the ray caster
    hands back, the view direction is the reversed ray direction, and
    differentials, pixel index, throughput and bounce count are the ray's. *)
Theorem RayPick_miss_and_hit (rtcScene : RTCScene) (ray : Ray) :
  let answer := rtcIntersect1 rtcScene (GIIntegration.rayQuery ray) in
  GIIntegration.RayPick rtcScene ray = RayPick rtcScene ray
  /\ (RayPick rtcScene ray = None <-> geomID (rh_hit answer) = 2 ^ 32 - 1)
  /\ (rh_hit answer = rh_hit (GIIntegration.rayQuery ray) -> RayPick rtcScene ray = None)
  /\ forall hit,
       RayPick rtcScene ray = Some hit ->
       h_viewDirection hit = (- ray_direction ray)%v3
       /\ h_position hit
          = mkFloat3 (org_x (rh_ray answer) + tfar (rh_ray answer) * f3x (ray_direction ray))%f32
                     (org_y (rh_ray answer) + tfar (rh_ray answer) * f3y (ray_direction ray))%f32
                     (org_z (rh_ray answer) + tfar (rh_ray answer) * f3z (ray_direction ray))%f32
       /\ h_primId hit = primID (rh_hit answer)
       /\ h_baryCoords hit = mkFloat2 (hit_u (rh_hit answer)) (hit_v (rh_hit answer))
       /\ (h_rxOrigin hit, h_rxDirection hit, h_ryOrigin hit, h_ryDirection hit)
          = (ray_rxOrigin ray, ray_rxDirection ray, ray_ryOrigin ray, ray_ryDirection ray)
       /\ (h_pixelIndex hit, h_throughput hit, h_bounceCount hit)
          = (ray_pixelIndex ray, ray_throughput ray, ray_bounceCount ray).
Proof.
  cbv zeta. split; [reflexivity | ].
  unfold RayPick. cbv zeta.
  change {| rh_ray := _; rh_hit := _ |} with (GIIntegration.rayQuery ray).
  destruct (geomID (rh_hit (rtcIntersect1 rtcScene (GIIntegration.rayQuery ray)))
            =? wrap32 (-1)) eqn:E.
  - apply Z.eqb_eq in E. repeat split; auto; intros; discriminate.
  - apply Z.eqb_neq in E. repeat split.
    + intros H; discriminate H.
    + intros H. contradiction E.
    + intros H. rewrite H in E. contradiction E. reflexivity.
    + injection H as <-. reflexivity.
    + injection H as <-. reflexivity.
    + injection H as <-. reflexivity.
    + injection H as <-. reflexivity.
    + injection H as <-. reflexivity.
    + injection H as <-. reflexivity.
Qed.


End GITheorems.

Section GIBatch.
Context {ML : MathLib} {ED : ExternData} {CL : Collaborators} {SH : GIIntegration.Shading}.

Lemma EvaluateRayBatch_Ok (fuel : nat) :
  forall context context' : GIIntegration.KernelState GIIntegration.KernelRest,
    GIIntegration.EvaluateRayBatch fuel context = Ok context' ->
    GIIntegration.k_rayStackCount context' <= 0
    /\ (GIIntegration.k_rayStackCount context <= 0 -> context' = context).
Proof.
  induction fuel as [ | fuel IH]; intros context context' H; cbn [GIIntegration.EvaluateRayBatch] in H.
  - destruct (GIIntegration.k_rayStackCount context >? 0) eqn:E; [discriminate H | ].
    injection H as <-. split; [lia | reflexivity].
  - destruct (GIIntegration.k_rayStackCount context >? 0) eqn:E.
    + apply obind_Ok in H as (ray & _ & H).
      split; [ | lia].
      destruct (GIIntegration.RayPick _ ray); apply IH in H; apply H.
    + injection H as <-. split; [lia | reflexivity].
Qed.

(** X26: [EvaluateRayBatch] returns only with an empty ray stack
    ([rayStackCount] is not above 0), whatever the shading functions push
    on it, and it returns the kernel as it is when the stack is empty at the
    call; so a [CreatePrimaryRay] that returns leaves no ray for the next
    pixel.  With [rayStackCount] above the size of the stack the first read
    is outside the stack. *)
Theorem EvaluateRayBatch_leaves_empty_stack
    (fuel : nat) (context context' : GIIntegration.KernelState GIIntegration.KernelRest) :
  GIIntegration.EvaluateRayBatch fuel context = Ok context' ->
  GIIntegration.k_rayStackCount context' <= 0
  /\ (GIIntegration.k_rayStackCount context <= 0 -> context' = context)
  /\ (forall kernelContext pixelIndex x y after,
        GIIntegration.CreatePrimaryRay fuel kernelContext pixelIndex x y = Ok after ->
        GIIntegration.k_rayStackCount after <= 0)
  /\ (forall full,
        Z.of_nat (length (GIIntegration.k_rayStack full)) < GIIntegration.k_rayStackCount full ->
        GIIntegration.EvaluateRayBatch (S fuel) full = Fault).
Proof.
  intros H. apply EvaluateRayBatch_Ok in H as [H1 H2].
  split; [exact H1 | ]. split; [exact H2 | ]. split.
  - intros kernelContext pixelIndex x y after Hc.
    unfold GIIntegration.CreatePrimaryRay in Hc.
    destruct (GIIntegration.JitteredCameraRay _ _ _ _) as [ray c].
    apply EvaluateRayBatch_Ok in Hc. apply Hc.
  - intros full Hfull. cbn [GIIntegration.EvaluateRayBatch].
    destruct (GIIntegration.k_rayStackCount full >? 0) eqn:E; [ | lia].
    destruct (readAt (GIIntegration.k_rayStack full) (GIIntegration.k_rayStackCount full - 1))
      as [ray | | ] eqn:Er; cbn [obind].
    + apply readAt_Ok_range in Er. lia.
    + reflexivity.
    + exfalso. eapply readAt_not_OutOfFuel; exact Er.
Qed.

End GIBatch.

(* ===================================================================== *)
(** ** The allocation tracker *)
(* ===================================================================== *)

Module AllocationTrackingFacts.
Import AllocationTracking.

Lemma replaceNth_app_l {A} (n : nat) (v : A) (l1 l2 : list A) :
  (n < length l1)%nat -> replaceNth n v (l1 ++ l2) = replaceNth n v l1 ++ l2.
Proof.
  revert n; induction l1 as [ | h t IH]; intros n H; cbn [length] in H; [lia | ].
  destruct n as [ | n]; cbn [replaceNth app]; [reflexivity | ].
  f_equal. apply IH. lia.
Qed.

Lemma replaceNth_middle {A} (v a : A) (pre post : list A) :
  replaceNth (length pre) v (pre ++ a :: post) = pre ++ v :: post.
Proof.
  induction pre as [ | h t IH]; cbn [length replaceNth app]; [reflexivity | ].
  f_equal. exact IH.
Qed.

Lemma writeAt_in_range {A} (a : list A) (i : Z) (v : A) :
  0 <= i < Z.of_nat (length a) -> writeAt a i v = Ok (replaceNth (Z.to_nat i) v a).
Proof.
  intros H. unfold writeAt.
  destruct ((i <? 0) || (Z.of_nat (length a) <=? i)) eqn:E; [ | reflexivity].
  apply orb_prop in E as [E | E]; lia.
Qed.

Lemma totalSize_app (l1 l2 : list Allocation) :
  totalSize (l1 ++ l2) = totalSize l1 + totalSize l2.
Proof.
  induction l1 as [ | a l IH]; cbn [totalSize fold_right app]; [reflexivity | ].
  fold (totalSize (l ++ l2)). fold (totalSize l). rewrite IH. lia.
Qed.

Lemma wrap64_add_l (a b : Z) : wrap64 (wrap64 a + b) = wrap64 (a + b).
Proof. unfold wrap64. apply Zplus_mod_idemp_l. Qed.

Lemma wrap64_sub_l (a b : Z) : wrap64 (wrap64 a - b) = wrap64 (a - b).
Proof. unfold wrap64. apply Zminus_mod_idemp_l. Qed.

Lemma newArray_length (u : nat -> Allocation) (n : nat) : length (newArray u n) = n.
Proof. unfold newArray. rewrite length_map, length_seq. reflexivity. Qed.

(** The first entry with the address, if there is one. *)
Lemma first_with_address (address : Z) (l : list Allocation) :
  Forall (fun a => al_address a <> address) l
  \/ exists pre a post,
       l = pre ++ a :: post
       /\ Forall (fun a => al_address a <> address) pre
       /\ al_address a = address.
Proof.
  induction l as [ | a l IH]; [left; constructor | ].
  destruct (Z.eq_dec (al_address a) address) as [E | E].
  - right. exists [], a, l. repeat split; auto.
  - destruct IH as [IH | (pre & a' & post & -> & Hpre & Ha)].
    + left. constructor; assumption.
    + right. exists (a :: pre), a', post. repeat split; auto.
Qed.

Section TrackerFacts.
Variable uninitialised : nat -> Allocation.

Lemma grow_spec (t : CAllocationTracking) :
  wellFormed t ->
  tr_used t < tr_size t \/ tr_size t + AllocationTrackingIncrement_ < 2 ^ 32 ->
  exists t',
    grow uninitialised t = Ok t'
    /\ wellFormed t'
    /\ tracked t' = tracked t
    /\ tr_used t' = tr_used t /\ tr_used t' < tr_size t'
    /\ tr_index t' = tr_index t.
Proof.
  intros (Hu & Hs & Hlt & Ham) Hroom. unfold grow.
  destruct (tr_used t =? tr_size t) eqn:E.
  - apply Z.eqb_eq in E. unfold AllocationTrackingIncrement_ in *.
    rewrite wrap32_small by lia.
    destruct ((tr_size t + 4096 <? tr_used t)
              || (Z.of_nat (length (tr_allocations t)) <? tr_used t)) eqn:E2;
      [apply orb_prop in E2 as [E2 | E2]; lia | ].
    eexists. split; [reflexivity | ].
    assert (Ht : firstn (Z.to_nat (tr_used t))
                   (firstn (Z.to_nat (tr_used t)) (tr_allocations t)
                    ++ skipn (Z.to_nat (tr_used t))
                             (newArray uninitialised (Z.to_nat (tr_size t + 4096))))
                 = firstn (Z.to_nat (tr_used t)) (tr_allocations t)).
    { rewrite firstn_app, firstn_firstn, Nat.min_id, length_firstn.
      replace (Z.to_nat (tr_used t) - Nat.min (Z.to_nat (tr_used t))
                                              (length (tr_allocations t)))%nat
        with O by lia.
      cbn [firstn]. apply app_nil_r. }
    unfold wellFormed, tracked. cbn [tr_used tr_size tr_allocations tr_allocatedMemory tr_index].
    rewrite Ht. repeat split; try lia.
    + rewrite length_app, length_firstn, length_skipn, newArray_length. lia.
    + exact Ham.
  - apply Z.eqb_neq in E. exists t. repeat split; auto; lia.
Qed.

Lemma firstn_replaceNth_last {A} (n : nat) (v : A) (l : list A) :
  (n < length l)%nat -> firstn (S n) (replaceNth n v l) = firstn n l ++ [v].
Proof.
  revert n; induction l as [ | h t IH]; intros n H; cbn [length] in H; [lia | ].
  destruct n as [ | n]; cbn [replaceNth firstn app]; [reflexivity | ].
  f_equal. apply IH. lia.
Qed.

Lemma AddAllocation_spec (t : CAllocationTracking)
    (address allocationSize name file line : Z) :
  wellFormed t ->
  tr_used t < tr_size t \/ tr_size t + AllocationTrackingIncrement_ < 2 ^ 32 ->
  exists t',
    AddAllocation uninitialised t address allocationSize name file line = Ok t'
    /\ wellFormed t'
    /\ tracked t'
       = tracked t ++ [mkAllocation address name file line (tr_index t) allocationSize]
    /\ tr_used t' = tr_used t + 1
    /\ tr_index t' = wrap64 (tr_index t + 1).
Proof.
  intros Hwf Hroom. unfold AddAllocation.
  destruct (grow_spec t Hwf Hroom) as (t1 & -> & (Hu & Hs & Hlt & Ham) & Ht & Hused & Hfree & Hi).
  cbn [obind]. rewrite writeAt_in_range by lia. cbn [obind].
  eexists. split; [reflexivity | ].
  assert (Htr : firstn (Z.to_nat (wrap32 (tr_used t1 + 1)))
                  (replaceNth (Z.to_nat (tr_used t1))
                     {| al_address := address; al_name := name; al_file := file;
                        al_line := line; al_index := tr_index t1;
                        al_size := allocationSize |} (tr_allocations t1))
                = tracked t ++ [mkAllocation address name file line (tr_index t)
                                             allocationSize]).
  { rewrite wrap32_small by lia.
    replace (Z.to_nat (tr_used t1 + 1)) with (S (Z.to_nat (tr_used t1))) by lia.
    rewrite firstn_replaceNth_last by lia. rewrite <- Ht, Hi. reflexivity. }
  unfold wellFormed, tracked at 1 2.
  cbn [tr_used tr_size tr_allocations tr_allocatedMemory tr_index].
  rewrite Htr, replaceNth_length, totalSize_app, Ham, Ht.
  rewrite (wrap32_small (tr_used t1 + 1)) by lia.
  repeat split; try lia.
  - rewrite wrap64_add_l. cbn [totalSize fold_right al_size]. f_equal. lia.
  - rewrite Hi. reflexivity.
Qed.

End TrackerFacts.

Lemma nth_error_last {A} (l : list A) (d : A) :
  l <> [] -> nth_error l (length l - 1) = Some (last l d).
Proof.
  induction l as [ | h t IH]; intros H; [contradiction H; reflexivity | ].
  destruct t as [ | h' t]; [reflexivity | ].
  cbn [length last] in *. replace (S (S (length t)) - 1)%nat with (S (length t)) by lia.
  cbn [nth_error]. rewrite <- IH by discriminate.
  replace (S (length t) - 1)%nat with (length t) by lia. reflexivity.
Qed.

Section TrackerRemove.

(** The scan over [seg], the part of the array still to look at. *)
Lemma removeScan_spec (address : Z) (seg : list Allocation) :
  forall (done rest : list Allocation) (t : CAllocationTracking),
    tr_allocations t = done ++ seg ++ rest ->
    tr_used t = Z.of_nat (length done + length seg) ->
    tr_used t < 2 ^ 32 ->
    (Forall (fun a => al_address a <> address) seg ->
     removeScan (length seg) (Z.of_nat (length done)) t address = Ok (false, t))
    /\ (forall pre a post,
          seg = pre ++ a :: post ->
          Forall (fun a => al_address a <> address) pre ->
          al_address a = address ->
          removeScan (length seg) (Z.of_nat (length done)) t address
          = Ok (true,
                {| tr_index := tr_index t;
                   tr_size := tr_size t;
                   tr_used := tr_used t;
                   tr_allocations :=
                     replaceNth (length done + length pre)
                                (last (done ++ seg) a) (tr_allocations t);
                   tr_allocatedMemory := wrap64 (tr_allocatedMemory t - al_size a) |})).
Proof.
  induction seg as [ | b seg IH]; intros done rest t Ha Hu Hlt.
  - split; [reflexivity | ]. intros pre a post E. destruct pre; discriminate E.
  - cbn [length] in Hu.
    assert (Hb : readAt (tr_allocations t) (Z.of_nat (length done)) = Ok b).
    { apply readAt_nth_error. rewrite Ha, nth_error_app2, Nat.sub_diag by lia. reflexivity. }
    destruct (IH (done ++ [b]) rest t) as [IH1 IH2].
    { rewrite Ha, <- app_assoc. reflexivity. }
    { rewrite Hu, length_app. cbn [length]. lia. }
    { exact Hlt. }
    rewrite length_app in IH1, IH2. cbn [length] in IH1, IH2.
    replace (Z.of_nat (length done + 1)) with (Z.of_nat (length done) + 1) in IH1, IH2 by lia.
    split.
    + intros Hall. apply Forall_cons_iff in Hall as [Hne Hall].
      cbn [removeScan length]. rewrite Hb. cbn [obind].
      apply Z.eqb_neq in Hne. rewrite Hne. apply IH1, Hall.
    + intros pre a post E Hpre Haddr. cbn [removeScan length]. rewrite Hb. cbn [obind].
      destruct pre as [ | p pre]; cbn [app] in E; injection E as -> E.
      * rewrite Haddr, Z.eqb_refl.
        assert (Hlast : readAt (tr_allocations t) (wrap32 (tr_used t - 1))
                        = Ok (last (done ++ a :: seg) a)).
        { rewrite wrap32_small by lia.
          replace (tr_used t - 1) with (Z.of_nat (length (done ++ a :: seg) - 1)).
          - apply readAt_nth_error. rewrite Ha, app_assoc.
            rewrite nth_error_app1 by (rewrite length_app; cbn [length]; lia).
            apply nth_error_last. destruct done; discriminate.
          - rewrite Hu, length_app. cbn [length]. lia. }
        rewrite Hlast. cbn [obind].
        rewrite writeAt_in_range
          by (rewrite Ha, !length_app; cbn [length]; lia).
        cbn [obind]. rewrite Nat2Z.id. cbn [length]. rewrite Nat.add_0_r. reflexivity.
      * apply Forall_cons_iff in Hpre as [Hne Hpre].
        apply Z.eqb_neq in Hne. rewrite Hne.
        rewrite (IH2 pre a post E Hpre Haddr).
        rewrite <- app_assoc. cbn [app length].
        replace (length done + 1 + length pre)%nat with (length done + S (length pre))%nat
          by lia.
        reflexivity.
Qed.

End TrackerRemove.

Lemma totalSize_Permutation (l1 l2 : list Allocation) :
  Permutation l1 l2 -> totalSize l1 = totalSize l2.
Proof.
  induction 1 as [ | a l1 l2 _ IH | a b l | l1 l2 l3 _ IH1 _ IH2];
    cbn [totalSize fold_right] in *; try lia.
  - fold (totalSize l1). fold (totalSize l2). lia.
Qed.

(** Moving the last element into the place of [a] and dropping the last
    place removes [a]. *)
Lemma swap_remove_Permutation {A} (pre post : list A) (a : A) :
  Permutation (pre ++ a :: post)
              (a :: removelast (pre ++ last (pre ++ a :: post) a :: post)).
Proof.
  destruct (rev post) as [ | x rpost] eqn:E.
  - apply (f_equal (@rev A)) in E. rewrite rev_involutive in E. cbn [rev] in E. subst post.
    rewrite last_last, removelast_last. symmetry. apply Permutation_cons_append.
  - apply (f_equal (@rev A)) in E. rewrite rev_involutive in E. cbn [rev] in E. subst post.
    set (post' := rev rpost).
    replace (pre ++ a :: post' ++ [x]) with ((pre ++ a :: post') ++ [x])
      by (rewrite <- app_assoc; reflexivity).
    rewrite last_last.
    replace (pre ++ x :: post' ++ [x]) with ((pre ++ x :: post') ++ [x])
      by (rewrite <- app_assoc; reflexivity).
    rewrite removelast_last.
    rewrite <- app_assoc. cbn [app].
    etransitivity; [symmetry; apply Permutation_middle | ].
    constructor. apply Permutation_app_head.
    symmetry. apply Permutation_cons_append.
Qed.

Section TrackerTheorems.
Variable uninitialised : nat -> Allocation.

Lemma RemoveAllocation_spec (t : CAllocationTracking) (address : Z) :
  wellFormed t ->
  exists found t',
    RemoveAllocation t address = Ok (found, t')
    /\ wellFormed t'
    /\ tr_index t' = tr_index t
    /\ tr_size t' = tr_size t
    /\ ((found = false
         /\ Forall (fun a => al_address a <> address) (tracked t)
         /\ t' = t)
        \/ (found = true
            /\ exists pre a post,
                 tracked t = pre ++ a :: post
                 /\ Forall (fun a => al_address a <> address) pre
                 /\ al_address a = address
                 /\ tracked t' = removelast (pre ++ last (tracked t) a :: post)
                 /\ Permutation (tracked t) (a :: tracked t')
                 /\ tr_used t' = tr_used t - 1
                 /\ tr_allocatedMemory t' = wrap64 (tr_allocatedMemory t - al_size a))).
Proof.
  intros (Hu & Hs & Hlt & Ham).
  assert (Hsplit : tr_allocations t
                   = [] ++ tracked t ++ skipn (Z.to_nat (tr_used t)) (tr_allocations t))
    by (cbn [app]; unfold tracked; symmetry; apply firstn_skipn).
  assert (Hlen : length (tracked t) = Z.to_nat (tr_used t))
    by (unfold tracked; rewrite length_firstn; lia).
  destruct (removeScan_spec address (tracked t) [] _ t Hsplit) as [Hnone Hfound];
    [cbn [length]; lia | lia | ].
  cbn [length Nat.add] in Hnone, Hfound. rewrite Hlen in Hnone, Hfound.
  change (Z.of_nat 0) with 0 in Hnone, Hfound. cbn [app] in Hfound.
  unfold RemoveAllocation.
  destruct (first_with_address address (tracked t))
    as [Hall | (pre & a & post & E & Hpre & Haddr)].
  - rewrite (Hnone Hall). cbn [obind].
    exists false. eexists. split; [reflexivity | ].
    rewrite Z.sub_0_r, wrap32_small by lia.
    assert (Et : {| tr_index := tr_index t; tr_size := tr_size t; tr_used := tr_used t;
                    tr_allocations := tr_allocations t;
                    tr_allocatedMemory := tr_allocatedMemory t |} = t)
      by (destruct t; reflexivity).
    rewrite Et. repeat split; auto; lia.
  - rewrite (Hfound pre a post E Hpre Haddr). cbn [obind app].
    exists true. eexists. split; [reflexivity | ].
    assert (Hpos : 1 <= tr_used t).
    { rewrite E, length_app in Hlen. cbn [length] in Hlen. lia. }
    assert (Htr : firstn (Z.to_nat (wrap32 (tr_used t - 1)))
                    (replaceNth (length pre) (last (tracked t) a) (tr_allocations t))
                  = removelast (pre ++ last (tracked t) a :: post)).
    { rewrite wrap32_small by lia.
      set (rest := skipn (Z.to_nat (tr_used t)) (tr_allocations t)) in Hsplit.
      cbn [app] in Hsplit. rewrite Hsplit.
      rewrite replaceNth_app_l by (rewrite E, length_app; cbn [length]; lia).
      rewrite E at 2. rewrite replaceNth_middle.
      rewrite removelast_firstn_len.
      rewrite firstn_app.
      assert (Hl2 : length (pre ++ last (tracked t) a :: post) = Z.to_nat (tr_used t)).
      { rewrite <- Hlen, E, !length_app. reflexivity. }
      rewrite Hl2.
      replace (Z.to_nat (tr_used t - 1) - Z.to_nat (tr_used t))%nat with O by lia.
      cbn [firstn]. rewrite app_nil_r. f_equal. lia. }
    assert (Hperm : Permutation (tracked t)
                      (a :: removelast (pre ++ last (tracked t) a :: post))).
    { rewrite E at 1. rewrite E at 1. apply swap_remove_Permutation. }
    match goal with |- wellFormed ?x /\ _ => set (t' := x) end.
    assert (Htracked : tracked t' = removelast (pre ++ last (tracked t) a :: post))
      by exact Htr.
    assert (Hused : tr_used t' = tr_used t - 1)
      by (unfold t'; cbn [tr_used]; apply wrap32_small; lia).
    unfold wellFormed. rewrite Htracked, Hused.
    unfold t'. cbn [tr_size tr_allocations tr_allocatedMemory tr_index].
    rewrite replaceNth_length.
    repeat split; try lia.
    + rewrite Ham, wrap64_sub_l. f_equal.
      rewrite (totalSize_Permutation _ _ Hperm). cbn [totalSize fold_right].
      fold (totalSize (removelast (pre ++ last (tracked t) a :: post))). lia.
    + right. split; [reflexivity | ].
      exists pre, a, post. repeat split; auto.
Qed.

End TrackerTheorems.

Lemma only_match_is_last (address : Z) (l pre post : list Allocation) (e a : Allocation) :
  l ++ [e] = pre ++ a :: post ->
  Forall (fun a => al_address a <> address) l ->
  al_address a = address ->
  pre = l /\ a = e /\ post = [].
Proof.
  revert pre. induction l as [ | h l IH]; intros pre E Hl Ha.
  - destruct pre as [ | p pre]; cbn [app] in E.
    + injection E as <- <-. auto.
    + injection E as _ E. destruct pre; discriminate E.
  - apply Forall_cons_iff in Hl as [Hh Hl].
    destruct pre as [ | p pre]; cbn [app] in E; injection E as E1 E2.
    + subst a. contradiction.
    + subst p. destruct (IH pre E2 Hl Ha) as (-> & -> & ->). auto.
Qed.

Lemma wrap64_idem (z : Z) : wrap64 (wrap64 z) = wrap64 z.
Proof. unfold wrap64. apply Z.mod_mod. lia. Qed.

Section TrackerTheorems2.
Variable uninitialised : nat -> Allocation.

(** X23: a new tracker holds no allocation and its books are in order.
    [AddAllocation] on a tracker in order returns (the array grows by
    [AllocationTrackingIncrement_] when it is full, as long as the new size
    is below 2^32): the new allocation, with the running index, comes after
    those in use, its size is added to [allocatedMemory] in [uint64]
    arithmetic, and the books stay in order. *)
Theorem tracker_add_appends
    (t : CAllocationTracking) (address allocationSize name file line : Z) :
  wellFormed (create uninitialised)
  /\ tracked (create uninitialised) = []
  /\ (wellFormed t ->
      tr_used t < tr_size t \/ tr_size t + AllocationTrackingIncrement_ < 2 ^ 32 ->
      exists t',
        AddAllocation uninitialised t address allocationSize name file line = Ok t'
        /\ wellFormed t'
        /\ tracked t'
           = tracked t ++ [mkAllocation address name file line (tr_index t) allocationSize]
        /\ tr_used t' = tr_used t + 1
        /\ tr_index t' = wrap64 (tr_index t + 1)
        /\ tr_allocatedMemory t' = wrap64 (tr_allocatedMemory t + allocationSize)).
Proof.
  split; [ | split].
  - unfold wellFormed, create, tracked.
    cbn [tr_used tr_size tr_allocations tr_allocatedMemory].
    rewrite newArray_length. unfold AllocationTrackingIncrement_.
    repeat split; try lia; reflexivity.
  - reflexivity.
  - intros Hwf Hroom.
    destruct (AddAllocation_spec uninitialised t address allocationSize name file line
                Hwf Hroom) as (t' & E & Hwf' & Ht & Hu & Hi).
    exists t'.
    split; [exact E | split; [exact Hwf' | split; [exact Ht | split; [exact Hu | ]]]].
    split; [exact Hi | ].
    destruct Hwf' as (_ & _ & _ & Ham'). destruct Hwf as (_ & _ & _ & Ham).
    rewrite Ham', Ht, totalSize_app, Ham, wrap64_add_l.
    cbn [totalSize fold_right al_size]. f_equal. lia.
Qed.

(** X24: [RemoveAllocation] on a tracker in order finds the address
    exactly when an allocation in use has it.  It then takes out the first
    such allocation by moving the last one in use into its place, the other
    allocations all stay, [used] goes down by one and [allocatedMemory] by
    the size of the allocation; an address that is not in use changes
    nothing. *)
Theorem tracker_remove_first_match (t : CAllocationTracking) (address : Z) :
  wellFormed t ->
  exists found t',
    RemoveAllocation t address = Ok (found, t')
    /\ wellFormed t'
    /\ (found = true <-> In address (map al_address (tracked t)))
    /\ (found = false -> t' = t)
    /\ (found = true ->
        exists pre a post,
          tracked t = pre ++ a :: post
          /\ ~ In address (map al_address pre)
          /\ al_address a = address
          /\ tracked t' = removelast (pre ++ last (tracked t) a :: post)
          /\ Permutation (tracked t) (a :: tracked t')
          /\ tr_used t' = tr_used t - 1
          /\ tr_allocatedMemory t' = wrap64 (tr_allocatedMemory t - al_size a)).
Proof.
  intros Hwf.
  assert (Hnot : forall l, Forall (fun a => al_address a <> address) l ->
                           ~ In address (map al_address l)).
  { intros l Hl Hin. apply in_map_iff in Hin as (a & Ha & Hin).
    rewrite Forall_forall in Hl. exact (Hl a Hin Ha). }
  destruct (RemoveAllocation_spec t address Hwf)
    as (found & t' & E & Hwf' & _ & _ & [(-> & Hall & ->) | (-> & pre & a & post & H)]).
  - exists false, t.
    split; [exact E | split; [exact Hwf' | split; [split | split]]].
    + intros C; discriminate C.
    + intros Hin. contradiction (Hnot _ Hall Hin).
    + reflexivity.
    + intros C; discriminate C.
  - destruct H as (Et & Hpre & Ha & Ht' & Hperm & Hu & Hm).
    exists true, t'.
    split; [exact E | split; [exact Hwf' | split; [split | split]]].
    + intros _. rewrite Et, map_app. apply in_or_app. right. left. exact Ha.
    + reflexivity.
    + intros C; discriminate C.
    + intros _. exists pre, a, post.
      split; [exact Et | split; [apply Hnot, Hpre | split; [exact Ha | ]]].
      split; [exact Ht' | split; [exact Hperm | split; [exact Hu | exact Hm]]].
Qed.

(** X25: adding an allocation at an address that is not in use and
    removing that address again gives back the allocations in use, in their
    order, with the same count and the same [allocatedMemory]; only the
    running index has moved on. *)
Theorem tracker_add_then_remove
    (t : CAllocationTracking) (address allocationSize name file line : Z) :
  wellFormed t ->
  tr_used t < tr_size t \/ tr_size t + AllocationTrackingIncrement_ < 2 ^ 32 ->
  ~ In address (map al_address (tracked t)) ->
  exists t1 t2,
    AddAllocation uninitialised t address allocationSize name file line = Ok t1
    /\ RemoveAllocation t1 address = Ok (true, t2)
    /\ tracked t2 = tracked t
    /\ tr_used t2 = tr_used t
    /\ tr_allocatedMemory t2 = tr_allocatedMemory t
    /\ tr_index t2 = wrap64 (tr_index t + 1)
    /\ wellFormed t2.
Proof.
  intros Hwf Hroom Hfresh.
  destruct (AddAllocation_spec uninitialised t address allocationSize name file line
              Hwf Hroom) as (t1 & E1 & Hwf1 & Ht1 & Hu1 & Hi1).
  assert (Hall : Forall (fun a => al_address a <> address) (tracked t)).
  { rewrite Forall_forall. intros a Hin Ha. apply Hfresh, in_map_iff. eauto. }
  destruct (RemoveAllocation_spec t1 address Hwf1)
    as (found & t2 & E2 & Hwf2 & Hi2 & _ & [(-> & Hnone & _) | (-> & pre & a & post & H)]).
  - exfalso. rewrite Ht1 in Hnone. apply Forall_app in Hnone as [_ Hnone].
    apply Forall_inv in Hnone. apply Hnone. reflexivity.
  - destruct H as (Et & Hpre & Ha & Ht2 & Hperm & Hu2 & Hm).
    rewrite Ht1 in Et.
    destruct (only_match_is_last address _ _ _ _ _ Et Hall Ha) as (-> & -> & ->).
    exists t1, t2.
    split; [exact E1 | split; [exact E2 | split; [ | split; [ | split; [ | split]]]]].
    + rewrite Ht2, Ht1, last_last, removelast_last. reflexivity.
    + lia.
    + rewrite Hm. destruct Hwf1 as (_ & _ & _ & Ham1). destruct Hwf as (_ & _ & _ & Ham).
      rewrite Ham1, Ht1, totalSize_app, wrap64_sub_l. cbn [totalSize fold_right al_size].
      rewrite Ham. f_equal. lia.
    + rewrite Hi2. exact Hi1.
    + exact Hwf2.
Qed.

End TrackerTheorems2.

End AllocationTrackingFacts.

(* ===================================================================== *)
(** ** The statements on the example scene *)
(* ===================================================================== *)

Module Examples.
Import Reference.

(** The reference math functions satisfy the laws. *)
Lemma Reference_laws : @MathLibLaws Reference.mathLib.
Proof.
  split.
  - intros x; destruct x as [s | s | | s m e]; reflexivity.
  - intros v. cbn [LengthSquared Reference.mathLib].
    unfold Reference.lengthSquared, Reference.dot.
    repeat apply fadd_signClear; apply fmul_self_signClear.
Qed.

(** The pass runs to its end: seven light vertices, of path lengths 1 to 7,
    and nine camera hits. *)
Example examplePass_runs :
  examplePass = Ok (exampleResult, exampleWorld)
  /\ map vx_pathLength (pr_pathVertices exampleResult) = [1; 2; 3; 4; 5; 6; 7]
  /\ pr_pathEnds exampleResult = [7]
  /\ List.length (pr_cameraEvents exampleResult) = 9%nat.
Proof. vm_compute. repeat split. Qed.

Example example_surfaces :
  CalculateSurfaceParams context hit zeroSurface = Ok (true, lowerSurface)
  /\ CalculateSurfaceParams context hitTop zeroSurface = Ok (true, upperSurface).
Proof. vm_compute. split; reflexivity. Qed.

(** *** C1 *)



(** *** C2 *)

(** C2, as the claim states it, fails on the lower plate: its albedo texture
    has the colour 1/32 and the material the albedo 1/2.  The reconstructed
    albedo is 1/2 * 1/32 = 1/64; with the sRGB-to-linear conversion it would
    be 1/2 * (1/32 / 12.92). *)
Lemma albedo_not_linearised :
  exists v0 v1 v2 texture,
    CalculateSurfaceParams context hit zeroSurface = Ok (true, lowerSurface)
    /\ hitTriangle plates hit = Ok (v0, v1, v2, grey)
    /\ m_albedoTextureIndex grey <> InvalidIndex32
    /\ readAt (textures plates) (m_albedoTextureIndex grey) = Ok texture
    /\ s_albedo lowerSurface
       = mkFloat3 (of_decimal 1 64) (of_decimal 1 64) (of_decimal 1 64)
    /\ specifiedAlbedo grey texture (hitUV v0 v1 v2 hit)
       = mkFloat3 (half * (of_decimal 1 32 / of_decimal 1292 100))%f32
                  (half * (of_decimal 1 32 / of_decimal 1292 100))%f32
                  (half * (of_decimal 1 32 / of_decimal 1292 100))%f32
    /\ s_albedo lowerSurface <> specifiedAlbedo grey texture (hitUV v0 v1 v2 hit).
Proof.
  do 4 eexists.
  split; [vm_compute; reflexivity | ].
  split; [vm_compute; reflexivity | ].
  split; [vm_compute; intros H; discriminate H | ].
  split; [vm_compute; reflexivity | ].
  vm_compute. repeat split. intros H. discriminate H.
Qed.

Lemma albedo_example :
  CalculateSurfaceParams context hit zeroSurface = Ok (true, lowerSurface)
  /\ exists v0 v1 v2 material,
       hitTriangle (scene (sceneData context)) hit = Ok (v0, v1, v2, material)
       /\ ((m_albedoTextureIndex material = InvalidIndex32
            /\ s_albedo lowerSurface = (m_albedo material * float3_One)%v3)
           \/ (m_albedoTextureIndex material <> InvalidIndex32
               /\ exists texture,
                    readAt (textures (scene (sceneData context)))
                           (m_albedoTextureIndex material) = Ok texture
                    /\ s_albedo lowerSurface
                       = (m_albedo material
                          * TriangleFloat3 (t_data texture) 0 (hitUV v0 v1 v2 hit))%v3)).
Proof.
  assert (E : CalculateSurfaceParams context hit zeroSurface = Ok (true, lowerSurface))
    by (vm_compute; reflexivity).
  split; [exact E | ].
  exact (CalculateSurfaceParams_albedo context hit zeroSurface lowerSurface E).
Defined.

(** *** C3 *)

Lemma scattering_example :
  SampleBsdfScattering context lowerSurface f1 f1 freshPath world
    = Ok ((true, scatteredPath), mkWorld _ 1 [float3_Zero])
  /\ ps_pathLength scatteredPath = 2
  /\ ps_dVCM scatteredPath = f2
  /\ exists sample : BsdfSample,
       fst (SampleBsdfFunction context lowerSurface (- ps_direction freshPath)%v3
                               (twister world)) = Some sample
       /\ v3isZero (bs_reflectance sample) = false
       /\ ps_dVC scatteredPath
          = ((Absf (Dot (bs_wi sample) (s_perturbedNormal lowerSurface))
              / bs_forwardPdfW sample)
             * (ps_dVC freshPath * bs_reversePdfW sample + ps_dVCM freshPath + f1))%f32
       /\ ps_dVM scatteredPath
          = ((Absf (Dot (bs_wi sample) (s_perturbedNormal lowerSurface))
              / bs_forwardPdfW sample)
             * (ps_dVM freshPath * bs_reversePdfW sample + ps_dVCM freshPath * f1 + f1))%f32
       /\ ps_dVCM scatteredPath = (f1 / bs_forwardPdfW sample)%f32
       /\ ps_throughput scatteredPath = (ps_throughput freshPath * bs_reflectance sample)%v3
       /\ ps_pathLength scatteredPath = wrap32 (ps_pathLength freshPath + 1)
       /\ (0 <= ps_pathLength freshPath < 2 ^ 32 - 1 ->
           ps_pathLength scatteredPath = ps_pathLength freshPath + 1)
       /\ ps_position scatteredPath = s_position lowerSurface
       /\ ps_direction scatteredPath = bs_wi sample
       /\ ps_isAreaMeasure scatteredPath = ps_isAreaMeasure freshPath.
Proof.
  assert (E : SampleBsdfScattering context lowerSurface f1 f1 freshPath world
              = Ok ((true, scatteredPath), mkWorld _ 1 [float3_Zero]))
    by (vm_compute; reflexivity).
  split; [exact E | ].
  split; [vm_compute; reflexivity | ].
  split; [vm_compute; reflexivity | ].
  exact (SampleBsdfScattering_update context lowerSurface f1 f1 freshPath scatteredPath
                                     world (mkWorld _ 1 [float3_Zero]) E).
Defined.

(** *** C4 *)

(** Seen from below, the lower plate is backfacing: the reconstruction fails
    and leaves the surface as it was.  Seen from above it succeeds. *)
Example backface_example :
  CalculateSurfaceParams context
    (mkHitParameters (mkFloat3 quarter quarter f0) (mkFloat2 quarter quarter) 0
                     (of_decimal 1 1000000) (mkFloat3 f0 f0 (- f1)%f32)
                     float3_Zero float3_Zero float3_Zero float3_Zero 0 float3_One 0)
    zeroSurface
  = Ok (false, zeroSurface)
  /\ tablesInRange plates hit = true
  /\ CalculateSurfaceParams context hit zeroSurface = Ok (true, lowerSurface).
Proof. vm_compute. repeat split. Qed.

(** *** C6 *)

Lemma stored_vertex_example :
  examplePass = Ok (exampleResult, exampleWorld)
  /\ map vx_pathLength (pr_pathVertices exampleResult) = [1; 2; 3; 4; 5; 6; 7]
  /\ Forall (fun v => 1 <= vx_pathLength v < maxPathLength context - 1
                      /\ vx_pathLength v + 2 < maxPathLength context)
            (pr_pathVertices exampleResult).
Proof.
  assert (E : examplePass = Ok (exampleResult, exampleWorld)) by (vm_compute; reflexivity).
  split; [exact E | ].
  split; [vm_compute; reflexivity | ].
  apply (stored_vertex_pathLength context [] f1 (of_decimal 1 100) 1 1 world exampleWorld
                                  exampleResult).
  - vm_compute. reflexivity.
  - exact E.
Defined.

(** *** C7 *)

Lemma pathEnds_example :
  examplePass = Ok (exampleResult, exampleWorld)
  /\ pr_pathEnds exampleResult = [7]
  /\ Z.of_nat (List.length (pr_pathEnds exampleResult)) = wrap32 (1 * 1)
  /\ (0 <= 1 * 1 < 2 ^ 32 -> Z.of_nat (List.length (pr_pathEnds exampleResult)) = 1 * 1)
  /\ (forall i j : nat,
        (i <= j < List.length (pr_pathEnds exampleResult))%nat ->
        nth i (pr_pathEnds exampleResult) 0 <= nth j (pr_pathEnds exampleResult) 0)
  /\ Forall (fun e => 0 <= e <= Z.of_nat (List.length (pr_pathVertices exampleResult)))
            (pr_pathEnds exampleResult)
  /\ (pr_pathEnds exampleResult <> [] ->
      last (pr_pathEnds exampleResult) 0
      = Z.of_nat (List.length (pr_pathVertices exampleResult))).
Proof.
  assert (E : examplePass = Ok (exampleResult, exampleWorld)) by (vm_compute; reflexivity).
  split; [exact E | ].
  split; [vm_compute; reflexivity | ].
  exact (pathEnds_invariant context [] f1 (of_decimal 1 100) 1 1 world exampleWorld
                            exampleResult E).
Defined.

(** *** C9 *)

(** C9, as the claim states it, fails: the first vertex that the example pass
    stores on the light subpath and the first hit of its camera subpath lie
    at the same position on the lower plate, and the pass connects the two.
    Their squared distance is zero, the normalised direction is 0 * (1/0),
    and the geometry term is a NaN, which is not [>= 0]. *)
Lemma geometryTerm_nan_example :
  exists (lightVertex : VcmVertex) (e : HitEvent),
    examplePass = Ok (exampleResult, exampleWorld)
    /\ nth_error (pr_pathVertices exampleResult) 0 = Some lightVertex
    /\ nth_error (pr_cameraEvents exampleResult) 0 = Some e
    /\ s_position (ev_surface e) = s_position (vx_surface lightVertex)
    /\ (vx_pathLength lightVertex + 1 + ps_pathLength (ev_before e)
        <=? maxPathLength context) = true
    /\ connectionDistanceSquared (ev_surface e) lightVertex = f0
    /\ connectionGeometryTerm (ev_surface e) lightVertex = S754_nan
    /\ (f0 <=? connectionGeometryTerm (ev_surface e) lightVertex)%f32 = false.
Proof.
  destruct (nth_error (pr_pathVertices exampleResult) 0) as [lightVertex | ] eqn:Ev;
    [ | vm_compute in Ev; discriminate Ev].
  destruct (nth_error (pr_cameraEvents exampleResult) 0) as [e | ] eqn:Ee;
    [ | vm_compute in Ee; discriminate Ee].
  exists lightVertex, e.
  vm_compute in Ev. injection Ev as <-.
  vm_compute in Ee. injection Ee as <-.
  vm_compute. repeat split.
Qed.

(** A camera vertex on the lower plate and a light vertex on the upper one,
    four units apart and facing each other: the geometry term is 1/16. *)
Lemma geometryTerm_example :
  let lightVertex := mkVcmVertex float3_One 1 f1 f1 f1 upperSurface in
  connectionGeometryTerm lowerSurface lightVertex = of_decimal 1 16
  /\ (connectionGeometryTerm lowerSurface lightVertex <? f0)%f32 = false
  /\ (connectionGeometryTerm lowerSurface lightVertex = S754_nan
      \/ (f0 <=? connectionGeometryTerm lowerSurface lightVertex)%f32 = true).
Proof.
  cbv zeta. split; [vm_compute; reflexivity | ].
  exact (@connectionGeometryTerm_not_negative mathLib Reference_laws lowerSurface
           (mkVcmVertex float3_One 1 f1 f1 f1 upperSurface)).
Defined.

End Examples.

(* ===================================================================== *)
(** ** Further statements on example inputs *)
(* ===================================================================== *)

Module MoreExamples.
Import Reference Scenes.

Lemma examplePass_result : examplePass = Ok (exampleResult, exampleWorld).
Proof. vm_compute. reflexivity. Qed.

Lemma lowerSurface_result :
  CalculateSurfaceParams context hit zeroSurface = Ok (true, lowerSurface).
Proof. vm_compute. reflexivity. Qed.

(** Twelve units of fuel are enough for paths of at most ten vertices. *)
Lemma pass_fuel_example :
  VertexConnectionAndMerging_fuel 12 context [] f1 (of_decimal 1 100) 1 1 world = examplePass
  /\ VertexConnectionAndMerging_fuel 12 context [] f1 (of_decimal 1 100) 1 1 world
     <> OutOfFuel.
Proof.
  apply (pass_ends_within_maxPathLength 12 context [] f1 (of_decimal 1 100) 1 1 world).
  - vm_compute. reflexivity.
  - vm_compute. lia.
Defined.

Lemma subpath_lengths_example :
  exists segments : list (list VcmVertex),
    pr_pathVertices exampleResult = concat segments
    /\ pr_pathEnds exampleResult = prefixSums 0 segments
    /\ List.length segments = Z.to_nat (wrap32 (1 * 1))
    /\ Forall (fun segment =>
                 map vx_pathLength segment = countFrom 1 (List.length segment))
              segments.
Proof.
  apply (light_subpath_lengths_count_up context [] f1 (of_decimal 1 100) 1 1 world
                                        exampleWorld exampleResult).
  - vm_compute. reflexivity.
  - exact examplePass_result.
Defined.

Lemma vertex_count_example :
  (exists segments : list (list VcmVertex),
     pr_pathVertices exampleResult = concat segments
     /\ pr_pathEnds exampleResult = prefixSums 0 segments
     /\ Forall (fun segment => Z.of_nat (List.length segment) <= 7) segments)
  /\ Z.of_nat (List.length (pr_pathVertices exampleResult)) <= 1 * 7.
Proof.
  apply (light_subpath_vertex_count context [] f1 (of_decimal 1 100) 1 1 world
                                    exampleWorld exampleResult).
  - vm_compute. reflexivity.
  - exact examplePass_result.
Defined.

(** A camera vertex of path length 1 is connected to all seven light
    vertices; one of path length 5 to the first four. *)
Lemma connection_example :
  ConnectLightVertices 7 0 context lowerSurface freshPath (pr_pathVertices exampleResult)
                       f1 float3_Zero
  = Ok (fold_left (addConnection context lowerSurface freshPath f1)
                  (filter (connectable context freshPath)
                          (vertexRange (pr_pathVertices exampleResult) 0 7))
                  float3_Zero)
  /\ List.length (filter (connectable context freshPath)
                         (vertexRange (pr_pathVertices exampleResult) 0 7)) = 7%nat
  /\ List.length (filter (connectable context (set_ps_pathLength 5 freshPath))
                         (vertexRange (pr_pathVertices exampleResult) 0 7)) = 4%nat.
Proof.
  split; [ | vm_compute; split; reflexivity].
  apply (connection_break_skips_no_vertex context lowerSurface freshPath
           (pr_pathVertices exampleResult) f1 0 7 float3_Zero).
  - lia.
  - vm_compute. intros H. discriminate H.
  - vm_compute. reflexivity.
  - vm_compute. reflexivity.
Defined.

Lemma camera_connection_example :
  exists (pathStart pathEnd : Z) (segment : list VcmVertex),
    (if 0 =? 0 then ret 0 else lift (readAt (pr_pathEnds exampleResult) (wrap32 (0 - 1))))
      exampleWorld
      = Ok (pathStart, exampleWorld)
    /\ readAt (pr_pathEnds exampleResult) 0 = Ok pathEnd
    /\ segment = vertexRange (pr_pathVertices exampleResult) pathStart
                             (Z.to_nat (pathEnd - pathStart))
    /\ map vx_pathLength segment = countFrom 1 (List.length segment)
    /\ ConnectLightVertices (Z.to_nat (pathEnd - pathStart)) pathStart context lowerSurface
                            freshPath (pr_pathVertices exampleResult) f1 float3_Zero
       = Ok (fold_left (addConnection context lowerSurface freshPath f1)
                       (filter (connectable context freshPath) segment)
                       float3_Zero).
Proof.
  apply (camera_connects_whole_subpath context [] f1 (of_decimal 1 100) 1 1 world
           exampleWorld exampleResult 0 lowerSurface freshPath f1 float3_Zero
           exampleWorld).
  - vm_compute. intros H. discriminate H.
  - exact examplePass_result.
  - vm_compute. split; [intros H; discriminate H | reflexivity].
  - vm_compute. split; [intros H; discriminate H | reflexivity].
Defined.

Lemma camera_hit_example :
  Forall (fun e => 1 <= ps_pathLength (ev_before e) < maxPathLength context
                   /\ ps_pathLength (ev_after e) = ps_pathLength (ev_before e))
         (pr_cameraEvents exampleResult)
  /\ (maxPathLength context <= 1 -> pr_cameraEvents exampleResult = []).
Proof.
  apply (camera_hit_pathLength context [] f1 (of_decimal 1 100) 1 1 world exampleWorld
                               exampleResult).
  - vm_compute. reflexivity.
  - exact examplePass_result.
Defined.

(** With [maxPathLength = 3] the light subpath stores nothing, and the
    camera subpath still meets the plates. *)
Lemma short_paths_example :
  shortPass = Ok (shortResult, shortWorld)
  /\ List.length (pr_cameraEvents shortResult) = 2%nat
  /\ pr_pathVertices shortResult = []
  /\ pr_lightEvents shortResult = []
  /\ pr_pathEnds shortResult = repeat 0 (Z.to_nat (wrap32 (1 * 1))).
Proof.
  assert (E : shortPass = Ok (shortResult, shortWorld)) by (vm_compute; reflexivity).
  split; [exact E | ].
  split; [vm_compute; reflexivity | ].
  apply (short_paths_store_no_vertex shortContext [] f1 (of_decimal 1 100) 1 1 world
                                     shortWorld shortResult).
  - vm_compute. intros H. discriminate H.
  - exact E.
Defined.

Lemma empty_image_example :
  VertexConnectionAndMerging context [] f1 (of_decimal 1 100) 0 1 world
  = Ok ({| pr_pathVertices := [];
           pr_hashGrid := BuildHashGrid f1 0 (of_decimal 1 100) [];
           pr_pathEnds := [];
           pr_lightEvents := [];
           pr_cameraEvents := [] |}, world).
Proof.
  apply (empty_image_pass context [] f1 (of_decimal 1 100) 0 1 world).
  left. reflexivity.
Defined.






(** The surface of the hit on the lower plate, field by field. *)
Lemma surface_fields_example :
  exists v0 v1 v2 material,
    hitTriangle (scene (sceneData context)) hit = Ok (v0, v1, v2, material)
    /\ let t := hitTangent v0 v1 v2 hit in
       let b := hitBitangent v0 v1 v2 hit in
       let n := hitNormal v0 v1 v2 hit in
       s_position lowerSurface = h_position hit
       /\ s_error lowerSurface = h_error hit
       /\ s_geometricNormal lowerSurface = n
       /\ s_tangentToWorld lowerSurface = MakeFloat3x3 t n b
       /\ s_worldToTangent lowerSurface = MatrixTranspose (MakeFloat3x3 t n b)
       /\ (s_rxOrigin lowerSurface, s_rxDirection lowerSurface, s_ryOrigin lowerSurface,
           s_ryDirection lowerSurface)
          = (h_rxOrigin hit, h_rxDirection hit, h_ryOrigin hit, h_ryDirection hit)
       /\ s_materialFlags lowerSurface = m_flags material
       /\ s_shader lowerSurface = m_shader material
       /\ s_ior lowerSurface = m_ior material
       /\ s_view lowerSurface = s_view zeroSurface.
Proof.
  exact (CalculateSurfaceParams_copies_hit context hit zeroSurface lowerSurface
                                           lowerSurface_result).
Defined.

(** The ray of [hit] has no differentials. *)
Lemma no_differentials_example :
  s_dpdu lowerSurface = s_dpdu zeroSurface
  /\ s_dpdv lowerSurface = s_dpdv zeroSurface
  /\ s_differentials lowerSurface = s_differentials zeroSurface.
Proof.
  apply (CalculateSurfaceParams_without_differentials context hit zeroSurface lowerSurface).
  - exact lowerSurface_result.
  - vm_compute. reflexivity.
  - vm_compute. reflexivity.
Defined.

(** The material [painted] has a texture for every lookup; each field of
    the surface is the colour of its own texture, as stored. *)
Lemma material_example :
  CalculateSurfaceParams paintedContext hit zeroSurface = Ok (true, paintedSurface)
  /\ s_emissive paintedSurface = mkFloat3 half quarter eighth
  /\ s_albedo paintedSurface = mkFloat3 (of_decimal 1 64) (of_decimal 1 64) (of_decimal 1 64)
  /\ s_specularColor paintedSurface = mkFloat3 quarter quarter quarter
  /\ s_roughness paintedSurface = half
  /\ s_metalness paintedSurface = eighth
  /\ s_perturbedNormal paintedSurface
     = mkFloat3 (f1 / Sqrtf (of_int 5))%f32 f0 (f2 / Sqrtf (of_int 5))%f32
  /\ exists v0 v1 v2 material,
       hitTriangle (scene (sceneData paintedContext)) hit = Ok (v0, v1, v2, material)
       /\ let textures := textures (scene (sceneData paintedContext)) in
          let uvs := hitUV v0 v1 v2 hit in
          (m_emissiveTextureIndex material = InvalidIndex32 ->
           s_emissive paintedSurface = float3_Zero)
          /\ (forall texture,
                m_emissiveTextureIndex material <> InvalidIndex32 ->
                readAt textures (m_emissiveTextureIndex material) = Ok texture ->
                s_emissive paintedSurface = TriangleFloat3 (t_data texture) 0 uvs)
          /\ (m_albedoTextureIndex material = InvalidIndex32 ->
              s_albedo paintedSurface = (m_albedo material * float3_One)%v3)
          /\ (forall texture,
                m_albedoTextureIndex material <> InvalidIndex32 ->
                readAt textures (m_albedoTextureIndex material) = Ok texture ->
                s_albedo paintedSurface
                = (m_albedo material * TriangleFloat3 (t_data texture) 0 uvs)%v3)
          /\ (m_specularTextureIndex material = InvalidIndex32 ->
              s_specularColor paintedSurface = s_albedo paintedSurface)
          /\ (forall texture,
                m_specularTextureIndex material <> InvalidIndex32 ->
                readAt textures (m_specularTextureIndex material) = Ok texture ->
                s_specularColor paintedSurface = TriangleFloat3 (t_data texture) 0 uvs)
          /\ (m_roughnessTextureIndex material = InvalidIndex32 ->
              s_roughness paintedSurface = (m_roughness material * f1)%f32)
          /\ (forall texture,
                m_roughnessTextureIndex material <> InvalidIndex32 ->
                readAt textures (m_roughnessTextureIndex material) = Ok texture ->
                s_roughness paintedSurface
                = (m_roughness material * TriangleFloat (t_data texture) 0 uvs)%f32)
          /\ (m_metalnessTextureIndex material = InvalidIndex32 ->
              s_metalness paintedSurface = (m_metalness material * f1)%f32)
          /\ (forall texture,
                m_metalnessTextureIndex material <> InvalidIndex32 ->
                readAt textures (m_metalnessTextureIndex material) = Ok texture ->
                s_metalness paintedSurface
                = (m_metalness material * TriangleFloat (t_data texture) 0 uvs)%f32)
          /\ (m_normalTextureIndex material = InvalidIndex32 ->
              s_perturbedNormal paintedSurface
              = Normalize (MatrixMultiply float3_ZAxis
                             (MakeFloat3x3 (hitTangent v0 v1 v2 hit)
                                           (- hitBitangent v0 v1 v2 hit)%v3
                                           (hitNormal v0 v1 v2 hit))))
          /\ (forall texture,
                m_normalTextureIndex material <> InvalidIndex32 ->
                readAt textures (m_normalTextureIndex material) = Ok texture ->
                s_perturbedNormal paintedSurface
                = Normalize (MatrixMultiply
                               (v3subs (f2 *: TriangleFloat3 (t_data texture) 0 uvs)%v3 f1)
                               (MakeFloat3x3 (hitTangent v0 v1 v2 hit)
                                             (- hitBitangent v0 v1 v2 hit)%v3
                                             (hitNormal v0 v1 v2 hit)))).
Proof.
  assert (E : CalculateSurfaceParams paintedContext hit zeroSurface
              = Ok (true, paintedSurface)) by (vm_compute; reflexivity).
  split; [exact E | ].
  do 6 (split; [vm_compute; reflexivity | ]).
  exact (CalculateSurfaceParams_material paintedContext hit zeroSurface paintedSurface E).
Defined.

(** All corners of the flat plates have the texture coordinate (0, 0): the
    derivatives are an orthogonal system around the face normal (0, 0, 1). *)
Lemma degenerate_uv_example :
  CalculateSurfaceParams flatContext hitWithDifferentials zeroSurface = Ok (true, flatSurface)
  /\ uvDeterminant (flatCorner f0 f0 f0 f1) (flatCorner f1 f0 f0 f1) (flatCorner f0 f1 f0 f1)
     = f0
  /\ (s_dpdu flatSurface, s_dpdv flatSurface)
     = MakeOrthogonalCoordinateSystem
         (Normalize (Cross (vertexPosition (flatCorner f0 f1 f0 f1)
                            - vertexPosition (flatCorner f0 f0 f0 f1))
                           (vertexPosition (flatCorner f1 f0 f0 f1)
                            - vertexPosition (flatCorner f0 f0 f0 f1)))%v3)
         (s_dpdu zeroSurface, s_dpdv zeroSurface)
  /\ d_dndu (s_differentials flatSurface) = float3_Zero
  /\ d_dndv (s_differentials flatSurface) = float3_Zero.
Proof.
  assert (E : CalculateSurfaceParams flatContext hitWithDifferentials zeroSurface
              = Ok (true, flatSurface)) by (vm_compute; reflexivity).
  split; [exact E | ].
  split; [vm_compute; reflexivity | ].
  apply (CalculateSurfaceParams_degenerate_uv flatContext hitWithDifferentials zeroSurface
           flatSurface (flatCorner f0 f0 f0 f1) (flatCorner f1 f0 f0 f1)
           (flatCorner f0 f1 f0 f1) textured).
  - exact E.
  - vm_compute. reflexivity.
  - vm_compute. reflexivity.
  - vm_compute. reflexivity.
Defined.

(** The light vertex on the lower plate adds to the one pixel of the
    image. *)
Lemma splat_example :
  ConnectLightPathToCamera context freshPath lowerSurface f1 f1 world = Ok (tt, splatWorld)
  /\ splatWorld <> world
  /\ twister splatWorld = twister world
  /\ List.length (imageData splatWorld) = List.length (imageData world)
  /\ (forall j, j <> splatIndex context lowerSurface -> 0 <= j ->
                readAt (imageData splatWorld) j = readAt (imageData world) j)
  /\ ((Dot (cam_forward (camera context))
           (s_position lowerSurface - cam_position (camera context))%v3 <=? f0)%f32 = true ->
      splatWorld = world)
  /\ (splatWorld = world
      \/ exists old contribution,
           readAt (imageData world) (splatIndex context lowerSurface) = Ok old
           /\ v3isZero contribution = false
           /\ readAt (imageData splatWorld) (splatIndex context lowerSurface)
              = Ok (old + contribution)%v3).
Proof.
  assert (E : ConnectLightPathToCamera context freshPath lowerSurface f1 f1 world
              = Ok (tt, splatWorld)) by (vm_compute; reflexivity).
  split; [exact E | ].
  split; [vm_compute; intros H; discriminate H | ].
  exact (ConnectLightPathToCamera_writes_one_pixel context freshPath lowerSurface f1 f1
           world splatWorld E).
Defined.

(** Two pixels in one row; the third element of the arrays is outside the
    image. *)
Lemma accumulate_example :
  (2 * 1 <= Z.of_nat (List.length [float3_One; float3_One; float3_One]) ->
   2 * 1 <= Z.of_nat (List.length [float3_Zero; float3_One; float3_Zero]) ->
   exists result,
     AccumulateImage 2 1 [float3_One; float3_One; float3_One]
                     [float3_Zero; float3_One; float3_Zero] = Ok result
     /\ List.length result = List.length [float3_Zero; float3_One; float3_Zero]
     /\ (forall j a b, 0 <= j < 2 * 1 ->
                       readAt [float3_Zero; float3_One; float3_Zero] j = Ok a ->
                       readAt [float3_One; float3_One; float3_One] j = Ok b ->
                       readAt result j = Ok (a + b)%v3)
     /\ (forall j, 2 * 1 <= j ->
                   readAt result j = readAt [float3_Zero; float3_One; float3_Zero] j))
  /\ (forall result,
        AccumulateImage 2 1 [float3_One; float3_One; float3_One]
                        [float3_Zero; float3_One; float3_Zero] = Ok result ->
        2 * 1 <= Z.of_nat (List.length [float3_One; float3_One; float3_One])
        /\ 2 * 1 <= Z.of_nat (List.length [float3_Zero; float3_One; float3_Zero])).
Proof.
  apply (AccumulateImage_pixelwise 2 1 [float3_One; float3_One; float3_One]
                                   [float3_Zero; float3_One; float3_Zero]).
  - lia.
  - lia.
  - vm_compute. intros H. discriminate H.
Defined.

Lemma normalize_example :
  NormalizeImage 2 1 4 [float3_One; float3_One; float3_One]
  = Ok [mkFloat3 quarter quarter quarter; mkFloat3 quarter quarter quarter; float3_One]
  /\ (2 * 1 <= Z.of_nat (List.length [float3_One; float3_One; float3_One]) ->
      exists result,
        NormalizeImage 2 1 4 [float3_One; float3_One; float3_One] = Ok result
        /\ List.length result = List.length [float3_One; float3_One; float3_One]
        /\ (forall j a, 0 <= j < 2 * 1 ->
                        readAt [float3_One; float3_One; float3_One] j = Ok a ->
                        readAt result j = Ok (v3scaler a (f1 / of_int 4)%f32))
        /\ (forall j, 2 * 1 <= j ->
                      readAt result j = readAt [float3_One; float3_One; float3_One] j))
  /\ (forall result,
        NormalizeImage 2 1 4 [float3_One; float3_One; float3_One] = Ok result ->
        2 * 1 <= Z.of_nat (List.length [float3_One; float3_One; float3_One])).
Proof.
  split; [vm_compute; reflexivity | ].
  apply (NormalizeImage_pixelwise 2 1 4 [float3_One; float3_One; float3_One]).
  - lia.
  - lia.
  - vm_compute. intros H. discriminate H.
Defined.


(** The ray on the stack hits the lower plate; the stack is empty
    afterwards. *)
Lemma ray_batch_example :
  GIIntegration.EvaluateRayBatch 1 oneRay
  = Ok (GIIntegration.mkKernelState _ [downRay] 0 (sceneData context))
  /\ GIIntegration.k_rayStackCount
       (GIIntegration.mkKernelState _ [downRay] 0 (sceneData context)) <= 0
  /\ (GIIntegration.k_rayStackCount oneRay <= 0 ->
      GIIntegration.mkKernelState _ [downRay] 0 (sceneData context) = oneRay)
  /\ (forall kernelContext pixelIndex x y after,
        GIIntegration.CreatePrimaryRay 1 kernelContext pixelIndex x y = Ok after ->
        GIIntegration.k_rayStackCount after <= 0)
  /\ (forall full,
        Z.of_nat (List.length (GIIntegration.k_rayStack full))
        < GIIntegration.k_rayStackCount full ->
        GIIntegration.EvaluateRayBatch 2 full = Fault).
Proof.
  assert (E : GIIntegration.EvaluateRayBatch 1 oneRay
              = Ok (GIIntegration.mkKernelState _ [downRay] 0 (sceneData context)))
    by (vm_compute; reflexivity).
  split; [exact E | ].
  exact (EvaluateRayBatch_leaves_empty_stack (SH := shading) 1 oneRay _ E).
Defined.

End MoreExamples.

Module TrackerExamples.
Import Reference Scenes AllocationTracking.

Lemma twoAllocations_wellFormed : wellFormed twoAllocations.
Proof.
  unfold wellFormed. vm_compute.
  repeat split; intros H; discriminate H.
Qed.

(** The tracker holds the addresses 4096 and 8192.  Removing 4096 moves the
    last allocation into its place; removing an unknown address changes
    nothing. *)
Lemma remove_example :
  map al_address (tracked twoAllocations) = [4096; 8192]
  /\ (exists t', RemoveAllocation twoAllocations 4096 = Ok (true, t')
                 /\ map al_address (tracked t') = [8192]
                 /\ tr_allocatedMemory t' = 32)
  /\ RemoveAllocation twoAllocations 5 = Ok (false, twoAllocations)
  /\ exists found t',
       RemoveAllocation twoAllocations 4096 = Ok (found, t')
       /\ wellFormed t'
       /\ (found = true <-> In 4096 (map al_address (tracked twoAllocations)))
       /\ (found = false -> t' = twoAllocations)
       /\ (found = true ->
           exists pre a post,
             tracked twoAllocations = pre ++ a :: post
             /\ ~ In 4096 (map al_address pre)
             /\ al_address a = 4096
             /\ tracked t' = removelast (pre ++ last (tracked twoAllocations) a :: post)
             /\ Permutation (tracked twoAllocations) (a :: tracked t')
             /\ tr_used t' = tr_used twoAllocations - 1
             /\ tr_allocatedMemory t'
                = wrap64 (tr_allocatedMemory twoAllocations - al_size a)).
Proof.
  split; [vm_compute; reflexivity | ].
  split; [eexists; vm_compute; repeat split | ].
  split; [vm_compute; reflexivity | ].
  exact (AllocationTrackingFacts.tracker_remove_first_match twoAllocations 4096
           twoAllocations_wellFormed).
Defined.

Lemma add_then_remove_example :
  exists t1 t2,
    AddAllocation zeros twoAllocations 12288 64 0 0 30 = Ok t1
    /\ RemoveAllocation t1 12288 = Ok (true, t2)
    /\ tracked t2 = tracked twoAllocations
    /\ tr_used t2 = tr_used twoAllocations
    /\ tr_allocatedMemory t2 = tr_allocatedMemory twoAllocations
    /\ tr_index t2 = wrap64 (tr_index twoAllocations + 1)
    /\ wellFormed t2.
Proof.
  apply (AllocationTrackingFacts.tracker_add_then_remove zeros twoAllocations
           12288 64 0 0 30).
  - exact twoAllocations_wellFormed.
  - left. vm_compute. reflexivity.
  - vm_compute. intros [H | [H | []]]; discriminate H.
Defined.

End TrackerExamples.
